(** * A shallow embedding of the chess rules engine and its search strategies

    Sources embedded here:
    - [Chess/engine.py]   : [Move], [CastleRights], [GameState]
    - [Chess/chess_ai.py] : the scoring functions and the depth searches
    - [Chess/utils/pieces.py] : material values and piece-square tables

    Python objects that are mutated in place ([GameState], the AI objects)
    become records threaded through a state-and-error monad; a Python
    exception ([IndexError], [KeyError]) is the error [None]. *)

From Stdlib Require Import ZArith List Bool Lia String.
Import ListNotations.
Open Scope Z_scope.

(** ** Pieces

    The board holds two-character strings: ["--"] for an empty square and a
    colour letter followed by a kind letter otherwise (["wp"], ["bK"], ...). *)

Inductive color : Type := White | Black.

Inductive kind : Type := Pawn | Rook | Knight | Bishop | Queen | King.

Inductive piece : Type :=
| Empty
| Piece (c : color) (k : kind).

Definition color_eqb (a b : color) : bool :=
  match a, b with
  | White, White | Black, Black => true
  | _, _ => false
  end.

Definition kind_eqb (a b : kind) : bool :=
  match a, b with
  | Pawn, Pawn | Rook, Rook | Knight, Knight
  | Bishop, Bishop | Queen, Queen | King, King => true
  | _, _ => false
  end.

Definition piece_eqb (a b : piece) : bool :=
  match a, b with
  | Empty, Empty => true
  | Piece c k, Piece c' k' => color_eqb c c' && kind_eqb k k'
  | _, _ => false
  end.

(** [tile[0] == c] : the first character is the colour letter [c]. *)
Definition has_color (p : piece) (c : color) : bool :=
  match p with
  | Empty => false
  | Piece c' _ => color_eqb c' c
  end.

(** [tile[1] == k] : the second character is the kind letter [k]. *)
Definition has_kind (p : piece) (k : kind) : bool :=
  match p with
  | Empty => false
  | Piece _ k' => kind_eqb k' k
  end.

Definition opposite (c : color) : color :=
  match c with White => Black | Black => White end.

(** ** Python lists

    Indexing a list of length [n] accepts [-n <= i < n]; a negative index
    counts from the end and anything else raises [IndexError]. *)

Definition py_len {A} (l : list A) : Z := Z.of_nat (List.length l).

Definition py_norm {A} (l : list A) (i : Z) : option nat :=
  if (0 <=? i) && (i <? py_len l) then Some (Z.to_nat i)
  else if (i <? 0) && (- py_len l <=? i) then Some (Z.to_nat (py_len l + i))
  else None.

Definition py_get {A} (l : list A) (i : Z) : option A :=
  match py_norm l i with
  | Some n => nth_error l n
  | None => None
  end.

Fixpoint set_nth {A} (l : list A) (n : nat) (x : A) : list A :=
  match l, n with
  | [], _ => []
  | _ :: t, O => x :: t
  | h :: t, S n' => h :: set_nth t n' x
  end.

Definition py_set {A} (l : list A) (i : Z) (x : A) : option (list A) :=
  match py_norm l i with
  | Some n => Some (set_nth l n x)
  | None => None
  end.

(** [range(a, b)] and [range(a, b, -1)]. *)
Definition py_range (a b : Z) : list Z :=
  map (fun k => a + Z.of_nat k) (seq 0 (Z.to_nat (b - a))).

Definition py_range_down (a b : Z) : list Z :=
  map (fun k => a - Z.of_nat k) (seq 0 (Z.to_nat (a - b))).

(** ** The board *)

Definition Board : Type := list (list piece).

Definition board_get (b : Board) (r c : Z) : option piece :=
  match py_get b r with
  | Some row => py_get row c
  | None => None
  end.

(** [board[r][c] = x] mutates the row object found at index [r]. *)
Definition board_set (b : Board) (r c : Z) (x : piece) : option Board :=
  match py_get b r with
  | Some row =>
      match py_set row c x with
      | Some row' => py_set b r row'
      | None => None
      end
  | None => None
  end.

(** [len(self.board[0])] *)
Definition board_width (b : Board) : option Z :=
  match py_get b 0 with
  | Some row => Some (py_len row)
  | None => None
  end.

(** ** Moves ([class Move]) *)

Record Move : Type := mkMove {
  start_row : Z;
  start_col : Z;
  end_row : Z;
  end_col : Z;
  piece_moved : piece;
  piece_captured : piece;
  is_pawn_promotion : bool;
  is_en_passant : bool;
  is_castle : bool;
  move_id : Z
}.

(** [Move.__init__]; the two board reads can raise [IndexError]. *)
Definition Move_init (start end_ : Z * Z) (board : Board)
    (en_passant castle : bool) : option Move :=
  let sr := fst start in
  let sc := snd start in
  let er := fst end_ in
  let ec := snd end_ in
  match board_get board sr sc with
  | None => None
  | Some moved =>
      match board_get board er ec with
      | None => None
      | Some captured =>
          let promo :=
            (piece_eqb moved (Piece White Pawn) && (er =? 0))
            || (piece_eqb moved (Piece Black Pawn) && (er =? 7)) in
          let captured' :=
            if en_passant
            then (if piece_eqb moved (Piece Black Pawn)
                  then Piece White Pawn else Piece Black Pawn)
            else captured in
          Some (mkMove sr sc er ec moved captured' promo en_passant castle
                       (sr * 1000 + sc * 100 + er * 10 + ec))
      end
  end.

(** [Move.__eq__] *)
Definition Move_eq (a b : Move) : bool := move_id a =? move_id b.

(** The move dictionaries are keyed by [str(move.move_id)]; decimal printing
    is injective, so the key is kept as the integer.  A Python [dict] keeps
    insertion order, and assigning to an existing key keeps its position. *)
Definition MoveDict : Type := list (Z * Move).

Fixpoint dict_set (d : MoveDict) (k : Z) (v : Move) : MoveDict :=
  match d with
  | [] => [(k, v)]
  | (k', v') :: t =>
      if k' =? k then (k', v) :: t else (k', v') :: dict_set t k v
  end.

Definition dict_add (d : MoveDict) (m : Move) : MoveDict :=
  dict_set d (move_id m) m.

Definition dict_del (d : MoveDict) (k : Z) : MoveDict :=
  filter (fun kv => negb (fst kv =? k)) d.

Definition dict_values (d : MoveDict) : list Move := map snd d.

(** ** Castling rights ([class CastleRights]) *)

Record CastleRights : Type := mkCastleRights {
  wks : bool;
  bks : bool;
  wqs : bool;
  bqs : bool
}.

(** ** The game state ([class GameState]) *)

Definition Pin : Type := (Z * Z * Z * Z)%type.

Record GameState : Type := mkGameState {
  board : Board;
  white_to_move : bool;
  valid_moves : MoveDict;
  move_log : list Move;                 (* last element = latest move *)
  white_king_location : Z * Z;
  black_king_location : Z * Z;
  checkmate : bool;
  stalemate : bool;
  in_check : bool;
  pins : list Pin;
  checks : list Pin;
  en_passant_possible : Z * Z;
  current_castling_rights : CastleRights;
  castle_rights_log : list CastleRights; (* last element = latest snapshot *)
  stdout : list string                   (* lines written by [print] *)
}.

(** Field updates ([self.f = v]). *)

Definition set_board (v : Board) (s : GameState) : GameState :=
  mkGameState v (white_to_move s) (valid_moves s) (move_log s)
    (white_king_location s) (black_king_location s) (checkmate s)
    (stalemate s) (in_check s) (pins s) (checks s) (en_passant_possible s)
    (current_castling_rights s) (castle_rights_log s) (stdout s).

Definition set_white_to_move (v : bool) (s : GameState) : GameState :=
  mkGameState (board s) v (valid_moves s) (move_log s)
    (white_king_location s) (black_king_location s) (checkmate s)
    (stalemate s) (in_check s) (pins s) (checks s) (en_passant_possible s)
    (current_castling_rights s) (castle_rights_log s) (stdout s).

Definition set_valid_moves (v : MoveDict) (s : GameState) : GameState :=
  mkGameState (board s) (white_to_move s) v (move_log s)
    (white_king_location s) (black_king_location s) (checkmate s)
    (stalemate s) (in_check s) (pins s) (checks s) (en_passant_possible s)
    (current_castling_rights s) (castle_rights_log s) (stdout s).

Definition set_move_log (v : list Move) (s : GameState) : GameState :=
  mkGameState (board s) (white_to_move s) (valid_moves s) v
    (white_king_location s) (black_king_location s) (checkmate s)
    (stalemate s) (in_check s) (pins s) (checks s) (en_passant_possible s)
    (current_castling_rights s) (castle_rights_log s) (stdout s).

Definition set_white_king_location (v : Z * Z) (s : GameState) : GameState :=
  mkGameState (board s) (white_to_move s) (valid_moves s) (move_log s)
    v (black_king_location s) (checkmate s)
    (stalemate s) (in_check s) (pins s) (checks s) (en_passant_possible s)
    (current_castling_rights s) (castle_rights_log s) (stdout s).

Definition set_black_king_location (v : Z * Z) (s : GameState) : GameState :=
  mkGameState (board s) (white_to_move s) (valid_moves s) (move_log s)
    (white_king_location s) v (checkmate s)
    (stalemate s) (in_check s) (pins s) (checks s) (en_passant_possible s)
    (current_castling_rights s) (castle_rights_log s) (stdout s).

Definition set_checkmate (v : bool) (s : GameState) : GameState :=
  mkGameState (board s) (white_to_move s) (valid_moves s) (move_log s)
    (white_king_location s) (black_king_location s) v
    (stalemate s) (in_check s) (pins s) (checks s) (en_passant_possible s)
    (current_castling_rights s) (castle_rights_log s) (stdout s).

Definition set_stalemate (v : bool) (s : GameState) : GameState :=
  mkGameState (board s) (white_to_move s) (valid_moves s) (move_log s)
    (white_king_location s) (black_king_location s) (checkmate s)
    v (in_check s) (pins s) (checks s) (en_passant_possible s)
    (current_castling_rights s) (castle_rights_log s) (stdout s).

Definition set_in_check (v : bool) (s : GameState) : GameState :=
  mkGameState (board s) (white_to_move s) (valid_moves s) (move_log s)
    (white_king_location s) (black_king_location s) (checkmate s)
    (stalemate s) v (pins s) (checks s) (en_passant_possible s)
    (current_castling_rights s) (castle_rights_log s) (stdout s).

Definition set_pins (v : list Pin) (s : GameState) : GameState :=
  mkGameState (board s) (white_to_move s) (valid_moves s) (move_log s)
    (white_king_location s) (black_king_location s) (checkmate s)
    (stalemate s) (in_check s) v (checks s) (en_passant_possible s)
    (current_castling_rights s) (castle_rights_log s) (stdout s).

Definition set_checks (v : list Pin) (s : GameState) : GameState :=
  mkGameState (board s) (white_to_move s) (valid_moves s) (move_log s)
    (white_king_location s) (black_king_location s) (checkmate s)
    (stalemate s) (in_check s) (pins s) v (en_passant_possible s)
    (current_castling_rights s) (castle_rights_log s) (stdout s).

Definition set_en_passant_possible (v : Z * Z) (s : GameState) : GameState :=
  mkGameState (board s) (white_to_move s) (valid_moves s) (move_log s)
    (white_king_location s) (black_king_location s) (checkmate s)
    (stalemate s) (in_check s) (pins s) (checks s) v
    (current_castling_rights s) (castle_rights_log s) (stdout s).

Definition set_current_castling_rights (v : CastleRights) (s : GameState)
    : GameState :=
  mkGameState (board s) (white_to_move s) (valid_moves s) (move_log s)
    (white_king_location s) (black_king_location s) (checkmate s)
    (stalemate s) (in_check s) (pins s) (checks s) (en_passant_possible s)
    v (castle_rights_log s) (stdout s).

Definition set_castle_rights_log (v : list CastleRights) (s : GameState)
    : GameState :=
  mkGameState (board s) (white_to_move s) (valid_moves s) (move_log s)
    (white_king_location s) (black_king_location s) (checkmate s)
    (stalemate s) (in_check s) (pins s) (checks s) (en_passant_possible s)
    (current_castling_rights s) v (stdout s).

Definition set_stdout (v : list string) (s : GameState) : GameState :=
  mkGameState (board s) (white_to_move s) (valid_moves s) (move_log s)
    (white_king_location s) (black_king_location s) (checkmate s)
    (stalemate s) (in_check s) (pins s) (checks s) (en_passant_possible s)
    (current_castling_rights s) (castle_rights_log s) v.

(** ** The monad of methods: a state [S] that is mutated, or an exception *)

Definition M (S A : Type) : Type := S -> option (A * S).

Definition ret {S A} (a : A) : M S A := fun s => Some (a, s).

Definition bind {S A B} (m : M S A) (f : A -> M S B) : M S B :=
  fun s => match m s with
           | Some (a, s') => f a s'
           | None => None
           end.

Definition raise {S A} : M S A := fun _ => None.

Definition gets {S A} (f : S -> A) : M S A := fun s => Some (f s, s).

Definition modify {S} (f : S -> S) : M S unit := fun s => Some (tt, f s).

(** An operation that may raise, such as an indexing. *)
Definition lift {S A} (o : option A) : M S A :=
  fun s => match o with Some a => Some (a, s) | None => None end.

Notation "x <- m ;; k" := (bind m (fun x => k))
  (at level 61, m at next level, right associativity).
Notation "' p <- m ;; k" := (bind m (fun x => match x with p => k end))
  (at level 61, p pattern, m at next level, right associativity).
Notation "m ;;; k" := (bind m (fun _ => k))
  (at level 61, right associativity).

(** [for x in xs: body], where the body may [break]. *)
Inductive ctl : Type := Continue | Break.

Fixpoint for_loop {S X A} (xs : list X) (body : X -> A -> M S (ctl * A))
    (a : A) : M S A :=
  match xs with
  | [] => ret a
  | x :: t =>
      r <- body x a ;;
      match fst r with
      | Break => ret (snd r)
      | Continue => for_loop t body (snd r)
      end
  end.

(** [self.board[r][c]] and [self.board[r][c] = x] *)
Definition read_board (r c : Z) : M GameState piece :=
  b <- gets board ;; lift (board_get b r c).

Definition write_board (r c : Z) (x : piece) : M GameState unit :=
  b <- gets board ;;
  b' <- lift (board_set b r c x) ;;
  modify (set_board b').

(** [Move(start, end, self.board, ...)] *)
Definition new_move (start end_ : Z * Z) (en_passant castle : bool)
    : M GameState Move :=
  b <- gets board ;; lift (Move_init start end_ b en_passant castle).

(** ** Helpers for the tuples and lists the generators use *)

Definition pair_eqb (a b : Z * Z) : bool :=
  (fst a =? fst b) && (snd a =? snd b).

Definition pin_eqb (a b : Pin) : bool :=
  match a, b with
  | (a0, a1, a2, a3), (b0, b1, b2, b3) =>
      (a0 =? b0) && (a1 =? b1) && (a2 =? b2) && (a3 =? b3)
  end.

(** [l.remove(x)] removes the first element equal to [x]. *)
Fixpoint remove_first (x : Pin) (l : list Pin) : list Pin :=
  match l with
  | [] => []
  | y :: t => if pin_eqb y x then t else y :: remove_first x t
  end.

(** The scan [for i in range(len(pins) - 1, -1, -1)] for the entry of the
    piece on [(row, col)], stopping at the first hit from the end. *)
Definition find_pin (ps : list Pin) (row col : Z) : option Pin :=
  find (fun p => match p with (r, c, _, _) => (r =? row) && (c =? col) end)
       (rev ps).

(** [0 <= r < len(board) and 0 <= c < len(board[0])]; the conjunction
    short-circuits, so [board[0]] is only read on a non-empty board. *)
Definition in_bounds (b : Board) (r c : Z) : bool :=
  (0 <=? r) && (r <? py_len b) && (0 <=? c) &&
  match b with
  | row0 :: _ => c <? py_len row0
  | [] => false
  end.

(** [self.white_to_move and "w" or "b"] and its mirror image. *)
Definition ally_of (wtm : bool) : color := if wtm then White else Black.
Definition enemy_of (wtm : bool) : color := if wtm then Black else White.

Section Engine.

(** [NO_VALUE] is imported from [Chess/utils/constants.py], which is not
    among the sources; it is kept as a parameter of the engine. *)
Variable NO_VALUE : Z.

Definition NO_PAIR : Z * Z := (NO_VALUE, NO_VALUE).
Definition NO_PIN : Pin := (NO_VALUE, NO_VALUE, NO_VALUE, NO_VALUE).

(** [GameState.__init__] *)
Definition initial_board : Board :=
  [ [Piece Black Rook; Piece Black Knight; Piece Black Bishop;
     Piece Black Queen; Piece Black King; Piece Black Bishop;
     Piece Black Knight; Piece Black Rook];
    repeat (Piece Black Pawn) 8;
    repeat Empty 8; repeat Empty 8; repeat Empty 8; repeat Empty 8;
    repeat (Piece White Pawn) 8;
    [Piece White Rook; Piece White Knight; Piece White Bishop;
     Piece White Queen; Piece White King; Piece White Bishop;
     Piece White Knight; Piece White Rook] ].

Definition GameState_init : GameState :=
  let rights := mkCastleRights true true true true in
  mkGameState initial_board true [] [] (7, 4) (0, 4) false false false
    [] [] NO_PAIR rights [rights] [].

(** The king of the side to move, as every method looks it up. *)
Definition own_king_location (s : GameState) : Z * Z :=
  if white_to_move s then white_king_location s else black_king_location s.

(** *** [__check_for_pins_and_checks] *)

Definition sliding_directions : list (Z * Z) :=
  [(-1, 0); (0, -1); (1, 0); (0, 1); (-1, -1); (-1, 1); (1, -1); (1, 1)].

Definition knight_offsets : list (Z * Z) :=
  [(-2, -1); (-2, 1); (-1, -2); (-1, 2); (1, -2); (1, 2); (2, -1); (2, 1)].

(** The test that the enemy piece of kind [end_piece[1]] found [i] steps
    along direction number [j] threatens the king. *)
Definition threatens (enemy : color) (j i : Z) (end_piece : piece) : bool :=
  ((0 <=? j) && (j <=? 3) && has_kind end_piece Rook)
  || ((4 <=? j) && (j <=? 7) && has_kind end_piece Bishop)
  || ((i =? 1) && has_kind end_piece Pawn &&
      ((color_eqb enemy White && (6 <=? j) && (j <=? 7))
       || (color_eqb enemy Black && (4 <=? j) && (j <=? 5))))
  || has_kind end_piece Queen
  || ((i =? 1) && has_kind end_piece King).

(** The accumulator of the scans: [(possible_pin, in_check, pins, checks)]. *)
Definition scan_acc : Type := (Pin * bool * list Pin * list Pin)%type.

Definition ray_step (ally enemy : color) (start_row start_col : Z)
    (j : Z) (d : Z * Z) (i : Z) (acc : scan_acc)
    : M GameState (ctl * scan_acc) :=
  let '(possible_pin, in_chk, pns, chks) := acc in
  let end_row := start_row + fst d * i in
  let end_col := start_col + snd d * i in
  b <- gets board ;;
  if in_bounds b end_row end_col then
    end_piece <- read_board end_row end_col ;;
    if has_color end_piece ally && negb (has_kind end_piece King) then
      if pin_eqb possible_pin NO_PIN
      then ret (Continue, ((end_row, end_col, fst d, snd d), in_chk, pns, chks))
      else ret (Break, acc)
    else if has_color end_piece enemy then
      if threatens enemy j i end_piece then
        if pin_eqb possible_pin NO_PIN
        then ret (Continue, (possible_pin, true,
                             pns, chks ++ [(end_row, end_col, fst d, snd d)]))
        else ret (Break, (possible_pin, in_chk, pns ++ [possible_pin], chks))
      else ret (Break, acc)
    else ret (Continue, acc)
  else ret (Continue, acc).

Definition ray_scan (ally enemy : color) (start_row start_col : Z)
    (jd : Z * (Z * Z)) (acc : scan_acc) : M GameState (ctl * scan_acc) :=
  let '(_, in_chk, pns, chks) := acc in
  b <- gets board ;;
  r <- for_loop (py_range 1 (py_len b))
         (ray_step ally enemy start_row start_col (fst jd) (snd jd))
         (NO_PIN, in_chk, pns, chks) ;;
  ret (Continue, r).

Definition knight_scan (enemy : color) (start_row start_col : Z)
    (mv : Z * Z) (acc : scan_acc) : M GameState (ctl * scan_acc) :=
  let '(possible_pin, in_chk, pns, chks) := acc in
  let end_row := start_row + fst mv in
  let end_col := start_col + snd mv in
  b <- gets board ;;
  if in_bounds b end_row end_col then
    end_piece <- read_board end_row end_col ;;
    if has_color end_piece enemy && has_kind end_piece Knight
    then ret (Continue, (possible_pin, true, pns,
                         chks ++ [(end_row, end_col, fst mv, snd mv)]))
    else ret (Continue, acc)
  else ret (Continue, acc).

Definition check_for_pins_and_checks
    : M GameState (bool * list Pin * list Pin) :=
  wtm <- gets white_to_move ;;
  loc <- gets own_king_location ;;
  let ally := ally_of wtm in
  let enemy := enemy_of wtm in
  let start_row := fst loc in
  let start_col := snd loc in
  acc <- for_loop (combine (py_range 0 8) sliding_directions)
           (ray_scan ally enemy start_row start_col)
           (NO_PIN, false, [], []) ;;
  acc' <- for_loop knight_offsets (knight_scan enemy start_row start_col) acc ;;
  let '(_, in_chk, pns, chks) := acc' in
  ret (in_chk, pns, chks).

(** *** Pin lookup shared by the piece generators *)

(** The loop at the head of [__get_pawn_moves] and [__get_moves_from_tiles]:
    find the pin of the piece on [(row, col)] and remove it from
    [self.pins]. Returns [(piece_pinned, pin_direction)]. *)
Definition take_pin (row col : Z) : M GameState (bool * (Z * Z)) :=
  ps <- gets pins ;;
  match find_pin ps row col with
  | Some ((r, c, dr, dc) as p) =>
      modify (set_pins (remove_first p ps)) ;;;
      ret (true, (dr, dc))
  | None => ret (false, NO_PAIR)
  end.

(** The same loop in [__get_moves_from_directions], which removes the entry
    only when the piece on the square is a rook. *)
Definition take_pin_if_rook (row col : Z) : M GameState (bool * (Z * Z)) :=
  ps <- gets pins ;;
  match find_pin ps row col with
  | Some ((r, c, dr, dc) as p) =>
      here <- read_board row col ;;
      (if has_kind here Rook
       then modify (set_pins (remove_first p ps))
       else ret tt) ;;;
      ret (true, (dr, dc))
  | None => ret (false, NO_PAIR)
  end.

(** *** [__get_pawn_moves] *)

(** [for c in inside_range: if self.board[row][c] != "--": blocking = True] *)
Definition inside_step (row : Z) (c : Z) (blocking : bool)
    : M GameState (ctl * bool) :=
  t <- read_board row c ;;
  ret (Continue, if negb (piece_eqb t Empty) then true else blocking).

(** The body of [for c in outside_range]; the accumulator is
    [(attacking_piece, blocking_piece)]. *)
Definition outside_step (enemy : color) (row : Z) (c : Z) (acc : bool * bool)
    : M GameState (ctl * (bool * bool)) :=
  tile <- read_board row c ;;
  if has_color tile enemy && (has_kind tile Rook || has_kind tile Queen)
  then ret (Continue, (true, snd acc))
  else if negb (piece_eqb tile Empty)
  then ret (Continue, (fst acc, true))
  else ret (Continue, acc).

Definition pawn_capture_step (row col direction : Z) (enemy : color)
    (king_row king_col : Z) (piece_pinned : bool) (pin_direction : Z * Z)
    (lr : Z) (moves : MoveDict) : M GameState (ctl * MoveDict) :=
  if negb piece_pinned || pair_eqb pin_direction (direction, lr) then
    b <- gets board ;;
    ep <- gets en_passant_possible ;;
    is_capture <-
      (if (0 <=? col + lr) && (col + lr <? py_len b)
       then t <- read_board (row + direction) (col + lr) ;;
            ret (has_color t enemy)
       else ret false) ;;
    if is_capture : bool then
      move <- new_move (row, col) (row + direction, col + lr) false false ;;
      ret (Continue, dict_add moves move)
    else if pair_eqb (row + direction, col + lr) ep then
      let range_offset := if lr >? 0 then 1 else 0 in
      flags <-
        (if king_row =? row then
           let inside_range :=
             if king_col <? col
             then py_range (king_col + 1) (col - 1 + range_offset)
             else py_range_down (king_col - 1) (col + range_offset) in
           let outside_range :=
             if king_col <? col
             then py_range (col + 1 + range_offset) (py_len b)
             else py_range_down (col - 2 + range_offset) (-1) in
           blocking <- for_loop inside_range (inside_step row) false ;;
           for_loop outside_range (outside_step enemy row) (false, blocking)
         else ret (false, false)) ;;
      let '(attacking_piece, blocking_piece) := flags in
      if negb attacking_piece || blocking_piece then
        move <- new_move (row, col) (row + direction, col + lr) true false ;;
        ret (Continue, dict_add moves move)
      else ret (Continue, moves)
    else ret (Continue, moves)
  else ret (Continue, moves).

Definition get_pawn_moves (row col : Z) (moves : MoveDict)
    : M GameState MoveDict :=
  '(piece_pinned, pin_direction) <- take_pin row col ;;
  wtm <- gets white_to_move ;;
  loc <- gets own_king_location ;;
  let direction := if wtm then -1 else 1 in
  let start_row := if wtm then 6 else 1 in
  let enemy := enemy_of wtm in
  let king_row := fst loc in
  let king_col := snd loc in
  ahead <- read_board (row + direction) col ;;
  moves1 <-
    (if piece_eqb ahead Empty then
       if negb piece_pinned || pair_eqb pin_direction (direction, 0) then
         move <- new_move (row, col) (row + direction, col) false false ;;
         let moves' := dict_add moves move in
         two <- (if row =? start_row
                 then t <- read_board (row + 2 * direction) col ;;
                      ret (piece_eqb t Empty)
                 else ret false) ;;
         if two : bool then
           move2 <- new_move (row, col) (row + 2 * direction, col)
                             false false ;;
           ret (dict_add moves' move2)
         else ret moves'
       else ret moves
     else ret moves) ;;
  for_loop [-1; 1]
    (pawn_capture_step row col direction enemy king_row king_col
                       piece_pinned pin_direction)
    moves1.

(** *** [__get_moves_from_tiles] and [__get_moves_from_directions] *)

Definition tile_step (row col : Z) (enemy : color) (piece_pinned : bool)
    (tile : Z * Z) (moves : MoveDict) : M GameState (ctl * MoveDict) :=
  let t_row := fst tile in
  let t_col := snd tile in
  b <- gets board ;;
  if in_bounds b t_row t_col then
    if negb piece_pinned then
      t <- read_board t_row t_col ;;
      if piece_eqb t Empty then
        move <- new_move (row, col) (t_row, t_col) false false ;;
        ret (Continue, dict_add moves move)
      else if has_color t enemy then
        move <- new_move (row, col) (t_row, t_col) false false ;;
        ret (Continue, dict_add moves move)
      else ret (Continue, moves)
    else ret (Continue, moves)
  else ret (Continue, moves).

Definition get_moves_from_tiles (row col : Z) (moves : MoveDict)
    (tiles : list (Z * Z)) : M GameState MoveDict :=
  '(piece_pinned, _) <- take_pin row col ;;
  wtm <- gets white_to_move ;;
  for_loop tiles (tile_step row col (enemy_of wtm) piece_pinned) moves.

Definition direction_step (row col : Z) (enemy : color) (piece_pinned : bool)
    (pin_direction : Z * Z) (d : Z * Z) (i : Z) (moves : MoveDict)
    : M GameState (ctl * MoveDict) :=
  let end_row := row + fst d * i in
  let end_col := col + snd d * i in
  b <- gets board ;;
  if in_bounds b end_row end_col then
    if negb piece_pinned || pair_eqb pin_direction d
       || pair_eqb pin_direction (- fst d, - snd d) then
      end_piece <- read_board end_row end_col ;;
      if piece_eqb end_piece Empty then
        move <- new_move (row, col) (end_row, end_col) false false ;;
        ret (Continue, dict_add moves move)
      else if has_color end_piece enemy then
        move <- new_move (row, col) (end_row, end_col) false false ;;
        ret (Break, dict_add moves move)
      else ret (Break, moves)
    else ret (Continue, moves)
  else ret (Break, moves).

Definition direction_scan (row col : Z) (enemy : color) (piece_pinned : bool)
    (pin_direction : Z * Z) (length : Z) (d : Z * Z) (moves : MoveDict)
    : M GameState (ctl * MoveDict) :=
  r <- for_loop (py_range 1 length)
         (direction_step row col enemy piece_pinned pin_direction d) moves ;;
  ret (Continue, r).

Definition get_moves_from_directions (row col : Z) (moves : MoveDict)
    (directions : list (Z * Z)) : M GameState MoveDict :=
  '(piece_pinned, pin_direction) <- take_pin_if_rook row col ;;
  wtm <- gets white_to_move ;;
  b <- gets board ;;
  width <- lift (board_width b) ;;
  let length := Z.max (py_len b) width in
  for_loop directions
    (direction_scan row col (enemy_of wtm) piece_pinned pin_direction length)
    moves.

(** *** The piece generators *)

Definition get_rook_moves (row col : Z) (moves : MoveDict)
    : M GameState MoveDict :=
  get_moves_from_directions row col moves [(-1, 0); (1, 0); (0, -1); (0, 1)].

Definition get_knight_moves (row col : Z) (moves : MoveDict)
    : M GameState MoveDict :=
  get_moves_from_tiles row col moves
    [ (row - 1, col + 2); (row - 2, col + 1); (row - 2, col - 1);
      (row - 1, col - 2); (row + 1, col - 2); (row + 2, col - 1);
      (row + 2, col + 1); (row + 1, col + 2) ].

Definition get_bishop_moves (row col : Z) (moves : MoveDict)
    : M GameState MoveDict :=
  get_moves_from_directions row col moves [(-1, 1); (-1, -1); (1, -1); (1, 1)].

Definition get_queen_moves (row col : Z) (moves : MoveDict)
    : M GameState MoveDict :=
  moves' <- get_rook_moves row col moves ;;
  get_bishop_moves row col moves'.

(** [self.white_king_location = v] or [self.black_king_location = v],
    chosen by [ally == "w"]. *)
Definition set_king_location (ally : color) (v : Z * Z) : M GameState unit :=
  match ally with
  | White => modify (set_white_king_location v)
  | Black => modify (set_black_king_location v)
  end.

Definition king_step (row col : Z) (ally : color) (tile : Z * Z)
    (moves : MoveDict) : M GameState (ctl * MoveDict) :=
  let t_row := fst tile in
  let t_col := snd tile in
  b <- gets board ;;
  if in_bounds b t_row t_col then
    end_piece <- read_board t_row t_col ;;
    if negb (has_color end_piece ally) then
      set_king_location ally (t_row, t_col) ;;;
      '(in_chk, _, _) <- check_for_pins_and_checks ;;
      moves' <- (if negb in_chk
                 then move <- new_move (row, col) (t_row, t_col) false false ;;
                      ret (dict_add moves move)
                 else ret moves) ;;
      set_king_location ally (row, col) ;;;
      ret (Continue, moves')
    else ret (Continue, moves)
  else ret (Continue, moves).

Definition get_king_moves (row col : Z) (moves : MoveDict)
    : M GameState MoveDict :=
  wtm <- gets white_to_move ;;
  for_loop
    [ (row, col + 1); (row - 1, col + 1); (row - 1, col); (row - 1, col - 1);
      (row, col - 1); (row + 1, col - 1); (row + 1, col); (row + 1, col + 1) ]
    (king_step row col (ally_of wtm)) moves.

(** [self.move_functions[piece](row, col, moves)] *)
Definition move_function (k : kind) : Z -> Z -> MoveDict -> M GameState MoveDict :=
  match k with
  | Pawn => get_pawn_moves
  | Rook => get_rook_moves
  | Knight => get_knight_moves
  | Bishop => get_bishop_moves
  | Queen => get_queen_moves
  | King => get_king_moves
  end.

(** *** [__get_all_possible_moves] *)

Definition square_step (row : Z) (col : Z) (moves : MoveDict)
    : M GameState (ctl * MoveDict) :=
  here <- read_board row col ;;
  wtm <- gets white_to_move ;;
  match here with
  | Piece c k =>
      if (color_eqb c White && wtm) || (color_eqb c Black && negb wtm)
      then moves' <- move_function k row col moves ;; ret (Continue, moves')
      else ret (Continue, moves)
  | Empty => ret (Continue, moves)
  end.

Definition row_step (row : Z) (moves : MoveDict)
    : M GameState (ctl * MoveDict) :=
  b <- gets board ;;
  r <- lift (py_get b row) ;;
  moves' <- for_loop (py_range 0 (py_len r)) (square_step row) moves ;;
  ret (Continue, moves').

Definition get_all_possible_moves : M GameState MoveDict :=
  b <- gets board ;;
  for_loop (py_range 0 (py_len b)) row_step [].

(** *** [tile_under_attack] *)

Definition tile_under_attack (row col : Z) : M GameState bool :=
  wtm <- gets white_to_move ;;
  modify (set_white_to_move (negb wtm)) ;;;
  opponent_moves <- get_all_possible_moves ;;
  wtm' <- gets white_to_move ;;
  modify (set_white_to_move (negb wtm')) ;;;
  ret (existsb (fun move => (end_row move =? row) && (end_col move =? col))
               (dict_values opponent_moves)).

(** *** Castling generators *)

Definition get_king_side_castle_moves (row col : Z) (moves : MoveDict)
    : M GameState MoveDict :=
  a <- read_board row (col + 1) ;;
  free <- (if piece_eqb a Empty
           then b <- read_board row (col + 2) ;; ret (piece_eqb b Empty)
           else ret false) ;;
  if free : bool then
    u1 <- tile_under_attack row (col + 1) ;;
    safe <- (if negb u1
             then u2 <- tile_under_attack row (col + 2) ;; ret (negb u2)
             else ret false) ;;
    if safe : bool then
      move <- new_move (row, col) (row, col + 2) false true ;;
      ret (dict_add moves move)
    else ret moves
  else ret moves.

Definition get_queen_side_castle_moves (row col : Z) (moves : MoveDict)
    : M GameState MoveDict :=
  a <- read_board row (col - 1) ;;
  free <- (if piece_eqb a Empty
           then b <- read_board row (col - 2) ;;
                if piece_eqb b Empty
                then c <- read_board row (col - 3) ;; ret (piece_eqb c Empty)
                else ret false
           else ret false) ;;
  if free : bool then
    u1 <- tile_under_attack row (col - 1) ;;
    safe <- (if negb u1
             then u2 <- tile_under_attack row (col - 2) ;; ret (negb u2)
             else ret false) ;;
    if safe : bool then
      move <- new_move (row, col) (row, col - 2) false true ;;
      ret (dict_add moves move)
    else ret moves
  else ret moves.

Definition get_castle_moves (row col : Z) (moves : MoveDict)
    : M GameState MoveDict :=
  attacked <- tile_under_attack row col ;;
  if attacked : bool then ret moves
  else
    wtm <- gets white_to_move ;;
    rights <- gets current_castling_rights ;;
    moves1 <- (if (wtm && wks rights) || (negb wtm && bks rights)
               then get_king_side_castle_moves row col moves
               else ret moves) ;;
    wtm' <- gets white_to_move ;;
    rights' <- gets current_castling_rights ;;
    if (wtm' && wqs rights') || (negb wtm' && bqs rights')
    then get_queen_side_castle_moves row col moves1
    else ret moves1.

(** *** [generate_valid_moves] *)

(** The squares on which a single check can be blocked or its giver taken:
    [for i in range(1, len(self.board))], stopping at the checking piece. *)
Definition valid_tile_step (king_row king_col : Z) (check : Pin) (i : Z)
    (valid_tiles : list (Z * Z)) : M GameState (ctl * list (Z * Z)) :=
  let '(check_row, check_col, dr, dc) := check in
  let valid_row := king_row + dr * i in
  let valid_col := king_col + dc * i in
  let tiles' := valid_tiles ++ [(valid_row, valid_col)] in
  if (valid_row =? check_row) && (valid_col =? check_col)
  then ret (Break, tiles')
  else ret (Continue, tiles').

(** [for key in list(moves.keys())]: delete the non-king moves that do not
    end on one of [valid_tiles]. *)
Definition filter_step (valid_tiles : list (Z * Z)) (kv : Z * Move)
    (moves : MoveDict) : M GameState (ctl * MoveDict) :=
  let move := snd kv in
  if negb (has_kind (piece_moved move) King) then
    if negb (existsb (pair_eqb (end_row move, end_col move)) valid_tiles)
    then ret (Continue, dict_del moves (fst kv))
    else ret (Continue, moves)
  else ret (Continue, moves).

(** Lines 241-291 of [generate_valid_moves]: the case split on the number
    of checks, followed by the castling moves. *)
Definition generate_candidates : M GameState MoveDict :=
  loc <- gets own_king_location ;;
  let king_row := fst loc in
  let king_col := snd loc in
  now_in_check <- gets in_check ;;
  moves <-
    (if now_in_check : bool then
       cs <- gets checks ;;
       if py_len cs =? 1 then
         moves0 <- get_all_possible_moves ;;
         cs' <- gets checks ;;
         check <- lift (py_get cs' 0) ;;
         let '(check_row, check_col, _, _) := check in
         piece_checking <- read_board check_row check_col ;;
         b <- gets board ;;
         valid_tiles <-
           (if has_kind piece_checking Knight
            then ret [(check_row, check_col)]
            else for_loop (py_range 1 (py_len b))
                   (valid_tile_step king_row king_col check) []) ;;
         for_loop moves0 (filter_step valid_tiles) moves0
       else get_king_moves king_row king_col []
     else get_all_possible_moves) ;;
  kloc <- gets own_king_location ;;
  get_castle_moves (fst kloc) (snd kloc) moves.

(** Lines 294-301: the game-over flags. *)
Definition set_game_over_flags (moves : MoveDict) : M GameState unit :=
  chk <- gets in_check ;;
  if py_len moves =? 0 then
    if chk : bool then modify (set_checkmate true)
    else modify (set_stalemate true)
  else
    modify (set_checkmate false) ;;;
    modify (set_stalemate false).

Definition generate_valid_moves : M GameState MoveDict :=
  temp_en_passant_possible <- gets en_passant_possible ;;
  temp_current_castling_rights <- gets current_castling_rights ;;
  '(in_chk, pns, chks) <- check_for_pins_and_checks ;;
  modify (set_in_check in_chk) ;;;
  modify (set_pins pns) ;;;
  modify (set_checks chks) ;;;
  moves <- generate_candidates ;;
  modify (set_en_passant_possible temp_en_passant_possible) ;;;
  modify (set_current_castling_rights temp_current_castling_rights) ;;;
  set_game_over_flags moves ;;;
  modify (set_valid_moves moves) ;;;
  ret moves.

(** *** [__update_castle_rights] *)

Definition set_wks (v : bool) (r : CastleRights) : CastleRights :=
  mkCastleRights v (bks r) (wqs r) (bqs r).
Definition set_bks (v : bool) (r : CastleRights) : CastleRights :=
  mkCastleRights (wks r) v (wqs r) (bqs r).
Definition set_wqs (v : bool) (r : CastleRights) : CastleRights :=
  mkCastleRights (wks r) (bks r) v (bqs r).
Definition set_bqs (v : bool) (r : CastleRights) : CastleRights :=
  mkCastleRights (wks r) (bks r) (wqs r) v.

(** The corner test shared by the four rook branches: on row [home] column
    0 clears the queen side, column 7 the king side. *)
Definition corner_update (r c home : Z)
    (clear_qs clear_ks : CastleRights -> CastleRights) (cr : CastleRights)
    : CastleRights :=
  if r =? home then
    if c =? 0 then clear_qs cr
    else if c =? 7 then clear_ks cr
    else cr
  else cr.

Definition update_castle_rights_pure (move : Move) (cr : CastleRights)
    : CastleRights :=
  let cr1 :=
    if piece_eqb (piece_moved move) (Piece White King)
    then set_wqs false (set_wks false cr)
    else if piece_eqb (piece_moved move) (Piece Black King)
    then set_bqs false (set_bks false cr)
    else if piece_eqb (piece_moved move) (Piece White Rook)
    then corner_update (start_row move) (start_col move) 7
           (set_wqs false) (set_wks false) cr
    else if piece_eqb (piece_moved move) (Piece Black Rook)
    then corner_update (start_row move) (start_col move) 0
           (set_bqs false) (set_bks false) cr
    else cr in
  if piece_eqb (piece_captured move) (Piece White Rook)
  then corner_update (end_row move) (end_col move) 7
         (set_wqs false) (set_wks false) cr1
  else if piece_eqb (piece_captured move) (Piece Black Rook)
  then corner_update (end_row move) (end_col move) 0
         (set_bqs false) (set_bks false) cr1
  else cr1.

Definition update_castle_rights (move : Move) : M GameState unit :=
  cr <- gets current_castling_rights ;;
  modify (set_current_castling_rights (update_castle_rights_pure move cr)).

(** *** [make_move] *)

(** [move.piece_moved[0] + "Q"].  [Move.__init__] flags a promotion only for
    a pawn; for the empty piece the Python string would be ["-Q"], which is
    not a board value, and the embedding stops there. *)
Definition promoted (p : piece) : option piece :=
  match p with
  | Piece c _ => Some (Piece c Queen)
  | Empty => None
  end.

Definition is_double_step (move : Move) : bool :=
  has_kind (piece_moved move) Pawn
  && (Z.abs (end_row move - start_row move) =? 2).

Definition make_move (move : Move) : M GameState unit :=
  write_board (start_row move) (start_col move) Empty ;;;
  write_board (end_row move) (end_col move) (piece_moved move) ;;;
  log <- gets move_log ;;
  modify (set_move_log (log ++ [move])) ;;;
  wtm <- gets white_to_move ;;
  modify (set_white_to_move (negb wtm)) ;;;
  (if piece_eqb (piece_moved move) (Piece White King)
   then modify (set_white_king_location (end_row move, end_col move))
   else if piece_eqb (piece_moved move) (Piece Black King)
   then modify (set_black_king_location (end_row move, end_col move))
   else ret tt) ;;;
  (if is_pawn_promotion move
   then q <- lift (promoted (piece_moved move)) ;;
        write_board (end_row move) (end_col move) q
   else ret tt) ;;;
  (if is_en_passant move
   then write_board (start_row move) (end_col move) Empty
   else ret tt) ;;;
  (if is_double_step move
   then modify (set_en_passant_possible
                  ((start_row move + end_row move) / 2, end_col move))
   else modify (set_en_passant_possible NO_PAIR)) ;;;
  (if is_castle move then
     if end_col move - start_col move =? 2 then
       rook <- read_board (end_row move) (end_col move + 1) ;;
       write_board (end_row move) (end_col move - 1) rook ;;;
       write_board (end_row move) (end_col move + 1) Empty
     else
       rook <- read_board (end_row move) (end_col move - 2) ;;
       write_board (end_row move) (end_col move + 1) rook ;;;
       write_board (end_row move) (end_col move - 2) Empty
   else ret tt) ;;;
  update_castle_rights move ;;;
  cr <- gets current_castling_rights ;;
  crlog <- gets castle_rights_log ;;
  modify (set_castle_rights_log (crlog ++ [cr])) ;;;
  modify (set_checkmate false) ;;;
  modify (set_stalemate false).

(** *** [undo_move] *)

(** [l.pop()] : the last element and the list without it. *)
Definition py_pop {A} (l : list A) : option (A * list A) :=
  match rev l with
  | [] => None
  | x :: t => Some (x, rev t)
  end.

Definition undo_move : M GameState unit :=
  log <- gets move_log ;;
  if py_len log =? 0 then
    out <- gets stdout ;;
    modify (set_stdout (out ++ ["No moves to undo!"%string]))
  else
    '(move, log') <- lift (py_pop log) ;;
    modify (set_move_log log') ;;;
    write_board (start_row move) (start_col move) (piece_moved move) ;;;
    write_board (end_row move) (end_col move) (piece_captured move) ;;;
    wtm <- gets white_to_move ;;
    modify (set_white_to_move (negb wtm)) ;;;
    (if piece_eqb (piece_moved move) (Piece White King)
     then modify (set_white_king_location (start_row move, start_col move))
     else if piece_eqb (piece_moved move) (Piece Black King)
     then modify (set_black_king_location (start_row move, start_col move))
     else ret tt) ;;;
    (if is_en_passant move then
       write_board (end_row move) (end_col move) Empty ;;;
       write_board (start_row move) (end_col move) (piece_captured move) ;;;
       modify (set_en_passant_possible (end_row move, end_col move))
     else ret tt) ;;;
    (if is_double_step move
     then modify (set_en_passant_possible NO_PAIR)
     else ret tt) ;;;
    generate_valid_moves ;;;
    crlog <- gets castle_rights_log ;;
    '(_, crlog') <- lift (py_pop crlog) ;;
    modify (set_castle_rights_log crlog') ;;;
    last_rights <- lift (py_get crlog' (-1)) ;;
    modify (set_current_castling_rights last_rights) ;;;
    (if is_castle move then
       if end_col move - start_col move =? 2 then
         rook <- read_board (end_row move) (end_col move - 1) ;;
         write_board (end_row move) (end_col move + 1) rook ;;;
         write_board (end_row move) (end_col move - 1) Empty
       else
         rook <- read_board (end_row move) (end_col move + 1) ;;
         write_board (end_row move) (end_col move - 2) rook ;;;
         write_board (end_row move) (end_col move + 1) Empty
     else ret tt) ;;;
    modify (set_checkmate false) ;;;
    modify (set_stalemate false).

End Engine.

(** ** Scoring tables ([Chess/utils/pieces.py]) *)

Definition MATERIAL_VALUES (k : kind) : Z :=
  match k with
  | Pawn => 100
  | Rook => 500
  | Knight => 320
  | Bishop => 330
  | Queen => 900
  | King => 0
  end.

Definition CHECKMATE : Z := 100000.
Definition STALEMATE : Z := 0.

Definition Table : Type := list (list Z).

Definition PAWN_TABLE : Table :=
  [ [0; 0; 0; 0; 0; 0; 0; 0];
    [50; 50; 50; 50; 50; 50; 50; 50];
    [10; 10; 20; 30; 30; 20; 10; 10];
    [5; 5; 10; 25; 25; 10; 5; 5];
    [0; 0; 0; 20; 20; 0; 0; 0];
    [5; -5; -10; 0; 0; -10; -5; 5];
    [5; 10; 10; -20; -20; 10; 10; 5];
    [0; 0; 0; 0; 0; 0; 0; 0] ].

Definition KNIGHT_TABLE : Table :=
  [ [-50; -40; -30; -30; -30; -30; -40; -50];
    [-40; -20; 0; 0; 0; 0; -20; -40];
    [-30; 0; 10; 15; 15; 10; 0; -30];
    [-30; 5; 15; 20; 20; 15; 5; -30];
    [-30; 0; 15; 20; 20; 15; 0; -30];
    [-30; 5; 10; 15; 15; 10; 5; -30];
    [-40; -20; 0; 5; 5; 0; -20; -40];
    [-50; -40; -30; -30; -30; -30; -40; -50] ].

Definition BISHOP_TABLE : Table :=
  [ [-20; -10; -10; -10; -10; -10; -10; -20];
    [-10; 0; 0; 0; 0; 0; 0; -10];
    [-10; 0; 5; 10; 10; 5; 0; -10];
    [-10; 5; 5; 10; 10; 5; 5; -10];
    [-10; 0; 10; 10; 10; 10; 0; -10];
    [-10; 10; 10; 10; 10; 10; 10; -10];
    [-10; 5; 0; 0; 0; 0; 5; -10];
    [-20; -10; -10; -10; -10; -10; -10; -20] ].

Definition ROOK_TABLE : Table :=
  [ [0; 0; 0; 0; 0; 0; 0; 0];
    [5; 10; 10; 10; 10; 10; 10; 5];
    [-5; 0; 0; 0; 0; 0; 0; -5];
    [-5; 0; 0; 0; 0; 0; 0; -5];
    [-5; 0; 0; 0; 0; 0; 0; -5];
    [-5; 0; 0; 0; 0; 0; 0; -5];
    [-5; 0; 0; 0; 0; 0; 0; -5];
    [0; 0; 0; 5; 5; 0; 0; 0] ].

Definition QUEEN_TABLE : Table :=
  [ [-20; -10; -10; -5; -5; -10; -10; -20];
    [-10; 0; 0; 0; 0; 0; 0; -10];
    [-10; 0; 5; 5; 5; 5; 0; -10];
    [-5; 0; 5; 5; 5; 5; 0; -5];
    [0; 0; 5; 5; 5; 5; 0; -5];
    [-10; 5; 5; 5; 5; 5; 0; -10];
    [-10; 0; 5; 0; 0; 0; 0; -10];
    [-20; -10; -10; -5; -5; -10; -10; -20] ].

(** [PIECE_POSITION_SCORES]: the black tables are the white ones reversed
    ([TABLE[::-1]]); the kings have no entry ([KeyError]), and neither has
    the empty square. *)
Definition PIECE_POSITION_SCORES (p : piece) : option Table :=
  match p with
  | Piece c k =>
      let orient := fun t : Table =>
        match c with White => t | Black => rev t end in
      match k with
      | Pawn => Some (orient PAWN_TABLE)
      | Knight => Some (orient KNIGHT_TABLE)
      | Bishop => Some (orient BISHOP_TABLE)
      | Rook => Some (orient ROOK_TABLE)
      | Queen => Some (orient QUEEN_TABLE)
      | King => None
      end
  | Empty => None
  end.

Definition table_get (t : Table) (r c : Z) : option Z :=
  match py_get t r with
  | Some row => py_get row c
  | None => None
  end.

(** ** Scoring ([class ChessAI]) *)

(** [score_material]: [for row in board: for tile in row]. *)
Definition score_material_tile (ally enemy : color) (score : Z) (tile : piece)
    : Z :=
  match tile with
  | Piece c k =>
      if color_eqb c ally then score + MATERIAL_VALUES k
      else if color_eqb c enemy then score - MATERIAL_VALUES k
      else score
  | Empty => score
  end.

Definition score_material (s : GameState) : Z :=
  let ally := ally_of (white_to_move s) in
  let enemy := enemy_of (white_to_move s) in
  fold_left (fun score row => fold_left (score_material_tile ally enemy) row score)
            (board s) 0.

(** [score_material_piece_table] *)
Definition piece_table_square (b : Board) (row col : Z) (total_score : Z)
    : option Z :=
  match board_get b row col with
  | None => None
  | Some Empty => Some total_score
  | Some (Piece c k as p) =>
      match
        (if negb (kind_eqb k King)
         then match PIECE_POSITION_SCORES p with
              | Some t => table_get t row col
              | None => None
              end
         else Some 0)
      with
      | None => None
      | Some piece_score =>
          match c with
          | White => Some (total_score + (MATERIAL_VALUES k + piece_score))
          | Black => Some (total_score - (MATERIAL_VALUES k + piece_score))
          end
      end
  end.

Fixpoint fold_option {X A} (f : X -> A -> option A) (xs : list X) (a : A)
    : option A :=
  match xs with
  | [] => Some a
  | x :: t =>
      match f x a with
      | Some a' => fold_option f t a'
      | None => None
      end
  end.

Definition score_material_piece_table (s : GameState) : option Z :=
  let b := board s in
  fold_option
    (fun row total =>
       match board_width b with
       | None => None
       | Some w =>
           fold_option (fun col tot => piece_table_square b row col tot)
                       (py_range 0 w) total
       end)
    (py_range 0 (py_len b)) 0.

(** [score_board] *)
Definition score_board (s : GameState) : option Z :=
  if checkmate s then
    if white_to_move s then Some (- CHECKMATE) else Some CHECKMATE
  else if stalemate s then Some STALEMATE
  else score_material_piece_table s.

(** ** The depth searches ([Chess/chess_ai.py])

    An AI object holds a reference to the game state, which it mutates
    through [make_move] and [undo_move], and its own [best_moves] list. *)

Record ChessAI : Type := mkChessAI {
  game_state : GameState;
  best_moves : list Move
}.

(** A method of the game state called through [self.game_state]. *)
Definition on_game {A} (m : M GameState A) : M ChessAI A :=
  fun ai =>
    match m (game_state ai) with
    | Some (a, g) => Some (a, mkChessAI g (best_moves ai))
    | None => None
    end.

Definition set_best_moves (v : list Move) (ai : ChessAI) : ChessAI :=
  mkChessAI (game_state ai) v.

Definition ai_score_board : M ChessAI Z :=
  g <- gets game_state ;; lift (score_board g).

Section Search.

Variable NO_VALUE : Z.

(** [MAX_DEPTH] is imported from [Chess/utils/constants.py], which is not
    among the sources; it is kept as a parameter of the searches. *)
Variable MAX_DEPTH : Z.

(** The bookkeeping of the best moves shared by the three searches:
    [if score > best: ...; if depth == MAX_DEPTH: self.best_moves = [move]]
    [elif score == best: if depth == MAX_DEPTH: self.best_moves.append(move)],
    with [better] the strict comparison of the caller. *)
Definition track_best (better : Z -> Z -> bool) (depth : Z) (move : Move)
    (score best : Z) : M ChessAI Z :=
  if better score best then
    (if depth =? MAX_DEPTH then modify (set_best_moves [move]) else ret tt) ;;;
    ret score
  else if score =? best then
    (if depth =? MAX_DEPTH
     then bm <- gets best_moves ;; modify (set_best_moves (bm ++ [move]))
     else ret tt) ;;;
    ret best
  else ret best.

(** [find_move_minimax].  Python bounds the recursion by its recursion
    limit; [fuel] is that bound, and running out of it is the exception. *)
Fixpoint find_move_minimax (fuel : nat) (valid_moves : MoveDict)
    (white_to_move : bool) (depth : Z) {struct fuel} : M ChessAI Z :=
  match fuel with
  | O => raise
  | S fuel' =>
      (if depth <=? 0 then ai_score_board ;;; ret tt else ret tt) ;;;
      if white_to_move then
        for_loop (dict_values valid_moves)
          (fun move max_score =>
             on_game (make_move NO_VALUE move) ;;;
             next_moves <- on_game (generate_valid_moves NO_VALUE) ;;
             score <- find_move_minimax fuel' next_moves false (depth - 1) ;;
             max_score' <- track_best Z.gtb depth move score max_score ;;
             on_game (undo_move NO_VALUE) ;;;
             ret (Continue, max_score'))
          (- CHECKMATE)
      else
        for_loop (dict_values valid_moves)
          (fun move min_score =>
             on_game (make_move NO_VALUE move) ;;;
             next_moves <- on_game (generate_valid_moves NO_VALUE) ;;
             score <- find_move_minimax fuel' next_moves true (depth - 1) ;;
             min_score' <- track_best Z.ltb depth move score min_score ;;
             on_game (undo_move NO_VALUE) ;;;
             ret (Continue, min_score'))
          CHECKMATE
  end.

(** [find_move_negamax] *)
Fixpoint find_move_negamax (fuel : nat) (valid_moves : MoveDict)
    (white_to_move : bool) (depth : Z) {struct fuel} : M ChessAI Z :=
  match fuel with
  | O => raise
  | S fuel' =>
      if depth <=? 0 then
        let turn_multiplier := if white_to_move then 1 else -1 in
        sc <- ai_score_board ;;
        ret (turn_multiplier * sc)
      else
        for_loop (dict_values valid_moves)
          (fun move max_score =>
             on_game (make_move NO_VALUE move) ;;;
             next_moves <- on_game (generate_valid_moves NO_VALUE) ;;
             r <- find_move_negamax fuel' next_moves (negb white_to_move)
                    (depth - 1) ;;
             let score := - r in
             max_score' <- track_best Z.gtb depth move score max_score ;;
             on_game (undo_move NO_VALUE) ;;;
             ret (Continue, max_score'))
          (- CHECKMATE)
  end.

(** [find_move_negamax_alpha_beta]; the loop carries [(max_score, alpha)]. *)
Fixpoint find_move_negamax_alpha_beta (fuel : nat) (valid_moves : MoveDict)
    (alpha beta : Z) (white_to_move : bool) (depth : Z) {struct fuel}
    : M ChessAI Z :=
  match fuel with
  | O => raise
  | S fuel' =>
      if depth <=? 0 then
        let turn_multiplier := if white_to_move then 1 else -1 in
        sc <- ai_score_board ;;
        ret (turn_multiplier * sc)
      else
        r <- for_loop (dict_values valid_moves)
          (fun move (acc : Z * Z) =>
             let '(max_score, alpha) := acc in
             on_game (make_move NO_VALUE move) ;;;
             next_moves <- on_game (generate_valid_moves NO_VALUE) ;;
             r <- find_move_negamax_alpha_beta fuel' next_moves
                    (- beta) (- alpha) (negb white_to_move) (depth - 1) ;;
             let score := - r in
             max_score' <- track_best Z.gtb depth move score max_score ;;
             on_game (undo_move NO_VALUE) ;;;
             let alpha' := if max_score' >? alpha then max_score' else alpha in
             if alpha' >=? beta
             then ret (Break, (max_score', alpha'))
             else ret (Continue, (max_score', alpha')))
          (- CHECKMATE, alpha) ;;
        ret (fst r)
  end.

End Search.

(** ** Playing games: the driver's use of the engine *)

(** [valid_moves[str(move_id)]] *)
Fixpoint dict_get (d : MoveDict) (k : Z) : option Move :=
  match d with
  | [] => None
  | (k', v) :: t => if k' =? k then Some v else dict_get t k
  end.

(** One turn of the main loop: generate the legal moves, pick the one with
    the given id and make it. *)
Definition play (NO_VALUE : Z) (id : Z) : M GameState unit :=
  moves <- generate_valid_moves NO_VALUE ;;
  m <- lift (dict_get moves id) ;;
  make_move NO_VALUE m.

Fixpoint plays (NO_VALUE : Z) (ids : list Z) : M GameState unit :=
  match ids with
  | [] => ret tt
  | i :: t => play NO_VALUE i ;;; plays NO_VALUE t
  end.

(** The states of a game: the initial one, and any state obtained by making
    a move that [generate_valid_moves] returned for the current state. *)
Inductive reachable (NO_VALUE : Z) : GameState -> Prop :=
| reach_init : reachable NO_VALUE (GameState_init NO_VALUE)
| reach_move s moves s1 m s2 :
    reachable NO_VALUE s ->
    generate_valid_moves NO_VALUE s = Some (moves, s1) ->
    In m (dict_values moves) ->
    make_move NO_VALUE m s1 = Some (tt, s2) ->
    reachable NO_VALUE s2.

(** The check detector run for the side that has just moved: the analyzer
    looks at the king of [white_to_move], so the flag is flipped around it. *)
Definition mover_in_check (NO_VALUE : Z) (s : GameState) : option bool :=
  match check_for_pins_and_checks NO_VALUE
          (set_white_to_move (negb (white_to_move s)) s) with
  | Some (r, _) => Some (fst (fst r))
  | None => None
  end.

(** The material balance as the specification words it: the sum over the
    occupied squares of the value of the piece, positive for white and
    negative for black. *)
Definition signed_material (p : piece) : Z :=
  match p with
  | Piece White k => MATERIAL_VALUES k
  | Piece Black k => - MATERIAL_VALUES k
  | Empty => 0
  end.

Definition material_balance (b : Board) : Z :=
  fold_right Z.add 0 (map signed_material (List.concat b)).

(** The value the concrete runs below give to [NO_VALUE]: any value that is
    not a board coordinate marks "no square". *)
Definition NO_SQUARE : Z := -1.

(** The state reached from the initial position by the given move ids. *)
Definition run_game (ids : list Z) : option GameState :=
  match plays NO_SQUARE ids (GameState_init NO_SQUARE) with
  | Some (_, s) => Some s
  | None => None
  end.

Definition state_or_init (o : option GameState) : GameState :=
  match o with
  | Some s => s
  | None => GameState_init NO_SQUARE
  end.

(** 1. e2-e4: black is to move and the en-passant target is e3. *)
Definition game_e4 : list Z := [6444].
Definition state_e4 : GameState :=
  Eval vm_compute in state_or_init (run_game game_e4).

(** 1. e4 a6 2. e5 d5: white may capture en passant on d6. *)
Definition game_en_passant : list Z := [6444; 1020; 4434; 1333].
Definition state_en_passant : GameState :=
  Eval vm_compute in state_or_init (run_game game_en_passant).

(** 1. a3 d5 2. a4 d4 3. e4: black may capture en passant on e3. *)
Definition game_black_en_passant : list Z := [6050; 1333; 5040; 3343; 6444].
Definition state_black_en_passant : GameState :=
  Eval vm_compute in state_or_init (run_game game_black_en_passant).

(** 1. e4 d5 2. exd5: black is to move, a pawn down. *)
Definition game_pawn_up : list Z := [6444; 1333; 4433].
Definition state_pawn_up : GameState :=
  Eval vm_compute in state_or_init (run_game game_pawn_up).

(** 1. h4 g5 2. hxg5 h5 3. Nf3 h4 4. e3 h3 5. Be2 h2: white is to move with
    the king on e1, the rook on h1, f1 and g1 empty, and a black pawn on h2
    that attacks g1. *)
Definition game_pawn_h2 : list Z :=
  [6747; 1636; 4736; 1737; 7655; 3747; 6454; 4757; 7564; 5767].
Definition state_pawn_h2 : GameState :=
  Eval vm_compute in state_or_init (run_game game_pawn_h2).

(** The ten-move stalemate 1. e3 a5 2. Qh5 Ra6 3. Qxa5 h5 4. h4 Rah6
    5. Qxc7 f6 6. Qxd7+ Kf7 7. Qxb7 Qd3 8. Qxb8 Qh7 9. Qxc8 Kg6 10. Qe6:
    black is to move and has no move. *)
Definition game_stalemate : list Z :=
  [6454; 1030; 7337; 0020; 3730; 1737; 6747; 2027; 3012; 1525;
   1213; 0415; 1311; 0353; 1101; 5317; 0102; 1526; 0224].
Definition state_stalemate : GameState :=
  Eval vm_compute in state_or_init (run_game game_stalemate).

(** The claims about making and undoing moves, as predicates of a state. *)

(** The fields that making a move and undoing it should give back. *)
Definition same_game (p q : GameState) : Prop :=
  board q = board p
  /\ white_to_move q = white_to_move p
  /\ white_king_location q = white_king_location p
  /\ black_king_location q = black_king_location p
  /\ current_castling_rights q = current_castling_rights p
  /\ en_passant_possible q = en_passant_possible p
  /\ List.length (move_log q) = List.length (move_log p)
  /\ List.length (castle_rights_log q) = List.length (castle_rights_log p).

Definition make_undo_round_trip (NO_VALUE : Z) (p : GameState) : Prop :=
  forall moves p1 m p2 p3,
    generate_valid_moves NO_VALUE p = Some (moves, p1) ->
    In m (dict_values moves) ->
    make_move NO_VALUE m p1 = Some (tt, p2) ->
    undo_move NO_VALUE p2 = Some (tt, p3) ->
    same_game p p3.

Definition moves_keep_king_safe (NO_VALUE : Z) (p : GameState) : Prop :=
  forall moves p1 m p2,
    generate_valid_moves NO_VALUE p = Some (moves, p1) ->
    In m (dict_values moves) ->
    make_move NO_VALUE m p1 = Some (tt, p2) ->
    mover_in_check NO_VALUE p2 = Some false.

(** Generate, make the move with the given id, and take it back. *)
Definition make_then_undo (NO_VALUE : Z) (id : Z) : M GameState unit :=
  play NO_VALUE id ;;; undo_move NO_VALUE.

(** The stalemate position after the search has called
    [generate_valid_moves] on it, as it does before descending. *)
Definition state_stalemate_generated : GameState :=
  Eval vm_compute in
    match generate_valid_moves NO_SQUARE state_stalemate with
    | Some (_, s) => s
    | None => state_stalemate
    end.

(** ** Invariants and frames used by the proofs *)

Definition king_location (c : color) (s : GameState) : Z * Z :=
  match c with
  | White => white_king_location s
  | Black => black_king_location s
  end.

(** The square [loc], named by non-negative indices, holds the king of [c]. *)
Definition king_at (b : Board) (c : color) (loc : Z * Z) : Prop :=
  0 <= fst loc /\ 0 <= snd loc
  /\ board_get b (fst loc) (snd loc) = Some (Piece c King).

(** Every king on the board stands on the location recorded for it. *)
Definition kings_ok (s : GameState) : Prop :=
  forall c loc, king_at (board s) c loc -> king_location c s = loc.

(** A computation that only reads the state. *)
Definition readonly {S A} (m : M S A) : Prop :=
  forall s a s', m s = Some (a, s') -> s' = s.

Section Frame.

(** The state on entry to the generators. *)
Variable s0 : GameState.

(** A king location is as on entry, or is a square where that king stands. *)
Definition good_king (c : color) (p : Z * Z) : Prop :=
  p = king_location c s0 \/ king_at (board s0) c p.

(** What the generators leave alone: everything but [pins] and the flipped
    and restored [white_to_move]; the king locations are moved for the trial
    moves and put back. *)
Record framed (s : GameState) : Prop := mkFramed {
  fr_board : board s = board s0;
  fr_valid_moves : valid_moves s = valid_moves s0;
  fr_move_log : move_log s = move_log s0;
  fr_checkmate : checkmate s = checkmate s0;
  fr_stalemate : stalemate s = stalemate s0;
  fr_in_check : in_check s = in_check s0;
  fr_checks : checks s = checks s0;
  fr_en_passant : en_passant_possible s = en_passant_possible s0;
  fr_rights : current_castling_rights s = current_castling_rights s0;
  fr_rights_log : castle_rights_log s = castle_rights_log s0;
  fr_stdout : stdout s = stdout s0;
  fr_white_king : good_king White (white_king_location s);
  fr_black_king : good_king Black (black_king_location s)
}.

(** [m] keeps the frame while the side to move is [w]. *)
Definition keeps (w : bool) {A} (m : M GameState A) : Prop :=
  forall s a s',
    framed s -> white_to_move s = w -> m s = Some (a, s') ->
    framed s' /\ white_to_move s' = w.

End Frame.

(** A board of eight rows of eight squares. *)
Definition board_8x8 (b : Board) : Prop :=
  List.length b = 8%nat /\ Forall (fun row => List.length row = 8%nat) b.

(** A coordinate pair that names a square of the board without wrapping. *)
Definition on_board (r c : Z) : Prop := 0 <= r < 8 /\ 0 <= c < 8.

(** The content of a square, [Empty] standing in for an invalid index. *)
Definition at_square (b : Board) (r c : Z) : piece :=
  match board_get b r c with
  | Some p => p
  | None => Empty
  end.

(** ** The analyzer as a function of the board

    [__check_for_pins_and_checks] only reads the state; on a board of eight
    by eight squares it is the following function of the board, the side to
    move and the square of its king. *)

(** A loop with [break], without the monad; the flag tells whether the loop
    was left by a [break]. *)
Fixpoint loop_run {X A} (xs : list X) (body : X -> A -> ctl * A) (a : A)
    : ctl * A :=
  match xs with
  | [] => (Continue, a)
  | x :: t =>
      match body x a with
      | (Break, a') => (Break, a')
      | (Continue, a') => loop_run t body a'
      end
  end.

Section Analyzer.

Variable NO_VALUE : Z.
Variable b : Board.
Variables ally enemy : color.
Variables start_row start_col : Z.

Definition ray_step_pure (j : Z) (d : Z * Z) (i : Z) (acc : scan_acc)
    : ctl * scan_acc :=
  let '(possible_pin, in_chk, pns, chks) := acc in
  let end_row := start_row + fst d * i in
  let end_col := start_col + snd d * i in
  if in_bounds b end_row end_col then
    let end_piece := at_square b end_row end_col in
    if has_color end_piece ally && negb (has_kind end_piece King) then
      if pin_eqb possible_pin (NO_PIN NO_VALUE)
      then (Continue, ((end_row, end_col, fst d, snd d), in_chk, pns, chks))
      else (Break, acc)
    else if has_color end_piece enemy then
      if threatens enemy j i end_piece then
        if pin_eqb possible_pin (NO_PIN NO_VALUE)
        then (Continue, (possible_pin, true,
                         pns, chks ++ [(end_row, end_col, fst d, snd d)]))
        else (Break, (possible_pin, in_chk, pns ++ [possible_pin], chks))
      else (Break, acc)
    else (Continue, acc)
  else (Continue, acc).

Definition ray_scan_pure (jd : Z * (Z * Z)) (acc : scan_acc)
    : ctl * scan_acc :=
  let '(_, in_chk, pns, chks) := acc in
  (Continue,
   snd (loop_run (py_range 1 8) (ray_step_pure (fst jd) (snd jd))
                 (NO_PIN NO_VALUE, in_chk, pns, chks))).

Definition knight_scan_pure (mv : Z * Z) (acc : scan_acc) : ctl * scan_acc :=
  let '(possible_pin, in_chk, pns, chks) := acc in
  let end_row := start_row + fst mv in
  let end_col := start_col + snd mv in
  if in_bounds b end_row end_col then
    let end_piece := at_square b end_row end_col in
    if has_color end_piece enemy && has_kind end_piece Knight
    then (Continue, (possible_pin, true, pns,
                     chks ++ [(end_row, end_col, fst mv, snd mv)]))
    else (Continue, acc)
  else (Continue, acc).

Definition analyze_rays : scan_acc :=
  snd (loop_run (combine (py_range 0 8) sliding_directions) ray_scan_pure
                (NO_PIN NO_VALUE, false, [], [])).

Definition analyze : bool * list Pin * list Pin :=
  let '(_, in_chk, pns, chks) :=
    snd (loop_run knight_offsets knight_scan_pure analyze_rays) in
  (in_chk, pns, chks).

End Analyzer.

(** The analyzer applied to a state. *)
Definition analyze_state (NO_VALUE : Z) (s : GameState)
    : bool * list Pin * list Pin :=
  analyze NO_VALUE (board s)
    (ally_of (white_to_move s)) (enemy_of (white_to_move s))
    (fst (own_king_location s)) (snd (own_king_location s)).

(** ** Geometry of attacks *)

Definition add_sq (p d : Z * Z) (n : Z) : Z * Z :=
  (fst p + fst d * n, snd p + snd d * n).

Definition sq_on_board (p : Z * Z) : Prop := on_board (fst p) (snd p).

Definition piece_at (b : Board) (p : Z * Z) : piece :=
  at_square b (fst p) (snd p).

(** The squares strictly between steps [lo] and [hi] of the ray are empty. *)
Definition clear_between (b : Board) (e d : Z * Z) (lo hi : Z) : Prop :=
  forall i, lo < i < hi -> piece_at b (add_sq e d i) = Empty.

Definition rook_directions : list (Z * Z) := [(-1, 0); (0, -1); (1, 0); (0, 1)].
Definition bishop_directions : list (Z * Z) :=
  [(-1, -1); (-1, 1); (1, -1); (1, 1)].

(** A piece of kind [k] slides along direction [d]. *)
Definition slides (k : kind) (d : Z * Z) : Prop :=
  (In d rook_directions /\ (k = Rook \/ k = Queen))
  \/ (In d bishop_directions /\ (k = Bishop \/ k = Queen)).

(** The direction in which the pawns of a colour advance. *)
Definition pawn_direction (c : color) : Z :=
  match c with White => -1 | Black => 1 end.

(** The piece of colour [att] on square [q], other than a king, attacks
    the square [e]. *)
Inductive attacks (b : Board) (att : color) (e : Z * Z) : Z * Z -> Prop :=
| attacks_slide d n k :
    slides k d -> 1 <= n -> sq_on_board (add_sq e d n) ->
    clear_between b e d 0 n ->
    piece_at b (add_sq e d n) = Piece att k ->
    attacks b att e (add_sq e d n)
| attacks_pawn lr :
    lr = 1 \/ lr = -1 ->
    sq_on_board (add_sq e (- pawn_direction att, lr) 1) ->
    piece_at b (add_sq e (- pawn_direction att, lr) 1) = Piece att Pawn ->
    attacks b att e (add_sq e (- pawn_direction att, lr) 1)
| attacks_knight off :
    In off knight_offsets -> sq_on_board (add_sq e off 1) ->
    piece_at b (add_sq e off 1) = Piece att Knight ->
    attacks b att e (add_sq e off 1).

(** The numbered directions of the analyzer. *)
Definition numbered_directions : list (Z * (Z * Z)) :=
  combine (py_range 0 8) sliding_directions.

(** The entry the analyzer records for the square [e + d * n]. *)
Definition pin_entry (e d : Z * Z) (n : Z) : Pin :=
  (fst e + fst d * n, snd e + snd d * n, fst d, snd d).

(** Projections of the analyzer's accumulator. *)
Definition acc_pin (a : scan_acc) : Pin := fst (fst (fst a)).
Definition acc_in_check (a : scan_acc) : bool := snd (fst (fst a)).
Definition acc_pins (a : scan_acc) : list Pin := snd (fst a).
Definition acc_checks (a : scan_acc) : list Pin := snd a.

(** The analyzer only ever adds to its lists and raises its flag. *)
Definition acc_le (a a' : scan_acc) : Prop :=
  incl (acc_pins a) (acc_pins a')
  /\ incl (acc_checks a) (acc_checks a')
  /\ (acc_in_check a = true -> acc_in_check a' = true).

(** The form of the entries of the pin list: a square on a ray from the
    king's square [e], with the direction of that ray. *)
Definition pin_shape (e : Z * Z) (entry : Pin) : Prop :=
  exists d k,
    In d sliding_directions /\ 1 <= k /\ sq_on_board (add_sq e d k)
    /\ entry = pin_entry e d k.

(** ** The shape of the generated moves *)

Definition pin_square (p : Pin) : Z * Z :=
  match p with (r, c, _, _) => (r, c) end.

Definition pin_direction (p : Pin) : Z * Z :=
  match p with (_, _, dr, dc) => (dr, dc) end.

Definition neg_dir (d : Z * Z) : Z * Z := (- fst d, - snd d).

(** The pin found for a piece allows it to move along [d]: there is no pin,
    or the pin lies along [d] or its opposite. *)
Definition pin_allows (pd : option (Z * Z)) (d : Z * Z) : Prop :=
  match pd with
  | None => True
  | Some p => p = d \/ p = neg_dir d
  end.

Definition move_start (m : Move) : Z * Z := (start_row m, start_col m).
Definition move_end (m : Move) : Z * Z := (end_row m, end_col m).

(** The target of a move or capture: empty, or held by the other side. *)
Definition free_or_enemy (b : Board) (enemy : color) (t : Z * Z) : Prop :=
  piece_at b t = Empty \/ has_color (piece_at b t) enemy = true.

(** The moves [__get_all_possible_moves] builds for the piece on square
    [a], for the side [w] to move, the en-passant target [ep] and the pin
    direction [pd] found for the piece. *)
Inductive piece_move (b : Board) (w : bool) (ep : Z * Z)
    (pd : option (Z * Z)) (a : Z * Z) : Move -> Prop :=
| pm_pawn_push i m :
    piece_at b a = Piece (ally_of w) Pawn ->
    i = 1 \/ i = 2 ->
    (i = 2 -> fst a = if w then 6 else 1) ->
    sq_on_board (add_sq a (pawn_direction (ally_of w), 0) i) ->
    clear_between b a (pawn_direction (ally_of w), 0) 0 (i + 1) ->
    pin_allows pd (pawn_direction (ally_of w), 0) ->
    Move_init a (add_sq a (pawn_direction (ally_of w), 0) i) b false false
    = Some m ->
    piece_move b w ep pd a m
| pm_pawn_capture lr m :
    piece_at b a = Piece (ally_of w) Pawn ->
    lr = 1 \/ lr = -1 ->
    sq_on_board (add_sq a (pawn_direction (ally_of w), lr) 1) ->
    has_color (piece_at b (add_sq a (pawn_direction (ally_of w), lr) 1))
              (enemy_of w) = true ->
    pin_allows pd (pawn_direction (ally_of w), lr) ->
    Move_init a (add_sq a (pawn_direction (ally_of w), lr) 1) b false false
    = Some m ->
    piece_move b w ep pd a m
| pm_en_passant lr m :
    piece_at b a = Piece (ally_of w) Pawn ->
    lr = 1 \/ lr = -1 ->
    add_sq a (pawn_direction (ally_of w), lr) 1 = ep ->
    pin_allows pd (pawn_direction (ally_of w), lr) ->
    Move_init a ep b true false = Some m ->
    piece_move b w ep pd a m
| pm_knight off m :
    piece_at b a = Piece (ally_of w) Knight ->
    In off knight_offsets ->
    sq_on_board (add_sq a off 1) ->
    free_or_enemy b (enemy_of w) (add_sq a off 1) ->
    pd = None ->
    Move_init a (add_sq a off 1) b false false = Some m ->
    piece_move b w ep pd a m
| pm_slide d i k m :
    piece_at b a = Piece (ally_of w) k ->
    slides k d -> 1 <= i ->
    sq_on_board (add_sq a d i) ->
    clear_between b a d 0 i ->
    free_or_enemy b (enemy_of w) (add_sq a d i) ->
    pin_allows pd d ->
    Move_init a (add_sq a d i) b false false = Some m ->
    piece_move b w ep pd a m.

(** The pin direction as the generators use it. *)
Definition found_pin (r : bool * (Z * Z)) : option (Z * Z) :=
  if fst r then Some (snd r) else None.


(** The moves [__get_king_moves] builds for the king standing on [a]: one
    step in any direction onto a square not held by its own side, on which
    the analyzer, run for the king placed there, reports no check. *)
Inductive king_move (NO_VALUE : Z) (b : Board) (w : bool) (a : Z * Z)
    : Move -> Prop :=
| km_step d m :
    In d sliding_directions ->
    sq_on_board (add_sq a d 1) ->
    has_color (piece_at b (add_sq a d 1)) (ally_of w) = false ->
    fst (fst (analyze NO_VALUE b (ally_of w) (enemy_of w)
                      (fst (add_sq a d 1)) (snd (add_sq a d 1)))) = false ->
    Move_init a (add_sq a d 1) b false false = Some m ->
    king_move NO_VALUE b w a m.

(** No pawn stands on the rank where it would have been promoted. *)
Definition pawns_ok (b : Board) : Prop :=
  forall r c, on_board r c ->
    (piece_at b (r, c) = Piece White Pawn -> 1 <= r)
    /\ (piece_at b (r, c) = Piece Black Pawn -> r <= 6).

(** How the generator of the piece on square [a] may change the pin list:
    it only removes entries, and only entries for [a]. *)
Definition pins_step (a : Z * Z) (ps ps' : list Pin) : Prop :=
  incl ps' ps /\ forall q, In q ps -> pin_square q <> a -> In q ps'.

Definition only_pins (a : Z * Z) {A} (m : M GameState A) : Prop :=
  forall s r s', m s = Some (r, s') ->
    exists ps', s' = set_pins ps' s /\ pins_step a (pins s) ps'.

(** The pin direction [pd] handed to the generator of the piece on [a]
    agrees with the pin list [ps]: if the list has an entry for [a], then
    [pd] is the direction of such an entry. *)
Definition pin_found (ps : list Pin) (a : Z * Z) (pd : option (Z * Z)) : Prop :=
  forall entry, In entry ps -> pin_square entry = a ->
    exists entry', In entry' ps /\ pin_square entry' = a
                   /\ pd = Some (pin_direction entry').

(** The moves of [__get_all_possible_moves]. *)
Inductive possible_move (NO_VALUE : Z) (b : Board) (w : bool) (ep : Z * Z)
    (ps : list Pin) : Move -> Prop :=
| pos_piece a pd m :
    sq_on_board a -> pin_found ps a pd -> piece_move b w ep pd a m ->
    possible_move NO_VALUE b w ep ps m
| pos_king a m :
    sq_on_board a -> piece_at b a = Piece (ally_of w) King ->
    king_move NO_VALUE b w a m ->
    possible_move NO_VALUE b w ep ps m.

(** Row-major order of the squares, the order of the generator's scan. *)
Definition sq_le (p q : Z * Z) : Prop :=
  fst p < fst q \/ (fst p = fst q /\ snd p <= snd q).

(** The state while the scan started in state [s] is at square [pos], with
    the moves gathered so far: only pins of squares already visited are
    gone, and every move is one of the possible ones. *)
Definition scanning (NO_VALUE : Z) (s : GameState) (pos : Z * Z)
    (sc : GameState) (acc : MoveDict) : Prop :=
  (exists ps', sc = set_pins ps' s /\ incl ps' (pins s)
               /\ forall q, In q (pins s) -> sq_le pos (pin_square q) ->
                            In q ps')
  /\ forall m, In m (dict_values acc) ->
       possible_move NO_VALUE (board s) (white_to_move s)
                     (en_passant_possible s) (pins s) m.

(** The castling moves [__get_castle_moves] builds for the king on [a]. *)
Inductive castle_move (b : Board) (w : bool) (rights : CastleRights)
    (a : Z * Z) : Move -> Prop :=
| cm_king_side m :
    (w && wks rights) || (negb w && bks rights) = true ->
    piece_at b (add_sq a (0, 1) 1) = Empty ->
    piece_at b (add_sq a (0, 1) 2) = Empty ->
    Move_init a (add_sq a (0, 1) 2) b false true = Some m ->
    castle_move b w rights a m
| cm_queen_side m :
    (w && wqs rights) || (negb w && bqs rights) = true ->
    piece_at b (add_sq a (0, -1) 1) = Empty ->
    piece_at b (add_sq a (0, -1) 2) = Empty ->
    piece_at b (add_sq a (0, -1) 3) = Empty ->
    Move_init a (add_sq a (0, -1) 2) b false true = Some m ->
    castle_move b w rights a m.

(** The squares computed at lines 255-269 of [generate_valid_moves] for the
    single recorded check [c]. *)
Definition valid_tile_step_pure (kloc : Z * Z) (c : Pin) (i : Z)
    (valid_tiles : list (Z * Z)) : ctl * list (Z * Z) :=
  let '(check_row, check_col, dr, dc) := c in
  let valid_row := fst kloc + dr * i in
  let valid_col := snd kloc + dc * i in
  let tiles' := valid_tiles ++ [(valid_row, valid_col)] in
  if (valid_row =? check_row) && (valid_col =? check_col)
  then (Break, tiles')
  else (Continue, tiles').

Definition blocking_tiles (b : Board) (kloc : Z * Z) (c : Pin)
    : list (Z * Z) :=
  if has_kind (piece_at b (pin_square c)) Knight
  then [pin_square c]
  else snd (loop_run (py_range 1 8) (valid_tile_step_pure kloc c) []).

(** The test of the loop at lines 271-275: the move is deleted. *)
Definition filtered_out (valid_tiles : list (Z * Z)) (m : Move) : bool :=
  negb (has_kind (piece_moved m) King)
  && negb (existsb (pair_eqb (end_row m, end_col m)) valid_tiles).

(** The moves [generate_valid_moves] returns in state [s]. *)
Inductive generated (NO_VALUE : Z) (s : GameState) : Move -> Prop :=
| gen_free m :
    fst (fst (analyze_state NO_VALUE s)) = false ->
    possible_move NO_VALUE (board s) (white_to_move s)
      (en_passant_possible s) (snd (fst (analyze_state NO_VALUE s))) m ->
    generated NO_VALUE s m
| gen_single c m :
    fst (fst (analyze_state NO_VALUE s)) = true ->
    snd (analyze_state NO_VALUE s) = [c] ->
    possible_move NO_VALUE (board s) (white_to_move s)
      (en_passant_possible s) (snd (fst (analyze_state NO_VALUE s))) m ->
    filtered_out (blocking_tiles (board s) (own_king_location s) c) m = false ->
    generated NO_VALUE s m
| gen_double m :
    fst (fst (analyze_state NO_VALUE s)) = true ->
    king_move NO_VALUE (board s) (white_to_move s) (own_king_location s) m ->
    generated NO_VALUE s m
| gen_castle m :
    castle_move (board s) (white_to_move s) (current_castling_rights s)
                (own_king_location s) m ->
    generated NO_VALUE s m.

(** The moves [generate_valid_moves] returns in state [s], by the branch
    that builds them: with no check reported, the moves of
    [__get_all_possible_moves]; with exactly one check in the list, those of
    them that a king makes or that end on one of the blocking squares; with a
    check reported and any other number of entries in the list, the steps
    [__get_king_moves] builds from the recorded location of the king, for
    whatever stands there; and in every case the castling moves. *)
Inductive returned (NO_VALUE : Z) (s : GameState) : Move -> Prop :=
| ret_free m :
    fst (fst (analyze_state NO_VALUE s)) = false ->
    possible_move NO_VALUE (board s) (white_to_move s)
      (en_passant_possible s) (snd (fst (analyze_state NO_VALUE s))) m ->
    returned NO_VALUE s m
| ret_single c m :
    fst (fst (analyze_state NO_VALUE s)) = true ->
    snd (analyze_state NO_VALUE s) = [c] ->
    possible_move NO_VALUE (board s) (white_to_move s)
      (en_passant_possible s) (snd (fst (analyze_state NO_VALUE s))) m ->
    filtered_out (blocking_tiles (board s) (own_king_location s) c) m = false ->
    returned NO_VALUE s m
| ret_double m :
    fst (fst (analyze_state NO_VALUE s)) = true ->
    List.length (snd (analyze_state NO_VALUE s)) <> 1%nat ->
    king_move NO_VALUE (board s) (white_to_move s) (own_king_location s) m ->
    returned NO_VALUE s m
| ret_castle m :
    castle_move (board s) (white_to_move s) (current_castling_rights s)
                (own_king_location s) m ->
    returned NO_VALUE s m.

(** A side that may still castle has its king recorded on its home square. *)
Definition home_ok (s : GameState) : Prop :=
  (wks (current_castling_rights s) || wqs (current_castling_rights s) = true
   -> white_king_location s = (7, 4))
  /\ (bks (current_castling_rights s) || bqs (current_castling_rights s) = true
      -> black_king_location s = (0, 4)).

(** ** The effect of [make_move] as a function

    On a board of eight rows of eight squares, and for a move between
    squares of the board, [make_move] cannot raise; its effect is written
    out here field by field and proved equal to the monadic code. *)

(** [board[r][c] = x] on a square of the board. *)
Definition put (b : Board) (p : Z * Z) (x : piece) : Board :=
  match board_set b (fst p) (snd p) x with
  | Some b' => b'
  | None => b
  end.

Definition make_move_board (m : Move) (b : Board) : Board :=
  let b1 := put b (move_start m) Empty in
  let b2 := put b1 (move_end m) (piece_moved m) in
  let b3 :=
    if is_pawn_promotion m
    then match promoted (piece_moved m) with
         | Some q => put b2 (move_end m) q
         | None => b2
         end
    else b2 in
  let b4 :=
    if is_en_passant m then put b3 (start_row m, end_col m) Empty else b3 in
  if is_castle m then
    if end_col m - start_col m =? 2 then
      put (put b4 (end_row m, end_col m - 1)
               (piece_at b4 (end_row m, end_col m + 1)))
          (end_row m, end_col m + 1) Empty
    else
      put (put b4 (end_row m, end_col m + 1)
               (piece_at b4 (end_row m, end_col m - 2)))
          (end_row m, end_col m - 2) Empty
  else b4.

Definition made (NO_VALUE : Z) (m : Move) (s : GameState) : GameState :=
  let cr := update_castle_rights_pure m (current_castling_rights s) in
  mkGameState
    (make_move_board m (board s))
    (negb (white_to_move s))
    (valid_moves s)
    (move_log s ++ [m])
    (if piece_eqb (piece_moved m) (Piece White King)
     then move_end m else white_king_location s)
    (if piece_eqb (piece_moved m) (Piece White King)
     then black_king_location s
     else if piece_eqb (piece_moved m) (Piece Black King)
          then move_end m else black_king_location s)
    false false (in_check s) (pins s) (checks s)
    (if is_double_step m
     then ((start_row m + end_row m) / 2, end_col m)
     else NO_PAIR NO_VALUE)
    cr (castle_rights_log s ++ [cr]) (stdout s).

(** ** Well-formed game states

    What every state reached by playing generated moves satisfies, and what
    the generators rely on. *)

Definition rights_of (c : color) (cr : CastleRights) : bool :=
  match c with
  | White => wks cr || wqs cr
  | Black => bks cr || bqs cr
  end.

(** The square on which the king of a colour starts. *)
Definition home (c : color) : Z * Z :=
  match c with White => (7, 4) | Black => (0, 4) end.

(** Two squares that are equal or touch. *)
Definition near (p q : Z * Z) : Prop :=
  Z.abs (fst p - fst q) <= 1 /\ Z.abs (snd p - snd q) <= 1.

(** The en-passant target is unset, or it is the empty square that a pawn
    of the side that just moved has passed over in its double step. *)
Definition ep_ok (NO_VALUE : Z) (s : GameState) : Prop :=
  en_passant_possible s = NO_PAIR NO_VALUE
  \/ exists col,
       0 <= col < 8
       /\ en_passant_possible s = ((if white_to_move s then 2 else 5), col)
       /\ piece_at (board s) ((if white_to_move s then 2 else 5), col) = Empty
       /\ piece_at (board s) ((if white_to_move s then 3 else 4), col)
          = Piece (enemy_of (white_to_move s)) Pawn.

(** A castling right that is still held has its rook in the corner. *)
Definition rooks_ok (s : GameState) : Prop :=
  (wks (current_castling_rights s) = true ->
   piece_at (board s) (7, 7) = Piece White Rook)
  /\ (wqs (current_castling_rights s) = true ->
      piece_at (board s) (7, 0) = Piece White Rook)
  /\ (bks (current_castling_rights s) = true ->
      piece_at (board s) (0, 7) = Piece Black Rook)
  /\ (bqs (current_castling_rights s) = true ->
      piece_at (board s) (0, 0) = Piece Black Rook).

Record Inv (NO_VALUE : Z) (s : GameState) : Prop := mkInv {
  inv_board : board_8x8 (board s);
  inv_kings : kings_ok s;
  inv_pawns : pawns_ok (board s);
  inv_white_king : sq_on_board (white_king_location s);
  inv_black_king : sq_on_board (black_king_location s);
  (** a side that may still castle has its king on its home square *)
  inv_home : forall c,
    rights_of c (current_castling_rights s) = true ->
    king_location c s = home c
    /\ piece_at (board s) (home c) = Piece c King;
  inv_rooks : rooks_ok s;
  inv_ep : ep_ok NO_VALUE s;
  (** the other king is recorded away from that home square *)
  inv_far : forall c,
    rights_of c (current_castling_rights s) = true ->
    ~ near (king_location (opposite c) s) (home c);
  (** the side that has just moved and may still castle has not left its
      king to be taken *)
  inv_safe : forall q,
    rights_of (enemy_of (white_to_move s)) (current_castling_rights s) = true ->
    ~ attacks (board s) (ally_of (white_to_move s))
              (home (enemy_of (white_to_move s))) q
}.

(** The fields the invariant and the generators depend on. *)
Definition same_core (s s' : GameState) : Prop :=
  board s' = board s
  /\ white_to_move s' = white_to_move s
  /\ white_king_location s' = white_king_location s
  /\ black_king_location s' = black_king_location s
  /\ en_passant_possible s' = en_passant_possible s
  /\ current_castling_rights s' = current_castling_rights s.

(** What is used of a generated move [m] of the state [s] when its effect
    on the state is worked out. *)
Record move_facts (NO_VALUE : Z) (s : GameState) (m : Move) : Prop :=
  mkMoveFacts {
  mf_start : sq_on_board (move_start m);
  mf_end : sq_on_board (move_end m);
  mf_init :
    Move_init (move_start m) (move_end m) (board s)
              (is_en_passant m) (is_castle m) = Some m;
  mf_distinct : move_start m <> move_end m;
  (** the target square is not held by the side to move *)
  mf_target :
    has_color (piece_at (board s) (move_end m)) (ally_of (white_to_move s))
    = false;
  (** a piece of the side to move is taken up, or whatever stands on the
      recorded square of its king *)
  mf_mover :
    has_color (piece_at (board s) (move_start m)) (ally_of (white_to_move s))
    = true
    \/ move_start m = own_king_location s;
  mf_castle :
    is_castle m = true ->
    move_start m = home (ally_of (white_to_move s))
    /\ piece_at (board s) (move_start m)
       = Piece (ally_of (white_to_move s)) King
    /\ is_en_passant m = false
    /\ start_row m = end_row m
    /\ ((end_col m = 6
         /\ piece_at (board s) (start_row m, 7)
            = Piece (ally_of (white_to_move s)) Rook
         /\ piece_at (board s) (start_row m, 5) = Empty
         /\ piece_at (board s) (start_row m, 6) = Empty)
        \/ (end_col m = 2
            /\ piece_at (board s) (start_row m, 0)
               = Piece (ally_of (white_to_move s)) Rook
            /\ piece_at (board s) (start_row m, 1) = Empty
            /\ piece_at (board s) (start_row m, 2) = Empty
            /\ piece_at (board s) (start_row m, 3) = Empty));
  mf_en_passant :
    is_en_passant m = true ->
    piece_at (board s) (move_start m) = Piece (ally_of (white_to_move s)) Pawn
    /\ start_row m = (if white_to_move s then 3 else 4)
    /\ end_row m = (if white_to_move s then 2 else 5)
    /\ (end_col m = start_col m + 1 \/ end_col m = start_col m - 1)
    /\ piece_at (board s) (move_end m) = Empty
    /\ piece_at (board s) (start_row m, end_col m)
       = Piece (enemy_of (white_to_move s)) Pawn;
  mf_double :
    is_double_step m = true ->
    piece_at (board s) (move_start m) = Piece (ally_of (white_to_move s)) Pawn
    /\ start_row m = (if white_to_move s then 6 else 1)
    /\ end_row m = (if white_to_move s then 4 else 3)
    /\ end_col m = start_col m
    /\ piece_at (board s) ((if white_to_move s then 5 else 2), start_col m)
       = Empty
    /\ piece_at (board s) (move_end m) = Empty
    /\ is_en_passant m = false /\ is_castle m = false;
  (** a capture is made by a piece that attacks the square, or by a step
      from the square of the king *)
  mf_capture :
    piece_at (board s) (move_end m) <> Empty ->
    attacks (board s) (ally_of (white_to_move s)) (move_end m) (move_start m)
    \/ (near (move_start m) (move_end m)
        /\ (piece_at (board s) (move_start m)
            = Piece (ally_of (white_to_move s)) King
            \/ move_start m = own_king_location s));
  (** a step of the king goes to a square on which the analyzer reports no
      check *)
  mf_king_step :
    piece_at (board s) (move_start m) = Piece (ally_of (white_to_move s)) King ->
    is_castle m = false ->
    near (move_start m) (move_end m)
    /\ fst (fst (analyze NO_VALUE (board s)
                   (ally_of (white_to_move s)) (enemy_of (white_to_move s))
                   (end_row m) (end_col m))) = false
}.

(** The piece that stands on the target square after the move. *)
Definition landed (m : Move) : piece :=
  if is_pawn_promotion m
  then match promoted (piece_moved m) with
       | Some q => q
       | None => piece_moved m
       end
  else piece_moved m.

(** The column the rook of a castling move comes from, and the one it goes
    to. *)
Definition rook_from (m : Move) : Z * Z :=
  (end_row m, if end_col m =? 6 then 7 else 0).
Definition rook_to (m : Move) : Z * Z :=
  (end_row m, if end_col m =? 6 then 5 else 3).

(** The board after a generated move, square by square. *)
Definition after_move (m : Move) (b : Board) (x : Z * Z) : piece :=
  if is_castle m && pair_eqb x (rook_from m) then Empty
  else if is_castle m && pair_eqb x (rook_to m) then piece_at b (rook_from m)
  else if is_en_passant m && pair_eqb x (start_row m, end_col m) then Empty
  else if pair_eqb x (move_end m) then landed m
  else if pair_eqb x (move_start m) then Empty
  else piece_at b x.

(** One castling right, and the corner its rook starts on. *)
Definition right_of (c : color) (ks : bool) (cr : CastleRights) : bool :=
  match c, ks with
  | White, true => wks cr
  | White, false => wqs cr
  | Black, true => bks cr
  | Black, false => bqs cr
  end.

Definition corner (c : color) (ks : bool) : Z * Z :=
  (fst (home c), if ks then 7 else 0).

(** ** The generators do not raise *)

(** The computation [m] returns when it is run in the state [s]. *)
Definition runs_at {A} (s : GameState) (m : M GameState A) : Prop :=
  exists a s', m s = Some (a, s').

(** The en-passant target names a square of the board, or is unset. *)
Definition ep_fine (NO_VALUE : Z) (s : GameState) : Prop :=
  en_passant_possible s = NO_PAIR NO_VALUE
  \/ sq_on_board (en_passant_possible s).

(** What [generate_valid_moves] needs of the state to return, and to leave
    the position as it found it. *)
Record Gen_ok (NO_VALUE : Z) (s : GameState) : Prop := mkGenOk {
  go_board : board_8x8 (board s);
  go_kings : kings_ok s;
  go_pawns : pawns_ok (board s);
  go_white_king : sq_on_board (white_king_location s);
  go_black_king : sq_on_board (black_king_location s);
  go_home : home_ok s;
  go_ep : ep_fine NO_VALUE s
}.

(** ** The generator does not read the stored move set

    [generate_valid_moves] assigns [self.valid_moves] at its end and never
    reads it; a computation with that property commutes with a change of
    the field. *)
Definition ignores_valid_moves {A} (m : M GameState A) : Prop :=
  forall v s,
    m (set_valid_moves v s)
    = match m s with
      | Some (a, s') => Some (a, set_valid_moves v s')
      | None => None
      end.

(** Two states that differ at most in the fields the generator overwrites
    before it reads them: [valid_moves], [in_check], [pins], [checks]. *)
Definition same_position (s s' : GameState) : Prop :=
  s' = set_valid_moves (valid_moves s')
         (set_checks (checks s')
            (set_pins (pins s') (set_in_check (in_check s') s))).

(** ** Undoing a generated move *)

(** What the searches rely on when they come back to a position: every
    field but the en-passant target, the stored move set, the analysis of
    the last generation and the game-over flags. *)
Definition steady (s t : GameState) : Prop :=
  board t = board s
  /\ white_to_move t = white_to_move s
  /\ white_king_location t = white_king_location s
  /\ black_king_location t = black_king_location s
  /\ current_castling_rights t = current_castling_rights s
  /\ move_log t = move_log s
  /\ castle_rights_log t = castle_rights_log s
  /\ stdout t = stdout s.

(** The log of castling rights ends with the rights in force. *)
Definition log_ok (s : GameState) : Prop :=
  exists l, castle_rights_log s = l ++ [current_castling_rights s].

(** The board between the first part of [undo_move] and its last: the
    position before the move, but for the rook of a castling move. *)
Definition half_undone (m : Move) (b : Board) (x : Z * Z) : piece :=
  if is_castle m && pair_eqb x (rook_from m) then Empty
  else if is_castle m && pair_eqb x (rook_to m) then piece_at b (rook_from m)
  else piece_at b x.

(** ** The size of a score *)

(** The worth of a piece on a square: its material value and its entry in
    the piece table. *)
Definition square_worth (p : piece) (r c : Z) : option Z :=
  match p with
  | Empty => Some 0
  | Piece _ k =>
      match (if negb (kind_eqb k King)
             then match PIECE_POSITION_SCORES p with
                  | Some t => table_get t r c
                  | None => None
                  end
             else Some 0) with
      | Some x => Some (MATERIAL_VALUES k + x)
      | None => None
      end
  end.


(** ** The two negamax searches *)

(** What a search with the window [(alpha, beta)] tells about the value [v]
    of the full search: its result [r] is [v] inside the window, an upper
    bound of [v] below it and a lower bound above it. *)
Definition within (alpha beta v r : Z) : Prop :=
  (r <= alpha -> v <= r) /\ (alpha < r < beta -> r = v)
  /\ (beta <= r -> r <= v).

(** What is shown of the two searches by induction on the recursion bound:
    started in the same game state, at a position [s] of a game whose moves
    are [valid_moves], both return, the plain search with a value between
    [- CHECKMATE] and [CHECKMATE], the pruned one with a result that is
    [within] its window of that value; both leave the position as it
    was. *)
Definition searches_agree (NO_VALUE MAX_DEPTH : Z) (fuel : nat) : Prop :=
  forall depth valid_moves wtm alpha beta s g bm1 bm2,
    (Z.to_nat depth < fuel)%nat ->
    Inv NO_VALUE s -> log_ok s ->
    (forall m, In m (dict_values valid_moves) -> generated NO_VALUE s m) ->
    steady s g -> ep_fine NO_VALUE g ->
    - CHECKMATE <= alpha -> alpha < beta -> beta <= CHECKMATE ->
    exists v r g1 bm1' g2 bm2',
      find_move_negamax NO_VALUE MAX_DEPTH fuel valid_moves wtm depth
        (mkChessAI g bm1) = Some (v, mkChessAI g1 bm1')
      /\ find_move_negamax_alpha_beta NO_VALUE MAX_DEPTH fuel valid_moves
           alpha beta wtm depth (mkChessAI g bm2)
         = Some (r, mkChessAI g2 bm2')
      /\ steady s g1 /\ ep_fine NO_VALUE g1
      /\ steady s g2 /\ ep_fine NO_VALUE g2
      /\ - CHECKMATE <= v <= CHECKMATE
      /\ within alpha beta v r.

(** ** What the check detector reports *)

(** The square [e] is attacked by a piece of colour [att]: by a queen, rook,
    bishop, knight or pawn as [attacks] has it, or by a king on a
    neighbouring square. *)
Definition attacked (b : Board) (att : color) (e : Z * Z) : Prop :=
  (exists q, attacks b att e q)
  \/ (exists d, In d sliding_directions
                /\ sq_on_board (add_sq e d 1)
                /\ piece_at b (add_sq e d 1) = Piece att King).

(** ** The move dictionaries *)

(** A move dictionary as the generators build them: every move is stored
    under its own [move_id], and no key occurs twice. *)
Definition dict_ok (d : MoveDict) : Prop :=
  Forall (fun kv => fst kv = move_id (snd kv)) d /\ NoDup (map fst d).

(** Every result of the computation [m] satisfies [P]. *)
Definition yields {A} (P : A -> Prop) (m : M GameState A) : Prop :=
  forall s a s', m s = Some (a, s') -> P a.

(** ** Rank and file notation ([Chess/utils/pieces.py]) *)

(** A [dict] read by key; a missing key is [KeyError]. *)
Fixpoint lookup {K V} (eqb : K -> K -> bool) (d : list (K * V)) (k : K)
    : option V :=
  match d with
  | [] => None
  | (k', v) :: t => if eqb k' k then Some v else lookup eqb t k
  end.

(** [{v: k for k, v in d.items()}]: a later item replaces an earlier one
    with the same value. *)
Fixpoint assoc_set {K V} (eqb : K -> K -> bool) (d : list (K * V)) (k : K)
    (v : V) : list (K * V) :=
  match d with
  | [] => [(k, v)]
  | (k', v') :: t =>
      if eqb k' k then (k', v) :: t else (k', v') :: assoc_set eqb t k v
  end.

Definition invert {K V} (eqb : V -> V -> bool) (d : list (K * V))
    : list (V * K) :=
  fold_left (fun acc kv => assoc_set eqb acc (snd kv) (fst kv)) d [].

Definition RANKS_TO_ROWS : list (string * Z) :=
  [ ("1", 7); ("2", 6); ("3", 5); ("4", 4);
    ("5", 3); ("6", 2); ("7", 1); ("8", 0) ]%string.

Definition ROWS_TO_RANKS : list (Z * string) := invert Z.eqb RANKS_TO_ROWS.

Definition FILES_TO_COLS : list (string * Z) :=
  [ ("A", 0); ("B", 1); ("C", 2); ("D", 3);
    ("E", 4); ("F", 5); ("G", 6); ("H", 7) ]%string.

Definition COLS_TO_FILES : list (Z * string) := invert Z.eqb FILES_TO_COLS.

(** [get_rank_file]: [COLS_TO_FILES[col] + ROWS_TO_RANKS[row]] *)
Definition get_rank_file (row col : Z) : option string :=
  match lookup Z.eqb COLS_TO_FILES col with
  | None => None
  | Some f =>
      match lookup Z.eqb ROWS_TO_RANKS row with
      | None => None
      | Some r => Some (f ++ r)%string
      end
  end.

(** [Move.get_chess_notation] *)
Definition get_chess_notation (m : Move) : option string :=
  match get_rank_file (start_row m) (start_col m) with
  | None => None
  | Some a =>
      match get_rank_file (end_row m) (end_col m) with
      | None => None
      | Some b => Some (a ++ b)%string
      end
  end.

(** ** Choosing the move ([find_move] of the AI classes) *)

(** [random.choice(seq)]: [IndexError] on an empty sequence, otherwise the
    element at an index below [len(seq)] drawn by the generator; [pick] is
    the number drawn. *)
Definition random_choice {A} (pick : nat) (l : list A) : option A :=
  match l with
  | [] => None
  | _ => nth_error l (Nat.modulo pick (List.length l))
  end.

(** The list of best moves after the bookkeeping of [track_best] with the
    comparison [>]. *)
Definition best_after (MAX_DEPTH depth : Z) (move : Move) (score best : Z)
    (bm : list Move) : list Move :=
  if depth =? MAX_DEPTH then
    if score >? best then [move]
    else if score =? best then bm ++ [move]
    else bm
  else bm.

Section FindMove.

Variable NO_VALUE : Z.
Variable MAX_DEPTH : Z.

(** [RandomChessAI.find_move] *)
Definition Random_find_move (pick : nat) : M ChessAI Move :=
  g <- gets game_state ;;
  lift (random_choice pick (dict_values (valid_moves g))).

(** [MinimaxChessAI.find_move]; the arguments of the call are evaluated in
    the order written, [generate_valid_moves()] first. *)
Definition Minimax_find_move (fuel pick : nat) : M ChessAI Move :=
  modify (set_best_moves []) ;;;
  moves <- on_game (generate_valid_moves NO_VALUE) ;;
  g <- gets game_state ;;
  find_move_minimax NO_VALUE MAX_DEPTH fuel moves (white_to_move g)
                    MAX_DEPTH ;;;
  bm <- gets best_moves ;;
  lift (random_choice pick bm).

(** [NegamaxChessAI.find_move] *)
Definition Negamax_find_move (fuel pick : nat) : M ChessAI Move :=
  modify (set_best_moves []) ;;;
  moves <- on_game (generate_valid_moves NO_VALUE) ;;
  g <- gets game_state ;;
  find_move_negamax NO_VALUE MAX_DEPTH fuel moves (white_to_move g)
                    MAX_DEPTH ;;;
  bm <- gets best_moves ;;
  lift (random_choice pick bm).

(** [NegamaxAlphaBetaChessAI.find_move] *)
Definition NegamaxAlphaBeta_find_move (fuel pick : nat) : M ChessAI Move :=
  modify (set_best_moves []) ;;;
  moves <- on_game (generate_valid_moves NO_VALUE) ;;
  g <- gets game_state ;;
  find_move_negamax_alpha_beta NO_VALUE MAX_DEPTH fuel moves
    (- CHECKMATE) CHECKMATE (white_to_move g) MAX_DEPTH ;;;
  bm <- gets best_moves ;;
  lift (random_choice pick bm).

(** [GreedyChessAI.find_move].  The score of one reply of the opponent: *)
Definition greedy_reply (opponent_move : Move) (opponent_max_score : Z)
    : M ChessAI (ctl * Z) :=
  on_game (make_move NO_VALUE opponent_move) ;;;
  g <- gets game_state ;;
  let opponent_score :=
    if checkmate g then CHECKMATE
    else if stalemate g then STALEMATE
    else - score_material g in
  let opponent_max_score' :=
    if opponent_score >? opponent_max_score
    then opponent_score else opponent_max_score in
  on_game (undo_move NO_VALUE) ;;;
  ret (Continue, opponent_max_score').

(** The body of the loop over the moves; the accumulator is
    [(minimax, best_moves)]. *)
Definition greedy_step (move : Move) (acc : Z * list Move)
    : M ChessAI (ctl * (Z * list Move)) :=
  let '(minimax, best) := acc in
  on_game (make_move NO_VALUE move) ;;;
  opponent_moves <- on_game (generate_valid_moves NO_VALUE) ;;
  g <- gets game_state ;;
  opponent_max_score <-
    (if stalemate g then ret STALEMATE
     else if checkmate g then ret (- CHECKMATE)
     else for_loop (dict_values opponent_moves) greedy_reply (- CHECKMATE)) ;;
  let acc' :=
    if opponent_max_score <? minimax then (opponent_max_score, [move])
    else if minimax =? opponent_max_score then (minimax, best ++ [move])
    else (minimax, best) in
  on_game (undo_move NO_VALUE) ;;;
  ret (Continue, acc').

Definition Greedy_find_move (pick : nat) : M ChessAI Move :=
  g <- gets game_state ;;
  r <- for_loop (dict_values (valid_moves g)) greedy_step (CHECKMATE, []) ;;
  lift (random_choice pick (snd r)).

End FindMove.

(** A computation of the AI that leaves the list of best moves alone. *)
Definition keeps_best {A} (m : M ChessAI A) : Prop :=
  forall ai a ai', m ai = Some (a, ai') -> best_moves ai' = best_moves ai.


(** Two runs of a search from states that agree with [s] on the position:
    both raise, or both return the same value and leave the position of
    [s]. *)
Definition same_outcome (NO_VALUE : Z) (s : GameState)
    (r1 r2 : option (Z * ChessAI)) : Prop :=
  match r1, r2 with
  | Some (v1, a1), Some (v2, a2) =>
      v1 = v2
      /\ steady s (game_state a1) /\ ep_fine NO_VALUE (game_state a1)
      /\ steady s (game_state a2) /\ ep_fine NO_VALUE (game_state a2)
  | None, None => True
  | _, _ => False
  end.

Definition minimax_any_depth (NO_VALUE MAX_DEPTH : Z) (fuel : nat) : Prop :=
  forall d1 d2 valid_moves wtm s g1 bm1 g2 bm2,
    Inv NO_VALUE s -> log_ok s ->
    (forall m, In m (dict_values valid_moves) -> generated NO_VALUE s m) ->
    steady s g1 -> ep_fine NO_VALUE g1 ->
    steady s g2 -> ep_fine NO_VALUE g2 ->
    same_outcome NO_VALUE s
      (find_move_minimax NO_VALUE MAX_DEPTH fuel valid_moves wtm d1
         (mkChessAI g1 bm1))
      (find_move_minimax NO_VALUE MAX_DEPTH fuel valid_moves wtm d2
         (mkChessAI g2 bm2)).

(** ** The position seen from the other side

    The board turned upside down with the colours exchanged and the other
    side to move; the evaluation is compared on a position and its mirror
    image. *)
Definition flip_piece (p : piece) : piece :=
  match p with
  | Piece White k => Piece Black k
  | Piece Black k => Piece White k
  | Empty => Empty
  end.

Definition mirror_board (b : Board) : Board :=
  rev (map (map flip_piece) b).

Definition mirror (s : GameState) : GameState :=
  set_white_to_move (negb (white_to_move s))
    (set_board (mirror_board (board s)) s).

(** What a square adds to [score_material_piece_table]. *)
Definition signed_worth (p : piece) (r c : Z) : Z :=
  match square_worth p r c with
  | Some x => match p with Piece Black _ => - x | _ => x end
  | None => 0
  end.

Definition zsum (l : list Z) : Z := fold_right Z.add 0 l.

(** ** The piece-square score as the specification words it

    For every piece its material value, and for every piece but a king the
    entry of the table of its kind for its square, the tables of black being
    those of white with the rows reversed; the sum counts white positive and
    black negative. *)
Definition table_cell (t : Table) (r c : Z) : Z :=
  nth (Z.to_nat c) (nth (Z.to_nat r) t []) 0.

Definition positional_bonus (col : color) (k : kind) (r c : Z) : Z :=
  let row := match col with White => r | Black => 7 - r end in
  match k with
  | Pawn => table_cell PAWN_TABLE row c
  | Knight => table_cell KNIGHT_TABLE row c
  | Bishop => table_cell BISHOP_TABLE row c
  | Rook => table_cell ROOK_TABLE row c
  | Queen => table_cell QUEEN_TABLE row c
  | King => 0
  end.

Definition piece_square_term (p : piece) (r c : Z) : Z :=
  match p with
  | Empty => 0
  | Piece White k => MATERIAL_VALUES k + positional_bonus White k r c
  | Piece Black k => - (MATERIAL_VALUES k + positional_bonus Black k r c)
  end.

Definition piece_square_score (b : Board) : Z :=
  zsum (map (fun r =>
               zsum (map (fun c => piece_square_term (at_square b r c) r c)
                         (py_range 0 8)))
            (py_range 0 8)).
(** * Properties *)

Lemma color_eqb_eq a b : color_eqb a b = true <-> a = b.
Proof. destruct a, b; simpl; split; congruence. Qed.

Lemma kind_eqb_eq a b : kind_eqb a b = true <-> a = b.
Proof. destruct a, b; simpl; split; congruence. Qed.

Lemma piece_eqb_eq a b : piece_eqb a b = true <-> a = b.
Proof.
  destruct a as [|c k], b as [|c' k']; simpl; split; try congruence.
  - intros H. apply andb_true_iff in H as [Hc Hk].
    apply color_eqb_eq in Hc. apply kind_eqb_eq in Hk. congruence.
  - intros H. injection H as -> ->. apply andb_true_iff.
    split; [apply color_eqb_eq | apply kind_eqb_eq]; reflexivity.
Qed.

(** ** Generic facts about the monad *)

Lemma bind_some {S A B} (m : M S A) (f : A -> M S B) s b s2 :
  bind m f s = Some (b, s2) ->
  exists a s1, m s = Some (a, s1) /\ f a s1 = Some (b, s2).
Proof.
  unfold bind. destruct (m s) as [[a s1]|] eqn:E; [|discriminate].
  intros H. exists a, s1. split; [reflexivity | exact H].
Qed.

Lemma lift_some {S A} (o : option A) (s : S) a s' :
  lift o s = Some (a, s') -> o = Some a /\ s' = s.
Proof.
  unfold lift. destruct o; [|discriminate].
  intros H. injection H as -> ->. split; reflexivity.
Qed.

(** ** Undo on an empty history *)

(** C9: when the move log is empty, [undo_move] returns normally, all it does
    is print its message: the board, the side to move, both king locations,
    the en-passant target, the castling rights and both logs are unchanged. *)
Theorem undo_move_empty_log (NO_VALUE : Z) (s : GameState) :
  move_log s = [] ->
  exists s',
    undo_move NO_VALUE s = Some (tt, s')
    /\ board s' = board s
    /\ white_to_move s' = white_to_move s
    /\ white_king_location s' = white_king_location s
    /\ black_king_location s' = black_king_location s
    /\ en_passant_possible s' = en_passant_possible s
    /\ current_castling_rights s' = current_castling_rights s
    /\ move_log s' = move_log s
    /\ castle_rights_log s' = castle_rights_log s
    /\ stdout s' = stdout s ++ ["No moves to undo!"%string].
Proof.
  intros Hlog.
  exists (set_stdout (stdout s ++ ["No moves to undo!"%string]) s).
  split.
  - unfold undo_move, bind, gets. rewrite Hlog. reflexivity.
  - repeat split; reflexivity.
Qed.

Lemma undo_move_empty_log_witness :
  exists s',
    undo_move NO_SQUARE (GameState_init NO_SQUARE) = Some (tt, s')
    /\ board s' = initial_board
    /\ move_log s' = [].
Proof.
  destruct (undo_move_empty_log NO_SQUARE (GameState_init NO_SQUARE)
              eq_refl) as (s' & Hrun & Hb & _ & _ & _ & _ & _ & Hl & _).
  exists s'. repeat split; assumption.
Defined.

(** ** The captured piece of a move record *)

(** C10: a move built by [Move.__init__] takes its moved piece from the
    start square of the board.  Built with [is_en_passant] it records the
    enemy pawn as captured, the white pawn when the piece on the start
    square is the black pawn and the black pawn otherwise, whatever stands
    on the end square; without the flag the captured piece is the content
    of the end square. *)
Theorem Move_init_piece_captured (start end_ : Z * Z) (b : Board)
    (en_passant castle : bool) (m : Move) :
  Move_init start end_ b en_passant castle = Some m ->
  exists mover,
    board_get b (fst start) (snd start) = Some mover
    /\ piece_moved m = mover
    /\ is_en_passant m = en_passant
    /\ (en_passant = true ->
        (mover = Piece Black Pawn -> piece_captured m = Piece White Pawn)
        /\ (mover <> Piece Black Pawn -> piece_captured m = Piece Black Pawn))
    /\ (en_passant = false ->
        board_get b (fst end_) (snd end_) = Some (piece_captured m)).
Proof.
  unfold Move_init.
  destruct (board_get b (fst start) (snd start)) as [moved|]; [|discriminate].
  destruct (board_get b (fst end_) (snd end_)) as [captured|] eqn:Hend;
    [|discriminate].
  intros H. injection H as <-. cbn.
  exists moved. split; [reflexivity|]. split; [reflexivity|].
  split; [reflexivity|]. split.
  - intros ->. split.
    + intros ->. reflexivity.
    + intros Hne. destruct (piece_eqb moved (Piece Black Pawn)) eqn:E;
        [|reflexivity].
      apply piece_eqb_eq in E. contradiction.
  - intros ->. reflexivity.
Qed.

Lemma Move_init_piece_captured_witness :
  (exists m,
     Move_init (3, 4) (2, 3) (board state_en_passant) true false = Some m
     /\ board_get (board state_en_passant) 3 4 = Some (Piece White Pawn)
     /\ board_get (board state_en_passant) 2 3 = Some Empty
     /\ piece_captured m = Piece Black Pawn)
  /\ (exists m,
        Move_init (4, 3) (5, 4) (board state_black_en_passant) true false
        = Some m
        /\ board_get (board state_black_en_passant) 4 3
           = Some (Piece Black Pawn)
        /\ board_get (board state_black_en_passant) 5 4 = Some Empty
        /\ piece_captured m = Piece White Pawn).
Proof.
  split.
  - destruct (Move_init (3, 4) (2, 3) (board state_en_passant) true false)
      as [m|] eqn:E; [|vm_compute in E; discriminate].
    exists m. split; [reflexivity|]. split; [reflexivity|].
    split; [reflexivity|].
    destruct (Move_init_piece_captured _ _ _ _ _ _ E)
      as (mover & Hb & _ & _ & Hep & _).
    destruct (Hep eq_refl) as [_ Hother]. apply Hother.
    vm_compute in Hb. injection Hb as <-. discriminate.
  - destruct (Move_init (4, 3) (5, 4) (board state_black_en_passant)
                true false) as [m|] eqn:E; [|vm_compute in E; discriminate].
    exists m. split; [reflexivity|]. split; [reflexivity|].
    split; [reflexivity|].
    destruct (Move_init_piece_captured _ _ _ _ _ _ E)
      as (mover & Hb & _ & _ & Hep & _).
    destruct (Hep eq_refl) as [Hblack _]. apply Hblack.
    vm_compute in Hb. injection Hb as <-. reflexivity.
Defined.

(** ** Reachability of the concrete positions *)

Lemma dict_get_in d k m : dict_get d k = Some m -> In m (dict_values d).
Proof.
  induction d as [|[k' v] t IH]; simpl; [discriminate|].
  destruct (k' =? k).
  - intros H. injection H as ->. left. reflexivity.
  - intros H. right. apply IH, H.
Qed.

Lemma play_reachable NV id s s' :
  reachable NV s -> play NV id s = Some (tt, s') -> reachable NV s'.
Proof.
  intros Hr H. unfold play in H.
  apply bind_some in H as (moves & s1 & Hgen & H).
  apply bind_some in H as (m & s1' & Hget & Hmk).
  apply lift_some in Hget as [Hget ->].
  eapply reach_move; eauto using dict_get_in.
Qed.

Lemma plays_reachable NV ids : forall s s',
  reachable NV s -> plays NV ids s = Some (tt, s') -> reachable NV s'.
Proof.
  induction ids as [|i t IH]; simpl; intros s s' Hr H.
  - unfold ret in H. injection H as <-. exact Hr.
  - apply bind_some in H as ([] & s1 & Hp & H).
    eapply IH; [|exact H]. eapply play_reachable; eauto.
Qed.

Lemma run_game_reachable ids s :
  run_game ids = Some s -> reachable NO_SQUARE s.
Proof.
  unfold run_game.
  destruct (plays NO_SQUARE ids (GameState_init NO_SQUARE))
    as [[[] s0]|] eqn:E; [|discriminate].
  intros H. injection H as <-.
  eapply plays_reachable; [apply reach_init | exact E].
Qed.

Lemma state_e4_reachable : reachable NO_SQUARE state_e4.
Proof. apply (run_game_reachable game_e4). vm_compute. reflexivity. Qed.

Lemma state_pawn_h2_reachable : reachable NO_SQUARE state_pawn_h2.
Proof. apply (run_game_reachable game_pawn_h2). vm_compute. reflexivity. Qed.

Lemma state_stalemate_reachable : reachable NO_SQUARE state_stalemate.
Proof. apply (run_game_reachable game_stalemate). vm_compute. reflexivity. Qed.

Lemma state_pawn_up_reachable : reachable NO_SQUARE state_pawn_up.
Proof. apply (run_game_reachable game_pawn_up). vm_compute. reflexivity. Qed.

(** ** Making a move and taking it back *)

Lemma play_some NV id p p2 :
  play NV id p = Some (tt, p2) ->
  exists moves p1 m,
    generate_valid_moves NV p = Some (moves, p1)
    /\ In m (dict_values moves)
    /\ make_move NV m p1 = Some (tt, p2).
Proof.
  intros H. unfold play in H.
  apply bind_some in H as (moves & p1 & Hgen & H).
  apply bind_some in H as (m & p1' & Hget & Hmk).
  apply lift_some in Hget as [Hget ->].
  exists moves, p1, m. eauto using dict_get_in.
Qed.

Lemma round_trip_make_then_undo NV id p p3 :
  make_undo_round_trip NV p ->
  make_then_undo NV id p = Some (tt, p3) ->
  same_game p p3.
Proof.
  intros Hrt H. unfold make_then_undo in H.
  apply bind_some in H as ([] & p2 & Hplay & Hundo).
  apply play_some in Hplay as (moves & p1 & m & Hgen & Hin & Hmk).
  eapply Hrt; eauto.
Qed.

(** C1 fails on the code: after 1. e4 the en-passant target is e3, i.e.
    [(5, 4)]; black's legal move Ng8-f6 is made and undone, and the target is
    left at [(NO_VALUE, NO_VALUE)], because [undo_move] restores it only when
    the undone move is itself an en-passant capture. *)
Theorem make_undo_forgets_en_passant :
  reachable NO_SQUARE state_e4
  /\ en_passant_possible state_e4 = (5, 4)
  /\ (exists p3,
        make_then_undo NO_SQUARE 625 state_e4 = Some (tt, p3)
        /\ board p3 = board state_e4
        /\ en_passant_possible p3 = (NO_SQUARE, NO_SQUARE))
  /\ ~ make_undo_round_trip NO_SQUARE state_e4.
Proof.
  split; [apply state_e4_reachable|]. split; [reflexivity|].
  destruct (make_then_undo NO_SQUARE 625 state_e4) as [[[] p3]|] eqn:E;
    [|vm_compute in E; discriminate].
  split.
  - exists p3. split; [reflexivity|].
    vm_compute in E. injection E as <-. split; reflexivity.
  - intros Hrt.
    pose proof (round_trip_make_then_undo _ _ _ _ Hrt E) as Hs.
    destruct Hs as (_ & _ & _ & _ & _ & Hep & _).
    vm_compute in E. injection E as <-. discriminate Hep.
Qed.

(** ** Legality of the generated moves *)

(** C2 fails on the code: in the position after 1. h4 g5 2. hxg5 h5 3. Nf3 h4
    4. e3 h3 5. Be2 h2 the generator returns the king-side castle e1-g1
    (id 7476); once it is made, the check detector run for white finds the
    king on g1 attacked by the pawn on h2.  [tile_under_attack] only sees
    squares on which an enemy pseudo-move ends, and a pawn has no move onto
    an empty diagonal square. *)
Theorem castle_into_pawn_attack :
  reachable NO_SQUARE state_pawn_h2
  /\ (exists p2,
        play NO_SQUARE 7476 state_pawn_h2 = Some (tt, p2)
        /\ white_king_location p2 = (7, 6)
        /\ mover_in_check NO_SQUARE p2 = Some true)
  /\ ~ moves_keep_king_safe NO_SQUARE state_pawn_h2.
Proof.
  split; [apply state_pawn_h2_reachable|].
  destruct (play NO_SQUARE 7476 state_pawn_h2) as [[[] p2]|] eqn:E;
    [|vm_compute in E; discriminate].
  split.
  - exists p2. split; [reflexivity|].
    vm_compute in E. injection E as <-. split; vm_compute; reflexivity.
  - intros Hsafe.
    destruct (play_some _ _ _ _ E) as (moves & p1 & m & Hgen & Hin & Hmk).
    pose proof (Hsafe _ _ _ _ Hgen Hin Hmk) as Hchk.
    vm_compute in E. injection E as <-.
    vm_compute in Hchk. discriminate Hchk.
Qed.

(** ** Scoring *)

Lemma score_material_row_white row : forall acc,
  fold_left (score_material_tile White Black) row acc
  = acc + fold_right Z.add 0 (map signed_material row).
Proof.
  induction row as [|t row IH]; intros acc; simpl; [lia|].
  rewrite IH. destruct t as [|[] k]; simpl; lia.
Qed.

Lemma score_material_row_black row : forall acc,
  fold_left (score_material_tile Black White) row acc
  = acc - fold_right Z.add 0 (map signed_material row).
Proof.
  induction row as [|t row IH]; intros acc; simpl; [lia|].
  rewrite IH. destruct t as [|[] k]; simpl; lia.
Qed.

Lemma sum_app (l1 l2 : list Z) :
  fold_right Z.add 0 (l1 ++ l2) = fold_right Z.add 0 l1 + fold_right Z.add 0 l2.
Proof. induction l1 as [|x l1 IH]; simpl; [reflexivity|]. rewrite IH. lia. Qed.

Lemma score_material_rows_white b : forall acc,
  fold_left (fun score row =>
               fold_left (score_material_tile White Black) row score) b acc
  = acc + material_balance b.
Proof.
  unfold material_balance.
  induction b as [|row b IH]; intros acc; simpl; [lia|].
  rewrite IH, score_material_row_white, map_app, sum_app. lia.
Qed.

Lemma score_material_rows_black b : forall acc,
  fold_left (fun score row =>
               fold_left (score_material_tile Black White) row score) b acc
  = acc - material_balance b.
Proof.
  unfold material_balance.
  induction b as [|row b IH]; intros acc; simpl; [lia|].
  rewrite IH, score_material_row_black, map_app, sum_app. lia.
Qed.

(** What [score_material] computes: the material balance seen from the
    side to move, the white-positive sum of [MATERIAL_VALUES] when white is
    to move and its negation when black is to move. *)
Lemma score_material_side_to_move (s : GameState) :
  score_material s
  = (if white_to_move s then material_balance (board s)
     else - material_balance (board s)).
Proof.
  unfold score_material. destruct (white_to_move s); simpl.
  - rewrite score_material_rows_white. lia.
  - rewrite score_material_rows_black. lia.
Qed.

(** C5: the material score is not the white-positive sum whichever side is
    to move.  After 1. e4 d5 2. exd5 white is a pawn up, the sum of
    [MATERIAL_VALUES] counted positive for white and negative for black is
    +100, black is to move, and [score_material] returns -100: it counts
    the side to move positive, against its own docstring. *)
Theorem score_material_not_white_positive :
  reachable NO_SQUARE state_pawn_up
  /\ white_to_move state_pawn_up = false
  /\ material_balance (board state_pawn_up) = 100
  /\ score_material state_pawn_up = -100
  /\ score_material state_pawn_up <> material_balance (board state_pawn_up)
  /\ MATERIAL_VALUES Pawn = 100 /\ MATERIAL_VALUES Knight = 320
  /\ MATERIAL_VALUES Bishop = 330 /\ MATERIAL_VALUES Rook = 500
  /\ MATERIAL_VALUES Queen = 900 /\ MATERIAL_VALUES King = 0.
Proof.
  split; [apply state_pawn_up_reachable|].
  repeat split; try reflexivity. vm_compute. discriminate.
Qed.

(** ** The minimax leaf *)

Lemma find_move_minimax_no_moves NV MD fuel wtm depth ai v :
  score_board (game_state ai) = Some v ->
  find_move_minimax NV MD (S fuel) [] wtm depth ai
  = Some ((if wtm then - CHECKMATE else CHECKMATE), ai).
Proof.
  intros Hv. simpl. unfold bind, ai_score_board, gets, lift.
  destruct (depth <=? 0); simpl.
  - unfold bind. rewrite Hv. destruct wtm; reflexivity.
  - destruct wtm; reflexivity.
Qed.

(** C4 fails on the code: the stalemate position, reached by a legal game,
    is handed to [find_move_minimax] at depth 0 with its (empty) move set.
    The board evaluation is 0, but the call returns +CHECKMATE: the value
    of [score_board()] is dropped and the move loop runs at depth 0 too. *)
Theorem minimax_depth_zero_not_evaluation (MAX_DEPTH : Z) (fuel : nat) :
  let ai := mkChessAI state_stalemate_generated [] in
  reachable NO_SQUARE state_stalemate
  /\ generate_valid_moves NO_SQUARE state_stalemate
     = Some ([], state_stalemate_generated)
  /\ score_board (game_state ai) = Some 0
  /\ find_move_minimax NO_SQUARE MAX_DEPTH (S fuel) [] false 0 ai
     = Some (100000, ai).
Proof.
  intros ai. split; [apply state_stalemate_reachable|].
  split; [vm_compute; reflexivity|].
  assert (Hs : score_board (game_state ai) = Some 0) by (vm_compute; reflexivity).
  split; [exact Hs|].
  rewrite (find_move_minimax_no_moves _ _ _ _ _ _ _ Hs). reflexivity.
Qed.

(** ** Read-only computations *)

Lemma readonly_ret {S A} (a : A) : readonly (@ret S A a).
Proof. intros s a' s' H. unfold ret in H. congruence. Qed.

Lemma readonly_gets {S A} (f : S -> A) : readonly (gets f).
Proof. intros s a s' H. unfold gets in H. congruence. Qed.

Lemma readonly_lift {S A} (o : option A) : readonly (@lift S A o).
Proof. intros s a s' H. apply lift_some in H. tauto. Qed.

Lemma readonly_bind {S A B} (m : M S A) (f : A -> M S B) :
  readonly m -> (forall a, readonly (f a)) -> readonly (bind m f).
Proof.
  intros Hm Hf s b s2 H. apply bind_some in H as (a & s1 & H1 & H2).
  apply Hm in H1. subst s1. eapply Hf, H2.
Qed.

Lemma readonly_for_loop {S X A} (xs : list X) (body : X -> A -> M S (ctl * A)) :
  (forall x a, readonly (body x a)) -> forall a, readonly (for_loop xs body a).
Proof.
  intros Hb. induction xs as [|x xs IH]; intros a; simpl.
  - apply readonly_ret.
  - apply readonly_bind; [apply Hb|]. intros [[] a']; simpl.
    + apply IH.
    + apply readonly_ret.
Qed.

Lemma readonly_read_board r c : readonly (read_board r c).
Proof.
  unfold read_board. apply readonly_bind; [apply readonly_gets|].
  intros b. apply readonly_lift.
Qed.

Lemma readonly_new_move st en ep ca : readonly (new_move st en ep ca).
Proof.
  unfold new_move. apply readonly_bind; [apply readonly_gets|].
  intros b. apply readonly_lift.
Qed.

Ltac readonly_step :=
  first
    [ apply readonly_ret | apply readonly_gets | apply readonly_lift
    | apply readonly_read_board | apply readonly_new_move
    | apply readonly_bind; [|intros ?]
    | apply readonly_for_loop; intros ? ?
    | match goal with
      | |- readonly (if ?b then _ else _) => destruct b
      | |- readonly (match ?x with _ => _ end) => destruct x
      | |- readonly (let '_ := ?x in _) => destruct x
      end ].

Lemma readonly_check_for_pins_and_checks NV :
  readonly (check_for_pins_and_checks NV).
Proof.
  unfold check_for_pins_and_checks, ray_scan, ray_step, knight_scan.
  repeat readonly_step.
Qed.

(** ** The frame of the move generators *)

Section FrameBasics.

Variable s0 : GameState.

Lemma keeps_readonly w {A} (m : M GameState A) : readonly m -> keeps s0 w m.
Proof. intros Hm s a s' Hf Hw H. apply Hm in H. subst s'. tauto. Qed.

Lemma keeps_bind w {A B} (m : M GameState A) (f : A -> M GameState B) :
  keeps s0 w m -> (forall a, keeps s0 w (f a)) -> keeps s0 w (bind m f).
Proof.
  intros Hm Hf s b s2 Hfr Hw H. apply bind_some in H as (a & s1 & H1 & H2).
  destruct (Hm _ _ _ Hfr Hw H1) as [Hfr1 Hw1]. eapply Hf; eauto.
Qed.

Lemma keeps_for_loop_in w {X A} (xs : list X)
    (body : X -> A -> M GameState (ctl * A)) :
  (forall x, In x xs -> forall a, keeps s0 w (body x a)) ->
  forall a, keeps s0 w (for_loop xs body a).
Proof.
  induction xs as [|x xs IH]; intros Hb a; simpl.
  - apply keeps_readonly, readonly_ret.
  - apply keeps_bind; [apply Hb; left; reflexivity|]. intros [[] a']; simpl.
    + apply IH. intros y Hy. apply Hb. right. exact Hy.
    + apply keeps_readonly, readonly_ret.
Qed.

Lemma keeps_for_loop w {X A} (xs : list X)
    (body : X -> A -> M GameState (ctl * A)) :
  (forall x a, keeps s0 w (body x a)) ->
  forall a, keeps s0 w (for_loop xs body a).
Proof. intros Hb. apply keeps_for_loop_in. intros x _. apply Hb. Qed.

Lemma keeps_set_pins w ps : keeps s0 w (modify (set_pins ps)).
Proof.
  intros s a s' Hfr Hw H. unfold modify in H. injection H as _ <-.
  split; [|exact Hw]. destruct Hfr. constructor; assumption.
Qed.

End FrameBasics.

Ltac keeps_step :=
  first
    [ apply keeps_set_pins
    | apply keeps_readonly;
      first [ apply readonly_ret | apply readonly_gets | apply readonly_lift
            | apply readonly_read_board | apply readonly_new_move
            | apply readonly_check_for_pins_and_checks ]
    | apply keeps_bind; [|intros ?]
    | apply keeps_for_loop; intros ? ?
    | match goal with
      | |- keeps _ _ (if ?b then _ else _) => destruct b
      | |- keeps _ _ (match ?x with _ => _ end) => destruct x
      | |- keeps _ _ (let '_ := ?x in _) => destruct x
      end ].

Section FrameGenerators.

Variable s0 : GameState.

Lemma keeps_take_pin NV w row col : keeps s0 w (take_pin NV row col).
Proof. unfold take_pin. repeat keeps_step. Qed.

Lemma keeps_take_pin_if_rook NV w row col :
  keeps s0 w (take_pin_if_rook NV row col).
Proof. unfold take_pin_if_rook. repeat keeps_step. Qed.

Lemma keeps_get_pawn_moves NV w row col moves :
  keeps s0 w (get_pawn_moves NV row col moves).
Proof.
  unfold get_pawn_moves, pawn_capture_step, inside_step, outside_step.
  apply keeps_bind; [apply keeps_take_pin|]. intros [pinned dir].
  repeat keeps_step.
Qed.

Lemma keeps_get_moves_from_tiles NV w row col moves tiles :
  keeps s0 w (get_moves_from_tiles NV row col moves tiles).
Proof.
  unfold get_moves_from_tiles, tile_step.
  apply keeps_bind; [apply keeps_take_pin|]. intros [pinned dir].
  repeat keeps_step.
Qed.

Lemma keeps_get_moves_from_directions NV w row col moves ds :
  keeps s0 w (get_moves_from_directions NV row col moves ds).
Proof.
  unfold get_moves_from_directions, direction_scan, direction_step.
  apply keeps_bind; [apply keeps_take_pin_if_rook|]. intros [pinned dir].
  repeat keeps_step.
Qed.


Lemma keeps_king_step NV w row col ally tile moves :
  good_king s0 ally (row, col) ->
  keeps s0 w (king_step NV row col ally tile moves).
Proof.
  intros Hgood. unfold king_step.
  apply keeps_bind; [apply keeps_readonly, readonly_gets|]. intros b.
  destruct (in_bounds b (fst tile) (snd tile));
    [|apply keeps_readonly, readonly_ret].
  apply keeps_bind; [apply keeps_readonly, readonly_read_board|].
  intros end_piece.
  destruct (negb (has_color end_piece ally));
    [|apply keeps_readonly, readonly_ret].
  intros s a s' Hfr Hw H.
  apply bind_some in H as ([] & s1 & Hset & H).
  apply bind_some in H as (r & s2 & Hchk & H).
  apply readonly_check_for_pins_and_checks in Hchk. subst s2.
  destruct r as [[in_chk pns] chks].
  apply bind_some in H as (moves' & s3 & Hmv & H).
  assert (s3 = s1) as ->.
  { destruct (negb in_chk).
    - revert Hmv. apply readonly_bind; [apply readonly_new_move|].
      intros m. apply readonly_ret.
    - revert Hmv. apply readonly_ret. }
  apply bind_some in H as ([] & s4 & Hback & H).
  unfold ret in H. injection H as _ <-.
  destruct ally; simpl in Hset, Hback; unfold modify in Hset, Hback;
    injection Hset as <-; injection Hback as <-; simpl;
    (split; [|exact Hw]); destruct Hfr; constructor; simpl; assumption.
Qed.

Lemma keeps_get_king_moves NV w row col moves :
  good_king s0 (ally_of w) (row, col) ->
  keeps s0 w (get_king_moves NV row col moves).
Proof.
  intros Hgood s a s' Hfr Hw H. unfold get_king_moves in H.
  unfold bind at 1, gets in H. rewrite Hw in H.
  revert H. apply keeps_for_loop; [|exact Hfr|exact Hw].
  intros tile mv. apply keeps_king_step, Hgood.
Qed.

Lemma keeps_square_step NV w row col moves :
  0 <= row -> 0 <= col -> keeps s0 w (square_step NV row col moves).
Proof.
  intros Hrow Hcol s a s' Hfr Hw H. unfold square_step in H.
  apply bind_some in H as (here & s1 & Hread & H).
  pose proof (readonly_read_board _ _ _ _ _ Hread) as ->.
  unfold bind at 1, gets in H. rewrite Hw in H.
  destruct here as [|c k];
    [revert H; apply keeps_readonly; [apply readonly_ret|exact Hfr|exact Hw]|].
  destruct ((color_eqb c White && w) || (color_eqb c Black && negb w)) eqn:Hturn;
    [|revert H; apply keeps_readonly; [apply readonly_ret|exact Hfr|exact Hw]].
  revert H. apply keeps_bind; [|intros; apply keeps_readonly, readonly_ret
                               |exact Hfr|exact Hw].
  destruct k; simpl.
  - apply keeps_get_pawn_moves.
  - apply keeps_get_moves_from_directions.
  - apply keeps_get_moves_from_tiles.
  - apply keeps_get_moves_from_directions.
  - unfold get_queen_moves. apply keeps_bind; [|intros ?];
      apply keeps_get_moves_from_directions.
  - apply keeps_get_king_moves. right.
    assert (c = ally_of w) as <-.
    { destruct c, w; simpl in Hturn; try discriminate; reflexivity. }
    unfold read_board, bind, gets, lift in Hread.
    destruct (board_get (board s) row col) eqn:Hget; [|discriminate].
    injection Hread as ->.
    repeat split; simpl; try assumption.
    rewrite <- (fr_board _ _ Hfr). exact Hget.
Qed.

Lemma py_range_nonneg a b x : 0 <= a -> In x (py_range a b) -> 0 <= x.
Proof.
  intros Ha Hin. unfold py_range in Hin. apply in_map_iff in Hin as (k & <- & _).
  lia.
Qed.

Lemma keeps_get_all_possible_moves NV w :
  keeps s0 w (get_all_possible_moves NV).
Proof.
  unfold get_all_possible_moves.
  apply keeps_bind; [apply keeps_readonly, readonly_gets|]. intros b.
  apply keeps_for_loop_in. intros row Hrow moves. unfold row_step.
  apply keeps_bind; [apply keeps_readonly, readonly_gets|]. intros b'.
  apply keeps_bind; [apply keeps_readonly, readonly_lift|]. intros r.
  apply keeps_bind; [|intros; apply keeps_readonly, readonly_ret].
  apply keeps_for_loop_in. intros col Hcol mv.
  apply keeps_square_step; eapply py_range_nonneg; eauto; lia.
Qed.

Lemma framed_set_white_to_move s v :
  framed s0 s -> framed s0 (set_white_to_move v s).
Proof. intros []. constructor; assumption. Qed.

Lemma keeps_tile_under_attack NV w row col :
  keeps s0 w (tile_under_attack NV row col).
Proof.
  intros s a s' Hfr Hw H. unfold tile_under_attack in H.
  unfold bind at 1, gets in H.
  apply bind_some in H as ([] & s1 & Hflip & H).
  unfold modify in Hflip. injection Hflip as <-.
  apply bind_some in H as (opp & s2 & Hall & H).
  assert (Hw1 : white_to_move (set_white_to_move (negb (white_to_move s)) s)
                = negb w) by (simpl; rewrite Hw; reflexivity).
  destruct (keeps_get_all_possible_moves NV (negb w) _ _ _
              (framed_set_white_to_move s _ Hfr) Hw1 Hall) as [Hfr2 Hw2].
  unfold bind at 1, gets in H.
  apply bind_some in H as ([] & s3 & Hflip & H).
  unfold modify in Hflip. injection Hflip as <-.
  unfold ret in H. injection H as _ <-.
  split; [apply framed_set_white_to_move, Hfr2|].
  simpl. rewrite Hw2. apply negb_involutive.
Qed.


Lemma keeps_get_castle_moves NV w row col moves :
  keeps s0 w (get_castle_moves NV row col moves).
Proof.
  unfold get_castle_moves, get_king_side_castle_moves,
    get_queen_side_castle_moves.
  repeat first [apply keeps_tile_under_attack | keeps_step].
Qed.

Lemma framed_refl : framed s0 s0.
Proof. constructor; try reflexivity; left; reflexivity. Qed.

Lemma own_king_location_good s :
  framed s0 s -> good_king s0 (ally_of (white_to_move s)) (own_king_location s).
Proof.
  intros Hfr. unfold own_king_location.
  destruct (white_to_move s); simpl; apply Hfr.
Qed.

Lemma keeps_generate_candidates NV w : keeps s0 w (generate_candidates NV).
Proof.
  intros s a s' Hfr Hw H. unfold generate_candidates in H.
  unfold bind at 1, gets at 1 in H.
  unfold bind at 1, gets at 1 in H.
  pose proof (own_king_location_good s Hfr) as Hgood. rewrite Hw in Hgood.
  revert H.
  apply keeps_bind; [| |exact Hfr|exact Hw].
  - destruct (in_check s); [|apply keeps_get_all_possible_moves].
    apply keeps_bind; [apply keeps_readonly, readonly_gets|]. intros cs.
    destruct (py_len cs =? 1).
    + unfold valid_tile_step, filter_step.
      repeat first [apply keeps_get_all_possible_moves | keeps_step].
    + apply keeps_get_king_moves.
      destruct (own_king_location s). exact Hgood.
  - intros moves. apply keeps_bind; [apply keeps_readonly, readonly_gets|].
    intros kloc. apply keeps_get_castle_moves.
Qed.

End FrameGenerators.

(** What [generate_valid_moves] does to the state, in one statement. *)
Lemma generate_valid_moves_effect NV s moves s' :
  generate_valid_moves NV s = Some (moves, s') ->
  exists in_chk pns chks,
    check_for_pins_and_checks NV s = Some ((in_chk, pns, chks), s)
    /\ framed (set_checks chks (set_pins pns (set_in_check in_chk s)))
              (set_current_castling_rights (current_castling_rights s')
                 (set_en_passant_possible (en_passant_possible s')
                    (set_checkmate (checkmate s)
                       (set_stalemate (stalemate s)
                          (set_valid_moves (valid_moves s) s')))))
    /\ white_to_move s' = white_to_move s
    /\ en_passant_possible s' = en_passant_possible s
    /\ current_castling_rights s' = current_castling_rights s
    /\ valid_moves s' = moves
    /\ (if py_len moves =? 0
        then if in_chk
             then checkmate s' = true /\ stalemate s' = stalemate s
             else checkmate s' = checkmate s /\ stalemate s' = true
        else checkmate s' = false /\ stalemate s' = false).
Proof.
  intros H. unfold generate_valid_moves in H.
  unfold bind at 1, gets at 1 in H. unfold bind at 1, gets at 1 in H.
  apply bind_some in H as ([[in_chk pns] chks] & s1 & Hchk & H).
  pose proof (readonly_check_for_pins_and_checks NV _ _ _ Hchk) as ->.
  exists in_chk, pns, chks. split; [exact Hchk|].
  unfold bind at 1, modify at 1 in H. unfold bind at 1, modify at 1 in H.
  unfold bind at 1, modify at 1 in H.
  set (s0 := set_checks chks (set_pins pns (set_in_check in_chk s))) in *.
  apply bind_some in H as (mv & s2 & Hcand & H).
  destruct (keeps_generate_candidates s0 NV (white_to_move s) _ _ _
              (framed_refl s0) eq_refl Hcand) as [Hfr Hw].
  unfold bind at 1, modify at 1 in H. unfold bind at 1, modify at 1 in H.
  apply bind_some in H as ([] & s3 & Hflags & H).
  unfold bind, modify, ret in H. injection H as <- <-.
  unfold set_game_over_flags, bind, gets, modify in Hflags. simpl in Hflags.
  rewrite (fr_in_check _ _ Hfr) in Hflags. simpl in Hflags.
  destruct Hfr.
  destruct (py_len mv =? 0); [destruct in_chk|];
    injection Hflags as <-; simpl;
    (split; [constructor; simpl; first [assumption | reflexivity]|]);
    repeat split; first [assumption | reflexivity].
Qed.

(** ** The game-over flags *)

Lemma make_move_clears_flags NV m s s' :
  make_move NV m s = Some (tt, s') ->
  checkmate s' = false /\ stalemate s' = false.
Proof.
  intros H. unfold make_move in H.
  repeat (apply bind_some in H as (? & ? & ? & H)).
  match goal with
  | Hc : modify (set_checkmate false) _ = Some _ |- _ =>
      unfold modify in Hc, H; injection Hc as _ <-; injection H as <-
  end.
  split; reflexivity.
Qed.

Lemma reachable_flags_clear NV s :
  reachable NV s -> checkmate s = false /\ stalemate s = false.
Proof.
  intros [|s0 moves s1 m s2 _ _ _ Hmk].
  - split; reflexivity.
  - eapply make_move_clears_flags, Hmk.
Qed.

(** C3: on a reachable state, after [generate_valid_moves] an empty move set
    comes with exactly one of the two flags, [checkmate] when [in_check]
    holds and [stalemate] otherwise, and a non-empty move set with neither. *)
Theorem generate_valid_moves_game_over (NO_VALUE : Z) (p p' : GameState)
    (moves : MoveDict) :
  reachable NO_VALUE p ->
  generate_valid_moves NO_VALUE p = Some (moves, p') ->
  (moves = [] ->
   (in_check p' = true -> checkmate p' = true /\ stalemate p' = false)
   /\ (in_check p' = false -> checkmate p' = false /\ stalemate p' = true))
  /\ (moves <> [] -> checkmate p' = false /\ stalemate p' = false).
Proof.
  intros Hr Hgen.
  destruct (reachable_flags_clear _ _ Hr) as [Hcm Hsm].
  destruct (generate_valid_moves_effect _ _ _ _ Hgen)
    as (in_chk & pns & chks & _ & Hfr & _ & _ & _ & _ & Hflags).
  pose proof (fr_in_check _ _ Hfr) as Hin. simpl in Hin.
  split.
  - intros ->. simpl in Hflags. rewrite Hin.
    destruct in_chk; destruct Hflags as [H1 H2]; split; intros Hc;
      try discriminate; split; congruence.
  - intros Hne. destruct moves as [|kv moves]; [congruence|].
    assert (Hlen : (py_len (kv :: moves) =? 0) = false).
    { apply Z.eqb_neq. unfold py_len. simpl. lia. }
    rewrite Hlen in Hflags. exact Hflags.
Qed.

Lemma generate_valid_moves_game_over_witness :
  exists p' moves,
    generate_valid_moves NO_SQUARE state_stalemate = Some (moves, p')
    /\ moves = []
    /\ in_check p' = false
    /\ checkmate p' = false /\ stalemate p' = true.
Proof.
  destruct (generate_valid_moves NO_SQUARE state_stalemate)
    as [[moves p']|] eqn:E; [|vm_compute in E; discriminate].
  exists p', moves. split; [reflexivity|].
  assert (Hm : moves = []) by (vm_compute in E; injection E as <- _; reflexivity).
  assert (Hc : in_check p' = false)
    by (vm_compute in E; injection E as _ <-; reflexivity).
  split; [exact Hm|]. split; [exact Hc|].
  destruct (generate_valid_moves_game_over NO_SQUARE state_stalemate p' moves
              state_stalemate_reachable E) as [Hempty _].
  destruct (Hempty Hm) as [_ Hst]. exact (Hst Hc).
Defined.

(** ** The frame of [generate_valid_moves] *)

Lemma good_king_location s c p :
  kings_ok s -> good_king s c p -> p = king_location c s.
Proof.
  intros Hk [H|H]; [exact H|]. symmetry. apply Hk, H.
Qed.

(** When every king stands on its recorded location, the generator leaves
    the board, the side to move, both king locations, the en-passant target
    and the castling rights as they were on entry. *)
Lemma generate_valid_moves_frame NV p moves p' :
  kings_ok p ->
  generate_valid_moves NV p = Some (moves, p') ->
  board p' = board p
  /\ white_to_move p' = white_to_move p
  /\ white_king_location p' = white_king_location p
  /\ black_king_location p' = black_king_location p
  /\ en_passant_possible p' = en_passant_possible p
  /\ current_castling_rights p' = current_castling_rights p.
Proof.
  intros Hk Hgen.
  destruct (generate_valid_moves_effect _ _ _ _ Hgen)
    as (in_chk & pns & chks & _ & Hfr & Hw & Hep & Hcr & _).
  destruct Hfr as [Hb _ _ _ _ _ _ _ _ _ _ Hwk Hbk]. simpl in *.
  repeat split; try assumption.
  - apply (good_king_location p White); assumption.
  - apply (good_king_location p Black); assumption.
Qed.

(** C8 (for the states in which the recorded king locations match the
    board): [generate_valid_moves] returns with the board, the side to move,
    both king locations, the en-passant target and the castling rights equal
    to their values on entry. *)
Theorem generate_valid_moves_restores (NO_VALUE : Z) (p p' : GameState)
    (moves : MoveDict) :
  kings_ok p ->
  generate_valid_moves NO_VALUE p = Some (moves, p') ->
  board p' = board p
  /\ white_to_move p' = white_to_move p
  /\ white_king_location p' = white_king_location p
  /\ black_king_location p' = black_king_location p
  /\ en_passant_possible p' = en_passant_possible p
  /\ current_castling_rights p' = current_castling_rights p.
Proof. apply generate_valid_moves_frame. Qed.

(** ** Boards of eight by eight squares *)

Lemma py_get_in_range {A} (l : list A) i :
  0 <= i < py_len l -> py_get l i = nth_error l (Z.to_nat i).
Proof.
  intros Hi. unfold py_get, py_norm.
  replace (0 <=? i) with true by (symmetry; apply Z.leb_le; lia).
  replace (i <? py_len l) with true by (symmetry; apply Z.ltb_lt; lia).
  reflexivity.
Qed.

Lemma py_set_in_range {A} (l : list A) i x :
  0 <= i < py_len l -> py_set l i x = Some (set_nth l (Z.to_nat i) x).
Proof.
  intros Hi. unfold py_set, py_norm.
  replace (0 <=? i) with true by (symmetry; apply Z.leb_le; lia).
  replace (i <? py_len l) with true by (symmetry; apply Z.ltb_lt; lia).
  reflexivity.
Qed.

Lemma set_nth_length {A} (l : list A) n x :
  List.length (set_nth l n x) = List.length l.
Proof.
  revert n. induction l as [|h t IH]; intros [|n]; simpl; auto.
Qed.

Lemma nth_error_set_nth_same {A} (l : list A) n x :
  (n < List.length l)%nat -> nth_error (set_nth l n x) n = Some x.
Proof.
  revert n. induction l as [|h t IH]; intros [|n] Hn; simpl in *;
    try lia; auto. apply IH. lia.
Qed.

Lemma nth_error_set_nth_other {A} (l : list A) n k x :
  n <> k -> nth_error (set_nth l n x) k = nth_error l k.
Proof.
  revert n k. induction l as [|h t IH]; intros [|n] [|k] Hnk; simpl;
    try congruence; auto.
Qed.

Lemma Forall_set_nth {A} (P : A -> Prop) (l : list A) n x :
  Forall P l -> P x -> Forall P (set_nth l n x).
Proof.
  intros Hl Hx. revert n. induction Hl as [|h t Hh Ht IH]; intros [|n];
    simpl; constructor; auto.
Qed.

Section Board8.

Variable b : Board.
Hypothesis Hb : board_8x8 b.

Lemma board_row r :
  0 <= r < 8 -> exists row, nth_error b (Z.to_nat r) = Some row
                            /\ List.length row = 8%nat.
Proof.
  intros Hr. destruct Hb as [Hlen Hrows].
  destruct (nth_error b (Z.to_nat r)) as [row|] eqn:E.
  - exists row. split; [reflexivity|].
    rewrite Forall_forall in Hrows. eapply Hrows, nth_error_In, E.
  - apply nth_error_None in E. lia.
Qed.

Lemma board_get_on_board r c :
  on_board r c -> board_get b r c = Some (at_square b r c).
Proof.
  intros [Hr Hc]. unfold at_square, board_get.
  destruct (board_row r Hr) as (row & Hrow & Hlen).
  rewrite py_get_in_range by (unfold py_len; destruct Hb; lia).
  rewrite Hrow. rewrite py_get_in_range by (unfold py_len; lia).
  destruct (nth_error row (Z.to_nat c)) eqn:E; [reflexivity|].
  apply nth_error_None in E. lia.
Qed.

Lemma in_bounds_on_board r c : in_bounds b r c = true <-> on_board r c.
Proof.
  unfold in_bounds, on_board. destruct Hb as [Hlen Hrows].
  destruct b as [|row0 rest]; [discriminate|].
  assert (Hrow0 : List.length row0 = 8%nat) by (inversion Hrows; assumption).
  unfold py_len. rewrite Hlen, Hrow0.
  rewrite !andb_true_iff, !Z.leb_le, !Z.ltb_lt. lia.
Qed.

Lemma board_width_8 : board_width b = Some 8.
Proof.
  unfold board_width. destruct Hb as [Hlen Hrows].
  destruct b as [|row0 rest]; [discriminate|].
  assert (Hrow0 : List.length row0 = 8%nat) by (inversion Hrows; assumption).
  rewrite py_get_in_range by (unfold py_len; simpl; lia).
  simpl. unfold py_len. rewrite Hrow0. reflexivity.
Qed.

Lemma py_len_board : py_len b = 8.
Proof. unfold py_len. destruct Hb as [-> _]. reflexivity. Qed.

Lemma board_set_on_board r c x :
  on_board r c ->
  exists b',
    board_set b r c x = Some b'
    /\ board_8x8 b'
    /\ at_square b' r c = x
    /\ (forall r' c', on_board r' c' -> (r', c') <> (r, c) ->
                      at_square b' r' c' = at_square b r' c').
Proof.
  intros [Hr Hc]. unfold board_set.
  destruct (board_row r Hr) as (row & Hrow & Hlen).
  destruct Hb as [Hblen Hrows].
  rewrite py_get_in_range by (unfold py_len; lia). rewrite Hrow.
  rewrite py_set_in_range by (unfold py_len; lia).
  rewrite py_set_in_range by (unfold py_len; lia).
  eexists. split; [reflexivity|].
  assert (Hb' : board_8x8 (set_nth b (Z.to_nat r)
                             (set_nth row (Z.to_nat c) x))).
  { split; [rewrite set_nth_length; exact Hblen|].
    apply Forall_set_nth; [exact Hrows|]. rewrite set_nth_length. exact Hlen. }
  split; [exact Hb'|].
  assert (Hget : forall r' c', on_board r' c' ->
            board_get (set_nth b (Z.to_nat r) (set_nth row (Z.to_nat c) x)) r' c'
            = if (r' =? r) && (c' =? c) then Some x else board_get b r' c').
  { intros r' c' [Hr' Hc']. unfold board_get.
    rewrite !py_get_in_range
      by (unfold py_len; rewrite ?set_nth_length; lia).
    destruct (Z.eqb_spec r' r) as [->|Hne]; simpl.
    - rewrite nth_error_set_nth_same by lia. rewrite Hrow.
      rewrite !py_get_in_range
        by (unfold py_len; rewrite ?set_nth_length; lia).
      destruct (Z.eqb_spec c' c) as [->|Hnc].
      + apply nth_error_set_nth_same. lia.
      + apply nth_error_set_nth_other. lia.
    - rewrite nth_error_set_nth_other by lia. reflexivity. }
  split.
  - unfold at_square. rewrite Hget by (split; assumption).
    rewrite !Z.eqb_refl. reflexivity.
  - intros r' c' Hon Hne. unfold at_square. rewrite (Hget _ _ Hon).
    destruct (Z.eqb_spec r' r) as [->|]; [|reflexivity].
    destruct (Z.eqb_spec c' c) as [->|]; [congruence|reflexivity].
Qed.

End Board8.

(** ** The analyzer is a function of the board *)

Lemma for_loop_pure {S X A} (xs : list X) (body : X -> A -> M S (ctl * A))
    (pure : X -> A -> ctl * A) (s : S) :
  (forall x a, body x a s = Some (pure x a, s)) ->
  forall a, for_loop xs body a s = Some (snd (loop_run xs pure a), s).
Proof.
  intros Hb. induction xs as [|x xs IH]; intros a; simpl; [reflexivity|].
  unfold bind. rewrite Hb. destruct (pure x a) as [[] a']; simpl.
  - apply IH.
  - reflexivity.
Qed.

Lemma read_board_on_board s r c :
  board_8x8 (board s) -> on_board r c ->
  read_board r c s = Some (at_square (board s) r c, s).
Proof.
  intros Hb Hon. unfold read_board, bind, gets, lift.
  rewrite (board_get_on_board _ Hb _ _ Hon). reflexivity.
Qed.

Lemma ray_step_is_pure NV s ally enemy sr sc j d i acc :
  board_8x8 (board s) ->
  ray_step NV ally enemy sr sc j d i acc s
  = Some (ray_step_pure NV (board s) ally enemy sr sc j d i acc, s).
Proof.
  intros Hb. unfold ray_step, ray_step_pure.
  destruct acc as [[[pp ic] pns] chks].
  unfold bind at 1, gets at 1.
  destruct (in_bounds (board s) (sr + fst d * i) (sc + snd d * i)) eqn:Hin;
    [|reflexivity].
  apply in_bounds_on_board in Hin; [|exact Hb].
  unfold bind. rewrite (read_board_on_board _ _ _ Hb Hin).
  destruct (has_color _ ally && negb (has_kind _ King)).
  - destruct (pin_eqb pp (NO_PIN NV)); reflexivity.
  - destruct (has_color _ enemy); [|reflexivity].
    destruct (threatens enemy j i _); [|reflexivity].
    destruct (pin_eqb pp (NO_PIN NV)); reflexivity.
Qed.

Lemma ray_scan_is_pure NV s ally enemy sr sc jd acc :
  board_8x8 (board s) ->
  ray_scan NV ally enemy sr sc jd acc s
  = Some (ray_scan_pure NV (board s) ally enemy sr sc jd acc, s).
Proof.
  intros Hb. unfold ray_scan, ray_scan_pure.
  destruct acc as [[[pp ic] pns] chks].
  unfold bind at 1, gets at 1. unfold bind.
  rewrite (py_len_board _ Hb).
  rewrite (for_loop_pure _ _ (ray_step_pure NV (board s) ally enemy sr sc
                                (fst jd) (snd jd)));
    [reflexivity|].
  intros x a. apply ray_step_is_pure, Hb.
Qed.

Lemma knight_scan_is_pure s enemy sr sc mv acc :
  board_8x8 (board s) ->
  knight_scan enemy sr sc mv acc s
  = Some (knight_scan_pure (board s) enemy sr sc mv acc, s).
Proof.
  intros Hb. unfold knight_scan, knight_scan_pure.
  destruct acc as [[[pp ic] pns] chks].
  unfold bind at 1, gets at 1.
  destruct (in_bounds (board s) (sr + fst mv) (sc + snd mv)) eqn:Hin;
    [|reflexivity].
  apply in_bounds_on_board in Hin; [|exact Hb].
  unfold bind. rewrite (read_board_on_board _ _ _ Hb Hin).
  destruct (has_color _ enemy && has_kind _ Knight); reflexivity.
Qed.

Lemma check_for_pins_and_checks_analyze NV s :
  board_8x8 (board s) ->
  check_for_pins_and_checks NV s = Some (analyze_state NV s, s).
Proof.
  intros Hb. unfold check_for_pins_and_checks, analyze_state, analyze,
    analyze_rays.
  unfold bind at 1, gets at 1. unfold bind at 1, gets at 1.
  unfold bind at 1.
  rewrite (for_loop_pure _ _ (ray_scan_pure NV (board s)
             (ally_of (white_to_move s)) (enemy_of (white_to_move s))
             (fst (own_king_location s)) (snd (own_king_location s))))
    by (intros; apply ray_scan_is_pure, Hb).
  unfold bind at 1.
  rewrite (for_loop_pure _ _ (knight_scan_pure (board s)
             (enemy_of (white_to_move s))
             (fst (own_king_location s)) (snd (own_king_location s))))
    by (intros; apply knight_scan_is_pure, Hb).
  destruct (snd (loop_run knight_offsets _ _)) as [[[pp ic] pns] chks].
  reflexivity.
Qed.

(** ** Loops without the monad *)

Lemma loop_run_app {X A} (xs ys : list X) (body : X -> A -> ctl * A) a :
  loop_run (xs ++ ys) body a
  = match loop_run xs body a with
    | (Break, a') => (Break, a')
    | (Continue, a') => loop_run ys body a'
    end.
Proof.
  revert a. induction xs as [|x xs IH]; intros a; simpl; [reflexivity|].
  destruct (body x a) as [[] a']; [apply IH|reflexivity].
Qed.

Lemma loop_run_invariant {X A} (I : A -> Prop) (xs : list X)
    (body : X -> A -> ctl * A) :
  (forall x a, In x xs -> I a -> I (snd (body x a))) ->
  forall a, I a -> I (snd (loop_run xs body a)).
Proof.
  induction xs as [|x xs IH]; intros Hb a Ha; simpl; [exact Ha|].
  pose proof (Hb x a (or_introl eq_refl) Ha) as H1.
  destruct (body x a) as [[] a']; simpl in *; [|exact H1].
  apply IH; [|exact H1]. intros y a0 Hy. apply Hb. right. exact Hy.
Qed.

Lemma loop_run_skip {X A} (xs : list X) (body : X -> A -> ctl * A) a :
  (forall x, In x xs -> body x a = (Continue, a)) ->
  loop_run xs body a = (Continue, a).
Proof.
  induction xs as [|x xs IH]; intros Hb; simpl; [reflexivity|].
  rewrite (Hb x (or_introl eq_refl)). apply IH.
  intros y Hy. apply Hb. right. exact Hy.
Qed.

Lemma map_seq_offset {A} (f : nat -> A) s len :
  map f (seq s len) = map (fun k => f (s + k)%nat) (seq 0 len).
Proof.
  revert f s. induction len as [|len IH]; intros f s; simpl; [reflexivity|].
  f_equal; [f_equal; lia|].
  rewrite (IH f (S s)). rewrite (IH (fun k => f (s + k)%nat) 1%nat).
  apply map_ext. intros k. f_equal. lia.
Qed.

Lemma py_range_split a n b :
  a <= n < b -> py_range a b = py_range a n ++ n :: py_range (n + 1) b.
Proof.
  intros H. unfold py_range.
  replace (Z.to_nat (b - a))
    with (Z.to_nat (n - a) + S (Z.to_nat (b - (n + 1))))%nat by lia.
  rewrite seq_app, map_app. f_equal. simpl. f_equal; [lia|].
  rewrite map_seq_offset. apply map_ext. intros k. lia.
Qed.

Lemma in_py_range a b x : In x (py_range a b) <-> a <= x < b.
Proof.
  unfold py_range. rewrite in_map_iff. split.
  - intros (k & <- & Hk). apply in_seq in Hk. lia.
  - intros H. exists (Z.to_nat (x - a)). split; [lia|]. apply in_seq. lia.
Qed.

(** ** What the analyzer finds *)

Lemma acc_le_refl a : acc_le a a.
Proof. repeat split; auto using incl_refl. Qed.

Lemma acc_le_trans a1 a2 a3 : acc_le a1 a2 -> acc_le a2 a3 -> acc_le a1 a3.
Proof.
  intros (H1 & H2 & H3) (H4 & H5 & H6).
  repeat split; eauto using incl_tran.
Qed.

Section AnalyzerSpec.

Variable NV : Z.
Hypothesis HNV : NV < 0.
Variable b : Board.
Hypothesis Hb : board_8x8 b.
Variables ally enemy : color.
Hypothesis Henemy : enemy = opposite ally.
Variable e : Z * Z.
Hypothesis He : sq_on_board e.

Let step := ray_step_pure NV b ally enemy (fst e) (snd e).
Let scan := ray_scan_pure NV b ally enemy (fst e) (snd e).
Let kscan := knight_scan_pure b enemy (fst e) (snd e).

Lemma ray_step_le j d i acc : acc_le acc (snd (step j d i acc)).
Proof.
  unfold step, ray_step_pure. destruct acc as [[[pp ic] pns] chks].
  repeat match goal with
         | |- context [if ?c then _ else _] => destruct c
         end; unfold acc_le, acc_pins, acc_checks, acc_in_check; simpl;
    repeat split; auto using incl_refl, incl_appl.
Qed.

Lemma ray_loop_le j d xs acc :
  acc_le acc (snd (loop_run xs (step j d) acc)).
Proof.
  apply (loop_run_invariant (acc_le acc)); [|apply acc_le_refl].
  intros x a _ Ha. eapply acc_le_trans; [exact Ha|apply ray_step_le].
Qed.

Lemma ray_scan_le jd acc : acc_le acc (snd (scan jd acc)).
Proof.
  unfold scan, ray_scan_pure. destruct acc as [[[pp ic] pns] chks].
  apply acc_le_trans with (NO_PIN NV, ic, pns, chks).
  - unfold acc_le, acc_pins, acc_checks, acc_in_check. simpl.
    repeat split; auto using incl_refl.
  - apply (ray_loop_le (fst jd) (snd jd) (py_range 1 8)).
Qed.

Lemma knight_scan_le mv acc : acc_le acc (snd (kscan mv acc)).
Proof.
  unfold kscan, knight_scan_pure. destruct acc as [[[pp ic] pns] chks].
  repeat match goal with
         | |- context [if ?c then _ else _] => destruct c
         end; unfold acc_le, acc_pins, acc_checks, acc_in_check; simpl;
    repeat split; auto using incl_refl, incl_appl.
Qed.

(** A property established by one iteration of a loop whose iterations only
    add is still there at the end. *)
Lemma loop_run_establish {X} (P : scan_acc -> Prop) (xs : list X)
    (body : X -> scan_acc -> ctl * scan_acc) x0 :
  (forall x a, fst (body x a) = Continue) ->
  (forall x a, acc_le a (snd (body x a))) ->
  (forall a a', acc_le a a' -> P a -> P a') ->
  (forall a, P (snd (body x0 a))) ->
  In x0 xs ->
  forall a, P (snd (loop_run xs body a)).
Proof.
  intros Hc Hle Hmono Hx0. induction xs as [|x xs IH]; intros Hin a;
    [destruct Hin|].
  simpl. pose proof (Hc x a) as Hcx.
  destruct (body x a) as [c a'] eqn:E. simpl in Hcx. subst c.
  destruct Hin as [->|Hin]; [|apply IH, Hin].
  apply Hmono with a'.
  - apply (loop_run_invariant (acc_le a')); [|apply acc_le_refl].
    intros y a0 _ Ha0. eapply acc_le_trans; [exact Ha0|apply Hle].
  - specialize (Hx0 a). rewrite E in Hx0. exact Hx0.
Qed.

Lemma ray_scan_continues jd acc : fst (scan jd acc) = Continue.
Proof.
  unfold scan, ray_scan_pure. destruct acc as [[[pp ic] pns] chks].
  reflexivity.
Qed.

Lemma knight_scan_continues mv acc : fst (kscan mv acc) = Continue.
Proof.
  unfold kscan, knight_scan_pure. destruct acc as [[[pp ic] pns] chks].
  repeat match goal with
         | |- context [if ?c then _ else _] => destruct c
         end; reflexivity.
Qed.


Lemma ray_square_on_board d n i :
  In d sliding_directions -> sq_on_board (add_sq e d n) -> 0 <= i <= n ->
  sq_on_board (add_sq e d i).
Proof.
  intros Hd Hn Hi. unfold sq_on_board, on_board, add_sq in *.
  destruct e as [er ec]. cbn [fst snd] in *.
  repeat (destruct Hd as [<-|Hd]; [cbn [fst snd] in *; lia|]). destruct Hd.
Qed.

Lemma ray_length_bound d n :
  In d sliding_directions -> sq_on_board (add_sq e d n) -> 0 <= n -> n <= 7.
Proof.
  intros Hd Hn Hi. unfold sq_on_board, on_board, add_sq in *.
  destruct e as [er ec]. cbn [fst snd] in *.
  repeat (destruct Hd as [<-|Hd]; [cbn [fst snd] in *; lia|]). destruct Hd.
Qed.

Lemma numbered_direction_sliding j d :
  In (j, d) numbered_directions -> In d sliding_directions.
Proof. intros H. eapply in_combine_r, H. Qed.

Lemma in_bounds_true r c : on_board r c -> in_bounds b r c = true.
Proof. apply in_bounds_on_board, Hb. Qed.

Lemma enemy_not_ally p :
  has_color p enemy = true -> has_color p ally = false.
Proof.
  subst enemy. destruct p as [|c k]; simpl; [discriminate|].
  destruct c, ally; simpl; congruence.
Qed.

Lemma ray_step_empty j d i acc :
  piece_at b (add_sq e d i) = Empty -> step j d i acc = (Continue, acc).
Proof.
  intros Hempty. unfold step, ray_step_pure.
  destruct acc as [[[pp ic] pns] chks].
  unfold piece_at, add_sq in Hempty. simpl in Hempty. rewrite Hempty.
  simpl. destruct (in_bounds b _ _); reflexivity.
Qed.

Lemma ray_loop_clear j d lo hi acc :
  clear_between b e d (lo - 1) hi ->
  loop_run (py_range lo hi) (step j d) acc = (Continue, acc).
Proof.
  intros Hclear. apply loop_run_skip. intros i Hi.
  apply in_py_range in Hi. apply ray_step_empty, Hclear. lia.
Qed.

Lemma pin_eqb_refl p : pin_eqb p p = true.
Proof.
  destruct p as [[[p0 p1] p2] p3]. simpl. rewrite !Z.eqb_refl. reflexivity.
Qed.

Lemma pin_entry_not_none d n :
  sq_on_board (add_sq e d n) -> pin_eqb (pin_entry e d n) (NO_PIN NV) = false.
Proof.
  intros [Hr _]. unfold pin_entry, NO_PIN, pin_eqb. simpl in *.
  replace (fst e + fst d * n =? NV) with false
    by (symmetry; apply Z.eqb_neq; lia).
  reflexivity.
Qed.

(** The first piece on a ray is an enemy piece that threatens the king:
    the ray records it as a check. *)
Lemma ray_finds_check j d n p ic pns chks :
  In (j, d) numbered_directions -> 1 <= n ->
  sq_on_board (add_sq e d n) -> clear_between b e d 0 n ->
  piece_at b (add_sq e d n) = p ->
  has_color p enemy = true -> threatens enemy j n p = true ->
  let r := snd (loop_run (py_range 1 8) (step j d)
                         (NO_PIN NV, ic, pns, chks)) in
  In (pin_entry e d n) (acc_checks r) /\ acc_in_check r = true.
Proof.
  intros Hjd Hn Hon Hclear Hp Hcol Hthr r. subst r.
  pose proof (numbered_direction_sliding _ _ Hjd) as Hd.
  pose proof (ray_length_bound d n Hd Hon ltac:(lia)) as Hn7.
  rewrite (py_range_split 1 n 8) by lia.
  rewrite loop_run_app, ray_loop_clear by exact Hclear.
  cbn [loop_run].
  assert (Hstep : step j d n (NO_PIN NV, ic, pns, chks)
                  = (Continue, (NO_PIN NV, true, pns,
                                chks ++ [pin_entry e d n]))).
  { unfold step, ray_step_pure. rewrite in_bounds_true by exact Hon.
    unfold piece_at, add_sq in Hp. simpl in Hp. rewrite Hp.
    rewrite (enemy_not_ally _ Hcol), Hcol, Hthr, pin_eqb_refl. reflexivity. }
  rewrite Hstep.
  destruct (ray_loop_le j d (py_range (n + 1) 8)
              (NO_PIN NV, true, pns, chks ++ [pin_entry e d n]))
    as (_ & Hchk & Hin).
  split; [|apply Hin; reflexivity].
  apply Hchk. unfold acc_checks. simpl. apply in_or_app. right. left.
  reflexivity.
Qed.

(** The first piece on a ray is an allied piece other than the king and the
    next one an enemy piece that threatens the king: the ray records the
    pin of the allied piece. *)
Lemma ray_finds_pin j d k n pa p ic pns chks :
  In (j, d) numbered_directions -> 1 <= k < n ->
  sq_on_board (add_sq e d n) ->
  clear_between b e d 0 k -> clear_between b e d k n ->
  piece_at b (add_sq e d k) = pa ->
  has_color pa ally = true -> has_kind pa King = false ->
  piece_at b (add_sq e d n) = p ->
  has_color p enemy = true -> threatens enemy j n p = true ->
  In (pin_entry e d k)
     (acc_pins (snd (loop_run (py_range 1 8) (step j d)
                              (NO_PIN NV, ic, pns, chks)))).
Proof.
  intros Hjd Hkn Hon Hclear1 Hclear2 Hpa Hacol Haking Hp Hcol Hthr.
  pose proof (numbered_direction_sliding _ _ Hjd) as Hd.
  pose proof (ray_length_bound d n Hd Hon ltac:(lia)) as Hn7.
  pose proof (ray_square_on_board d n k Hd Hon ltac:(lia)) as Honk.
  rewrite (py_range_split 1 k 8) by lia.
  rewrite loop_run_app, ray_loop_clear by exact Hclear1.
  cbn [loop_run].
  assert (Hstepk : step j d k (NO_PIN NV, ic, pns, chks)
                   = (Continue, (pin_entry e d k, ic, pns, chks))).
  { unfold step, ray_step_pure. rewrite in_bounds_true by exact Honk.
    unfold piece_at, add_sq in Hpa. simpl in Hpa. rewrite Hpa.
    rewrite Hacol, Haking, pin_eqb_refl. reflexivity. }
  rewrite Hstepk.
  rewrite (py_range_split (k + 1) n 8) by lia.
  rewrite loop_run_app, ray_loop_clear
    by (replace (k + 1 - 1) with k by lia; exact Hclear2).
  cbn [loop_run].
  assert (Hstepn : step j d n (pin_entry e d k, ic, pns, chks)
                   = (Break, (pin_entry e d k, ic,
                              pns ++ [pin_entry e d k], chks))).
  { unfold step, ray_step_pure. rewrite in_bounds_true by exact Hon.
    unfold piece_at, add_sq in Hp. simpl in Hp. rewrite Hp.
    rewrite (enemy_not_ally _ Hcol), Hcol, Hthr.
    rewrite (pin_entry_not_none d k Honk). reflexivity. }
  rewrite Hstepn. unfold acc_pins. simpl. apply in_or_app. right. left.
  reflexivity.
Qed.


Let final : scan_acc :=
  snd (loop_run knight_offsets kscan
                (analyze_rays NV b ally enemy (fst e) (snd e))).

Lemma analyze_final :
  analyze NV b ally enemy (fst e) (snd e)
  = (acc_in_check final, acc_pins final, acc_checks final).
Proof.
  unfold analyze, final, kscan.
  destruct (snd (loop_run knight_offsets _ _)) as [[[pp ic] pns] chks].
  reflexivity.
Qed.

Lemma final_from_ray (P : scan_acc -> Prop) jd :
  (forall a a', acc_le a a' -> P a -> P a') ->
  In jd numbered_directions ->
  (forall ic pns chks,
      P (snd (loop_run (py_range 1 8) (step (fst jd) (snd jd))
                       (NO_PIN NV, ic, pns, chks)))) ->
  P final.
Proof.
  intros Hmono Hin Hray. unfold final.
  apply Hmono with (analyze_rays NV b ally enemy (fst e) (snd e)).
  - apply (loop_run_invariant (acc_le _)); [|apply acc_le_refl].
    intros x a _ Ha. eapply acc_le_trans; [exact Ha|apply knight_scan_le].
  - unfold analyze_rays.
    apply (loop_run_establish P _ scan jd);
      auto using ray_scan_continues, ray_scan_le.
    intros [[[pp ic] pns] chks]. apply Hray.
Qed.

Lemma final_from_knight (P : scan_acc -> Prop) off :
  (forall a a', acc_le a a' -> P a -> P a') ->
  In off knight_offsets ->
  (forall a, P (snd (kscan off a))) ->
  P final.
Proof.
  intros Hmono Hin Hk. unfold final.
  apply (loop_run_establish P _ kscan off);
    auto using knight_scan_continues, knight_scan_le.
Qed.

Lemma numbered_directions_eq :
  numbered_directions
  = [(0, (-1, 0)); (1, (0, -1)); (2, (1, 0)); (3, (0, 1));
     (4, (-1, -1)); (5, (-1, 1)); (6, (1, -1)); (7, (1, 1))].
Proof. reflexivity. Qed.

Lemma slide_threatens j d k n :
  In (j, d) numbered_directions -> slides k d -> 1 <= n ->
  threatens enemy j n (Piece enemy k) = true.
Proof.
  intros Hjd Hs Hn. unfold threatens.
  rewrite numbered_directions_eq in Hjd. cbn [In] in Hjd.
  destruct Hs as [[Hd Hk]|[Hd Hk]];
    repeat (destruct Hd as [<-|Hd]);
    try destruct Hd;
    repeat (destruct Hjd as [Hjd|Hjd]; [try discriminate; injection Hjd as <-|]);
    try destruct Hjd;
    destruct Hk as [->| ->]; simpl;
    rewrite ?orb_true_r; reflexivity.
Qed.

Lemma sliding_numbered d :
  In d sliding_directions -> exists j, In (j, d) numbered_directions.
Proof.
  intros Hd. rewrite numbered_directions_eq.
  repeat (destruct Hd as [<-|Hd]; [eexists; cbn [In]; eauto 10|]). destruct Hd.
Qed.

Lemma slides_sliding k d : slides k d -> In d sliding_directions.
Proof.
  intros [[Hd _]|[Hd _]]; repeat (destruct Hd as [<-|Hd]; [cbn; auto 10|]);
    destruct Hd.
Qed.

Lemma mono_in_checks c a a' :
  acc_le a a' ->
  In c (acc_checks a) /\ acc_in_check a = true ->
  In c (acc_checks a') /\ acc_in_check a' = true.
Proof. intros (_ & H2 & H3) [H4 H5]. split; auto. Qed.

Lemma mono_in_pins c a a' :
  acc_le a a' -> In c (acc_pins a) -> In c (acc_pins a').
Proof. intros (H1 & _) H. auto. Qed.

(** Every attacker of the king's square is among the recorded checks. *)
Theorem analyze_finds_slide d n k :
  slides k d -> 1 <= n -> sq_on_board (add_sq e d n) ->
  clear_between b e d 0 n ->
  piece_at b (add_sq e d n) = Piece enemy k ->
  In (pin_entry e d n) (acc_checks final) /\ acc_in_check final = true.
Proof.
  intros Hs Hn Hon Hclear Hp.
  destruct (sliding_numbered d (slides_sliding _ _ Hs)) as [j Hjd].
  apply (final_from_ray
           (fun a => In (pin_entry e d n) (acc_checks a)
                     /\ acc_in_check a = true) (j, d));
    [intros a a'; apply mono_in_checks|exact Hjd|].
  intros ic pns chks. simpl.
  eapply ray_finds_check; eauto.
  - simpl. destruct enemy; reflexivity.
  - eapply slide_threatens; eauto.
Qed.

Theorem analyze_finds_pawn lr :
  lr = 1 \/ lr = -1 ->
  sq_on_board (add_sq e (- pawn_direction enemy, lr) 1) ->
  piece_at b (add_sq e (- pawn_direction enemy, lr) 1) = Piece enemy Pawn ->
  In (pin_entry e (- pawn_direction enemy, lr) 1) (acc_checks final)
  /\ acc_in_check final = true.
Proof.
  intros Hlr Hon Hp.
  assert (Hj : exists j, In (j, (- pawn_direction enemy, lr)) numbered_directions
                         /\ threatens enemy j 1 (Piece enemy Pawn) = true).
  { rewrite numbered_directions_eq.
    destruct enemy, Hlr as [-> | ->]; simpl;
      eexists; (split; [eauto 10|reflexivity]). }
  destruct Hj as (j & Hjd & Hthr).
  apply (final_from_ray
           (fun a => In (pin_entry e (- pawn_direction enemy, lr) 1)
                        (acc_checks a)
                     /\ acc_in_check a = true)
           (j, (- pawn_direction enemy, lr)));
    [intros a a'; apply mono_in_checks|exact Hjd|].
  intros ic pns chks. simpl.
  eapply ray_finds_check; eauto; try lia.
  - intros i Hi. lia.
  - simpl. destruct enemy; reflexivity.
Qed.

Theorem analyze_finds_knight off :
  In off knight_offsets -> sq_on_board (add_sq e off 1) ->
  piece_at b (add_sq e off 1) = Piece enemy Knight ->
  In (fst e + fst off, snd e + snd off, fst off, snd off) (acc_checks final)
  /\ acc_in_check final = true.
Proof.
  intros Hoff Hon Hp.
  apply (final_from_knight
           (fun a => In (fst e + fst off, snd e + snd off, fst off, snd off)
                        (acc_checks a)
                     /\ acc_in_check a = true) off);
    [intros a a'; apply mono_in_checks|exact Hoff|].
  intros [[[pp ic] pns] chks]. unfold kscan, knight_scan_pure.
  unfold sq_on_board, piece_at, add_sq in Hon, Hp. simpl in Hon, Hp.
  rewrite !Z.mul_1_r in Hon, Hp.
  rewrite in_bounds_true by exact Hon. rewrite Hp.
  replace (has_color (Piece enemy Knight) enemy) with true
    by (destruct enemy; reflexivity).
  simpl. unfold acc_checks, acc_in_check. simpl.
  split; [|reflexivity]. apply in_or_app. right. left. reflexivity.
Qed.

(** A pinned piece is among the recorded pins. *)
Theorem analyze_finds_pin d k n pa kq :
  slides kq d -> 1 <= k < n -> sq_on_board (add_sq e d n) ->
  clear_between b e d 0 k -> clear_between b e d k n ->
  piece_at b (add_sq e d k) = pa ->
  has_color pa ally = true -> has_kind pa King = false ->
  piece_at b (add_sq e d n) = Piece enemy kq ->
  In (pin_entry e d k) (acc_pins final).
Proof.
  intros Hs Hkn Hon Hc1 Hc2 Hpa Hcol Hking Hq.
  destruct (sliding_numbered d (slides_sliding _ _ Hs)) as [j Hjd].
  apply (final_from_ray (fun a => In (pin_entry e d k) (acc_pins a)) (j, d));
    [intros a a'; apply mono_in_pins|exact Hjd|].
  intros ic pns chks. simpl.
  eapply ray_finds_pin; eauto.
  - simpl. destruct enemy; reflexivity.
  - eapply slide_threatens; eauto. lia.
Qed.


Theorem analyze_finds_king d :
  In d sliding_directions -> sq_on_board (add_sq e d 1) ->
  piece_at b (add_sq e d 1) = Piece enemy King ->
  acc_in_check final = true.
Proof.
  intros Hd Hon Hp.
  destruct (sliding_numbered d Hd) as [j Hjd].
  apply (final_from_ray (fun a => acc_in_check a = true) (j, d));
    [intros a a' (_ & _ & H); exact H|exact Hjd|].
  intros ic pns chks. simpl.
  eapply (ray_finds_check j d 1); eauto; try lia.
  - intros i Hi. lia.
  - simpl. destruct enemy; reflexivity.
  - unfold threatens. simpl. rewrite !orb_true_r. reflexivity.
Qed.

Lemma ray_step_shape j d i acc :
  In (j, d) numbered_directions -> 1 <= i ->
  Forall (pin_shape e) (acc_pins acc) ->
  acc_pin acc = NO_PIN NV \/ pin_shape e (acc_pin acc) ->
  Forall (pin_shape e) (acc_pins (snd (step j d i acc)))
  /\ (acc_pin (snd (step j d i acc)) = NO_PIN NV
      \/ pin_shape e (acc_pin (snd (step j d i acc)))).
Proof.
  intros Hjd Hi Hpins Hpin. unfold step, ray_step_pure.
  destruct acc as [[[pp ic] pns] chks].
  unfold acc_pins, acc_pin in *. simpl in Hpins, Hpin.
  destruct (in_bounds b _ _) eqn:Hin; [|simpl; auto].
  apply in_bounds_on_board in Hin; [|exact Hb].
  destruct (has_color _ ally && negb (has_kind _ King)).
  - destruct (pin_eqb pp (NO_PIN NV)) eqn:Hpp; simpl; [|auto].
    split; [exact Hpins|]. right.
    exists d, i. repeat split; eauto using numbered_direction_sliding;
      apply Hin.
  - destruct (has_color _ enemy); [|simpl; auto].
    destruct (threatens enemy j i _); [|simpl; auto].
    destruct (pin_eqb pp (NO_PIN NV)) eqn:Hpp; simpl; [auto|].
    split; [|exact Hpin].
    apply Forall_app. split; [exact Hpins|]. constructor; [|constructor].
    destruct Hpin as [->|Hsh]; [|exact Hsh].
    rewrite pin_eqb_refl in Hpp. discriminate.
Qed.

Theorem analyze_pins_shape : Forall (pin_shape e) (acc_pins final).
Proof.
  unfold final.
  apply (loop_run_invariant (fun a => Forall (pin_shape e) (acc_pins a))).
  { intros off [[[pp ic] pns] chks] _ H. unfold kscan, knight_scan_pure.
    repeat match goal with
           | |- context [if ?c then _ else _] => destruct c
           end; exact H. }
  unfold analyze_rays.
  apply (loop_run_invariant (fun a => Forall (pin_shape e) (acc_pins a)));
    [|constructor].
  intros [j d] [[[pp ic] pns] chks] Hjd H.
  unfold ray_scan_pure. cbn [snd fst].
  apply (loop_run_invariant
           (fun a => Forall (pin_shape e) (acc_pins a)
                     /\ (acc_pin a = NO_PIN NV \/ pin_shape e (acc_pin a)))).
  - intros i a Hi [H1 H2]. apply in_py_range in Hi.
    apply ray_step_shape; auto. lia.
  - split; [exact H|left; reflexivity].
Qed.

End AnalyzerSpec.

(** ** Dictionaries of moves and lists of pins *)

Lemma dict_set_values d k v m :
  In m (dict_values (dict_set d k v)) -> In m (dict_values d) \/ m = v.
Proof.
  unfold dict_values. induction d as [|[k' v'] t IH]; simpl.
  - intros [<-|[]]. right. reflexivity.
  - destruct (k' =? k); simpl.
    + intros [<-|H]; auto.
    + intros [<-|H]; auto. destruct (IH H); auto.
Qed.

Lemma dict_add_values d x m :
  In m (dict_values (dict_add d x)) -> In m (dict_values d) \/ m = x.
Proof. apply dict_set_values. Qed.

Lemma dict_del_values d k m :
  In m (dict_values (dict_del d k)) -> In m (dict_values d).
Proof.
  unfold dict_values, dict_del. intros H.
  apply in_map_iff in H as (kv & <- & Hkv). apply filter_In in Hkv as [Hkv _].
  apply in_map, Hkv.
Qed.

Lemma find_pin_some ps r c p :
  find_pin ps r c = Some p -> In p ps /\ pin_square p = (r, c).
Proof.
  unfold find_pin. intros H. apply find_some in H as [Hin Hsq].
  split; [apply in_rev, Hin|].
  destruct p as [[[pr pc] dr] dc]. simpl.
  apply andb_true_iff in Hsq as [H1 H2].
  apply Z.eqb_eq in H1, H2. congruence.
Qed.

Lemma find_pin_none ps r c p :
  find_pin ps r c = None -> In p ps -> pin_square p <> (r, c).
Proof.
  unfold find_pin. intros H Hin Hsq.
  pose proof (find_none _ _ H p (proj1 (in_rev ps p) Hin)) as Hf.
  destruct p as [[[pr pc] dr] dc]. simpl in Hsq. injection Hsq as -> ->.
  rewrite !Z.eqb_refl in Hf. discriminate.
Qed.

Lemma pin_eqb_eq p q : pin_eqb p q = true <-> p = q.
Proof.
  destruct p as [[[p0 p1] p2] p3], q as [[[q0 q1] q2] q3]. simpl.
  rewrite !andb_true_iff, !Z.eqb_eq. split.
  - intros [[[-> ->] ->] ->]. reflexivity.
  - intros H. injection H as -> -> -> ->. auto.
Qed.

Lemma remove_first_incl p ps : incl (remove_first p ps) ps.
Proof.
  induction ps as [|q ps IH]; simpl; [apply incl_refl|].
  destruct (pin_eqb q p).
  - apply incl_tl, incl_refl.
  - apply incl_cons; [left; reflexivity|apply incl_tl, IH].
Qed.

Lemma remove_first_keeps p q ps :
  In q ps -> q <> p -> In q (remove_first p ps).
Proof.
  induction ps as [|x ps IH]; simpl; [tauto|].
  intros [->|Hin] Hne.
  - destruct (pin_eqb q p) eqn:E; [apply pin_eqb_eq in E; congruence|].
    left. reflexivity.
  - destruct (pin_eqb x p); [exact Hin|]. right. auto.
Qed.

(** ** What the piece generators add *)

Lemma take_pin_spec NV row col s r s' :
  take_pin NV row col s = Some (r, s') ->
  match find_pin (pins s) row col with
  | Some p => r = (true, pin_direction p)
              /\ s' = set_pins (remove_first p (pins s)) s
  | None => fst r = false /\ s' = s
  end.
Proof.
  unfold take_pin, bind, gets.
  destruct (find_pin (pins s) row col) as [[[[pr pc] dr] dc]|].
  - unfold modify, ret. intros H. injection H as <- <-. split; reflexivity.
  - unfold ret. intros H. injection H as <- <-. split; reflexivity.
Qed.

Lemma take_pin_if_rook_spec NV row col s r s' :
  take_pin_if_rook NV row col s = Some (r, s') ->
  match find_pin (pins s) row col with
  | Some p => r = (true, pin_direction p)
              /\ ((s' = set_pins (remove_first p (pins s)) s
                   /\ has_kind (at_square (board s) row col) Rook = true)
                  \/ s' = s)
  | None => fst r = false /\ s' = s
  end.
Proof.
  unfold take_pin_if_rook, bind, gets.
  destruct (find_pin (pins s) row col) as [[[[pr pc] dr] dc]|].
  - destruct (read_board row col s) as [[here s1]|] eqn:Hread; [|discriminate].
    pose proof (readonly_read_board _ _ _ _ _ Hread). subst s1.
    unfold read_board, bind, gets, lift in Hread.
    destruct (board_get (board s) row col) as [p|] eqn:Hget; [|discriminate].
    injection Hread as ->.
    destruct (has_kind here Rook) eqn:Hk; unfold modify, ret;
      intros H; injection H as <- <-; split; auto.
    left. split; [reflexivity|]. unfold at_square. rewrite Hget. exact Hk.
  - unfold ret. intros H. injection H as <- <-. split; reflexivity.
Qed.

Lemma pin_test_allows r d :
  negb (fst r) || pair_eqb (snd r) d = true -> pin_allows (found_pin r) d.
Proof.
  unfold found_pin, pin_allows. destruct r as [[] [p0 p1]]; simpl; [|tauto].
  unfold pair_eqb. simpl. intros H. apply andb_true_iff in H as [H1 H2].
  apply Z.eqb_eq in H1, H2. left. destruct d. simpl in *. congruence.
Qed.

Lemma new_move_some st en ep ca s m s' :
  new_move st en ep ca s = Some (m, s') ->
  Move_init st en (board s) ep ca = Some m /\ s' = s.
Proof.
  unfold new_move, bind, gets. intros H. apply lift_some in H. exact H.
Qed.

Lemma pair_eqb_eq p q : pair_eqb p q = true <-> p = q.
Proof.
  destruct p, q. unfold pair_eqb. simpl.
  rewrite andb_true_iff, !Z.eqb_eq. split; [intros [-> ->]|intros H];
    [reflexivity|injection H as -> ->; auto].
Qed.

Lemma code_pawn_direction w :
  (if w : bool then -1 else 1) = pawn_direction (ally_of w).
Proof. destruct w; reflexivity. Qed.

Section PieceGenerators.

Variable NV : Z.
Variable s : GameState.
Hypothesis Hb : board_8x8 (board s).

Let b := board s.
Let w := white_to_move s.
Let ep := en_passant_possible s.

Lemma pawn_capture_step_adds row col pinned_dir king_row king_col lr moves
    c moves' s' :
  on_board row col ->
  piece_at b (row, col) = Piece (ally_of w) Pawn ->
  0 <= row + pawn_direction (ally_of w) < 8 ->
  lr = 1 \/ lr = -1 ->
  pawn_capture_step row col (pawn_direction (ally_of w)) (enemy_of w)
    king_row king_col (fst pinned_dir) (snd pinned_dir) lr moves s
  = Some ((c, moves'), s') ->
  s' = s /\
  forall m, In m (dict_values moves') ->
    In m (dict_values moves)
    \/ piece_move b w ep (found_pin pinned_dir) (row, col) m.
Proof.
  intros Hon Hpawn Hrow Hlr H. unfold pawn_capture_step in H.
  destruct (negb (fst pinned_dir)
            || pair_eqb (snd pinned_dir) (pawn_direction (ally_of w), lr))
    eqn:Hpin; [|unfold ret in H; injection H as _ <- <-; auto].
  apply pin_test_allows in Hpin.
  unfold bind at 1, gets at 1 in H. unfold bind at 1, gets at 1 in H.
  apply bind_some in H as (is_capture & s1 & Hcap & H).
  assert (Hcap' : s1 = s /\
            (is_capture = true ->
             sq_on_board (add_sq (row, col) (pawn_direction (ally_of w), lr) 1)
             /\ has_color (piece_at b (add_sq (row, col)
                                         (pawn_direction (ally_of w), lr) 1))
                          (enemy_of w) = true)).
  { destruct ((0 <=? col + lr) && (col + lr <? py_len (board s))) eqn:Hcol.
    - rewrite (py_len_board _ Hb) in Hcol.
      apply andb_true_iff in Hcol as [H1 H2].
      apply Z.leb_le in H1. apply Z.ltb_lt in H2.
      assert (Hon' : on_board (row + pawn_direction (ally_of w)) (col + lr))
        by (split; lia).
      unfold bind in Hcap. rewrite (read_board_on_board _ _ _ Hb Hon') in Hcap.
      unfold ret in Hcap. injection Hcap as <- <-. split; [reflexivity|].
      intros Hc. unfold sq_on_board, piece_at, add_sq. simpl.
      rewrite !Z.mul_1_r. split; assumption.
    - unfold ret in Hcap. injection Hcap as <- <-. split; [reflexivity|].
      discriminate. }
  destruct Hcap' as [-> Hcap'].
  destruct is_capture.
  - destruct (Hcap' eq_refl) as [Hont Hcol].
    apply bind_some in H as (move & s1 & Hmv & H).
    apply new_move_some in Hmv as [Hmv ->].
    unfold ret in H. injection H as _ <- <-. split; [reflexivity|].
    intros m Hm. apply dict_add_values in Hm as [Hm| ->]; [auto|]. right.
    eapply pm_pawn_capture; eauto.
    unfold add_sq. simpl. rewrite !Z.mul_1_r. exact Hmv.
  - destruct (pair_eqb (row + pawn_direction (ally_of w), col + lr)
                       (en_passant_possible s)) eqn:Hep;
      [|unfold ret in H; injection H as _ <- <-; auto].
    apply pair_eqb_eq in Hep.
    apply bind_some in H as ([attacking blocking] & s1 & Hscan & H).
    assert (s1 = s) as ->.
    { match type of Hscan with
      | ?m s = _ =>
          assert (Hro : readonly m)
            by (unfold inside_step, outside_step; repeat readonly_step)
      end.
      apply Hro in Hscan. exact Hscan. }
    destruct (negb attacking || blocking);
      [|unfold ret in H; injection H as _ <- <-; auto].
    apply bind_some in H as (move & s1 & Hmv & H).
    apply new_move_some in Hmv as [Hmv ->].
    unfold ret in H. injection H as _ <- <-. split; [reflexivity|].
    intros m Hm. apply dict_add_values in Hm as [Hm| ->]; [auto|]. right.
    eapply pm_en_passant; eauto.
    + unfold add_sq. simpl. rewrite !Z.mul_1_r. exact Hep.
    + fold ep. unfold ep. rewrite <- Hep. exact Hmv.
Qed.

End PieceGenerators.

Lemma found_pin_take NV row col s r s' :
  take_pin NV row col s = Some (r, s') ->
  found_pin r = option_map pin_direction (find_pin (pins s) row col)
  /\ board s' = board s /\ white_to_move s' = white_to_move s
  /\ en_passant_possible s' = en_passant_possible s
  /\ own_king_location s' = own_king_location s.
Proof.
  intros H. apply take_pin_spec in H.
  destruct (find_pin (pins s) row col) as [p|].
  - destruct H as [-> ->]. repeat split.
  - destruct H as [Hr ->]. unfold found_pin. rewrite Hr. repeat split.
Qed.

Lemma get_pawn_moves_adds NV s row col moves moves' s' :
  board_8x8 (board s) ->
  on_board row col ->
  piece_at (board s) (row, col) = Piece (ally_of (white_to_move s)) Pawn ->
  0 <= row + pawn_direction (ally_of (white_to_move s)) < 8 ->
  get_pawn_moves NV row col moves s = Some (moves', s') ->
  forall m, In m (dict_values moves') ->
    In m (dict_values moves)
    \/ piece_move (board s) (white_to_move s) (en_passant_possible s)
         (option_map pin_direction (find_pin (pins s) row col)) (row, col) m.
Proof.
  intros Hb Hon Hpawn Hrow H. unfold get_pawn_moves in H.
  apply bind_some in H as (r & s1 & Htake & H).
  destruct (found_pin_take _ _ _ _ _ _ Htake) as (Hpd & Hb1 & Hw1 & Hep1 & _).
  rewrite <- Hpd, <- Hb1, <- Hw1, <- Hep1.
  rewrite <- Hb1 in Hb, Hpawn. rewrite <- Hw1 in Hpawn, Hrow.
  clear Htake Hpd Hb1 Hw1 Hep1 s. rename s1 into s.
  destruct r as [pinned pdir].
  pose (r := (pinned, pdir)).
  unfold bind at 1, gets at 1 in H. unfold bind at 1, gets at 1 in H.
  rewrite code_pawn_direction in H.
  remember (pawn_direction (ally_of (white_to_move s))) as dir eqn:Hdir.
  assert (Hahead : on_board (row + dir) col) by (split; [lia|apply Hon]).
  unfold bind at 1 in H. rewrite (read_board_on_board _ _ _ Hb Hahead) in H.
  apply bind_some in H as (moves1 & s1 & Hpush & H).
  assert (Hpush' : s1 = s /\ forall m, In m (dict_values moves1) ->
            In m (dict_values moves)
            \/ piece_move (board s) (white_to_move s) (en_passant_possible s)
                 (found_pin r) (row, col) m).
  { destruct (piece_eqb (at_square (board s) (row + dir) col) Empty) eqn:Hfree;
      [|unfold ret in Hpush; injection Hpush as <- <-; auto].
    apply piece_eqb_eq in Hfree.
    destruct (negb pinned || pair_eqb pdir (dir, 0)) eqn:Hpin;
      [|unfold ret in Hpush; injection Hpush as <- <-; auto].
    apply (pin_test_allows r) in Hpin.
    apply bind_some in Hpush as (move & s2 & Hmv & Hpush).
    apply new_move_some in Hmv as [Hmv ->].
    assert (Hone : piece_move (board s) (white_to_move s)
                     (en_passant_possible s) (found_pin r) (row, col) move).
    { apply pm_pawn_push with (i := 1); rewrite <- ?Hdir; auto;
        try (intros Habs; discriminate Habs).
      - unfold sq_on_board, on_board, add_sq in *. cbn [fst snd]. lia.
      - intros i Hi. assert (i = 1) as -> by lia.
        unfold piece_at, add_sq. cbn [fst snd].
        replace (row + dir * 1) with (row + dir) by lia.
        replace (col + 0 * 1) with col by lia. exact Hfree.
      - unfold add_sq. cbn [fst snd].
        replace (row + dir * 1) with (row + dir) by lia.
        replace (col + 0 * 1) with col by lia. exact Hmv. }
    apply bind_some in Hpush as (two & s2 & Htwo & Hpush).
    destruct (row =? (if white_to_move s then 6 else 1)) eqn:Hstart.
    - apply Z.eqb_eq in Hstart.
      assert (Hon2 : on_board (row + 2 * dir) col).
      { split; [|apply Hon]. subst dir. destruct (white_to_move s);
          simpl in *; lia. }
      unfold bind in Htwo. rewrite (read_board_on_board _ _ _ Hb Hon2) in Htwo.
      unfold ret in Htwo.
      assert (Htwo' : two = piece_eqb (at_square (board s) (row + 2 * dir) col)
                                      Empty /\ s2 = s)
        by (injection Htwo as <- <-; split; reflexivity).
      destruct Htwo' as [-> ->]. clear Htwo.
      destruct (piece_eqb (at_square (board s) (row + 2 * dir) col) Empty)
        eqn:Hfree2.
      + apply piece_eqb_eq in Hfree2.
        apply bind_some in Hpush as (move2 & s2 & Hmv2 & Hpush).
        apply new_move_some in Hmv2 as [Hmv2 ->].
        unfold ret in Hpush. injection Hpush as <- <-. split; [reflexivity|].
        intros m Hm. apply dict_add_values in Hm as [Hm| ->].
        * apply dict_add_values in Hm as [Hm| ->]; auto.
        * right. apply pm_pawn_push with (i := 2); rewrite <- ?Hdir; auto;
            try (intros _; exact Hstart).
          -- unfold sq_on_board, on_board, add_sq in *. cbn [fst snd]. lia.
          -- intros i Hi. assert (i = 1 \/ i = 2) as [-> | ->] by lia;
               unfold piece_at, add_sq; cbn [fst snd].
             ++ replace (row + dir * 1) with (row + dir) by lia.
                replace (col + 0 * 1) with col by lia. exact Hfree.
             ++ replace (row + dir * 2) with (row + 2 * dir) by lia.
                replace (col + 0 * 2) with col by lia. exact Hfree2.
          -- unfold add_sq. cbn [fst snd].
             replace (row + dir * 2) with (row + 2 * dir) by lia.
             replace (col + 0 * 2) with col by lia. exact Hmv2.
      + unfold ret in Hpush. injection Hpush as <- <-. split; [reflexivity|].
        intros m Hm. apply dict_add_values in Hm as [Hm| ->]; auto.
    - unfold ret in Htwo. injection Htwo as <- <-.
      unfold ret in Hpush. injection Hpush as <- <-. split; [reflexivity|].
      intros m Hm. apply dict_add_values in Hm as [Hm| ->]; auto. }
  destruct Hpush' as [-> Hmoves1]. subst dir.
  cbn [for_loop] in H.
  apply bind_some in H as ([c2 moves2] & s2 & Hleft & H).
  replace (if white_to_move s then Black else White)
    with (enemy_of (white_to_move s)) in * by reflexivity.
  apply (pawn_capture_step_adds s Hb _ _ r) in Hleft as [-> Hmoves2]; auto.
  cbn [fst snd] in H.
  assert (Hfinal : forall m, In m (dict_values moves') ->
            In m (dict_values moves2)
            \/ piece_move (board s) (white_to_move s) (en_passant_possible s)
                 (found_pin r) (row, col) m).
  { destruct c2; [|unfold ret in H; injection H as <- <-; auto].
    apply bind_some in H as ([c3 moves3] & s3 & Hright & H).
    apply (pawn_capture_step_adds s Hb _ _ r) in Hright as [-> Hmoves3]; auto.
    cbn [fst snd] in H.
    destruct c3; unfold ret in H; injection H as <- <-; auto. }
  intros m Hm. destruct (Hfinal m Hm) as [Hm2|]; auto.
  destruct (Hmoves2 m Hm2) as [Hm1|]; auto.
Qed.

(** A loop whose body only reads the state and only adds moves with the
    property [P]. *)
Lemma for_loop_adds {X} (P : Move -> Prop) (xs : list X)
    (body : X -> MoveDict -> M GameState (ctl * MoveDict)) (s : GameState) :
  (forall x acc c acc' s', In x xs ->
     body x acc s = Some ((c, acc'), s') ->
     s' = s /\ forall m, In m (dict_values acc') ->
                         In m (dict_values acc) \/ P m) ->
  forall acc r s',
    for_loop xs body acc s = Some (r, s') ->
    s' = s /\ forall m, In m (dict_values r) -> In m (dict_values acc) \/ P m.
Proof.
  induction xs as [|x xs IH]; intros Hbody acc r s' H; simpl in H.
  - unfold ret in H. injection H as <- <-. auto.
  - apply bind_some in H as ([c acc1] & s1 & Hx & H).
    destruct (Hbody x acc c acc1 s1 (or_introl eq_refl) Hx) as [-> Hacc1].
    cbn [fst snd] in H. destruct c.
    + apply IH in H as [-> Hr].
      * split; [reflexivity|]. intros m Hm.
        destruct (Hr m Hm) as [Hm1|]; auto.
      * intros y a c a' s2 Hy. apply Hbody. right. exact Hy.
    + unfold ret in H. injection H as <- <-. auto.
Qed.

Lemma tile_step_adds s row col pinned off moves c moves' s' :
  board_8x8 (board s) ->
  piece_at (board s) (row, col) = Piece (ally_of (white_to_move s)) Knight ->
  In off knight_offsets ->
  tile_step row col (enemy_of (white_to_move s)) pinned
            (add_sq (row, col) off 1) moves s = Some ((c, moves'), s') ->
  s' = s /\
  forall m, In m (dict_values moves') ->
    In m (dict_values moves)
    \/ piece_move (board s) (white_to_move s) (en_passant_possible s)
         (if pinned then Some (0, 0) else None) (row, col) m.
Proof.
  intros Hb Hknight Hoff H. unfold tile_step in H.
  unfold bind at 1, gets at 1 in H.
  destruct (in_bounds (board s) _ _) eqn:Hin;
    [|unfold ret in H; injection H as _ <- <-; auto].
  apply in_bounds_on_board in Hin; [|exact Hb].
  destruct pinned; cbn [negb] in H;
    [unfold ret in H; injection H as _ <- <-; auto|].
  unfold bind at 1 in H. rewrite (read_board_on_board _ _ _ Hb Hin) in H.
  destruct (piece_eqb (at_square (board s) _ _) Empty) eqn:Hempty.
  - apply piece_eqb_eq in Hempty.
    apply bind_some in H as (move & s1 & Hmv & H).
    apply new_move_some in Hmv as [Hmv ->].
    unfold ret in H. injection H as _ <- <-. split; [reflexivity|].
    intros m Hm. apply dict_add_values in Hm as [Hm| ->]; [auto|]. right.
    eapply pm_knight; eauto. left. exact Hempty.
  - destruct (has_color (at_square (board s) _ _) _) eqn:Hcol;
      [|unfold ret in H; injection H as _ <- <-; auto].
    apply bind_some in H as (move & s1 & Hmv & H).
    apply new_move_some in Hmv as [Hmv ->].
    unfold ret in H. injection H as _ <- <-. split; [reflexivity|].
    intros m Hm. apply dict_add_values in Hm as [Hm| ->]; [auto|]. right.
    eapply pm_knight; eauto. right. exact Hcol.
Qed.

Lemma knight_tiles row col :
  [ (row - 1, col + 2); (row - 2, col + 1); (row - 2, col - 1);
    (row - 1, col - 2); (row + 1, col - 2); (row + 2, col - 1);
    (row + 2, col + 1); (row + 1, col + 2) ]
  = map (fun off => add_sq (row, col) off 1)
        [(-1, 2); (-2, 1); (-2, -1); (-1, -2);
         (1, -2); (2, -1); (2, 1); (1, 2)].
Proof.
  unfold add_sq. cbn [map fst snd].
  repeat (f_equal; try (f_equal; lia)).
Qed.

Lemma get_knight_moves_adds NV s row col moves moves' s' :
  board_8x8 (board s) ->
  piece_at (board s) (row, col) = Piece (ally_of (white_to_move s)) Knight ->
  get_knight_moves NV row col moves s = Some (moves', s') ->
  forall m, In m (dict_values moves') ->
    In m (dict_values moves)
    \/ piece_move (board s) (white_to_move s) (en_passant_possible s)
         (option_map pin_direction (find_pin (pins s) row col)) (row, col) m.
Proof.
  intros Hb Hknight H. unfold get_knight_moves, get_moves_from_tiles in H.
  apply bind_some in H as ([pinned pdir] & s1 & Htake & H).
  destruct (found_pin_take _ _ _ _ _ _ Htake) as (Hpd & Hb1 & Hw1 & Hep1 & _).
  rewrite <- Hb1, <- Hw1, <- Hep1.
  rewrite <- Hb1 in Hb, Hknight. rewrite <- Hw1 in Hknight.
  unfold bind at 1, gets at 1 in H.
  replace (if white_to_move s1 then Black else White)
    with (enemy_of (white_to_move s1)) in * by reflexivity.
  rewrite knight_tiles in H.
  apply (for_loop_adds
           (piece_move (board s1) (white_to_move s1) (en_passant_possible s1)
              (if pinned then Some (0, 0) else None) (row, col))) in H.
  - destruct H as [_ H]. intros m Hm. destruct (H m Hm) as [|Hpm]; auto.
    right. rewrite <- Hpd. unfold found_pin. cbn [fst snd].
    destruct pinned; [|exact Hpm].
    inversion Hpm; subst; try congruence.
    match goal with
    | Hs : slides _ _ |- _ => destruct Hs as [[_ [?|?]]|[_ [?|?]]]; congruence
    end.
  - intros t acc c acc' s2 Ht Hstep.
    apply in_map_iff in Ht as (off & <- & Hoff).
    eapply tile_step_adds; eauto.
    cbn in Hoff. cbn. tauto.
Qed.

Lemma py_range_cons a b : a < b -> py_range a b = a :: py_range (a + 1) b.
Proof.
  intros H. rewrite (py_range_split a a b) by lia.
  unfold py_range at 1. replace (a - a) with 0 by lia. reflexivity.
Qed.

Lemma py_range_nil a b : b <= a -> py_range a b = [].
Proof.
  intros H. unfold py_range. replace (Z.to_nat (b - a)) with 0%nat by lia.
  reflexivity.
Qed.

Lemma slide_test_allows pinned pdir d :
  negb pinned || pair_eqb pdir d || pair_eqb pdir (- fst d, - snd d) = true ->
  pin_allows (found_pin (pinned, pdir)) d.
Proof.
  unfold found_pin, pin_allows. cbn [fst snd].
  destruct pinned; [|tauto]. cbn [negb orb].
  intros H. apply orb_true_iff in H as [H|H]; apply pair_eqb_eq in H; auto.
Qed.

Lemma direction_ray_adds s row col pinned pdir d kd :
  board_8x8 (board s) ->
  piece_at (board s) (row, col) = Piece (ally_of (white_to_move s)) kd ->
  slides kd d ->
  forall n lo acc r s',
    n = Z.to_nat (8 - lo) -> 1 <= lo ->
    (negb pinned || pair_eqb pdir d || pair_eqb pdir (- fst d, - snd d) = true
     -> clear_between (board s) (row, col) d 0 lo) ->
    for_loop (py_range lo 8)
      (direction_step row col (enemy_of (white_to_move s)) pinned pdir d)
      acc s = Some (r, s') ->
    s' = s /\
    forall m, In m (dict_values r) ->
      In m (dict_values acc)
      \/ piece_move (board s) (white_to_move s) (en_passant_possible s)
           (found_pin (pinned, pdir)) (row, col) m.
Proof.
  intros Hb Hpiece Hslides.
  induction n as [|n IH]; intros lo acc r s' Hn Hlo Hclear H.
  - rewrite py_range_nil in H by lia. unfold for_loop, ret in H.
    injection H as <- <-. auto.
  - rewrite py_range_cons in H by lia. cbn [for_loop] in H.
    apply bind_some in H as ([c acc1] & s1 & Hstep & H).
    unfold direction_step in Hstep.
    unfold bind at 1, gets at 1 in Hstep. cbn [fst snd] in H.
    destruct (in_bounds (board s) (row + fst d * lo) (col + snd d * lo))
      eqn:Hin;
      [|unfold ret in Hstep; injection Hstep as <- <- <-;
        unfold ret in H; injection H as <- <-; auto].
    apply in_bounds_on_board in Hin; [|exact Hb].
    destruct (negb pinned || pair_eqb pdir d
              || pair_eqb pdir (- fst d, - snd d)) eqn:Hpin.
    + pose proof (slide_test_allows _ _ _ Hpin) as Hallow.
      specialize (Hclear eq_refl).
      unfold bind at 1 in Hstep.
      rewrite (read_board_on_board _ _ _ Hb Hin) in Hstep.
      destruct (piece_eqb (at_square (board s) _ _) Empty) eqn:Hempty.
      * apply piece_eqb_eq in Hempty.
        apply bind_some in Hstep as (move & s2 & Hmv & Hstep).
        apply new_move_some in Hmv as [Hmv ->].
        unfold ret in Hstep. injection Hstep as <- <- <-.
        apply (IH (lo + 1)) in H; [|lia|lia|].
        -- destruct H as [-> H]. split; [reflexivity|].
           intros m Hm. destruct (H m Hm) as [Hm1|]; auto.
           apply dict_add_values in Hm1 as [?| ->]; auto. right.
           eapply pm_slide with (d := d) (i := lo); eauto.
           left. exact Hempty.
        -- intros _ i Hi. destruct (Z.eq_dec i lo) as [->|Hne].
           ++ exact Hempty.
           ++ apply Hclear. lia.
      * destruct (has_color (at_square (board s) _ _) _) eqn:Hcol.
        -- apply bind_some in Hstep as (move & s2 & Hmv & Hstep).
           apply new_move_some in Hmv as [Hmv ->].
           unfold ret in Hstep. injection Hstep as <- <- <-.
           unfold ret in H. injection H as <- <-. split; [reflexivity|].
           intros m Hm. apply dict_add_values in Hm as [?| ->]; auto. right.
           eapply pm_slide with (d := d) (i := lo); eauto.
           right. exact Hcol.
        -- unfold ret in Hstep. injection Hstep as <- <- <-.
           unfold ret in H. injection H as <- <-. auto.
    + unfold ret in Hstep. injection Hstep as <- <- <-.
      apply (IH (lo + 1)) in H; [exact H|lia|lia|discriminate].
Qed.

Lemma found_pin_take_if_rook NV row col s r s' :
  take_pin_if_rook NV row col s = Some (r, s') ->
  found_pin r = option_map pin_direction (find_pin (pins s) row col)
  /\ board s' = board s /\ white_to_move s' = white_to_move s
  /\ en_passant_possible s' = en_passant_possible s
  /\ (has_kind (at_square (board s) row col) Rook = false -> s' = s).
Proof.
  intros H. apply take_pin_if_rook_spec in H.
  destruct (find_pin (pins s) row col) as [p|].
  - destruct H as [-> [[-> Hk]| ->]]; repeat split; congruence.
  - destruct H as [Hr ->]. unfold found_pin. rewrite Hr. repeat split.
Qed.

Lemma get_moves_from_directions_adds NV s row col moves dirs kd moves' s' :
  board_8x8 (board s) ->
  piece_at (board s) (row, col) = Piece (ally_of (white_to_move s)) kd ->
  (forall d, In d dirs -> slides kd d) ->
  get_moves_from_directions NV row col moves dirs s = Some (moves', s') ->
  (forall m, In m (dict_values moves') ->
     In m (dict_values moves)
     \/ piece_move (board s) (white_to_move s) (en_passant_possible s)
          (option_map pin_direction (find_pin (pins s) row col)) (row, col) m)
  /\ (kd <> Rook -> s' = s).
Proof.
  intros Hb Hpiece Hdirs H. unfold get_moves_from_directions in H.
  apply bind_some in H as ([pinned pdir] & s1 & Htake & H).
  destruct (found_pin_take_if_rook _ _ _ _ _ _ Htake)
    as (Hpd & Hb1 & Hw1 & Hep1 & Hsame).
  assert (Hstate : kd <> Rook -> s1 = s).
  { intros Hk. apply Hsame. unfold piece_at in Hpiece. cbn [fst snd] in Hpiece.
    rewrite Hpiece. destruct kd; try reflexivity. congruence. }
  rewrite <- Hb1, <- Hw1, <- Hep1.
  rewrite <- Hb1 in Hb, Hpiece. rewrite <- Hw1 in Hpiece.
  unfold bind at 1, gets at 1 in H. unfold bind at 1, gets at 1 in H.
  unfold bind at 1 in H. rewrite (board_width_8 _ Hb) in H.
  unfold lift in H. rewrite (py_len_board _ Hb) in H.
  replace (Z.max 8 8) with 8 in H by reflexivity.
  replace (if white_to_move s1 then Black else White)
    with (enemy_of (white_to_move s1)) in * by reflexivity.
  apply (for_loop_adds
           (piece_move (board s1) (white_to_move s1) (en_passant_possible s1)
              (found_pin (pinned, pdir)) (row, col))) in H.
  - destruct H as [-> H]. rewrite <- Hpd. split; [exact H|exact Hstate].
  - intros d acc c acc' s2 Hd Hscan. unfold direction_scan in Hscan.
    apply bind_some in Hscan as (r & s3 & Hray & Hscan).
    unfold ret in Hscan. injection Hscan as <- <- <-.
    eapply (direction_ray_adds s1 row col pinned pdir d kd Hb Hpiece
              (Hdirs d Hd) _ 1); eauto; try lia.
    intros _ i Hi. lia.
Qed.

(** ** The king generator *)

Lemma set_king_location_white v s :
  white_king_location s = v -> set_white_king_location v s = s.
Proof. intros <-. destruct s. reflexivity. Qed.

Lemma set_king_location_black v s :
  black_king_location s = v -> set_black_king_location v s = s.
Proof. intros <-. destruct s. reflexivity. Qed.

Lemma king_step_adds NV s d moves c moves' s' :
  board_8x8 (board s) ->
  king_step NV (fst (own_king_location s)) (snd (own_king_location s))
            (ally_of (white_to_move s))
            (add_sq (own_king_location s) d 1) moves s
  = Some ((c, moves'), s') ->
  In d sliding_directions ->
  s' = s /\
  forall m, In m (dict_values moves') ->
    In m (dict_values moves)
    \/ king_move NV (board s) (white_to_move s) (own_king_location s) m.
Proof.
  intros Hb H Hd. unfold king_step in H.
  unfold bind at 1, gets at 1 in H.
  destruct (in_bounds (board s) _ _) eqn:Hin;
    [|unfold ret in H; injection H as _ <- <-; auto].
  apply in_bounds_on_board in Hin; [|exact Hb].
  unfold bind at 1 in H. rewrite (read_board_on_board _ _ _ Hb Hin) in H.
  destruct (has_color (at_square (board s) _ _) (ally_of (white_to_move s)))
    eqn:Hcol; cbn [negb] in H;
    [unfold ret in H; injection H as _ <- <-; auto|].
  apply bind_some in H as ([] & s1 & Hset & H).
  apply bind_some in H as ([[in_chk pns] chks] & s2 & Hchk & H).
  assert (Hs1 : board s1 = board s /\ white_to_move s1 = white_to_move s
                /\ own_king_location s1 = add_sq (own_king_location s) d 1).
  { unfold set_king_location, own_king_location in *.
    destruct (white_to_move s) eqn:Hw; cbn [ally_of] in Hset;
      unfold modify in Hset; injection Hset as <-; cbn; rewrite Hw;
      repeat split; destruct (add_sq _ d 1); reflexivity. }
  destruct Hs1 as (Hb1 & Hw1 & Hloc1).
  rewrite check_for_pins_and_checks_analyze in Hchk by (rewrite Hb1; exact Hb).
  injection Hchk as Han <-.
  unfold analyze_state in Han. rewrite Hb1, Hw1, Hloc1 in Han.
  apply bind_some in H as (moves1 & s2 & Hmv & H).
  apply bind_some in H as ([] & s3 & Hback & H).
  unfold ret in H. injection H as _ <- <-.
  assert (Hs2 : s2 = s1 /\ forall m, In m (dict_values moves1) ->
            In m (dict_values moves)
            \/ king_move NV (board s) (white_to_move s) (own_king_location s) m).
  { destruct in_chk; cbn [negb] in Hmv.
    - unfold ret in Hmv. injection Hmv as <- <-. auto.
    - apply bind_some in Hmv as (move & s4 & Hnew & Hmv).
      apply new_move_some in Hnew as [Hnew ->].
      unfold ret in Hmv. injection Hmv as <- <-. split; [reflexivity|].
      intros m Hm. apply dict_add_values in Hm as [?| ->]; auto. right.
      rewrite Hb1 in Hnew.
      apply km_step with (d := d); auto;
        first [ rewrite Han; reflexivity
              | destruct (own_king_location s); exact Hnew ]. }
  destruct Hs2 as [-> Hmoves]. split; [|exact Hmoves].
  unfold set_king_location, own_king_location in *.
  destruct (white_to_move s) eqn:Hw; cbn [ally_of] in Hset, Hback;
    unfold modify in Hset, Hback; injection Hset as <-; injection Hback as <-;
    destruct s; cbn in *; subst; destruct white_king_location0,
      black_king_location0; reflexivity.
Qed.

Lemma king_tiles row col :
  [ (row, col + 1); (row - 1, col + 1); (row - 1, col); (row - 1, col - 1);
    (row, col - 1); (row + 1, col - 1); (row + 1, col); (row + 1, col + 1) ]
  = map (fun d => add_sq (row, col) d 1)
        [(0, 1); (-1, 1); (-1, 0); (-1, -1);
         (0, -1); (1, -1); (1, 0); (1, 1)].
Proof.
  unfold add_sq. cbn [map fst snd].
  repeat (f_equal; try (f_equal; lia)).
Qed.

Lemma get_king_moves_adds NV s row col moves moves' s' :
  board_8x8 (board s) ->
  own_king_location s = (row, col) ->
  get_king_moves NV row col moves s = Some (moves', s') ->
  s' = s /\
  forall m, In m (dict_values moves') ->
    In m (dict_values moves)
    \/ king_move NV (board s) (white_to_move s) (row, col) m.
Proof.
  intros Hb Hloc H. unfold get_king_moves in H.
  unfold bind at 1, gets at 1 in H.
  rewrite king_tiles in H.
  replace (if white_to_move s then White else Black)
    with (ally_of (white_to_move s)) in H by reflexivity.
  eapply for_loop_adds; [|exact H].
  intros t acc c acc' s2 Ht Hstep.
  apply in_map_iff in Ht as (d & <- & Hd).
  rewrite <- Hloc in *.
  replace row with (fst (own_king_location s)) in Hstep by (rewrite Hloc; reflexivity).
  replace col with (snd (own_king_location s)) in Hstep by (rewrite Hloc; reflexivity).
  eapply king_step_adds; eauto.
  cbn in Hd. cbn. tauto.
Qed.

(** ** The generators only consume pins *)

Lemma set_pins_same s : set_pins (pins s) s = s.
Proof. destruct s. reflexivity. Qed.

Lemma pins_step_refl a ps : pins_step a ps ps.
Proof. split; [apply incl_refl|auto]. Qed.

Lemma pins_step_trans a p1 p2 p3 :
  pins_step a p1 p2 -> pins_step a p2 p3 -> pins_step a p1 p3.
Proof.
  intros [H1 H2] [H3 H4]. split; [eapply incl_tran; eauto|auto].
Qed.

Lemma only_pins_readonly a {A} (m : M GameState A) :
  readonly m -> only_pins a m.
Proof.
  intros Hm s r s' H. apply Hm in H. subst s'.
  exists (pins s). split; [symmetry; apply set_pins_same|apply pins_step_refl].
Qed.

Lemma only_pins_bind a {A B} (m : M GameState A) (f : A -> M GameState B) :
  only_pins a m -> (forall x, only_pins a (f x)) -> only_pins a (bind m f).
Proof.
  intros Hm Hf s r s2 H. apply bind_some in H as (x & s1 & H1 & H2).
  apply Hm in H1 as (ps1 & -> & Hs1).
  apply Hf in H2 as (ps2 & -> & Hs2).
  exists ps2. split; [reflexivity|]. eapply pins_step_trans; eauto.
Qed.

Lemma only_pins_take_pin NV row col : only_pins (row, col) (take_pin NV row col).
Proof.
  intros s r s' H. apply take_pin_spec in H.
  destruct (find_pin (pins s) row col) as [p|] eqn:Hfind.
  - destruct H as [_ ->]. eexists. split; [reflexivity|].
    apply find_pin_some in Hfind as [_ Hsq].
    split; [apply remove_first_incl|].
    intros q Hq Hne. apply remove_first_keeps; [exact Hq|congruence].
  - destruct H as [_ ->]. exists (pins s).
    split; [symmetry; apply set_pins_same|apply pins_step_refl].
Qed.

Lemma only_pins_take_pin_if_rook NV row col :
  only_pins (row, col) (take_pin_if_rook NV row col).
Proof.
  intros s r s' H. apply take_pin_if_rook_spec in H.
  destruct (find_pin (pins s) row col) as [p|] eqn:Hfind.
  - destruct H as [_ [[-> _]| ->]].
    + eexists. split; [reflexivity|].
      apply find_pin_some in Hfind as [_ Hsq].
      split; [apply remove_first_incl|].
      intros q Hq Hne. apply remove_first_keeps; [exact Hq|congruence].
    + exists (pins s).
      split; [symmetry; apply set_pins_same|apply pins_step_refl].
  - destruct H as [_ ->]. exists (pins s).
    split; [symmetry; apply set_pins_same|apply pins_step_refl].
Qed.

Lemma only_pins_for_loop a {X A} (xs : list X)
    (body : X -> A -> M GameState (ctl * A)) :
  (forall x acc, only_pins a (body x acc)) ->
  forall acc, only_pins a (for_loop xs body acc).
Proof.
  intros Hb. induction xs as [|x xs IH]; intros acc; simpl.
  - apply only_pins_readonly, readonly_ret.
  - apply only_pins_bind; [apply Hb|]. intros [[] acc']; simpl.
    + apply IH.
    + apply only_pins_readonly, readonly_ret.
Qed.

Ltac only_pins_step :=
  first
    [ apply only_pins_take_pin
    | apply only_pins_take_pin_if_rook
    | apply only_pins_readonly;
      first [ apply readonly_ret | apply readonly_gets | apply readonly_lift
            | apply readonly_read_board | apply readonly_new_move ]
    | apply only_pins_bind; [|intros ?]
    | apply only_pins_for_loop; intros ? ?
    | match goal with
      | |- only_pins _ (if ?b then _ else _) => destruct b
      | |- only_pins _ (match ?x with _ => _ end) => destruct x
      | |- only_pins _ (let '_ := ?x in _) => destruct x
      end ].

Lemma only_pins_get_pawn_moves NV row col moves :
  only_pins (row, col) (get_pawn_moves NV row col moves).
Proof.
  unfold get_pawn_moves, pawn_capture_step, inside_step, outside_step.
  repeat only_pins_step.
Qed.

Lemma only_pins_get_moves_from_tiles NV row col moves tiles :
  only_pins (row, col) (get_moves_from_tiles NV row col moves tiles).
Proof. unfold get_moves_from_tiles, tile_step. repeat only_pins_step. Qed.

Lemma only_pins_get_moves_from_directions NV row col moves ds :
  only_pins (row, col) (get_moves_from_directions NV row col moves ds).
Proof.
  unfold get_moves_from_directions, direction_scan, direction_step.
  repeat only_pins_step.
Qed.

(** ** All pseudo-legal moves *)

Lemma for_loop_range_inv {A} (I : Z -> GameState -> A -> Prop) lo0 hi
    (body : Z -> A -> M GameState (ctl * A)) :
  (forall i sc acc c acc' sc',
      lo0 <= i < hi -> I i sc acc -> body i acc sc = Some ((c, acc'), sc') ->
      I (i + 1) sc' acc' /\ c = Continue) ->
  forall n lo sc acc r sc',
    n = Z.to_nat (hi - lo) -> lo0 <= lo <= hi -> I lo sc acc ->
    for_loop (py_range lo hi) body acc sc = Some (r, sc') ->
    I hi sc' r.
Proof.
  intros Hbody. induction n as [|n IH]; intros lo sc acc r sc' Hn Hlo HI H.
  - assert (lo = hi) as -> by lia.
    rewrite py_range_nil in H by lia. unfold for_loop, ret in H.
    injection H as <- <-. exact HI.
  - rewrite py_range_cons in H by lia. cbn [for_loop] in H.
    apply bind_some in H as ([c acc1] & s1 & Hstep & H).
    assert (Hlt : lo0 <= lo < hi) by lia.
    destruct (Hbody _ _ _ _ _ _ Hlt HI Hstep) as [HI1 ->].
    cbn [fst snd] in H. eapply (IH (lo + 1)); eauto; lia.
Qed.

Lemma own_king_location_ally s :
  own_king_location s = king_location (ally_of (white_to_move s)) s.
Proof. unfold own_king_location. destruct (white_to_move s); reflexivity. Qed.

Lemma turn_color c w :
  (color_eqb c White && w) || (color_eqb c Black && negb w) = true ->
  c = ally_of w.
Proof. destruct c, w; simpl; congruence. Qed.

Lemma pin_found_lookup ps0 ps' row col :
  incl ps' ps0 ->
  (forall q, In q ps0 -> sq_le (row, col) (pin_square q) -> In q ps') ->
  pin_found ps0 (row, col) (option_map pin_direction (find_pin ps' row col)).
Proof.
  intros Hincl Hkeep entry Hin Hsq.
  assert (Hin' : In entry ps').
  { apply Hkeep; [exact Hin|]. rewrite Hsq. right. simpl. lia. }
  destruct (find_pin ps' row col) as [p|] eqn:Hfind.
  - apply find_pin_some in Hfind as [Hp Hpsq].
    exists p. repeat split; auto.
  - exfalso. eapply find_pin_none; eauto.
Qed.

Section AllMoves.

Variable NV : Z.
Variable s : GameState.
Hypothesis Hb : board_8x8 (board s).
Hypothesis Hpawns : pawns_ok (board s).
Hypothesis Hkings : kings_ok s.

Let P := possible_move NV (board s) (white_to_move s) (en_passant_possible s)
                       (pins s).

Lemma scanning_piece row col ps' acc acc' ps'' :
  on_board row col ->
  incl ps' (pins s) ->
  (forall q, In q (pins s) -> sq_le (row, col) (pin_square q) -> In q ps') ->
  (forall m, In m (dict_values acc) -> P m) ->
  pins_step (row, col) ps' ps'' ->
  (forall m, In m (dict_values acc') ->
     In m (dict_values acc)
     \/ piece_move (board s) (white_to_move s) (en_passant_possible s)
          (option_map pin_direction (find_pin ps' row col)) (row, col) m) ->
  scanning NV s (row, col + 1) (set_pins ps'' s) acc'.
Proof.
  intros Hon Hincl Hkeep Hacc [Hsub Hstep] Hadds. split.
  - exists ps''. split; [reflexivity|]. split; [eapply incl_tran; eauto|].
    intros q Hq [Hlt|[Heq Hle]]; cbn [fst snd] in *.
    + apply Hstep.
      * apply Hkeep; [exact Hq|]. left. exact Hlt.
      * intros Hsq. rewrite Hsq in Hlt. cbn in Hlt. lia.
    + apply Hstep.
      * apply Hkeep; [exact Hq|]. right. cbn [fst snd]. lia.
      * intros Hsq. rewrite Hsq in Hle. cbn in Hle. lia.
  - intros m Hm. destruct (Hadds m Hm) as [Hm0|Hpm]; [exact (Hacc m Hm0)|].
    apply pos_piece with (a := (row, col)) (pd := option_map pin_direction
                                                   (find_pin ps' row col));
      [exact Hon| |exact Hpm].
    apply pin_found_lookup; assumption.
Qed.

Lemma scanning_next row col sc acc :
  scanning NV s (row, col) sc acc -> scanning NV s (row, col + 1) sc acc.
Proof.
  intros [(ps' & Hsc & Hincl & Hkeep) Hacc]. split; [|exact Hacc].
  exists ps'. repeat split; auto.
  intros q Hq [Hlt|[Heq Hle]]; cbn [fst snd] in *; apply Hkeep; auto.
  - left. exact Hlt.
  - right. cbn [fst snd]. lia.
Qed.

Lemma square_step_scanning row col sc acc c acc' sc' :
  on_board row col ->
  scanning NV s (row, col) sc acc ->
  square_step NV row col acc sc = Some ((c, acc'), sc') ->
  scanning NV s (row, col + 1) sc' acc' /\ c = Continue.
Proof.
  intros Hon Hscan H.
  pose proof Hscan as [(ps' & Hsc & Hincl & Hkeep) Hacc].
  assert (Hbsc : board sc = board s) by (subst sc; reflexivity).
  assert (Hwsc : white_to_move sc = white_to_move s) by (subst sc; reflexivity).
  assert (Hesc : en_passant_possible sc = en_passant_possible s)
    by (subst sc; reflexivity).
  assert (Hpsc : pins sc = ps') by (subst sc; reflexivity).
  assert (Hb' : board_8x8 (board sc)) by (rewrite Hbsc; exact Hb).
  unfold square_step in H.
  unfold bind at 1 in H. rewrite (read_board_on_board _ _ _ Hb' Hon) in H.
  unfold bind at 1, gets at 1 in H.
  destruct (at_square (board sc) row col) as [|cl k] eqn:Hhere.
  { unfold ret in H. injection H as <- <- <-.
    split; [apply scanning_next, Hscan|reflexivity]. }
  destruct ((color_eqb cl White && white_to_move sc)
            || (color_eqb cl Black && negb (white_to_move sc))) eqn:Hturn.
  2:{ unfold ret in H. injection H as <- <- <-.
      split; [apply scanning_next, Hscan|reflexivity]. }
  apply turn_color in Hturn. subst cl.
  apply bind_some in H as (moves1 & s1 & Hgen & H).
  unfold ret in H. injection H as <- <- <-. split; [|reflexivity].
  assert (Hpiece : piece_at (board sc) (row, col)
                   = Piece (ally_of (white_to_move sc)) k) by exact Hhere.
  destruct k; cbn [move_function] in Hgen.
  - (* pawn *)
    pose proof (only_pins_get_pawn_moves _ _ _ _ _ _ _ Hgen)
      as (ps'' & -> & Hstep).
    rewrite Hsc. cbn. replace (set_pins ps'' (set_pins ps' s))
      with (set_pins ps'' s) by reflexivity.
    rewrite Hpsc in Hstep.
    apply (scanning_piece row col ps' acc); auto.
    rewrite <- Hbsc, <- Hwsc, <- Hesc, <- Hpsc.
    eapply get_pawn_moves_adds; eauto.
    destruct (Hpawns row col Hon) as [Hwp Hbp].
    rewrite Hbsc, Hwsc in Hpiece.
    rewrite Hwsc. destruct (white_to_move s); cbn in *.
    + specialize (Hwp Hpiece). destruct Hon. lia.
    + specialize (Hbp Hpiece). destruct Hon. lia.
  - (* rook *)
    pose proof (only_pins_get_moves_from_directions _ _ _ _ _ _ _ _ Hgen)
      as (ps'' & -> & Hstep).
    rewrite Hsc. replace (set_pins ps'' (set_pins ps' s))
      with (set_pins ps'' s) by reflexivity.
    rewrite Hpsc in Hstep.
    apply (scanning_piece row col ps' acc); auto.
    rewrite <- Hbsc, <- Hwsc, <- Hesc, <- Hpsc.
    eapply get_moves_from_directions_adds; eauto.
    intros d Hd. left. split; [unfold rook_directions; cbn [In] in *; tauto|].
    left. reflexivity.
  - (* knight *)
    pose proof (only_pins_get_moves_from_tiles _ _ _ _ _ _ _ _ Hgen)
      as (ps'' & -> & Hstep).
    rewrite Hsc. replace (set_pins ps'' (set_pins ps' s))
      with (set_pins ps'' s) by reflexivity.
    rewrite Hpsc in Hstep.
    apply (scanning_piece row col ps' acc); auto.
    rewrite <- Hbsc, <- Hwsc, <- Hesc, <- Hpsc.
    eapply get_knight_moves_adds; eauto.
  - (* bishop *)
    pose proof (only_pins_get_moves_from_directions _ _ _ _ _ _ _ _ Hgen)
      as (ps'' & -> & Hstep).
    rewrite Hsc. replace (set_pins ps'' (set_pins ps' s))
      with (set_pins ps'' s) by reflexivity.
    rewrite Hpsc in Hstep.
    apply (scanning_piece row col ps' acc); auto.
    rewrite <- Hbsc, <- Hwsc, <- Hesc, <- Hpsc.
    eapply get_moves_from_directions_adds; eauto.
    intros d Hd. right.
    split; [unfold bishop_directions; cbn [In] in *; tauto|].
    left. reflexivity.
  - (* queen *)
    unfold get_queen_moves in Hgen.
    apply bind_some in Hgen as (moves0 & s0 & Hrook & Hbishop).
    unfold get_rook_moves in Hrook. unfold get_bishop_moves in Hbishop.
    assert (Hr : forall d, In d [(-1, 0); (1, 0); (0, -1); (0, 1)] ->
                           slides Queen d).
    { intros d Hd. left.
      split; [unfold rook_directions; cbn [In] in *; tauto|].
      right. reflexivity. }
    assert (Hbi : forall d, In d [(-1, 1); (-1, -1); (1, -1); (1, 1)] ->
                            slides Queen d).
    { intros d Hd. right.
      split; [unfold bishop_directions; cbn [In] in *; tauto|].
      right. reflexivity. }
    destruct (get_moves_from_directions_adds _ _ _ _ _ _ Queen _ _
                Hb' Hpiece Hr Hrook) as [Hadd1 Hsame].
    specialize (Hsame ltac:(discriminate)). subst s0.
    pose proof (only_pins_get_moves_from_directions _ _ _ _ _ _ _ _ Hbishop)
      as (ps'' & -> & Hstep).
    destruct (get_moves_from_directions_adds _ _ _ _ _ _ Queen _ _
                Hb' Hpiece Hbi Hbishop) as [Hadd2 _].
    rewrite Hsc. replace (set_pins ps'' (set_pins ps' s))
      with (set_pins ps'' s) by reflexivity.
    rewrite Hpsc in Hstep.
    apply (scanning_piece row col ps' acc); auto.
    rewrite <- Hbsc, <- Hwsc, <- Hesc, <- Hpsc.
    intros m Hm. destruct (Hadd2 m Hm) as [Hm0|]; auto.
  - (* king *)
    assert (Hloc : own_king_location sc = (row, col)).
    { rewrite own_king_location_ally, Hwsc. subst sc. cbn.
      replace (king_location (ally_of (white_to_move s)) (set_pins ps' s))
        with (king_location (ally_of (white_to_move s)) s)
        by (destruct (ally_of (white_to_move s)); reflexivity).
      apply Hkings. repeat split; cbn; try apply Hon.
      rewrite (board_get_on_board _ Hb _ _ Hon).
      rewrite Hbsc, Hwsc in Hhere. rewrite Hhere. reflexivity. }
    destruct (get_king_moves_adds _ _ _ _ _ _ _ Hb' Hloc Hgen) as [-> Hadd].
    split.
    + exists ps'. repeat split; auto.
      intros q Hq Hle. apply Hkeep; auto.
      destruct Hle as [Hlt|[Heq Hle]]; cbn [fst snd] in *;
        [left; exact Hlt|right; cbn [fst snd]; lia].
    + intros m Hm. destruct (Hadd m Hm) as [|Hkm]; auto.
      apply pos_king with (a := (row, col)); auto.
      * rewrite <- Hbsc, <- Hwsc. exact Hpiece.
      * rewrite <- Hbsc, <- Hwsc. exact Hkm.
Qed.


Lemma scanning_mono pos pos' sc acc :
  (forall q, sq_le pos' q -> sq_le pos q) ->
  scanning NV s pos sc acc -> scanning NV s pos' sc acc.
Proof.
  intros Hle [(ps' & Hsc & Hincl & Hkeep) Hacc]. split; [|exact Hacc].
  exists ps'. repeat split; auto.
Qed.

Lemma row_step_scanning row sc acc c acc' sc' :
  0 <= row < 8 ->
  scanning NV s (row, 0) sc acc ->
  row_step NV row acc sc = Some ((c, acc'), sc') ->
  scanning NV s (row + 1, 0) sc' acc' /\ c = Continue.
Proof.
  intros Hrow Hscan H. unfold row_step in H.
  unfold bind at 1, gets at 1 in H.
  assert (Hbsc : board sc = board s).
  { destruct Hscan as [(ps' & -> & _) _]. reflexivity. }
  apply bind_some in H as (r & s1 & Hget & H).
  apply lift_some in Hget as [Hget ->].
  assert (Hlen : py_len r = 8).
  { rewrite Hbsc in Hget.
    destruct (board_row _ Hb row Hrow) as (r' & Hr' & Hlen').
    rewrite py_get_in_range in Hget
      by (rewrite (py_len_board _ Hb); lia).
    rewrite Hr' in Hget. injection Hget as <-. unfold py_len. lia. }
  rewrite Hlen in H.
  apply bind_some in H as (moves1 & s1 & Hloop & H).
  unfold ret in H. injection H as <- <- <-. split; [|reflexivity].
  apply scanning_mono with (pos := (row, 8)).
  { intros q [Hlt|[Heq Hle]]; cbn [fst snd] in *; left; cbn [fst]; lia. }
  refine (for_loop_range_inv (fun c => scanning NV s (row, c)) 0 8
            (square_step NV row) _ _ 0 sc acc moves1 s1 eq_refl _ Hscan Hloop);
    [|lia].
  intros i sc0 acc0 c0 acc0' sc0' Hi Hsc0 Hstep.
  eapply square_step_scanning; eauto. split; lia.
Qed.

Theorem get_all_possible_moves_spec moves s' :
  get_all_possible_moves NV s = Some (moves, s') ->
  (exists ps', s' = set_pins ps' s /\ incl ps' (pins s))
  /\ forall m, In m (dict_values moves) -> P m.
Proof.
  intros H. unfold get_all_possible_moves in H.
  unfold bind at 1, gets at 1 in H. rewrite (py_len_board _ Hb) in H.
  assert (Hfinal : scanning NV s (8, 0) s' moves).
  { refine (for_loop_range_inv (fun r => scanning NV s (r, 0)) 0 8
              (row_step NV) _ _ 0 s [] moves s' eq_refl _ _ H); [|lia|].
    - intros i sc0 acc0 c0 acc0' sc0' Hi Hsc0 Hstep.
      eapply row_step_scanning; eauto.
    - split.
      + exists (pins s). split; [symmetry; apply set_pins_same|].
        split; [apply incl_refl|auto].
      + intros m []. }
  destruct Hfinal as [(ps' & Hsc & Hincl & _) Hacc].
  split; [exists ps'; auto|exact Hacc].
Qed.

End AllMoves.

(** ** The castling generator *)

Lemma king_side_right w a b c d :
  (w && a) || (negb w && b) = true ->
  (w && (a || c)) || (negb w && (b || d)) = true.
Proof. destruct w, a, b, c, d; simpl; congruence. Qed.

Lemma queen_side_right w a b c d :
  (w && c) || (negb w && d) = true ->
  (w && (a || c)) || (negb w && (b || d)) = true.
Proof. destruct w, a, b, c, d; simpl; congruence. Qed.

Section Castling.

Variable NV : Z.
Variable s0 : GameState.
Hypothesis Hb : board_8x8 (board s0).
Variable w : bool.
Variables row : Z.
Hypothesis Hrow : 0 <= row < 8.

Let good (s : GameState) : Prop := framed s0 s /\ white_to_move s = w.

Lemma good_read s r c :
  good s -> on_board r c ->
  read_board r c s = Some (at_square (board s0) r c, s).
Proof.
  intros [Hfr _] Hon. rewrite <- (fr_board _ _ Hfr).
  apply read_board_on_board; [|exact Hon].
  rewrite (fr_board _ _ Hfr). exact Hb.
Qed.

Lemma good_new_move s st en ep ca m s' :
  good s -> new_move st en ep ca s = Some (m, s') ->
  Move_init st en (board s0) ep ca = Some m /\ s' = s.
Proof.
  intros [Hfr _] H. apply new_move_some in H as [H ->].
  rewrite (fr_board _ _ Hfr) in H. auto.
Qed.

Lemma good_tile_under_attack s r c u s' :
  good s -> tile_under_attack NV r c s = Some (u, s') -> good s'.
Proof.
  intros [Hfr Hw] H. eapply keeps_tile_under_attack; eauto.
Qed.

Lemma get_king_side_castle_moves_adds s moves moves' s' :
  good s ->
  (w && wks (current_castling_rights s0))
  || (negb w && bks (current_castling_rights s0)) = true ->
  get_king_side_castle_moves NV row 4 moves s = Some (moves', s') ->
  good s' /\
  forall m, In m (dict_values moves') ->
    In m (dict_values moves)
    \/ castle_move (board s0) w (current_castling_rights s0) (row, 4) m.
Proof.
  intros Hgood Hright H. unfold get_king_side_castle_moves in H.
  unfold bind at 1 in H.
  rewrite (good_read s row (4 + 1) Hgood) in H by (split; lia).
  apply bind_some in H as (free & s1 & Hfree & H).
  assert (Hfree' : s1 = s /\
            (free = true ->
             at_square (board s0) row (4 + 1) = Empty
             /\ at_square (board s0) row (4 + 2) = Empty)).
  { destruct (piece_eqb (at_square (board s0) row (4 + 1)) Empty) eqn:E1.
    - unfold bind in Hfree.
      rewrite (good_read s row (4 + 2) Hgood) in Hfree by (split; lia).
      unfold ret in Hfree.
      assert (free = piece_eqb (at_square (board s0) row (4 + 2)) Empty
              /\ s1 = s) as [-> ->]
        by (injection Hfree as <- <-; split; reflexivity).
      split; [reflexivity|]. intros E2.
      apply piece_eqb_eq in E1, E2. auto.
    - unfold ret in Hfree. injection Hfree as <- <-.
      split; [reflexivity|discriminate]. }
  destruct Hfree' as [-> Hfree'].
  destruct free; [|unfold ret in H; injection H as <- <-; auto].
  destruct (Hfree' eq_refl) as [He1 He2].
  apply bind_some in H as (u1 & s1 & Hu1 & H).
  pose proof (good_tile_under_attack _ _ _ _ _ Hgood Hu1) as Hgood1.
  apply bind_some in H as (safe & s2 & Hsafe & H).
  assert (Hgood2 : good s2).
  { destruct (negb u1).
    - apply bind_some in Hsafe as (u2 & s3 & Hu2 & Hsafe).
      unfold ret in Hsafe. injection Hsafe as _ <-.
      eapply good_tile_under_attack; eauto.
    - unfold ret in Hsafe. injection Hsafe as _ <-. exact Hgood1. }
  destruct safe; [|unfold ret in H; injection H as <- <-; auto].
  apply bind_some in H as (move & s3 & Hmv & H).
  apply (good_new_move _ _ _ _ _ _ _ Hgood2) in Hmv as [Hmv ->].
  unfold ret in H. injection H as <- <-. split; [exact Hgood2|].
  intros m Hm. apply dict_add_values in Hm as [?| ->]; auto. right.
  assert (E1 : add_sq (row, 4) (0, 1) 1 = (row, 4 + 1))
    by (unfold add_sq; cbn [fst snd]; f_equal; lia).
  assert (E2 : add_sq (row, 4) (0, 1) 2 = (row, 4 + 2))
    by (unfold add_sq; cbn [fst snd]; f_equal; lia).
  apply cm_king_side; rewrite ?E1, ?E2; auto.
Qed.

Lemma get_queen_side_castle_moves_adds s moves moves' s' :
  good s ->
  (w && wqs (current_castling_rights s0))
  || (negb w && bqs (current_castling_rights s0)) = true ->
  get_queen_side_castle_moves NV row 4 moves s = Some (moves', s') ->
  good s' /\
  forall m, In m (dict_values moves') ->
    In m (dict_values moves)
    \/ castle_move (board s0) w (current_castling_rights s0) (row, 4) m.
Proof.
  intros Hgood Hright H. unfold get_queen_side_castle_moves in H.
  unfold bind at 1 in H.
  rewrite (good_read s row (4 - 1) Hgood) in H by (split; lia).
  apply bind_some in H as (free & s1 & Hfree & H).
  assert (Hfree' : s1 = s /\
            (free = true ->
             at_square (board s0) row (4 - 1) = Empty
             /\ at_square (board s0) row (4 - 2) = Empty
             /\ at_square (board s0) row (4 - 3) = Empty)).
  { destruct (piece_eqb (at_square (board s0) row (4 - 1)) Empty) eqn:E1.
    - unfold bind at 1 in Hfree.
      rewrite (good_read s row (4 - 2) Hgood) in Hfree by (split; lia).
      destruct (piece_eqb (at_square (board s0) row (4 - 2)) Empty) eqn:E2.
      + unfold bind in Hfree.
        rewrite (good_read s row (4 - 3) Hgood) in Hfree by (split; lia).
        unfold ret in Hfree.
        assert (free = piece_eqb (at_square (board s0) row (4 - 3)) Empty
                /\ s1 = s) as [-> ->]
          by (injection Hfree as <- <-; split; reflexivity).
        split; [reflexivity|]. intros E3.
        apply piece_eqb_eq in E1, E2, E3. auto.
      + unfold ret in Hfree. injection Hfree as <- <-.
        split; [reflexivity|discriminate].
    - unfold ret in Hfree. injection Hfree as <- <-.
      split; [reflexivity|discriminate]. }
  destruct Hfree' as [-> Hfree'].
  destruct free; [|unfold ret in H; injection H as <- <-; auto].
  destruct (Hfree' eq_refl) as (He1 & He2 & He3).
  apply bind_some in H as (u1 & s1 & Hu1 & H).
  pose proof (good_tile_under_attack _ _ _ _ _ Hgood Hu1) as Hgood1.
  apply bind_some in H as (safe & s2 & Hsafe & H).
  assert (Hgood2 : good s2).
  { destruct (negb u1).
    - apply bind_some in Hsafe as (u2 & s3 & Hu2 & Hsafe).
      unfold ret in Hsafe. injection Hsafe as _ <-.
      eapply good_tile_under_attack; eauto.
    - unfold ret in Hsafe. injection Hsafe as _ <-. exact Hgood1. }
  destruct safe; [|unfold ret in H; injection H as <- <-; auto].
  apply bind_some in H as (move & s3 & Hmv & H).
  apply (good_new_move _ _ _ _ _ _ _ Hgood2) in Hmv as [Hmv ->].
  unfold ret in H. injection H as <- <-. split; [exact Hgood2|].
  intros m Hm. apply dict_add_values in Hm as [?| ->]; auto. right.
  assert (E1 : add_sq (row, 4) (0, -1) 1 = (row, 4 - 1))
    by (unfold add_sq; cbn [fst snd]; f_equal; lia).
  assert (E2 : add_sq (row, 4) (0, -1) 2 = (row, 4 - 2))
    by (unfold add_sq; cbn [fst snd]; f_equal; lia).
  assert (E3 : add_sq (row, 4) (0, -1) 3 = (row, 4 - 3))
    by (unfold add_sq; cbn [fst snd]; f_equal; lia).
  apply cm_queen_side; rewrite ?E1, ?E2, ?E3; auto.
Qed.


Lemma get_castle_moves_adds s col moves moves' s' :
  good s ->
  ((w && (wks (current_castling_rights s0) || wqs (current_castling_rights s0)))
   || (negb w && (bks (current_castling_rights s0)
                  || bqs (current_castling_rights s0))) = true -> col = 4) ->
  get_castle_moves NV row col moves s = Some (moves', s') ->
  good s' /\
  forall m, In m (dict_values moves') ->
    In m (dict_values moves)
    \/ castle_move (board s0) w (current_castling_rights s0) (row, 4) m.
Proof.
  intros Hgood Hcol H. unfold get_castle_moves in H.
  apply bind_some in H as (attacked & s1 & Hatt & H).
  pose proof (good_tile_under_attack _ _ _ _ _ Hgood Hatt) as Hgood1.
  destruct attacked; [unfold ret in H; injection H as <- <-; auto|].
  unfold bind at 1, gets at 1 in H. unfold bind at 1, gets at 1 in H.
  destruct Hgood1 as [Hfr1 Hw1]. rewrite Hw1, (fr_rights _ _ Hfr1) in H.
  apply bind_some in H as (moves1 & s2 & Hks & H).
  assert (Hks' : good s2 /\ forall m, In m (dict_values moves1) ->
            In m (dict_values moves)
            \/ castle_move (board s0) w (current_castling_rights s0) (row, 4) m).
  { destruct ((w && wks (current_castling_rights s0))
              || (negb w && bks (current_castling_rights s0))) eqn:Hr.
    - assert (col = 4) as ->.
      { apply Hcol. eapply king_side_right, Hr. }
      apply (get_king_side_castle_moves_adds s1 moves moves1 s2
               (conj Hfr1 Hw1) Hr Hks).
    - unfold ret in Hks. injection Hks as <- <-. split; [split|]; auto. }
  destruct Hks' as [[Hfr2 Hw2] Hmoves1].
  unfold bind at 1, gets at 1 in H. unfold bind at 1, gets at 1 in H.
  rewrite Hw2, (fr_rights _ _ Hfr2) in H.
  destruct ((w && wqs (current_castling_rights s0))
            || (negb w && bqs (current_castling_rights s0))) eqn:Hr.
  - assert (col = 4) as ->.
    { apply Hcol. eapply queen_side_right, Hr. }
    destruct (get_queen_side_castle_moves_adds s2 moves1 moves' s'
                (conj Hfr2 Hw2) Hr H) as [Hgood' Hm'].
    split; [exact Hgood'|]. intros m Hm. destruct (Hm' m Hm); auto.
  - unfold ret in H. injection H as <- <-. split; [split|]; auto.
Qed.

End Castling.

(** ** The moves that answer a check *)

Lemma valid_tile_step_is_pure s kr kc c i tiles :
  valid_tile_step kr kc c i tiles s
  = Some (valid_tile_step_pure (kr, kc) c i tiles, s).
Proof.
  unfold valid_tile_step, valid_tile_step_pure.
  destruct c as [[[cr cc] dr] dc]. cbn [fst snd].
  destruct ((kr + dr * i =? cr) && (kc + dc * i =? cc)); reflexivity.
Qed.

Lemma dict_del_in d k kv :
  In kv (dict_del d k) <-> In kv d /\ fst kv <> k.
Proof.
  unfold dict_del. rewrite filter_In, negb_true_iff, Z.eqb_neq. tauto.
Qed.

Lemma filter_loop s vt xs : forall acc r s',
  for_loop xs (filter_step vt) acc s = Some (r, s') ->
  s' = s /\
  forall kv, In kv r ->
    In kv acc /\ forall kv', In kv' xs -> filtered_out vt (snd kv') = true ->
                             fst kv <> fst kv'.
Proof.
  induction xs as [|x xs IH]; intros acc r s' H; simpl in H.
  - unfold ret in H. injection H as <- <-. split; [reflexivity|].
    intros kv Hkv. split; [exact Hkv|]. intros kv' [].
  - apply bind_some in H as ([c acc1] & s1 & Hstep & H).
    unfold filter_step in Hstep.
    assert (Hs : s1 = s /\ c = Continue
                 /\ acc1 = if filtered_out vt (snd x)
                           then dict_del acc (fst x) else acc).
    { unfold filtered_out.
      destruct (negb (has_kind (piece_moved (snd x)) King));
        [|unfold ret in Hstep; injection Hstep as <- <- <-; auto].
      destruct (negb (existsb _ vt));
        unfold ret in Hstep; injection Hstep as <- <- <-; auto. }
    destruct Hs as (-> & -> & ->). cbn [fst snd] in H.
    apply IH in H as [-> H]. split; [reflexivity|].
    intros kv Hkv. destruct (H kv Hkv) as [Hin Hrest].
    destruct (filtered_out vt (snd x)) eqn:Hbad.
    + apply dict_del_in in Hin as [Hin Hne]. split; [exact Hin|].
      intros kv' [<-|Hkv'] Hb; auto.
    + split; [exact Hin|]. intros kv' [<-|Hkv'] Hb; [congruence|auto].
Qed.

Lemma filter_loop_values s vt moves0 r s' :
  for_loop moves0 (filter_step vt) moves0 s = Some (r, s') ->
  s' = s /\
  forall m, In m (dict_values r) ->
    In m (dict_values moves0) /\ filtered_out vt m = false.
Proof.
  intros H. apply filter_loop in H as [-> H]. split; [reflexivity|].
  intros m Hm. unfold dict_values in Hm.
  apply in_map_iff in Hm as (kv & <- & Hkv).
  destruct (H kv Hkv) as [Hin Hne]. split; [apply in_map, Hin|].
  destruct (filtered_out vt (snd kv)) eqn:Hbad; [|reflexivity].
  exfalso. apply (Hne kv Hin Hbad). reflexivity.
Qed.

(** ** The moves of [generate_valid_moves] *)

Lemma py_len_nonneg {A} (l : list A) : 0 <= py_len l.
Proof. unfold py_len. lia. Qed.

Lemma py_len_one {A} (l : list A) : py_len l = 1 -> exists c, l = [c].
Proof.
  unfold py_len. destruct l as [|c [|c' rest]]; cbn [List.length]; try lia.
  intros _. exists c. reflexivity.
Qed.

Lemma read_board_value s r c p s' :
  read_board r c s = Some (p, s') -> p = at_square (board s) r c /\ s' = s.
Proof.
  unfold read_board, bind, gets. intros H. apply lift_some in H as [H ->].
  unfold at_square. rewrite H. auto.
Qed.

Lemma framed_set_pins s ps : framed s (set_pins ps s).
Proof. constructor; try reflexivity; left; reflexivity. Qed.

Lemma castle_move_right b w rights a m :
  castle_move b w rights a m ->
  (w && (wks rights || wqs rights)) || (negb w && (bks rights || bqs rights))
  = true.
Proof.
  intros [m' Hr _ _ _|m' Hr _ _ _ _].
  - eapply king_side_right, Hr.
  - eapply queen_side_right, Hr.
Qed.

Section Generate.

Variable NV : Z.
Variable s : GameState.
Hypothesis Hb : board_8x8 (board s).
Hypothesis Hpawns : pawns_ok (board s).
Hypothesis Hkings : kings_ok s.
Hypothesis Hhome : home_ok s.
Hypothesis Hloc : sq_on_board (own_king_location s).

Let in_chk := fst (fst (analyze_state NV s)).
Let pns := snd (fst (analyze_state NV s)).
Let chks := snd (analyze_state NV s).
Let s1 := set_checks chks (set_pins pns (set_in_check in_chk s)).

Lemma own_king_column :
  (white_to_move s
   && (wks (current_castling_rights s) || wqs (current_castling_rights s)))
  || (negb (white_to_move s)
      && (bks (current_castling_rights s) || bqs (current_castling_rights s)))
  = true ->
  snd (own_king_location s) = 4.
Proof.
  destruct Hhome as [Hw Hk]. unfold own_king_location.
  destruct (white_to_move s); cbn; intros H.
  - rewrite orb_false_r in H. rewrite (Hw H). reflexivity.
  - rewrite (Hk H). reflexivity.
Qed.

Lemma generate_candidates_returned moves s2 :
  generate_candidates NV s1 = Some (moves, s2) ->
  forall m, In m (dict_values moves) -> returned NV s m.
Proof.
  intros H. unfold generate_candidates in H.
  unfold bind at 1, gets at 1 in H. unfold bind at 1, gets at 1 in H.
  apply bind_some in H as (moves0 & s3 & Hmoves & H).
  unfold bind at 1, gets at 1 in H.
  assert (Hb1 : board_8x8 (board s1)) by exact Hb.
  assert (Hk1 : kings_ok s1) by exact Hkings.
  assert (Hcore : framed s1 s3 /\ white_to_move s3 = white_to_move s
                  /\ forall m, In m (dict_values moves0) -> returned NV s m).
  { change (in_check s1) with in_chk in Hmoves.
    destruct in_chk eqn:Hin.
    - unfold bind at 1, gets at 1 in Hmoves.
      change (checks s1) with chks in Hmoves.
      destruct (py_len chks =? 1) eqn:Hlen.
      + apply bind_some in Hmoves as (all & s4 & Hall & Hmoves).
        destruct (get_all_possible_moves_spec NV s1 Hb1 Hpawns Hk1 _ _ Hall)
          as [(ps' & -> & _) Hposs].
        unfold bind at 1, gets at 1 in Hmoves.
        change (checks (set_pins ps' s1)) with chks in Hmoves.
        apply Z.eqb_eq in Hlen.
        destruct (py_len_one _ Hlen) as [c Hchks]. rewrite Hchks in Hmoves.
        unfold bind at 1 in Hmoves. cbn [py_get py_norm lift] in Hmoves.
        cbn in Hmoves.
        destruct c as [[[cr cc] dr] dc].
        apply bind_some in Hmoves as (pc & s5 & Hread & Hmoves).
        apply read_board_value in Hread as [-> ->].
        unfold bind at 1, gets at 1 in Hmoves.
        apply bind_some in Hmoves as (vt & s5 & Hvt & Hmoves).
        assert (Hvt' : s5 = set_pins ps' s1
                       /\ vt = blocking_tiles (board s) (own_king_location s)
                                 (cr, cc, dr, dc)).
        { unfold blocking_tiles, piece_at. cbn [pin_square fst snd].
          change (board (set_pins ps' s1)) with (board s) in Hvt.
          destruct (has_kind (at_square (board s) cr cc) Knight).
          - unfold ret in Hvt. injection Hvt as <- <-. auto.
          - rewrite (py_len_board _ Hb) in Hvt.
            rewrite (for_loop_pure _ _
                       (valid_tile_step_pure (own_king_location s)
                                             (cr, cc, dr, dc))) in Hvt.
            + injection Hvt as <- <-. auto.
            + intros i tiles.
              change (own_king_location s1) with (own_king_location s).
              destruct (own_king_location s).
              apply valid_tile_step_is_pure. }
        destruct Hvt' as [-> ->].
        apply filter_loop_values in Hmoves as [-> Hfilter].
        split; [apply framed_set_pins|]. split; [reflexivity|].
        intros m Hm. destruct (Hfilter m Hm) as [Hm0 Hok].
        eapply ret_single; eauto.
      + change (own_king_location s1) with (own_king_location s) in Hmoves.
        assert (Hk : own_king_location s1
                     = (fst (own_king_location s), snd (own_king_location s))).
        { change (own_king_location s1) with (own_king_location s).
          apply surjective_pairing. }
        destruct (get_king_moves_adds NV s1 _ _ _ _ _ Hb1 Hk Hmoves)
          as [-> Hadd].
        split; [apply framed_refl|]. split; [reflexivity|].
        intros m Hm. destruct (Hadd m Hm) as [[]|Hkm].
        apply ret_double; [exact Hin| |].
        { intros E. apply Z.eqb_neq in Hlen. apply Hlen.
          unfold py_len, chks. rewrite E. reflexivity. }
        rewrite (surjective_pairing (own_king_location s)). exact Hkm.
    - destruct (get_all_possible_moves_spec NV s1 Hb1 Hpawns Hk1 _ _ Hmoves)
        as [(ps' & -> & _) Hposs].
      split; [apply framed_set_pins|]. split; [reflexivity|].
      intros m Hm. apply ret_free; [exact Hin|]. apply Hposs. exact Hm. }
  destruct Hcore as (Hfr3 & Hw3 & Hgen0).
  assert (Hloc3 : own_king_location s3 = own_king_location s).
  { rewrite !own_king_location_ally, Hw3.
    destruct (ally_of (white_to_move s)); cbn.
    - apply (good_king_location s1 White (white_king_location s3));
        [exact Hk1|apply Hfr3].
    - apply (good_king_location s1 Black (black_king_location s3));
        [exact Hk1|apply Hfr3]. }
  rewrite Hloc3 in H.
  destruct Hloc as [Hrow _].
  destruct (get_castle_moves_adds NV s1 Hb1 (white_to_move s)
              (fst (own_king_location s)) Hrow s3
              (snd (own_king_location s)) moves0 moves s2
              (conj Hfr3 Hw3) own_king_column H) as [_ Hadd].
  intros m Hm. destruct (Hadd m Hm) as [Hm0|Hcm]; [auto|].
  apply ret_castle.
  pose proof (own_king_column (castle_move_right _ _ _ _ _ Hcm)) as Hcol.
  destruct (own_king_location s) as [kr kc]. cbn in Hcol. subst kc.
  exact Hcm.
Qed.

Theorem generate_valid_moves_returned moves s' :
  generate_valid_moves NV s = Some (moves, s') ->
  forall m, In m (dict_values moves) -> returned NV s m.
Proof.
  intros H. unfold generate_valid_moves in H.
  unfold bind at 1, gets at 1 in H. unfold bind at 1, gets at 1 in H.
  unfold bind at 1 in H.
  rewrite (check_for_pins_and_checks_analyze NV s Hb) in H.
  assert (Han : analyze_state NV s = (in_chk, pns, chks)).
  { unfold in_chk, pns, chks. rewrite <- !surjective_pairing. reflexivity. }
  rewrite Han in H.
  unfold bind at 1, modify at 1 in H. unfold bind at 1, modify at 1 in H.
  unfold bind at 1, modify at 1 in H.
  apply bind_some in H as (mv & s2 & Hcand & H).
  unfold bind at 1, modify at 1 in H. unfold bind at 1, modify at 1 in H.
  apply bind_some in H as ([] & s3 & Hflags & H).
  unfold bind, modify, ret in H. injection H as <- <-.
  eapply generate_candidates_returned. exact Hcand.
Qed.

Theorem generate_valid_moves_generated moves s' :
  generate_valid_moves NV s = Some (moves, s') ->
  forall m, In m (dict_values moves) -> generated NV s m.
Proof.
  intros H m Hm.
  destruct (generate_valid_moves_returned moves s' H m Hm)
    as [m' H1 H2|c m' H1 H2 H3 H4|m' H1 _ H3|m' H1].
  - apply gen_free; assumption.
  - eapply gen_single; eassumption.
  - apply gen_double; assumption.
  - apply gen_castle; assumption.
Qed.

End Generate.

(** ** [make_move] on a well-formed board *)

Lemma put_spec b p x :
  board_8x8 b -> sq_on_board p ->
  board_set b (fst p) (snd p) x = Some (put b p x)
  /\ board_8x8 (put b p x)
  /\ piece_at (put b p x) p = x
  /\ (forall q, sq_on_board q -> q <> p ->
                piece_at (put b p x) q = piece_at b q).
Proof.
  intros Hb Hp. unfold put.
  destruct (board_set_on_board b Hb (fst p) (snd p) x Hp)
    as (b' & -> & Hb' & Hat & Hother).
  split; [reflexivity|]. split; [exact Hb'|]. split; [exact Hat|].
  intros q Hq Hne. apply Hother; [exact Hq|].
  intros Heq. apply Hne. destruct p, q. cbn in Heq. exact Heq.
Qed.

Lemma put_8x8 b p x : board_8x8 b -> sq_on_board p -> board_8x8 (put b p x).
Proof. intros Hb Hp. apply (put_spec b p x Hb Hp). Qed.

Lemma piece_at_put b p x q :
  board_8x8 b -> sq_on_board p -> sq_on_board q ->
  piece_at (put b p x) q = if pair_eqb q p then x else piece_at b q.
Proof.
  intros Hb Hp Hq. destruct (put_spec b p x Hb Hp) as (_ & _ & Hat & Hother).
  destruct (pair_eqb q p) eqn:E.
  - apply pair_eqb_eq in E. subst q. exact Hat.
  - apply Hother; [exact Hq|]. intros ->.
    assert (pair_eqb p p = true) by (apply pair_eqb_eq; reflexivity).
    congruence.
Qed.

Lemma write_board_put s p x :
  board_8x8 (board s) -> sq_on_board p ->
  write_board (fst p) (snd p) x s
  = Some (tt, set_board (put (board s) p x) s).
Proof.
  intros Hb Hp. unfold write_board, bind, gets, lift, modify.
  destruct (put_spec (board s) p x Hb Hp) as (-> & _). reflexivity.
Qed.

Lemma write_board_at s r c x :
  board_8x8 (board s) -> on_board r c ->
  write_board r c x s = Some (tt, set_board (put (board s) (r, c) x) s).
Proof. intros Hb Hp. apply (write_board_put s (r, c) x Hb Hp). Qed.

Lemma bind_write {A} s r c x (k : M GameState A) :
  board_8x8 (board s) -> on_board r c ->
  (write_board r c x ;;; k) s = k (set_board (put (board s) (r, c) x) s).
Proof.
  intros Hb Hp. unfold bind at 1.
  pose proof (write_board_put s (r, c) x Hb Hp) as H. cbn [fst snd] in H.
  rewrite H. reflexivity.
Qed.

Lemma bind_read {A} s r c (k : piece -> M GameState A) :
  board_8x8 (board s) -> on_board r c ->
  (t <- read_board r c ;; k t) s = k (piece_at (board s) (r, c)) s.
Proof.
  intros Hb Hp. unfold bind at 1.
  rewrite (read_board_on_board s r c Hb Hp). reflexivity.
Qed.

Lemma bind_step {A B} (c : M GameState A) (k : A -> M GameState B) s a s' :
  c s = Some (a, s') -> bind c k s = k a s'.
Proof. intros H. unfold bind. rewrite H. reflexivity. Qed.

Ltac norm_state :=
  cbn [set_board set_white_to_move set_valid_moves set_move_log
       set_white_king_location set_black_king_location set_checkmate
       set_stalemate set_in_check set_pins set_checks
       set_en_passant_possible set_current_castling_rights
       set_castle_rights_log set_stdout
       board white_to_move valid_moves move_log white_king_location
       black_king_location checkmate stalemate in_check pins checks
       en_passant_possible current_castling_rights castle_rights_log stdout].

Lemma make_move_made NV m s :
  board_8x8 (board s) ->
  sq_on_board (move_start m) -> sq_on_board (move_end m) ->
  (is_pawn_promotion m = true -> piece_moved m <> Empty) ->
  (is_castle m = true -> 2 <= end_col m <= 6) ->
  make_move NV m s = Some (tt, made NV m s).
Proof.
  intros Hb Hst Hen Hpromo Hcastle.
  unfold make_move, made, make_move_board.
  destruct s as [b w vm ml wk bk cm sm ic ps cs ep cr crl out].
  norm_state. cbn [board] in Hb.
  unfold move_start, move_end in *.
  rewrite bind_write by assumption. norm_state.
  set (b1 := put b (start_row m, start_col m) Empty).
  assert (Hb1 : board_8x8 b1) by (apply put_8x8; assumption).
  rewrite bind_write by assumption. norm_state.
  set (b2 := put b1 (end_row m, end_col m) (piece_moved m)).
  assert (Hb2 : board_8x8 b2) by (apply put_8x8; assumption).
  unfold bind at 1, gets at 1. unfold bind at 1, modify at 1.
  unfold bind at 1, gets at 1. unfold bind at 1, modify at 1.
  norm_state.
  match goal with |- _ ?st = _ =>
    rewrite (bind_step _ _ st tt
      (set_black_king_location
         (if piece_eqb (piece_moved m) (Piece White King)
          then bk
          else if piece_eqb (piece_moved m) (Piece Black King)
               then (end_row m, end_col m) else bk)
         (set_white_king_location
            (if piece_eqb (piece_moved m) (Piece White King)
             then (end_row m, end_col m) else wk) st)))
  end.
  2:{ destruct (piece_eqb (piece_moved m) (Piece White King));
        [reflexivity|].
      destruct (piece_eqb (piece_moved m) (Piece Black King)); reflexivity. }
  norm_state.
  set (b3 := if is_pawn_promotion m
             then match promoted (piece_moved m) with
                  | Some q => put b2 (end_row m, end_col m) q
                  | None => b2
                  end
             else b2).
  assert (Hb3 : board_8x8 b3).
  { unfold b3. destruct (is_pawn_promotion m); [|exact Hb2].
    destruct (promoted (piece_moved m)); [|exact Hb2].
    apply put_8x8; assumption. }
  match goal with |- _ ?st = _ =>
    rewrite (bind_step _ _ st tt (set_board b3 st))
  end.
  2:{ unfold b3. destruct (is_pawn_promotion m) eqn:E; [|reflexivity].
      specialize (Hpromo eq_refl).
      destruct (piece_moved m) as [|c kd]; [congruence|]. cbn [promoted].
      unfold bind at 1, lift at 1.
      rewrite write_board_at by assumption. reflexivity. }
  norm_state.
  set (b4 := if is_en_passant m
             then put b3 (start_row m, end_col m) Empty else b3).
  assert (Hepsq : sq_on_board (start_row m, end_col m)).
  { split; [apply Hst|apply Hen]. }
  assert (Hb4 : board_8x8 b4).
  { unfold b4. destruct (is_en_passant m); [|exact Hb3].
    apply put_8x8; assumption. }
  match goal with |- _ ?st = _ =>
    rewrite (bind_step _ _ st tt (set_board b4 st))
  end.
  2:{ unfold b4. destruct (is_en_passant m); [|reflexivity].
      rewrite write_board_at by assumption. reflexivity. }
  norm_state.
  match goal with |- _ ?st = _ =>
    rewrite (bind_step _ _ st tt
      (set_en_passant_possible
         (if is_double_step m
          then ((start_row m + end_row m) / 2, end_col m)
          else NO_PAIR NV) st))
  end.
  2:{ destruct (is_double_step m); reflexivity. }
  norm_state.
  set (b5 := if is_castle m then
    if end_col m - start_col m =? 2 then
      put (put b4 (end_row m, end_col m - 1)
               (piece_at b4 (end_row m, end_col m + 1)))
          (end_row m, end_col m + 1) Empty
    else
      put (put b4 (end_row m, end_col m + 1)
               (piece_at b4 (end_row m, end_col m - 2)))
          (end_row m, end_col m - 2) Empty
  else b4).
  match goal with |- _ ?st = _ =>
    rewrite (bind_step _ _ st tt (set_board b5 st))
  end.
  2:{ unfold b5. destruct (is_castle m) eqn:E; [|reflexivity].
      specialize (Hcastle eq_refl).
      assert (Hrow : 0 <= end_row m < 8) by apply Hen.
      destruct (end_col m - start_col m =? 2).
      - rewrite bind_read by (assumption || (split; cbn; lia)).
        norm_state.
        rewrite bind_write by (assumption || (split; cbn; lia)).
        norm_state.
        rewrite write_board_at;
          [reflexivity
          |apply put_8x8; [assumption|split; cbn; lia]|split; cbn; lia].
      - rewrite bind_read by (assumption || (split; cbn; lia)).
        norm_state.
        rewrite bind_write by (assumption || (split; cbn; lia)).
        norm_state.
        rewrite write_board_at;
          [reflexivity
          |apply put_8x8; [assumption|split; cbn; lia]|split; cbn; lia]. }
  norm_state.
  reflexivity.
Qed.

Lemma Inv_same_core NV s s' : same_core s s' -> Inv NV s -> Inv NV s'.
Proof.
  intros (Hb & Hw & Hwk & Hbk & Hep & Hcr) [].
  assert (Hloc : forall c, king_location c s' = king_location c s)
    by (intros []; assumption).
  constructor; unfold kings_ok, rooks_ok, ep_ok in *;
    rewrite ?Hb, ?Hw, ?Hwk, ?Hbk, ?Hep, ?Hcr; try assumption.
  - intros c loc. rewrite Hloc. auto.
  - intros c. rewrite Hloc. auto.
  - intros c. rewrite Hloc. auto.
Qed.

Lemma Move_init_on_board b st en ep ca m :
  board_8x8 b -> sq_on_board st -> sq_on_board en ->
  Move_init st en b ep ca = Some m ->
  m = mkMove (fst st) (snd st) (fst en) (snd en) (piece_at b st)
        (if ep
         then (if piece_eqb (piece_at b st) (Piece Black Pawn)
               then Piece White Pawn else Piece Black Pawn)
         else piece_at b en)
        ((piece_eqb (piece_at b st) (Piece White Pawn) && (fst en =? 0))
         || (piece_eqb (piece_at b st) (Piece Black Pawn) && (fst en =? 7)))
        ep ca
        (fst st * 1000 + snd st * 100 + fst en * 10 + snd en).
Proof.
  intros Hb Hst Hen H. unfold Move_init in H.
  rewrite (board_get_on_board b Hb _ _ Hst) in H.
  rewrite (board_get_on_board b Hb _ _ Hen) in H.
  injection H as <-. reflexivity.
Qed.

(** ** What the generated moves look like *)

Lemma has_color_ally_enemy p w :
  has_color p (enemy_of w) = true -> has_color p (ally_of w) = false.
Proof. destruct p as [|[] k], w; cbn; congruence. Qed.

Lemma free_or_enemy_target b w t :
  free_or_enemy b (enemy_of w) t ->
  has_color (piece_at b t) (ally_of w) = false.
Proof.
  intros [->|H]; [reflexivity|]. apply has_color_ally_enemy. exact H.
Qed.

Lemma add_sq_ne a d i : d <> (0, 0) -> i <> 0 -> a <> add_sq a d i.
Proof.
  intros Hd Hi Heq. destruct a as [r c], d as [dr dc].
  unfold add_sq in Heq. cbn [fst snd] in Heq.
  injection Heq as H1 H2.
  assert (dr * i = 0) by lia. assert (dc * i = 0) by lia.
  apply Hd. f_equal; nia.
Qed.

Lemma has_color_same c k : has_color (Piece c k) c = true.
Proof. destruct c; reflexivity. Qed.

Lemma knight_offset_nonzero off : In off knight_offsets -> off <> (0, 0).
Proof.
  intros H. repeat (destruct H as [<-|H]; [discriminate|]). destruct H.
Qed.

Lemma sliding_direction_nonzero d : In d sliding_directions -> d <> (0, 0).
Proof.
  intros H. repeat (destruct H as [<-|H]; [discriminate|]). destruct H.
Qed.

Lemma knight_offset_neg off :
  In off knight_offsets -> In (neg_dir off) knight_offsets.
Proof.
  intros H. repeat (destruct H as [<-|H]; [cbn; auto 10|]). destruct H.
Qed.

Lemma slides_neg k d : slides k d -> slides k (neg_dir d).
Proof.
  intros [[Hd Hk]|[Hd Hk]]; [left|right]; (split; [|exact Hk]);
    repeat (destruct Hd as [<-|Hd]; [cbn; auto 10|]); destruct Hd.
Qed.

Lemma add_sq_back a d i j :
  add_sq (add_sq a d i) (neg_dir d) j = add_sq a d (i - j).
Proof. unfold add_sq, neg_dir. cbn [fst snd]. f_equal; lia. Qed.

Lemma add_sq_zero a d : add_sq a d 0 = a.
Proof.
  unfold add_sq. rewrite !Z.mul_0_r, !Z.add_0_r. symmetry.
  apply surjective_pairing.
Qed.

Lemma clear_between_back b a d i :
  clear_between b a d 0 i ->
  clear_between b (add_sq a d i) (neg_dir d) 0 i.
Proof.
  intros H j Hj. rewrite add_sq_back. apply H. lia.
Qed.

Lemma attacks_slide_from b att e q d n k :
  slides k d -> 1 <= n -> q = add_sq e d n -> sq_on_board q ->
  clear_between b e d 0 n -> piece_at b q = Piece att k ->
  attacks b att e q.
Proof. intros Hs Hn -> Hon Hc Hp. eapply attacks_slide; eauto. Qed.

Lemma attacks_pawn_from b att e q lr :
  lr = 1 \/ lr = -1 -> q = add_sq e (- pawn_direction att, lr) 1 ->
  sq_on_board q -> piece_at b q = Piece att Pawn ->
  attacks b att e q.
Proof. intros Hlr -> Hon Hp. eapply attacks_pawn; eauto. Qed.

Lemma attacks_knight_from b att e q off :
  In off knight_offsets -> q = add_sq e off 1 ->
  sq_on_board q -> piece_at b q = Piece att Knight ->
  attacks b att e q.
Proof. intros Hoff -> Hon Hp. eapply attacks_knight; eauto. Qed.

Lemma near_step a d :
  In d sliding_directions -> near a (add_sq a d 1).
Proof.
  intros H. unfold near, add_sq. cbn [fst snd].
  repeat (destruct H as [<-|H]; [cbn [fst snd]; lia|]). destruct H.
Qed.

Section MoveFacts.

Variable NV : Z.
Hypothesis HNV : NV < 0.
Variable s : GameState.
Hypothesis Hinv : Inv NV s.

Let b := board s.
Let w := white_to_move s.

Lemma move_facts_of st en epf caf m :
  sq_on_board st -> sq_on_board en ->
  Move_init st en b epf caf = Some m ->
  st <> en ->
  has_color (piece_at b en) (ally_of w) = false ->
  (has_color (piece_at b st) (ally_of w) = true \/ st = own_king_location s) ->
  (caf = true ->
   st = home (ally_of w)
   /\ piece_at b st = Piece (ally_of w) King
   /\ epf = false
   /\ fst st = fst en
   /\ ((snd en = 6
        /\ piece_at b (fst st, 7) = Piece (ally_of w) Rook
        /\ piece_at b (fst st, 5) = Empty
        /\ piece_at b (fst st, 6) = Empty)
       \/ (snd en = 2
           /\ piece_at b (fst st, 0) = Piece (ally_of w) Rook
           /\ piece_at b (fst st, 1) = Empty
           /\ piece_at b (fst st, 2) = Empty
           /\ piece_at b (fst st, 3) = Empty))) ->
  (epf = true ->
   piece_at b st = Piece (ally_of w) Pawn
   /\ fst st = (if w then 3 else 4)
   /\ fst en = (if w then 2 else 5)
   /\ (snd en = snd st + 1 \/ snd en = snd st - 1)
   /\ piece_at b en = Empty
   /\ piece_at b (fst st, snd en) = Piece (enemy_of w) Pawn) ->
  (has_kind (piece_at b st) Pawn && (Z.abs (fst en - fst st) =? 2) = true ->
   piece_at b st = Piece (ally_of w) Pawn
   /\ fst st = (if w then 6 else 1)
   /\ fst en = (if w then 4 else 3)
   /\ snd en = snd st
   /\ piece_at b ((if w then 5 else 2), snd st) = Empty
   /\ piece_at b en = Empty
   /\ epf = false /\ caf = false) ->
  (piece_at b en <> Empty ->
   attacks b (ally_of w) en st
   \/ (near st en
       /\ (piece_at b st = Piece (ally_of w) King
           \/ st = own_king_location s))) ->
  (piece_at b st = Piece (ally_of w) King -> caf = false ->
   near st en
   /\ fst (fst (analyze NV b (ally_of w) (enemy_of w) (fst en) (snd en)))
      = false) ->
  move_facts NV s m.
Proof.
  intros Hst Hen Hm Hne Htarget Hmover Hca Hep Hdb Hcap Hking.
  pose proof (Move_init_on_board b _ _ _ _ _ (inv_board _ _ Hinv) Hst Hen Hm)
    as Hm'.
  rewrite Hm' in *. clear Hm'.
  constructor; unfold move_start, move_end, is_double_step;
    cbn [start_row start_col end_row end_col piece_moved piece_captured
         is_pawn_promotion is_en_passant is_castle move_id];
    rewrite <- ?surjective_pairing; assumption.
Qed.

Lemma facts_knight a off m :
  sq_on_board a ->
  piece_at b a = Piece (ally_of w) Knight ->
  In off knight_offsets ->
  sq_on_board (add_sq a off 1) ->
  free_or_enemy b (enemy_of w) (add_sq a off 1) ->
  Move_init a (add_sq a off 1) b false false = Some m ->
  move_facts NV s m.
Proof.
  intros Ha Hp Hoff Hon Hfree Hm.
  apply (move_facts_of a (add_sq a off 1) false false); auto;
    try discriminate.
  - apply add_sq_ne; [apply knight_offset_nonzero; exact Hoff|lia].
  - apply free_or_enemy_target. exact Hfree.
  - left. rewrite Hp. apply has_color_same.
  - rewrite Hp. discriminate.
  - intros _. left.
    apply (attacks_knight_from b _ _ _ (neg_dir off));
      [apply knight_offset_neg; exact Hoff| |exact Ha|exact Hp].
    rewrite add_sq_back. replace (1 - 1) with 0 by lia.
    symmetry. apply add_sq_zero.
  - rewrite Hp. discriminate.
Qed.

Lemma facts_slide a d i k m :
  sq_on_board a ->
  piece_at b a = Piece (ally_of w) k ->
  slides k d -> 1 <= i ->
  sq_on_board (add_sq a d i) ->
  clear_between b a d 0 i ->
  free_or_enemy b (enemy_of w) (add_sq a d i) ->
  Move_init a (add_sq a d i) b false false = Some m ->
  move_facts NV s m.
Proof.
  intros Ha Hp Hs Hi Hon Hclear Hfree Hm.
  assert (Hk : k <> Pawn /\ k <> King).
  { destruct Hs as [[_ [-> | ->]]|[_ [-> | ->]]]; split; discriminate. }
  apply (move_facts_of a (add_sq a d i) false false); auto;
    try discriminate.
  - apply add_sq_ne; [|lia].
    apply sliding_direction_nonzero, (slides_sliding k), Hs.
  - apply free_or_enemy_target. exact Hfree.
  - left. rewrite Hp. apply has_color_same.
  - rewrite Hp. destruct k; try discriminate. tauto.
  - intros _. left.
    apply (attacks_slide_from b _ _ _ (neg_dir d) i k);
      [apply slides_neg; exact Hs|exact Hi| |exact Ha| |exact Hp].
    + rewrite add_sq_back. replace (i - i) with 0 by lia.
      symmetry. apply add_sq_zero.
    + apply clear_between_back. exact Hclear.
  - rewrite Hp. intros H. injection H as ->. tauto.
Qed.

Lemma facts_pawn_push a i m :
  sq_on_board a ->
  piece_at b a = Piece (ally_of w) Pawn ->
  i = 1 \/ i = 2 ->
  (i = 2 -> fst a = if w then 6 else 1) ->
  sq_on_board (add_sq a (pawn_direction (ally_of w), 0) i) ->
  clear_between b a (pawn_direction (ally_of w), 0) 0 (i + 1) ->
  Move_init a (add_sq a (pawn_direction (ally_of w), 0) i) b false false
  = Some m ->
  move_facts NV s m.
Proof.
  intros Ha Hp Hi Hrow Hon Hclear Hm.
  assert (Hempty : piece_at b (add_sq a (pawn_direction (ally_of w), 0) i)
                   = Empty) by (apply Hclear; lia).
  apply (move_facts_of a (add_sq a (pawn_direction (ally_of w), 0) i)
           false false); auto; try discriminate.
  - apply add_sq_ne; [destruct w; discriminate|lia].
  - rewrite Hempty. reflexivity.
  - left. rewrite Hp. apply has_color_same.
  - rewrite Hp. unfold add_sq. cbn [fst snd has_kind kind_eqb andb].
    intros Habs. apply Z.eqb_eq in Habs.
    assert (i = 2) as -> by (destruct Hi as [-> | ->]; destruct w; cbn in *; lia).
    specialize (Hrow eq_refl).
    assert (H1 : piece_at b (add_sq a (pawn_direction (ally_of w), 0) 1)
                 = Empty) by (apply Hclear; lia).
    clear Hclear Hm. unfold add_sq in *. cbn [fst snd] in *.
    rewrite Hrow in *. destruct w; cbn in *;
      repeat split; try reflexivity; try lia;
      rewrite ?Z.add_0_r in *; assumption.
  - intros H. rewrite Hempty in H. congruence.
  - rewrite Hp. discriminate.
Qed.

Lemma facts_pawn_capture a lr m :
  sq_on_board a ->
  piece_at b a = Piece (ally_of w) Pawn ->
  lr = 1 \/ lr = -1 ->
  sq_on_board (add_sq a (pawn_direction (ally_of w), lr) 1) ->
  has_color (piece_at b (add_sq a (pawn_direction (ally_of w), lr) 1))
            (enemy_of w) = true ->
  Move_init a (add_sq a (pawn_direction (ally_of w), lr) 1) b false false
  = Some m ->
  move_facts NV s m.
Proof.
  intros Ha Hp Hlr Hon Henemy Hm.
  apply (move_facts_of a (add_sq a (pawn_direction (ally_of w), lr) 1)
           false false); auto; try discriminate.
  - apply add_sq_ne; [destruct w, Hlr as [-> | ->]; discriminate|lia].
  - apply has_color_ally_enemy. exact Henemy.
  - left. rewrite Hp. apply has_color_same.
  - rewrite Hp. unfold add_sq. cbn [fst snd has_kind kind_eqb andb].
    intros Habs. apply Z.eqb_eq in Habs. destruct w; cbn in Habs; lia.
  - intros _. left.
    apply (attacks_pawn_from b _ _ _ (- lr));
      [lia| |exact Ha|exact Hp].
    destruct a as [r c]. unfold add_sq. cbn [fst snd]. f_equal; lia.
  - rewrite Hp. discriminate.
Qed.

Lemma facts_en_passant a lr m :
  sq_on_board a ->
  piece_at b a = Piece (ally_of w) Pawn ->
  lr = 1 \/ lr = -1 ->
  add_sq a (pawn_direction (ally_of w), lr) 1 = en_passant_possible s ->
  Move_init a (en_passant_possible s) b true false = Some m ->
  move_facts NV s m.
Proof.
  intros Ha Hp Hlr Hep Hm.
  destruct (inv_ep _ _ Hinv) as [Hnone|(col & Hcol & Heq & Hfree & Hpawn)].
  { exfalso. rewrite Hnone in Hep. unfold add_sq, NO_PAIR in Hep.
    cbn [fst snd] in Hep. injection Hep as Hr Hc.
    destruct (inv_pawns _ _ Hinv (fst a) (snd a) Ha) as [Hw Hbl].
    unfold piece_at in Hp. fold b in Hw, Hbl. unfold piece_at in Hw, Hbl.
    cbn [fst snd] in Hw, Hbl. fold w in Hw, Hbl.
    destruct Ha as [Hra Hca]. destruct w; cbn in *.
    - specialize (Hw Hp). lia.
    - lia. }
  fold w b in Heq, Hfree, Hpawn.
  rewrite Heq in Hep, Hm. unfold add_sq in Hep. cbn [fst snd] in Hep.
  injection Hep as Hr Hc.
  assert (Hon : sq_on_board ((if w then 2 else 5), col)).
  { split; cbn [fst snd]; [destruct w; lia|lia]. }
  apply (move_facts_of a ((if w then 2 else 5), col) true false); auto;
    try discriminate; cbn [fst snd].
  - intros Heq'. rewrite Heq' in Hp. rewrite Hfree in Hp. discriminate.
  - rewrite Hfree. reflexivity.
  - left. rewrite Hp. apply has_color_same.
  - intros _.
    assert (Hrow : fst a = if w then 3 else 4)
      by (destruct w; cbn in *; lia).
    repeat split; auto.
    + lia.
    + rewrite Hrow. exact Hpawn.
  - rewrite Hp. cbn [has_kind kind_eqb andb].
    intros Habs. apply Z.eqb_eq in Habs.
    destruct w; cbn [ally_of pawn_direction] in *; lia.
  - intros H. rewrite Hfree in H. congruence.
  - rewrite Hp. discriminate.
Qed.

Lemma facts_king a m :
  sq_on_board a ->
  piece_at b a = Piece (ally_of w) King \/ a = own_king_location s ->
  king_move NV b w a m ->
  move_facts NV s m.
Proof.
  intros Ha Hking Hm. destruct Hm as [d m Hd Hon Htarget Hsafe Hm].
  pose proof (near_step a d Hd) as Hnear.
  apply (move_facts_of a (add_sq a d 1) false false); auto;
    try discriminate.
  - apply add_sq_ne; [apply sliding_direction_nonzero; exact Hd|lia].
  - destruct Hking as [Hp|Hloc]; [left|right; exact Hloc].
    rewrite Hp. apply has_color_same.
  - intros H. exfalso. apply andb_true_iff in H as [_ H].
    apply Z.eqb_eq in H. destruct Hnear as [Hr _]. clear Hm Hsafe Htarget.
    unfold add_sq in *. cbn [fst snd] in *. lia.
Qed.

Lemma own_home :
  rights_of (ally_of w) (current_castling_rights s) = true ->
  own_king_location s = home (ally_of w)
  /\ piece_at b (home (ally_of w)) = Piece (ally_of w) King.
Proof.
  intros H. rewrite own_king_location_ally.
  apply (inv_home _ _ Hinv). exact H.
Qed.

Lemma facts_castle m :
  castle_move b w (current_castling_rights s) (own_king_location s) m ->
  move_facts NV s m.
Proof.
  intros Hm. pose proof (inv_rooks _ _ Hinv) as (Hwk & Hwq & Hbk & Hbq).
  fold b in Hwk, Hwq, Hbk, Hbq.
  destruct Hm as [m Hright H1 H2 Hm|m Hright H1 H2 H3 Hm].
  - assert (Hr : rights_of (ally_of w) (current_castling_rights s) = true).
    { destruct w; cbn in *; rewrite ?orb_false_r in Hright;
        rewrite Hright; reflexivity. }
    destruct (own_home Hr) as [Hloc Hking]. rewrite Hloc in *.
    assert (Hrook : piece_at b (fst (home (ally_of w)), 7)
                    = Piece (ally_of w) Rook).
    { destruct w; cbn in *; rewrite ?orb_false_r in Hright; auto. }
    apply (move_facts_of (home (ally_of w))
             (add_sq (home (ally_of w)) (0, 1) 2) false true); auto;
      try discriminate.
    + destruct w; cbn; unfold sq_on_board, on_board; cbn; lia.
    + destruct w; cbn; unfold sq_on_board, on_board; cbn; lia.
    + destruct w; discriminate.
    + rewrite H2. reflexivity.
    + intros _. repeat split; auto; [destruct w; reflexivity|].
      left. repeat split; auto; destruct w;
        first [reflexivity|exact H1|exact H2].
    + rewrite Hking. discriminate.
    + intros H. rewrite H2 in H. congruence.
  - assert (Hr : rights_of (ally_of w) (current_castling_rights s) = true).
    { destruct w; cbn in *; rewrite ?orb_false_r in Hright;
        rewrite Hright; rewrite ?orb_true_r; reflexivity. }
    destruct (own_home Hr) as [Hloc Hking]. rewrite Hloc in *.
    assert (Hrook : piece_at b (fst (home (ally_of w)), 0)
                    = Piece (ally_of w) Rook).
    { destruct w; cbn in *; rewrite ?orb_false_r in Hright; auto. }
    apply (move_facts_of (home (ally_of w))
             (add_sq (home (ally_of w)) (0, -1) 2) false true); auto;
      try discriminate.
    + destruct w; cbn; unfold sq_on_board, on_board; cbn; lia.
    + destruct w; cbn; unfold sq_on_board, on_board; cbn; lia.
    + destruct w; discriminate.
    + rewrite H2. reflexivity.
    + intros _. repeat split; auto; [destruct w; reflexivity|].
      right. repeat split; auto; destruct w;
        first [reflexivity|exact H1|exact H2|exact H3].
    + rewrite Hking. discriminate.
    + intros H. rewrite H2 in H. congruence.
Qed.

Lemma facts_piece pd a m :
  sq_on_board a ->
  piece_move b w (en_passant_possible s) pd a m ->
  move_facts NV s m.
Proof.
  intros Ha Hm. destruct Hm as [i m ? ? ? ? ? ? ?|lr m ? ? ? ? ? ?
                             |lr m ? ? ? ? ?|off m ? ? ? ? ? ?
                             |d i k m ? ? ? ? ? ? ? ?].
  - apply (facts_pawn_push a i m); assumption.
  - apply (facts_pawn_capture a lr m); assumption.
  - apply (facts_en_passant a lr m); assumption.
  - apply (facts_knight a off m); assumption.
  - apply (facts_slide a d i k m); assumption.
Qed.

Lemma facts_possible ps m :
  possible_move NV b w (en_passant_possible s) ps m ->
  move_facts NV s m.
Proof.
  intros [a pd m' Ha _ Hm|a m' Ha Hking Hm].
  - apply (facts_piece pd a m' Ha Hm).
  - apply (facts_king a m' Ha (or_introl Hking) Hm).
Qed.

Theorem generated_facts m : generated NV s m -> move_facts NV s m.
Proof.
  intros [m' _ Hm|c m' _ _ Hm _|m' _ Hm|m' Hm].
  - eapply facts_possible; eauto.
  - eapply facts_possible; eauto.
  - eapply facts_king; eauto.
    + rewrite own_king_location_ally.
      destruct (ally_of (white_to_move s));
        [apply (inv_white_king _ _ Hinv)|apply (inv_black_king _ _ Hinv)].
  - apply facts_castle. exact Hm.
Qed.

End MoveFacts.

(** ** The board after a generated move *)

Lemma pair_eqb_refl p : pair_eqb p p = true.
Proof. apply pair_eqb_eq. reflexivity. Qed.

Lemma pair_eqb_neq p q : p <> q -> pair_eqb p q = false.
Proof.
  intros H. destruct (pair_eqb p q) eqn:E; [|reflexivity].
  apply pair_eqb_eq in E. contradiction.
Qed.

Section Effects.

Variable NV : Z.
Variable s : GameState.
Hypothesis Hinv : Inv NV s.
Variable m : Move.
Hypothesis Hm : move_facts NV s m.

Let b := board s.
Let Hb : board_8x8 b := inv_board _ _ Hinv.

Lemma piece_moved_start : piece_moved m = piece_at b (move_start m).
Proof.
  pose proof (Move_init_on_board b _ _ _ _ _ Hb (mf_start _ _ _ Hm)
                (mf_end _ _ _ Hm) (mf_init _ _ _ Hm)) as H.
  rewrite H at 1. reflexivity.
Qed.

Lemma castle_end_col :
  is_castle m = true ->
  start_col m = 4 /\ (end_col m = 6 \/ end_col m = 2)
  /\ start_row m = end_row m
  /\ is_en_passant m = false /\ is_pawn_promotion m = false.
Proof.
  intros Hc. destruct (mf_castle _ _ _ Hm Hc) as (Hst & Hk & Hep & Hrow & Hside).
  assert (Hcol : start_col m = 4).
  { unfold move_start in Hst. destruct (ally_of (white_to_move s));
      injection Hst as _ H; exact H. }
  repeat split; auto.
  - destruct Hside as [[H _]|[H _]]; auto.
  - pose proof (Move_init_on_board b _ _ _ _ _ Hb (mf_start _ _ _ Hm)
                  (mf_end _ _ _ Hm) (mf_init _ _ _ Hm)) as H.
    rewrite H. cbn [is_pawn_promotion]. fold b in Hk. rewrite Hk.
    destruct (ally_of (white_to_move s)); reflexivity.
Qed.

Lemma made_on_board :
  (is_castle m = true -> sq_on_board (rook_from m) /\ sq_on_board (rook_to m))
  /\ sq_on_board (start_row m, end_col m).
Proof.
  pose proof (mf_start _ _ _ Hm) as [Hsr Hsc].
  pose proof (mf_end _ _ _ Hm) as [Her Hec].
  cbn [move_start move_end fst snd] in *.
  split; [|split; assumption].
  intros Hc. unfold rook_from, rook_to.
  split; (split; cbn [fst snd]; [assumption|destruct (end_col m =? 6); lia]).
Qed.

Lemma made_board_8x8 : board_8x8 (make_move_board m b).
Proof.
  destruct made_on_board as [Hrook Hep].
  pose proof (mf_start _ _ _ Hm) as Hst. pose proof (mf_end _ _ _ Hm) as Hen.
  unfold make_move_board.
  assert (H4 : board_8x8
    (if is_en_passant m
     then put (if is_pawn_promotion m
               then match promoted (piece_moved m) with
                    | Some q => put (put (put b (move_start m) Empty)
                                         (move_end m) (piece_moved m))
                                    (move_end m) q
                    | None => put (put b (move_start m) Empty)
                                  (move_end m) (piece_moved m)
                    end
               else put (put b (move_start m) Empty)
                        (move_end m) (piece_moved m))
              (start_row m, end_col m) Empty
     else if is_pawn_promotion m
          then match promoted (piece_moved m) with
               | Some q => put (put (put b (move_start m) Empty)
                                    (move_end m) (piece_moved m))
                               (move_end m) q
               | None => put (put b (move_start m) Empty)
                             (move_end m) (piece_moved m)
               end
          else put (put b (move_start m) Empty)
                   (move_end m) (piece_moved m))).
  { destruct (is_en_passant m), (is_pawn_promotion m);
      try destruct (promoted (piece_moved m));
      repeat (apply put_8x8; [|assumption]); exact Hb. }
  cbv zeta. destruct (is_castle m) eqn:Hc; [|exact H4].
  destruct (castle_end_col Hc) as (Hcol & Hec & _).
  destruct (Hrook eq_refl) as [Hfrom Hto]. unfold rook_from, rook_to in *.
  destruct Hec as [Hec|Hec]; rewrite Hec, Hcol in *; cbn in Hfrom, Hto |- *;
    (apply put_8x8; [apply put_8x8|]; assumption).
Qed.

Lemma piece_at_made x :
  sq_on_board x -> piece_at (make_move_board m b) x = after_move m b x.
Proof.
  destruct made_on_board as [Hrook Hep].
  pose proof (mf_start _ _ _ Hm) as Hst. pose proof (mf_end _ _ _ Hm) as Hen.
  revert x. unfold make_move_board, after_move. cbv zeta.
  set (b1 := put b (move_start m) Empty).
  assert (Hb1 : board_8x8 b1) by (apply put_8x8; assumption).
  set (b2 := put b1 (move_end m) (piece_moved m)).
  assert (Hb2 : board_8x8 b2) by (apply put_8x8; assumption).
  set (b3 := if is_pawn_promotion m
             then match promoted (piece_moved m) with
                  | Some q => put b2 (move_end m) q
                  | None => b2
                  end
             else b2).
  assert (H3 : board_8x8 b3 /\ forall x, sq_on_board x ->
            piece_at b3 x
            = if pair_eqb x (move_end m) then landed m
              else if pair_eqb x (move_start m) then Empty
              else piece_at b x).
  { assert (H2 : forall x, sq_on_board x ->
              piece_at b2 x
              = if pair_eqb x (move_end m) then piece_moved m
                else if pair_eqb x (move_start m) then Empty
                else piece_at b x).
    { intros x Hx. unfold b2, b1. rewrite !piece_at_put by assumption.
      reflexivity. }
    unfold b3, landed. destruct (is_pawn_promotion m); [|split; assumption].
    destruct (promoted (piece_moved m)) as [q|]; [|split; assumption].
    split; [apply put_8x8; assumption|].
    intros x Hx. rewrite piece_at_put by assumption. rewrite (H2 x Hx).
    destruct (pair_eqb x (move_end m)); reflexivity. }
  destruct H3 as [Hb3 H3].
  set (b4 := if is_en_passant m
             then put b3 (start_row m, end_col m) Empty else b3).
  assert (H4 : board_8x8 b4 /\ forall x, sq_on_board x ->
            piece_at b4 x
            = if is_en_passant m && pair_eqb x (start_row m, end_col m)
              then Empty else piece_at b3 x).
  { unfold b4. destruct (is_en_passant m); [|split; [assumption|reflexivity]].
    split; [apply put_8x8; assumption|].
    intros x Hx. rewrite piece_at_put by assumption. reflexivity. }
  destruct H4 as [Hb4 H4].
  intros x Hx.
  destruct (is_castle m) eqn:Hc.
  - destruct (castle_end_col Hc) as (Hcol & Hec & Hrow & Hnep & _).
    destruct (Hrook eq_refl) as [Hfrom Hto]. unfold rook_from, rook_to in *.
    assert (Hsame : piece_at b4 (end_row m, if end_col m =? 6 then 7 else 0)
                    = piece_at b (end_row m, if end_col m =? 6 then 7 else 0)).
    { rewrite H4, H3 by assumption. rewrite Hnep. cbn [andb].
      unfold move_end, move_start. rewrite Hcol, <- Hrow.
      rewrite !pair_eqb_neq; [reflexivity| |];
        destruct Hec as [-> | ->]; cbn; intros H; injection H; lia. }
    destruct Hec as [Hec|Hec].
    + replace (end_col m - start_col m =? 2) with true
        by (rewrite Hec, Hcol; reflexivity).
      replace (end_col m + 1) with 7 by lia.
      replace (end_col m - 1) with 5 by lia.
      replace (end_col m =? 6) with true in *
        by (rewrite Hec; reflexivity).
      rewrite !piece_at_put; try assumption;
        try (apply put_8x8; assumption).
      rewrite Hsame.
      destruct (pair_eqb x (end_row m, 7)); [reflexivity|].
      destruct (pair_eqb x (end_row m, 5)); [reflexivity|].
      rewrite H4, H3 by assumption. reflexivity.
    + replace (end_col m - start_col m =? 2) with false
        by (rewrite Hec, Hcol; reflexivity).
      replace (end_col m + 1) with 3 by lia.
      replace (end_col m - 2) with 0 by lia.
      replace (end_col m =? 6) with false in *
        by (rewrite Hec; reflexivity).
      rewrite !piece_at_put; try assumption;
        try (apply put_8x8; assumption).
      rewrite Hsame.
      destruct (pair_eqb x (end_row m, 0)); [reflexivity|].
      destruct (pair_eqb x (end_row m, 3)); [reflexivity|].
      rewrite H4, H3 by assumption. reflexivity.
  - cbn [andb]. rewrite H4, H3 by assumption. reflexivity.
Qed.

End Effects.

(** ** Castling rights after a move *)

Lemma rights_of_right c cr :
  rights_of c cr = right_of c true cr || right_of c false cr.
Proof. destruct c; reflexivity. Qed.

Lemma update_right c ks m cr :
  right_of c ks (update_castle_rights_pure m cr) = true ->
  right_of c ks cr = true
  /\ piece_moved m <> Piece c King
  /\ ~ (piece_moved m = Piece c Rook /\ move_start m = corner c ks)
  /\ ~ (piece_captured m = Piece c Rook /\ move_end m = corner c ks).
Proof.
  unfold update_castle_rights_pure, corner_update, move_start, move_end, corner.
  destruct cr as [a1 a2 a3 a4].
  destruct (piece_moved m) as [|[] []], (piece_captured m) as [|[] []];
    cbn [piece_eqb color_eqb kind_eqb andb];
    destruct c, ks; cbn [right_of home fst snd];
    repeat match goal with
           | |- context [?x =? ?y] =>
               let E := fresh "E" in
               destruct (Z.eqb_spec x y) as [E|E]
           end;
    cbn; intros H; repeat split; try congruence;
    try (intros [? Heq]; try discriminate; injection Heq; intros; lia).
Qed.

Lemma update_rights_of c m cr :
  rights_of c (update_castle_rights_pure m cr) = true ->
  rights_of c cr = true /\ piece_moved m <> Piece c King.
Proof.
  rewrite !rights_of_right. intros H. apply orb_true_iff in H as [H|H];
    apply update_right in H as (H & Hk & _); rewrite H;
    rewrite ?orb_true_r; auto.
Qed.

(** ** Kings on the board *)

Lemma py_get_nonneg_some {A} (l : list A) i x :
  0 <= i -> py_get l i = Some x -> i < py_len l.
Proof.
  intros Hi H. unfold py_get, py_norm in H.
  destruct (i <? py_len l) eqn:E; [apply Z.ltb_lt in E; exact E|].
  rewrite andb_false_r in H.
  replace (i <? 0) with false in H by (symmetry; apply Z.ltb_ge; lia).
  discriminate.
Qed.

Lemma king_at_piece b c loc :
  board_8x8 b ->
  king_at b c loc <-> sq_on_board loc /\ piece_at b loc = Piece c King.
Proof.
  intros Hb. split.
  - intros (Hr & Hc & Hget).
    assert (Hon : sq_on_board loc).
    { unfold board_get in Hget.
      destruct (py_get b (fst loc)) as [row|] eqn:Erow; [|discriminate].
      pose proof (py_get_nonneg_some _ _ _ Hr Erow) as Hr'.
      pose proof (py_get_nonneg_some _ _ _ Hc Hget) as Hc'.
      rewrite (py_len_board b Hb) in Hr'.
      rewrite py_get_in_range in Erow
        by (rewrite (py_len_board b Hb); lia).
      destruct Hb as [_ Hrows]. rewrite Forall_forall in Hrows.
      apply nth_error_In, Hrows in Erow. unfold py_len in Hc'.
      rewrite Erow in Hc'. split; lia. }
    split; [exact Hon|]. unfold piece_at, at_square. rewrite Hget.
    reflexivity.
  - intros [Hon Hp]. destruct Hon as [Hr Hc]. repeat split; try lia.
    rewrite (board_get_on_board b Hb _ _ (conj Hr Hc)).
    f_equal. exact Hp.
Qed.

(** ** The invariant after a generated move *)

Lemma piece_eqb_refl p : piece_eqb p p = true.
Proof. apply piece_eqb_eq. reflexivity. Qed.

Lemma piece_eqb_neq p q : p <> q -> piece_eqb p q = false.
Proof.
  intros H. destruct (piece_eqb p q) eqn:E; [|reflexivity].
  apply piece_eqb_eq in E. contradiction.
Qed.

Lemma rooks_ok_corners s :
  rooks_ok s <->
  forall c ks, right_of c ks (current_castling_rights s) = true ->
               piece_at (board s) (corner c ks) = Piece c Rook.
Proof.
  unfold rooks_ok. split.
  - intros (H1 & H2 & H3 & H4) [] []; cbn; assumption.
  - intros H. repeat split.
    + apply (H White true).
    + apply (H White false).
    + apply (H Black true).
    + apply (H Black false).
Qed.

Lemma corner_on_board c ks : sq_on_board (corner c ks).
Proof. destruct c, ks; split; cbn; lia. Qed.

Lemma analyze_fields NV b ally enemy r c :
  let final := snd (loop_run knight_offsets (knight_scan_pure b enemy r c)
                      (analyze_rays NV b ally enemy r c)) in
  fst (fst (analyze NV b ally enemy r c)) = acc_in_check final
  /\ snd (fst (analyze NV b ally enemy r c)) = acc_pins final
  /\ snd (analyze NV b ally enemy r c) = acc_checks final.
Proof.
  unfold analyze. cbv zeta.
  destruct (snd (loop_run knight_offsets (knight_scan_pure b enemy r c)
                   (analyze_rays NV b ally enemy r c)))
    as [[[pp ic] pns] chks].
  repeat split.
Qed.

Lemma near_cases p q :
  near p q ->
  p = q \/ exists d, In d sliding_directions /\ q = add_sq p d 1.
Proof.
  destruct p as [pr pc], q as [qr qc]. unfold near. cbn [fst snd].
  intros [Hr Hc].
  assert (Hdr : qr = pr + -1 \/ qr = pr + 0 \/ qr = pr + 1) by lia.
  assert (Hdc : qc = pc + -1 \/ qc = pc + 0 \/ qc = pc + 1) by lia.
  unfold add_sq. cbn [fst snd].
  destruct Hdr as [-> |[-> | ->]], Hdc as [-> |[-> | ->]];
    try (right; eexists (_, _); split;
         [|rewrite !Z.mul_1_r; reflexivity]; cbn; tauto).
  left. f_equal; lia.
Qed.

Lemma near_sym p q : near p q -> near q p.
Proof. unfold near. lia. Qed.

Section Preserve.

Variable NV : Z.
Hypothesis HNV : NV < 0.
Variable s : GameState.
Hypothesis Hinv : Inv NV s.
Variable m : Move.
Hypothesis Hm : move_facts NV s m.

Let b := board s.
Let w := white_to_move s.
Let Hb : board_8x8 b := inv_board _ _ Hinv.

Lemma made_piece x :
  sq_on_board x -> piece_at (board (made NV m s)) x = after_move m b x.
Proof. apply (piece_at_made NV s Hinv m Hm). Qed.

Lemma made_8x8 : board_8x8 (board (made NV m s)).
Proof. apply (made_board_8x8 NV s Hinv m Hm). Qed.

Lemma moved_start : piece_moved m = piece_at b (move_start m).
Proof. apply (piece_moved_start NV s Hinv m Hm). Qed.

Lemma move_explicit :
  m = mkMove (start_row m) (start_col m) (end_row m) (end_col m)
        (piece_at b (move_start m))
        (if is_en_passant m
         then (if piece_eqb (piece_at b (move_start m)) (Piece Black Pawn)
               then Piece White Pawn else Piece Black Pawn)
         else piece_at b (move_end m))
        ((piece_eqb (piece_at b (move_start m)) (Piece White Pawn)
          && (end_row m =? 0))
         || (piece_eqb (piece_at b (move_start m)) (Piece Black Pawn)
             && (end_row m =? 7)))
        (is_en_passant m) (is_castle m)
        (start_row m * 1000 + start_col m * 100 + end_row m * 10 + end_col m).
Proof.
  apply (Move_init_on_board b _ _ _ _ _ Hb (mf_start _ _ _ Hm)
           (mf_end _ _ _ Hm) (mf_init _ _ _ Hm)).
Qed.

Lemma promotion_flag :
  is_pawn_promotion m
  = (piece_eqb (piece_moved m) (Piece White Pawn) && (end_row m =? 0))
    || (piece_eqb (piece_moved m) (Piece Black Pawn) && (end_row m =? 7)).
Proof. rewrite moved_start. rewrite move_explicit at 1. reflexivity. Qed.

Lemma captured_piece :
  is_en_passant m = false -> piece_captured m = piece_at b (move_end m).
Proof.
  intros H. rewrite move_explicit at 1. cbn [piece_captured].
  rewrite H. reflexivity.
Qed.

Lemma landed_king c : landed m = Piece c King -> piece_moved m = Piece c King.
Proof.
  unfold landed. destruct (is_pawn_promotion m); [|auto].
  destruct (piece_moved m) as [|c' k]; cbn; [auto|discriminate].
Qed.

Lemma made_location c :
  king_location c (made NV m s)
  = if piece_eqb (piece_moved m) (Piece c King)
    then move_end m else king_location c s.
Proof.
  destruct c; cbn [king_location made white_king_location black_king_location];
    [reflexivity|].
  destruct (piece_moved m) as [|[] []]; reflexivity.
Qed.

Lemma start_king c :
  piece_moved m = Piece c King -> king_location c s = move_start m.
Proof.
  intros H. apply (inv_kings _ _ Hinv). apply king_at_piece; [exact Hb|].
  split; [apply (mf_start _ _ _ Hm)|]. rewrite <- H. symmetry.
  apply moved_start.
Qed.

Lemma castle_rook :
  is_castle m = true ->
  piece_at b (rook_from m) = Piece (ally_of w) Rook
  /\ piece_moved m = Piece (ally_of w) King
  /\ move_start m = home (ally_of w)
  /\ fst (rook_from m) = fst (home (ally_of w))
  /\ fst (rook_to m) = fst (home (ally_of w)).
Proof.
  intros Hc.
  destruct (mf_castle _ _ _ Hm Hc) as (Hst & Hk & Hep & Hrow & Hside).
  fold b w in Hst, Hk, Hside.
  assert (Hr : end_row m = fst (home (ally_of w))).
  { rewrite <- Hrow. rewrite <- Hst. reflexivity. }
  split; [|split; [rewrite moved_start; exact Hk|split; [exact Hst|]]].
  - unfold rook_from. rewrite <- Hrow.
    destruct Hside as [(-> & H & _)|(-> & H & _)]; exact H.
  - unfold rook_from, rook_to. cbn [fst]. auto.
Qed.

Theorem kings_ok_made : kings_ok (made NV m s).
Proof.
  intros c loc Hk. apply (king_at_piece _ _ _ made_8x8) in Hk as [Hon Hp].
  rewrite (made_piece _ Hon) in Hp. unfold after_move in Hp.
  rewrite made_location.
  destruct (is_castle m && pair_eqb loc (rook_from m)); [discriminate|].
  destruct (is_castle m && pair_eqb loc (rook_to m)) eqn:E2.
  { apply andb_true_iff in E2 as [Hc _].
    destruct (castle_rook Hc) as (Hr & _). rewrite Hr in Hp. discriminate. }
  destruct (is_en_passant m && pair_eqb loc (start_row m, end_col m));
    [discriminate|].
  destruct (pair_eqb loc (move_end m)) eqn:E4.
  { apply pair_eqb_eq in E4. apply landed_king in Hp. rewrite Hp.
    rewrite piece_eqb_refl. symmetry. exact E4. }
  destruct (pair_eqb loc (move_start m)) eqn:E5; [discriminate|].
  assert (Hloc : king_location c s = loc).
  { apply (inv_kings _ _ Hinv). apply king_at_piece; [exact Hb|].
    split; assumption. }
  destruct (piece_eqb (piece_moved m) (Piece c King)) eqn:E; [|exact Hloc].
  apply piece_eqb_eq in E. apply start_king in E.
  rewrite <- E, Hloc, pair_eqb_refl in E5. discriminate.
Qed.

Theorem pawns_ok_made : pawns_ok (board (made NV m s)).
Proof.
  intros r c Hon. rewrite (made_piece (r, c) Hon). unfold after_move.
  destruct (is_castle m && pair_eqb (r, c) (rook_from m));
    [split; discriminate|].
  destruct (is_castle m && pair_eqb (r, c) (rook_to m)) eqn:E2.
  { apply andb_true_iff in E2 as [Hc _].
    destruct (castle_rook Hc) as (Hr & _). rewrite Hr.
    split; intros H; destruct (ally_of w); discriminate. }
  destruct (is_en_passant m && pair_eqb (r, c) (start_row m, end_col m));
    [split; discriminate|].
  destruct (pair_eqb (r, c) (move_end m)) eqn:E4.
  { apply pair_eqb_eq in E4. injection E4 as -> ->.
    pose proof (mf_end _ _ _ Hm) as [Hr _]. cbn [move_end fst] in Hr.
    unfold landed. rewrite promotion_flag.
    destruct (piece_moved m) as [|[] []]; cbn; split; try discriminate;
      intros H;
      destruct (Z.eqb_spec (end_row m) 0); try discriminate;
      destruct (Z.eqb_spec (end_row m) 7); try discriminate; lia. }
  destruct (pair_eqb (r, c) (move_start m)); [split; discriminate|].
  apply (inv_pawns _ _ Hinv). exact Hon.
Qed.

Theorem king_on_board_made c : sq_on_board (king_location c (made NV m s)).
Proof.
  rewrite made_location.
  destruct (piece_eqb (piece_moved m) (Piece c King));
    [apply (mf_end _ _ _ Hm)|].
  destruct c; [apply (inv_white_king _ _ Hinv)|apply (inv_black_king _ _ Hinv)].
Qed.

Lemma home_on_board c : sq_on_board (home c).
Proof. destruct c; split; cbn; lia. Qed.

Lemma made_rights :
  current_castling_rights (made NV m s)
  = update_castle_rights_pure m (current_castling_rights s).
Proof. reflexivity. Qed.

Lemma mover_location :
  piece_at b (move_start m) = Piece (ally_of w) King
  \/ move_start m = own_king_location s ->
  move_start m = king_location (ally_of w) s.
Proof.
  intros [H|H].
  - symmetry. apply start_king. rewrite moved_start. exact H.
  - rewrite H. apply own_king_location_ally.
Qed.

Lemma ally_or_enemy c : c = ally_of w \/ c = enemy_of w.
Proof. destruct c, w; auto. Qed.

Lemma opposite_enemy : opposite (enemy_of w) = ally_of w.
Proof. destruct w; reflexivity. Qed.

Lemma home_rows c c' : fst (home c) = fst (home c') -> c = c'.
Proof. destruct c, c'; cbn; congruence || lia. Qed.

(** The king of a side that keeps a castling right is left where it is. *)
Lemma home_untouched c :
  rights_of c (current_castling_rights s) = true ->
  piece_moved m <> Piece c King ->
  after_move m b (home c) = Piece c King.
Proof.
  intros Hr Hnk. destruct (inv_home _ _ Hinv c Hr) as [Hloc Hking].
  fold b in Hking. unfold after_move.
  assert (Hcastle : is_castle m = true ->
            fst (home c) <> fst (home (ally_of w))).
  { intros Hc Heq. destruct (castle_rook Hc) as (_ & Hk & _).
    apply home_rows in Heq. subst c. contradiction. }
  destruct (is_castle m && pair_eqb (home c) (rook_from m)) eqn:E1.
  { exfalso. apply andb_true_iff in E1 as [Hc E1]. apply pair_eqb_eq in E1.
    destruct (castle_rook Hc) as (_ & _ & _ & Hrow & _).
    apply (Hcastle Hc). rewrite E1. exact Hrow. }
  destruct (is_castle m && pair_eqb (home c) (rook_to m)) eqn:E2.
  { exfalso. apply andb_true_iff in E2 as [Hc E2]. apply pair_eqb_eq in E2.
    destruct (castle_rook Hc) as (_ & _ & _ & _ & Hrow).
    apply (Hcastle Hc). rewrite E2. exact Hrow. }
  destruct (is_en_passant m && pair_eqb (home c) (start_row m, end_col m))
    eqn:E3.
  { exfalso. apply andb_true_iff in E3 as [He E3]. apply pair_eqb_eq in E3.
    destruct (mf_en_passant _ _ _ Hm He) as (_ & _ & _ & _ & _ & Hp).
    fold b in Hp. rewrite <- E3, Hking in Hp. discriminate. }
  destruct (pair_eqb (home c) (move_end m)) eqn:E4.
  { exfalso. apply pair_eqb_eq in E4.
    pose proof (mf_target _ _ _ Hm) as Ht. fold b w in Ht.
    rewrite <- E4, Hking in Ht.
    assert (Hc : c = enemy_of w).
    { destruct (ally_or_enemy c) as [-> | ->]; [|reflexivity].
      rewrite has_color_same in Ht. discriminate. }
    subst c.
    assert (Hne : piece_at b (move_end m) <> Empty)
      by (rewrite <- E4, Hking; discriminate).
    destruct (mf_capture _ _ _ Hm Hne) as [Hatt|[Hnear Hst]].
    - fold b w in Hatt. rewrite <- E4 in Hatt.
      apply (inv_safe _ _ Hinv _ Hr Hatt).
    - fold b w in Hst. apply mover_location in Hst.
      rewrite <- E4, Hst in Hnear.
      apply (inv_far _ _ Hinv _ Hr). rewrite opposite_enemy. exact Hnear. }
  destruct (pair_eqb (home c) (move_start m)) eqn:E5; [|exact Hking].
  exfalso. apply pair_eqb_eq in E5. apply Hnk. rewrite moved_start, <- E5.
  exact Hking.
Qed.

Theorem home_made c :
  rights_of c (current_castling_rights (made NV m s)) = true ->
  king_location c (made NV m s) = home c
  /\ piece_at (board (made NV m s)) (home c) = Piece c King.
Proof.
  rewrite made_rights. intros Hr. apply update_rights_of in Hr as [Hr Hnk].
  destruct (inv_home _ _ Hinv c Hr) as [Hloc _]. split.
  - rewrite made_location, (piece_eqb_neq _ _ Hnk). exact Hloc.
  - rewrite (made_piece _ (home_on_board c)). apply home_untouched; assumption.
Qed.

Theorem rooks_made : rooks_ok (made NV m s).
Proof.
  apply rooks_ok_corners. intros c ks. rewrite made_rights. intros Hr.
  apply update_right in Hr as (Hr & Hnk & Hnm & Hnc).
  pose proof (proj1 (rooks_ok_corners s) (inv_rooks _ _ Hinv) c ks Hr) as Hrook.
  fold b in Hrook.
  rewrite (made_piece _ (corner_on_board c ks)). unfold after_move.
  assert (Hcastle : is_castle m = true ->
            fst (corner c ks) <> fst (home (ally_of w))).
  { intros Hc Heq. destruct (castle_rook Hc) as (_ & Hk & _).
    apply home_rows in Heq. subst c. contradiction. }
  destruct (is_castle m && pair_eqb (corner c ks) (rook_from m)) eqn:E1.
  { exfalso. apply andb_true_iff in E1 as [Hc E1]. apply pair_eqb_eq in E1.
    destruct (castle_rook Hc) as (_ & _ & _ & Hrow & _).
    apply (Hcastle Hc). rewrite E1. exact Hrow. }
  destruct (is_castle m && pair_eqb (corner c ks) (rook_to m)) eqn:E2.
  { exfalso. apply andb_true_iff in E2 as [Hc E2]. apply pair_eqb_eq in E2.
    destruct (castle_rook Hc) as (_ & _ & _ & _ & Hrow).
    apply (Hcastle Hc). rewrite E2. exact Hrow. }
  destruct (is_en_passant m && pair_eqb (corner c ks) (start_row m, end_col m))
    eqn:E3.
  { exfalso. apply andb_true_iff in E3 as [He E3]. apply pair_eqb_eq in E3.
    destruct (mf_en_passant _ _ _ Hm He) as (_ & _ & _ & _ & _ & Hp).
    fold b in Hp. rewrite <- E3, Hrook in Hp. discriminate. }
  destruct (pair_eqb (corner c ks) (move_end m)) eqn:E4.
  { exfalso. apply pair_eqb_eq in E4. apply Hnc. split; [|auto].
    destruct (is_en_passant m) eqn:He.
    - destruct (mf_en_passant _ _ _ Hm He) as (_ & _ & _ & _ & Hp & _).
      fold b in Hp. rewrite <- E4, Hrook in Hp. discriminate.
    - rewrite (captured_piece He), <- E4. exact Hrook. }
  destruct (pair_eqb (corner c ks) (move_start m)) eqn:E5; [|exact Hrook].
  exfalso. apply pair_eqb_eq in E5. apply Hnm. split; [|auto].
  rewrite moved_start, <- E5. exact Hrook.
Qed.

Theorem ep_made : ep_ok NV (made NV m s).
Proof.
  unfold ep_ok.
  change (en_passant_possible (made NV m s))
    with (if is_double_step m
          then ((start_row m + end_row m) / 2, end_col m)
          else NO_PAIR NV).
  change (white_to_move (made NV m s)) with (negb w).
  destruct (is_double_step m) eqn:Hd; [right|left; reflexivity].
  destruct (mf_double _ _ _ Hm Hd)
    as (Hp & Hsr & Her & Hec & Hmid & Hend & Hnep & Hnc).
  fold b w in Hp, Hsr, Her, Hmid, Hend.
  pose proof (mf_start _ _ _ Hm) as [_ Hcol]. cbn [move_start snd] in Hcol.
  exists (start_col m). split; [exact Hcol|].
  assert (Hmidrow : (start_row m + end_row m) / 2 = if negb w then 2 else 5).
  { rewrite Hsr, Her. destruct w; reflexivity. }
  rewrite Hec, Hmidrow. split; [reflexivity|].
  assert (Hmid_on : sq_on_board ((if negb w then 2 else 5), start_col m)).
  { split; cbn [fst snd]; [destruct w; cbn; lia|exact Hcol]. }
  assert (Hend_on : sq_on_board ((if negb w then 3 else 4), start_col m)).
  { split; cbn [fst snd]; [destruct w; cbn; lia|exact Hcol]. }
  assert (Hland : landed m = Piece (ally_of w) Pawn).
  { unfold landed. rewrite promotion_flag, moved_start, Hp, Her.
    destruct w; reflexivity. }
  rewrite (made_piece _ Hmid_on), (made_piece _ Hend_on). unfold after_move.
  rewrite Hnep, Hnc. cbn [andb]. unfold move_end, move_start.
  rewrite Hsr, Her, Hec.
  split.
  - rewrite !pair_eqb_neq
      by (destruct w; cbn; intros H; injection H; lia).
    destruct w; exact Hmid.
  - replace (pair_eqb ((if negb w then 3 else 4), start_col m)
                      ((if w then 4 else 3), start_col m)) with true
      by (symmetry; apply pair_eqb_eq; destruct w; reflexivity).
    rewrite Hland. destruct w; reflexivity.
Qed.

Lemma opposite_cases c : opposite c = ally_of w -> c = enemy_of w.
Proof. destruct c, w; cbn; congruence. Qed.

Theorem far_made c :
  rights_of c (current_castling_rights (made NV m s)) = true ->
  ~ near (king_location (opposite c) (made NV m s)) (home c).
Proof.
  rewrite made_rights. intros Hr. apply update_rights_of in Hr as [Hr Hnk].
  destruct (inv_home _ _ Hinv c Hr) as [Hloc Hking]. fold b in Hking.
  pose proof (inv_far _ _ Hinv c Hr) as Hfar.
  rewrite made_location.
  destruct (piece_eqb (piece_moved m) (Piece (opposite c) King)) eqn:E;
    [|exact Hfar].
  apply piece_eqb_eq in E.
  pose proof (start_king _ E) as Hstart.
  assert (Hpiece : piece_at b (move_start m) = Piece (opposite c) King)
    by (rewrite <- moved_start; exact E).
  assert (Hally : opposite c = ally_of w).
  { destruct (mf_mover _ _ _ Hm) as [H|H]; fold b w in H.
    - rewrite Hpiece in H. cbn in H. apply color_eqb_eq in H. exact H.
    - destruct (ally_or_enemy (opposite c)) as [Ho|Ho]; [exact Ho|].
      exfalso. rewrite own_king_location_ally in H. fold w in H.
      assert (Hc : c = ally_of w) by (destruct c, w; cbn in *; congruence).
      rewrite <- Hc, Hloc in H. rewrite H, Hking in Hpiece.
      destruct c; discriminate. }
  intros Hnear.
  destruct (is_castle m) eqn:Hc.
  - destruct (mf_castle _ _ _ Hm Hc) as (Hst & _ & _ & Hrow & _). fold w in Hst.
    apply (f_equal fst) in Hst. cbn [move_start fst] in Hst.
    destruct Hnear as [Hn _]. cbn [move_end fst] in Hn.
    rewrite <- Hrow, Hst, <- Hally in Hn. destruct c; cbn in Hn; lia.
  - rewrite Hally in Hpiece.
    destruct (mf_king_step _ _ _ Hm Hpiece Hc) as [Hstep Hsafe].
    fold b w in Hsafe.
    destruct (near_cases _ _ Hnear) as [Heq|(d & Hd & Heq)].
    + apply Hfar. rewrite Hstart, <- Heq. exact Hstep.
    + pose proof (analyze_finds_king NV b Hb (ally_of w) (enemy_of w)
                    ltac:(destruct w; reflexivity) (move_end m)
                    (mf_end _ _ _ Hm) d Hd) as Hfind.
      rewrite <- Heq in Hfind.
      specialize (Hfind (home_on_board c)).
      rewrite Hking, (opposite_cases _ Hally) in Hfind.
      specialize (Hfind eq_refl).
      destruct (analyze_fields NV b (ally_of w) (enemy_of w)
                  (end_row m) (end_col m)) as (Hic & _).
      cbn [move_end fst snd] in Hfind. rewrite <- Hic, Hsafe in Hfind.
      discriminate.
Qed.

End Preserve.

(** ** Rays *)

Lemma add_sq_inj e d i j :
  d <> (0, 0) -> add_sq e d i = add_sq e d j -> i = j.
Proof.
  intros Hd H. destruct d as [dr dc]. unfold add_sq in H. cbn [fst snd] in H.
  injection H as H1 H2.
  assert (dr <> 0 \/ dc <> 0) as [Hn|Hn].
  { destruct (Z.eq_dec dr 0) as [-> |]; [|auto].
    destruct (Z.eq_dec dc 0) as [-> |]; [|auto]. congruence. }
  - apply (Z.mul_reg_l _ _ dr Hn). lia.
  - apply (Z.mul_reg_l _ _ dc Hn). lia.
Qed.

Lemma ray_unique e d d' k k' :
  In d sliding_directions -> In d' sliding_directions ->
  1 <= k -> 1 <= k' -> add_sq e d k = add_sq e d' k' -> d = d' /\ k = k'.
Proof.
  intros Hd Hd' Hk Hk' H. unfold add_sq in H. injection H as H1 H2.
  repeat (destruct Hd as [<-|Hd]; [|]); try destruct Hd;
    repeat (destruct Hd' as [<-|Hd']; [|]); try destruct Hd';
    cbn [fst snd] in *; split; try reflexivity; try lia; exfalso; lia.
Qed.

(** A square lies on the open segment of the ray, or it does not. *)
Lemma on_ray_dec e d n x :
  (exists k, 0 < k < n /\ x = add_sq e d k)
  \/ (forall k, 0 < k < n -> x <> add_sq e d k).
Proof.
  destruct (Z.le_gt_cases n 1) as [Hn|Hn]; [right; intros k Hk; lia|].
  pattern n. apply (Zlt_lower_bound_ind _ 1); [|lia]. clear n Hn.
  intros n IH Hn.
  destruct (Z.eq_dec n 1) as [-> |Hne]; [right; intros k Hk; lia|].
  destruct (IH (n - 1) ltac:(lia)) as [(k & Hk & Hx)|Hnot].
  - left. exists k. split; [lia|exact Hx].
  - destruct x as [xr xc], e as [er ec], d as [dr dc].
    destruct (Z.eq_dec xr (er + dr * (n - 1))) as [Hr|Hr];
      [destruct (Z.eq_dec xc (ec + dc * (n - 1))) as [Hc|Hc]|].
    + left. exists (n - 1). split; [lia|]. unfold add_sq. cbn [fst snd].
      congruence.
    + right. intros k Hk. destruct (Z.eq_dec k (n - 1)) as [-> |Hkn].
      * unfold add_sq. cbn [fst snd]. congruence.
      * apply Hnot. lia.
    + right. intros k Hk. destruct (Z.eq_dec k (n - 1)) as [-> |Hkn].
      * unfold add_sq. cbn [fst snd]. congruence.
      * apply Hnot. lia.
Qed.

Lemma between_on_board e d n i :
  In d sliding_directions -> sq_on_board e -> sq_on_board (add_sq e d n) ->
  0 <= i <= n -> sq_on_board (add_sq e d i).
Proof.
  intros Hd He Hn Hi. unfold sq_on_board, on_board, add_sq in *.
  destruct e as [er ec]. cbn [fst snd] in *.
  repeat (destruct Hd as [<-|Hd]; [cbn [fst snd] in *; lia|]). destruct Hd.
Qed.

(** The squares on which a single check can be met. *)
Lemma blocking_tiles_ray b e d n t :
  d <> (0, 0) -> 1 <= n <= 7 ->
  has_kind (piece_at b (add_sq e d n)) Knight = false ->
  In t (blocking_tiles b e (pin_entry e d n)) ->
  exists i, 1 <= i <= n /\ t = add_sq e d i.
Proof.
  intros Hd Hn Hk. unfold blocking_tiles, pin_entry, pin_square.
  replace (has_kind (piece_at b (fst e + fst d * n, snd e + snd d * n)) Knight)
    with false by (symmetry; exact Hk).
  rewrite (py_range_split 1 n 8) by lia. rewrite loop_run_app.
  set (step := valid_tile_step_pure e
                 (fst e + fst d * n, snd e + snd d * n, fst d, snd d)).
  assert (Hstep : forall i tiles,
            step i tiles
            = (if Z.eq_dec i n then Break else Continue,
               tiles ++ [add_sq e d i])).
  { intros i tiles. unfold step, valid_tile_step_pure.
    fold (add_sq e d i).
    destruct (Z.eq_dec i n) as [-> |Hne].
    - rewrite !Z.eqb_refl. reflexivity.
    - destruct ((fst e + fst d * i =? fst e + fst d * n)
                && (snd e + snd d * i =? snd e + snd d * n)) eqn:E;
        [|reflexivity].
      exfalso. apply andb_true_iff in E as [E1 E2].
      apply Z.eqb_eq in E1, E2. apply Hne.
      apply (add_sq_inj e d i n Hd). unfold add_sq. congruence. }
  assert (Hfirst : forall lo acc,
            1 <= lo <= n ->
            (forall x, In x acc -> exists i, 1 <= i <= n /\ x = add_sq e d i) ->
            exists acc',
              loop_run (py_range lo n) step acc = (Continue, acc')
              /\ forall x, In x acc' ->
                   exists i, 1 <= i <= n /\ x = add_sq e d i).
  { intros lo acc Hlo.
    remember (Z.to_nat (n - lo)) as len eqn:Hlen.
    revert lo acc Hlo Hlen. induction len as [|len IH]; intros lo acc Hlo Hlen Hacc.
    - rewrite py_range_nil by lia. exists acc. split; [reflexivity|exact Hacc].
    - rewrite py_range_cons by lia. cbn [loop_run]. rewrite Hstep.
      destruct (Z.eq_dec lo n) as [->|Hne]; [lia|].
      apply IH; [lia|lia|].
      intros x Hx. apply in_app_or in Hx as [Hx|[<-|[]]]; [auto|].
      exists lo. split; [lia|reflexivity]. }
  destruct (Hfirst 1 [] ltac:(lia) ltac:(intros x [])) as (acc' & -> & Hacc').
  cbn [loop_run]. rewrite Hstep.
  destruct (Z.eq_dec n n) as [_|Hne]; [|contradiction].
  cbn [snd]. intros Ht. apply in_app_or in Ht as [Ht|[<-|[]]]; [auto|].
  exists n. split; [lia|reflexivity].
Qed.

(** ** A piece that moves does not expose its king

    The board [b'] differs from [b] by the move of the piece on [a] to
    [en], with the pawn on [cap] taken off for an en-passant capture.  The
    king of the side to move stands on its home square [e]. *)

Section Safety.

Variable NV : Z.
Hypothesis HNV : NV < 0.
Variables b b' : Board.
Hypothesis Hb : board_8x8 b.
Variable w : bool.

Let e := home (ally_of w).

Hypothesis Hking : piece_at b e = Piece (ally_of w) King.
Variables a en : Z * Z.
Hypothesis Ha : sq_on_board a.
Hypothesis Hen : sq_on_board en.
Hypothesis Hpiece : has_color (piece_at b a) (ally_of w) = true.
Hypothesis Hnotking : has_kind (piece_at b a) King = false.
Hypothesis Htarget : has_color (piece_at b en) (ally_of w) = false.
Variable cap : option (Z * Z).
Hypothesis Hcap : forall c, cap = Some c ->
  c = (fst a, snd en)
  /\ fst a = (if w then 3 else 4) /\ fst en = (if w then 2 else 5).
Hypothesis Hlanded : has_color (piece_at b' en) (ally_of w) = true.
Hypothesis Hleft : piece_at b' a = Empty.
Hypothesis Hcapd : forall c, cap = Some c -> piece_at b' c = Empty.
Hypothesis Hother : forall x,
  sq_on_board x -> x <> a -> x <> en -> cap <> Some x ->
  piece_at b' x = piece_at b x.

Let in_chk := fst (fst (analyze NV b (ally_of w) (enemy_of w) (fst e) (snd e))).
Let pns := snd (fst (analyze NV b (ally_of w) (enemy_of w) (fst e) (snd e))).
Let chks := snd (analyze NV b (ally_of w) (enemy_of w) (fst e) (snd e)).

Hypothesis Hfilter :
  in_chk = false \/ exists c, chks = [c] /\ In en (blocking_tiles b e c).
Hypothesis Hpin : forall d k,
  In d sliding_directions -> 1 <= k -> a = add_sq e d k ->
  In (pin_entry e d k) pns ->
  exists dd j, (dd = d \/ dd = neg_dir d) /\ 1 <= j
               /\ en = add_sq a dd j /\ clear_between b a dd 0 j.

Lemma safety_e_on_board : sq_on_board e.
Proof. apply home_on_board. Qed.

Lemma safety_enemy : enemy_of w = opposite (ally_of w).
Proof. destruct w; reflexivity. Qed.

Lemma enemy_same x k :
  sq_on_board x -> piece_at b' x = Piece (enemy_of w) k ->
  piece_at b x = Piece (enemy_of w) k.
Proof.
  intros Hx Hp. rewrite <- Hp. symmetry. apply Hother; [exact Hx| | |].
  - intros ->. rewrite Hleft in Hp. discriminate.
  - intros ->. rewrite Hp in Hlanded. destruct w; discriminate.
  - intros Hc. rewrite (Hcapd _ Hc) in Hp. discriminate.
Qed.

Lemma enemy_not_target x k :
  piece_at b' x = Piece (enemy_of w) k -> x <> en.
Proof. intros Hp ->. rewrite Hp in Hlanded. destruct w; discriminate. Qed.

(** A single check found along [d] at distance [n] is met on the ray. *)
Lemma check_blocks d n :
  d <> (0, 0) -> 1 <= n <= 7 ->
  has_kind (piece_at b (add_sq e d n)) Knight = false ->
  In (pin_entry e d n) chks -> in_chk = true ->
  exists i, 1 <= i <= n /\ en = add_sq e d i.
Proof.
  intros Hd Hn Hk Hin Hic.
  destruct Hfilter as [Hf|(c & Hc & Hblock)]; [congruence|].
  rewrite Hc in Hin. destruct Hin as [Heq|[]]. rewrite Heq in Hblock.
  apply (blocking_tiles_ray b e d n en Hd Hn Hk Hblock).
Qed.

Lemma safe_pawn lr :
  lr = 1 \/ lr = -1 ->
  sq_on_board (add_sq e (- pawn_direction (enemy_of w), lr) 1) ->
  piece_at b' (add_sq e (- pawn_direction (enemy_of w), lr) 1)
  = Piece (enemy_of w) Pawn ->
  False.
Proof.
  intros Hlr Hon Hp.
  pose proof (enemy_same _ _ Hon Hp) as Hp0.
  destruct (analyze_finds_pawn NV b Hb (ally_of w) (enemy_of w) safety_enemy
              e safety_e_on_board lr Hlr Hon Hp0) as [Hin Hic].
  destruct (analyze_fields NV b (ally_of w) (enemy_of w) (fst e) (snd e))
    as (Hic' & _ & Hchks').
  rewrite <- Hchks' in Hin. rewrite <- Hic' in Hic. fold chks in Hin.
  fold in_chk in Hic.
  destruct (check_blocks (- pawn_direction (enemy_of w), lr) 1)
    as (i & Hi & Heq); auto; try lia.
  - destruct w, Hlr as [-> | ->]; discriminate.
  - rewrite Hp0. reflexivity.
  - assert (i = 1) as -> by lia.
    apply (enemy_not_target _ _ Hp). symmetry. exact Heq.
Qed.

Lemma safe_knight off :
  In off knight_offsets -> sq_on_board (add_sq e off 1) ->
  piece_at b' (add_sq e off 1) = Piece (enemy_of w) Knight ->
  False.
Proof.
  intros Hoff Hon Hp.
  pose proof (enemy_same _ _ Hon Hp) as Hp0.
  destruct (analyze_finds_knight NV b Hb (ally_of w) (enemy_of w) safety_enemy
              e off Hoff Hon Hp0) as [Hin Hic].
  destruct (analyze_fields NV b (ally_of w) (enemy_of w) (fst e) (snd e))
    as (Hic' & _ & Hchks').
  rewrite <- Hchks' in Hin. rewrite <- Hic' in Hic. fold chks in Hin.
  fold in_chk in Hic.
  destruct Hfilter as [Hf|(c & Hc & Hblock)]; [congruence|].
  rewrite Hc in Hin. destruct Hin as [Heq|[]]. rewrite Heq in Hblock.
  unfold blocking_tiles, pin_square in Hblock.
  assert (Hsq : (fst e + fst off, snd e + snd off) = add_sq e off 1).
  { unfold add_sq. rewrite !Z.mul_1_r. reflexivity. }
  rewrite Hsq, Hp0 in Hblock. cbn in Hblock. destruct Hblock as [Hen'|[]].
  apply (enemy_not_target _ _ Hp). exact Hen'.
Qed.

Section Slide.

Variables (d : Z * Z) (n : Z) (k : kind).
Hypothesis Hs : slides k d.
Hypothesis Hn : 1 <= n.
Hypothesis Hq : sq_on_board (add_sq e d n).
Hypothesis Hclear' : clear_between b' e d 0 n.
Hypothesis Hp : piece_at b' (add_sq e d n) = Piece (enemy_of w) k.

Let Hd : In d sliding_directions := slides_sliding k d Hs.
Let Hd0 : d <> (0, 0) := sliding_direction_nonzero d Hd.

Lemma slide_piece : piece_at b (add_sq e d n) = Piece (enemy_of w) k.
Proof. apply enemy_same; assumption. Qed.

Lemma slide_bound : n <= 7.
Proof.
  pose proof Hd as H. pose proof Hq as H'.
  unfold sq_on_board, on_board, add_sq, e in H'.
  repeat (destruct H as [<-|H];
          [destruct w; cbn [home ally_of fst snd] in H'; lia|]).
  destruct H.
Qed.

(** The target of the move is not on the ray up to the attacker. *)
Lemma slide_not_target t : 0 < t <= n -> en <> add_sq e d t.
Proof.
  intros Ht Heq. destruct (Z.eq_dec t n) as [-> |Hne].
  - apply (enemy_not_target _ _ Hp). symmetry. exact Heq.
  - assert (Hempty : piece_at b' (add_sq e d t) = Empty)
      by (apply Hclear'; lia).
    rewrite Heq, Hempty in Hlanded. discriminate.
Qed.

(** With the ray open on the old board the attacker gives check, and the
    move would have had to meet it. *)
Lemma slide_open : clear_between b e d 0 n -> False.
Proof.
  intros Hclear.
  destruct (analyze_finds_slide NV b Hb (ally_of w) (enemy_of w) safety_enemy
              e safety_e_on_board d n k Hs Hn Hq Hclear slide_piece)
    as [Hin Hic].
  destruct (analyze_fields NV b (ally_of w) (enemy_of w) (fst e) (snd e))
    as (Hic' & _ & Hchks').
  rewrite <- Hchks' in Hin. rewrite <- Hic' in Hic. fold chks in Hin.
  fold in_chk in Hic.
  destruct (check_blocks d n Hd0 (conj Hn slide_bound)) as (i & Hi & Heq);
    auto.
  - rewrite slide_piece.
    pose proof Hs as Hs'.
    destruct Hs' as [[_ [Hk|Hk]]|[_ [Hk|Hk]]]; rewrite Hk; reflexivity.
  - apply (slide_not_target i); [lia|exact Heq].
Qed.

Lemma path_on_board i : 0 <= i <= n -> sq_on_board (add_sq e d i).
Proof.
  intros Hi. apply (between_on_board e d n i Hd safety_e_on_board Hq Hi).
Qed.

Lemma path_same i :
  0 < i < n -> add_sq e d i <> a -> cap <> Some (add_sq e d i) ->
  piece_at b (add_sq e d i) = Empty.
Proof.
  intros Hi Hna Hnc. rewrite <- (Hclear' i Hi). symmetry.
  apply Hother; auto.
  - apply path_on_board. lia.
  - intros Heq. apply (slide_not_target i); [lia|]. symmetry. exact Heq.
Qed.

(** The pawn taken en passant stands on another row than the king. *)
Lemma cap_row c : cap = Some c -> fst c <> fst e.
Proof.
  intros Hc. destruct (Hcap c Hc) as (-> & Hrow & _). cbn [fst].
  rewrite Hrow. unfold e. destruct w; cbn; lia.
Qed.

Lemma cap_not_with_a k0 i :
  a = add_sq e d k0 -> cap = Some (add_sq e d i) -> i = k0.
Proof.
  intros Hak Hc. pose proof (cap_row _ Hc) as Hrow.
  destruct (Hcap _ Hc) as (Heq & _). apply (f_equal fst) in Heq.
  rewrite Hak in Heq. unfold add_sq in Heq, Hrow. cbn [fst snd] in Heq, Hrow.
  assert (fst d <> 0) by (intros H0; rewrite H0 in Hrow; lia).
  apply (Z.mul_reg_l _ _ (fst d)); [assumption|lia].
Qed.

(** The moved piece stood between the king and the attacker: it was
    pinned, and has stayed on the ray. *)
Lemma slide_pinned k0 : 0 < k0 < n -> a = add_sq e d k0 -> False.
Proof.
  intros Hk0 Hak.
  assert (Hc : forall i, 0 < i < n -> i <> k0 ->
                 piece_at b (add_sq e d i) = Empty).
  { intros i Hi Hne. apply path_same; [exact Hi| |].
    - rewrite Hak. intros Heq. apply Hne. apply (add_sq_inj e d _ _ Hd0 Heq).
    - intros Hcp. apply Hne. apply (cap_not_with_a k0 i Hak Hcp). }
  assert (Hpinned : In (pin_entry e d k0) pns).
  { destruct (analyze_fields NV b (ally_of w) (enemy_of w) (fst e) (snd e))
      as (_ & Hpns' & _).
    unfold pns. rewrite Hpns'.
    apply (analyze_finds_pin NV HNV b Hb (ally_of w) (enemy_of w) safety_enemy
             e safety_e_on_board d k0 n (piece_at b a) k Hs ltac:(lia) Hq).
    - intros i Hi. apply Hc; lia.
    - intros i Hi. apply Hc; lia.
    - rewrite Hak. reflexivity.
    - exact Hpiece.
    - exact Hnotking.
    - exact slide_piece. }
  destruct (Hpin d k0 Hd ltac:(lia) Hak Hpinned)
    as (dd & j & Hdd & Hj & Hen' & Hcl).
  destruct Hdd as [-> | ->].
  - assert (Het : en = add_sq e d (k0 + j)).
    { rewrite Hen', Hak. unfold add_sq. cbn [fst snd]. f_equal; lia. }
    destruct (Z.le_gt_cases (k0 + j) n) as [Hle|Hgt].
    + apply (slide_not_target (k0 + j)); [lia|exact Het].
    + assert (Hqe : piece_at b (add_sq a d (n - k0)) = Empty)
        by (apply Hcl; lia).
      replace (add_sq a d (n - k0)) with (add_sq e d n) in Hqe
        by (rewrite Hak; unfold add_sq; cbn [fst snd]; f_equal; lia).
      rewrite slide_piece in Hqe. discriminate.
  - assert (Het : en = add_sq e d (k0 - j)).
    { rewrite Hen', Hak. unfold add_sq, neg_dir. cbn [fst snd]. f_equal; lia. }
    destruct (Z.lt_trichotomy (k0 - j) 0) as [Hlt|[Heq|Hgt]].
    + assert (Hke : piece_at b (add_sq a (neg_dir d) k0) = Empty)
        by (apply Hcl; lia).
      replace (add_sq a (neg_dir d) k0) with e in Hke.
      * rewrite Hking in Hke. discriminate.
      * rewrite Hak. unfold add_sq, neg_dir. cbn [fst snd].
        rewrite (surjective_pairing e) at 1. f_equal; lia.
    + rewrite Heq, add_sq_zero in Het. rewrite Het, Hking in Htarget.
      rewrite has_color_same in Htarget. discriminate.
    + apply (slide_not_target (k0 - j)); [lia|exact Het].
Qed.

(** The pawn taken en passant stood between the king and the attacker:
    then the capturing pawn has landed on the same file. *)
Lemma slide_cap c k0 :
  cap = Some c -> 0 < k0 < n -> c = add_sq e d k0 -> False.
Proof.
  intros Hc Hk0 Hck. destruct (Hcap c Hc) as (Hceq & Hrow & Hrow').
  rewrite Hck in Hceq. unfold add_sq in Hceq. injection Hceq as H1 H2.
  pose proof Hq as Hq'. pose proof Hen as Hen'.
  unfold sq_on_board, on_board, add_sq in Hq', Hen'.
  assert (Hvert : en = add_sq e d (k0 + 1) /\ k0 + 1 <= n).
  { pose proof Hd as H. unfold e in *.
    rewrite (surjective_pairing en). unfold add_sq.
    repeat (destruct H as [<-|H];
            [destruct w; cbn [home ally_of fst snd] in *;
             first [lia|split; [f_equal; lia|lia]]|]).
    destruct H. }
  destruct Hvert as [Het Hle].
  apply (slide_not_target (k0 + 1)); [lia|exact Het].
Qed.

Theorem safe_slide : False.
Proof.
  destruct (on_ray_dec e d n a) as [(k0 & Hk0 & Hak)|Hnota].
  { apply (slide_pinned k0 Hk0 Hak). }
  assert (Hcases : (exists c, cap = Some c) \/ cap = None)
    by (clear; destruct cap; eauto).
  destruct Hcases as [[c Hc]|Hc].
  - destruct (on_ray_dec e d n c) as [(k0 & Hk0 & Hck)|Hnotc].
    + apply (slide_cap c k0 Hc Hk0 Hck).
    + apply slide_open. intros i Hi. apply path_same; [lia| |].
      * intros Heq. apply (Hnota i); [lia|]. symmetry. exact Heq.
      * intros Heq. rewrite Hc in Heq. injection Heq as Heq.
        apply (Hnotc i); [lia|]. exact Heq.
  - apply slide_open. intros i Hi. apply path_same; [lia| |].
    + intros Heq. apply (Hnota i); [lia|]. symmetry. exact Heq.
    + rewrite Hc. discriminate.
Qed.

End Slide.

Theorem safe_after q : ~ attacks b' (enemy_of w) e q.
Proof.
  intros Hatt. destruct Hatt as [d n k Hs Hn Hq Hclear Hp|lr Hlr Hq Hp
                                |off Hoff Hq Hp].
  - apply (safe_slide d n k Hs Hn Hq Hclear Hp).
  - apply (safe_pawn lr Hlr Hq Hp).
  - apply (safe_knight off Hoff Hq Hp).
Qed.

End Safety.

(** ** The side that moves does not expose its home king *)

Lemma Move_init_squares st en b f1 f2 m :
  Move_init st en b f1 f2 = Some m ->
  move_start m = st /\ move_end m = en
  /\ is_en_passant m = f1 /\ is_castle m = f2.
Proof.
  unfold Move_init. destruct (board_get b (fst st) (snd st)); [|discriminate].
  destruct (board_get b (fst en) (snd en)); [|discriminate].
  intros H. injection H as <-. unfold move_start, move_end.
  cbn [start_row start_col end_row end_col is_en_passant is_castle].
  rewrite <- !surjective_pairing. auto.
Qed.

Lemma Move_init_moved st en b f1 f2 m :
  board_8x8 b -> sq_on_board st ->
  Move_init st en b f1 f2 = Some m -> piece_moved m = piece_at b st.
Proof.
  intros Hb Hst. unfold Move_init.
  rewrite (board_get_on_board b Hb _ _ Hst).
  destruct (board_get b (fst en) (snd en)); [|discriminate].
  intros H. injection H as <-. reflexivity.
Qed.

Lemma king_move_moved NV b w a m :
  board_8x8 b -> sq_on_board a -> king_move NV b w a m ->
  piece_moved m = piece_at b a.
Proof.
  intros Hb Ha [d m' _ _ _ _ Hm]. apply (Move_init_moved _ _ _ _ _ _ Hb Ha Hm).
Qed.

Lemma castle_move_moved b w cr a m :
  board_8x8 b -> sq_on_board a -> castle_move b w cr a m ->
  piece_moved m = piece_at b a.
Proof.
  intros Hb Ha [m' _ _ _ Hm|m' _ _ _ _ Hm];
    apply (Move_init_moved _ _ _ _ _ _ Hb Ha Hm).
Qed.

(** The piece a piece move takes up, and the line it stays on when it is
    pinned. *)
Lemma piece_move_piece b w ep pd a m :
  piece_move b w ep pd a m ->
  has_color (piece_at b a) (ally_of w) = true
  /\ has_kind (piece_at b a) King = false
  /\ move_start m = a /\ is_castle m = false.
Proof.
  intros H. destruct H as [i m Hp _ _ _ _ _ Hm|lr m Hp _ _ _ _ Hm
                          |lr m Hp _ _ _ Hm|off m Hp _ _ _ _ Hm
                          |d i k m Hp Hs _ _ _ _ _ Hm];
    apply Move_init_squares in Hm as (Hst & _ & _ & Hc); rewrite Hp;
    repeat split; auto using has_color_same.
  destruct Hs as [[_ [-> | ->]]|[_ [-> | ->]]]; reflexivity.
Qed.

Lemma piece_move_along b w ep pd a m p :
  piece_move b w ep pd a m -> pd = Some p ->
  exists dd j, (dd = p \/ dd = neg_dir p) /\ 1 <= j
               /\ move_end m = add_sq a dd j /\ clear_between b a dd 0 j.
Proof.
  assert (Hflip : forall x y : Z * Z,
            x = y \/ x = neg_dir y -> y = x \/ y = neg_dir x).
  { intros [x1 x2] [y1 y2] [H|H]; [left; congruence|right].
    unfold neg_dir in *. cbn [fst snd] in *. injection H as -> ->.
    f_equal; lia. }
  intros H Hpd. subst pd.
  destruct H as [i m Hp Hi _ _ Hcl Hpin Hm|lr m Hp _ _ _ Hpin Hm
                |lr m Hp _ Hep Hpin Hm|off m Hp _ _ _ Hnone Hm
                |d i k m Hp Hs Hi _ Hcl _ Hpin Hm];
    try discriminate;
    apply Move_init_squares in Hm as (_ & Hen & _); cbn [pin_allows] in Hpin.
  - exists (pawn_direction (ally_of w), 0), i.
    repeat split; auto; try lia.
    intros j Hj. apply Hcl. lia.
  - exists (pawn_direction (ally_of w), lr), 1.
    repeat split; auto; try lia. intros j Hj. lia.
  - exists (pawn_direction (ally_of w), lr), 1.
    repeat split; auto; try lia; [congruence|]. intros j Hj. lia.
  - exists d, i. repeat split; auto.
Qed.

(** A generated move that does not take up the king of a side with a
    castling right is a move of another piece. *)
Lemma generated_piece NV s m :
  NV < 0 -> Inv NV s -> generated NV s m ->
  rights_of (ally_of (white_to_move s)) (current_castling_rights s) = true ->
  piece_moved m <> Piece (ally_of (white_to_move s)) King ->
  exists a pd,
    sq_on_board a
    /\ pin_found (snd (fst (analyze_state NV s))) a pd
    /\ piece_move (board s) (white_to_move s) (en_passant_possible s) pd a m
    /\ (fst (fst (analyze_state NV s)) = false
        \/ exists c, snd (analyze_state NV s) = [c]
                     /\ filtered_out
                          (blocking_tiles (board s) (own_king_location s) c) m
                        = false).
Proof.
  intros HNV Hinv Hgen Hr Hnk.
  pose proof (inv_board _ _ Hinv) as Hb.
  destruct (own_home NV s Hinv Hr) as [Hloc Hking].
  assert (Hposs : forall ps,
            possible_move NV (board s) (white_to_move s)
                          (en_passant_possible s) ps m ->
            exists a pd, sq_on_board a /\ pin_found ps a pd
                         /\ piece_move (board s) (white_to_move s)
                                       (en_passant_possible s) pd a m).
  { intros ps Hp. revert Hnk. destruct Hp as [a pd m Ha Hpf Hpm|a m Ha Hk Hkm];
      intros Hnk.
    - exists a, pd. auto.
    - exfalso. apply Hnk. rewrite (king_move_moved _ _ _ _ _ Hb Ha Hkm).
      exact Hk. }
  assert (Hon : sq_on_board (own_king_location s))
    by (rewrite Hloc; apply home_on_board).
  revert Hnk Hposs.
  destruct Hgen as [m Hfree Hp|c m Hic Hc Hp Hf|m _ Hkm|m Hcm];
    intros Hnk Hposs.
  - destruct (Hposs _ Hp) as (a & pd & Ha & Hpf & Hpm).
    exists a, pd. auto.
  - destruct (Hposs _ Hp) as (a & pd & Ha & Hpf & Hpm).
    exists a, pd. split; [exact Ha|]. split; [exact Hpf|].
    split; [exact Hpm|]. right. exists c. auto.
  - exfalso. apply Hnk.
    rewrite (king_move_moved _ _ _ _ _ Hb Hon Hkm).
    rewrite Hloc. exact Hking.
  - exfalso. apply Hnk.
    rewrite (castle_move_moved _ _ _ _ _ Hb Hon Hcm).
    rewrite Hloc. exact Hking.
Qed.


Lemma landed_color m c :
  has_color (piece_moved m) c = true -> has_color (landed m) c = true.
Proof.
  unfold landed. destruct (is_pawn_promotion m); [|auto].
  destruct (piece_moved m) as [|c' k]; cbn; auto.
Qed.

Theorem safe_made NV s m q :
  NV < 0 -> Inv NV s -> generated NV s m ->
  rights_of (enemy_of (white_to_move (made NV m s)))
            (current_castling_rights (made NV m s)) = true ->
  ~ attacks (board (made NV m s)) (ally_of (white_to_move (made NV m s)))
            (home (enemy_of (white_to_move (made NV m s)))) q.
Proof.
  intros HNV Hinv Hgen.
  pose proof (generated_facts NV HNV s Hinv m Hgen) as Hm.
  pose proof (inv_board _ _ Hinv) as Hb.
  change (white_to_move (made NV m s)) with (negb (white_to_move s)).
  replace (enemy_of (negb (white_to_move s)))
    with (ally_of (white_to_move s)) by (destruct (white_to_move s); reflexivity).
  replace (ally_of (negb (white_to_move s)))
    with (enemy_of (white_to_move s)) by (destruct (white_to_move s); reflexivity).
  rewrite (made_rights NV s m). intros Hr.
  apply update_rights_of in Hr as [Hr Hnk].
  destruct (own_home NV s Hinv Hr) as [Hloc Hking].
  destruct (generated_piece NV s m HNV Hinv Hgen Hr Hnk)
    as (a & pd & Ha & Hpf & Hpm & Hfilter).
  destruct (piece_move_piece _ _ _ _ _ _ Hpm) as (Hcol & Hnking & Hst & Hnc).
  pose proof (mf_end _ _ _ Hm) as Hen.
  pose proof (mf_target _ _ _ Hm) as Htarget.
  pose proof (mf_distinct _ _ _ Hm) as Hdist. rewrite Hst in Hdist.
  assert (Hepf : is_en_passant m = true ->
            (start_row m, end_col m) = (fst a, snd (move_end m))
            /\ fst a = (if white_to_move s then 3 else 4)
            /\ fst (move_end m) = (if white_to_move s then 2 else 5)
            /\ (start_row m, end_col m) <> a
            /\ (start_row m, end_col m) <> move_end m).
  { intros He.
    destruct (mf_en_passant _ _ _ Hm He) as (_ & Hsr & Her & Hlr & _).
    rewrite <- Hst. unfold move_start, move_end. cbn [fst snd].
    repeat split; auto.
    - intros H. injection H as H. lia.
    - intros H. injection H as H. rewrite Hsr, Her in H.
      destruct (white_to_move s); lia. }
  set (cap := if is_en_passant m then Some (start_row m, end_col m) else None).
  assert (Hafter : forall x, sq_on_board x ->
            piece_at (board (made NV m s)) x
            = if is_en_passant m && pair_eqb x (start_row m, end_col m)
              then Empty
              else if pair_eqb x (move_end m) then landed m
              else if pair_eqb x a then Empty
              else piece_at (board s) x).
  { intros x Hx. rewrite (made_piece NV s Hinv m Hm x Hx). unfold after_move.
    rewrite Hnc, Hst. reflexivity. }
  apply (safe_after NV HNV (board s) (board (made NV m s)) Hb (white_to_move s)
           Hking a (move_end m) Hen Hcol Hnking Htarget cap).
  - intros c Hc. unfold cap in Hc. destruct (is_en_passant m); [|discriminate].
    injection Hc as <-. destruct (Hepf eq_refl) as (H1 & H2 & H3 & _). auto.
  - rewrite (Hafter _ Hen).
    destruct (is_en_passant m) eqn:He.
    + destruct (Hepf eq_refl) as (_ & _ & _ & _ & Hne).
      rewrite (pair_eqb_neq _ _ (not_eq_sym Hne)). cbn [andb].
      rewrite pair_eqb_refl. apply landed_color.
      rewrite (piece_moved_start NV s Hinv m Hm), Hst. exact Hcol.
    + cbn [andb]. rewrite pair_eqb_refl. apply landed_color.
      rewrite (piece_moved_start NV s Hinv m Hm), Hst. exact Hcol.
  - rewrite (Hafter _ Ha).
    destruct (is_en_passant m && pair_eqb a (start_row m, end_col m));
      [reflexivity|].
    rewrite (pair_eqb_neq _ _ Hdist), pair_eqb_refl. reflexivity.
  - intros c Hc. unfold cap in Hc. destruct (is_en_passant m) eqn:He;
      [|discriminate].
    injection Hc as <-.
    assert (Hon : sq_on_board (start_row m, end_col m)).
    { split; [apply (mf_start _ _ _ Hm)|apply Hen]. }
    rewrite (Hafter _ Hon). rewrite pair_eqb_refl. reflexivity.
  - intros x Hx Hxa Hxe Hxc. rewrite (Hafter _ Hx).
    rewrite (pair_eqb_neq _ _ Hxe), (pair_eqb_neq _ _ Hxa).
    unfold cap in Hxc. destruct (is_en_passant m); [|reflexivity].
    rewrite pair_eqb_neq; [reflexivity|]. intros ->. apply Hxc. reflexivity.
  - unfold analyze_state in Hfilter. rewrite Hloc in Hfilter.
    destruct Hfilter as [Hf|(c & Hc & Hfo)]; [left; exact Hf|right].
    exists c. split; [exact Hc|].
    unfold filtered_out in Hfo.
    rewrite (piece_moved_start NV s Hinv m Hm), Hst, Hnking in Hfo.
    cbn [negb andb] in Hfo. apply negb_false_iff in Hfo.
    apply existsb_exists in Hfo as (t & Ht & Heq).
    apply pair_eqb_eq in Heq. rewrite <- Heq in Ht. exact Ht.
  - intros d k Hd Hk Hak Hin.
    unfold analyze_state in Hpf. rewrite Hloc in Hpf.
    destruct (Hpf _ Hin) as (entry' & Hin' & Hsq & Hpd).
    { unfold pin_entry, pin_square. rewrite Hak. reflexivity. }
    destruct (analyze_fields NV (board s) (ally_of (white_to_move s))
                (enemy_of (white_to_move s))
                (fst (home (ally_of (white_to_move s))))
                (snd (home (ally_of (white_to_move s))))) as (_ & Hpns & _).
    rewrite Hpns in Hin'.
    pose proof (analyze_pins_shape NV (board s) Hb (ally_of (white_to_move s))
                  (enemy_of (white_to_move s))
                  (home (ally_of (white_to_move s)))) as Hshape.
    rewrite Forall_forall in Hshape.
    destruct (Hshape _ Hin') as (d' & k' & Hd' & Hk' & _ & ->).
    unfold pin_entry, pin_square, pin_direction in Hsq, Hpd.
    change (fst (home (ally_of (white_to_move s))) + fst d' * k',
            snd (home (ally_of (white_to_move s))) + snd d' * k')
      with (add_sq (home (ally_of (white_to_move s))) d' k') in Hsq.
    rewrite Hak in Hsq.
    destruct (ray_unique _ _ _ _ _ Hd' Hd Hk' Hk Hsq) as [-> _].
    rewrite <- surjective_pairing in Hpd.
    destruct (piece_move_along _ _ _ _ _ _ _ Hpm Hpd)
      as (dd & j & Hdd & Hj & Hen' & Hcl).
    exists dd, j. auto.
Qed.

(** ** The invariant holds in every state of a game *)

Theorem Inv_made NV s m :
  NV < 0 -> Inv NV s -> generated NV s m -> Inv NV (made NV m s).
Proof.
  intros HNV Hinv Hgen.
  pose proof (generated_facts NV HNV s Hinv m Hgen) as Hm.
  constructor.
  - apply (made_8x8 NV s Hinv m Hm).
  - apply (kings_ok_made NV s Hinv m Hm).
  - apply (pawns_ok_made NV s Hinv m Hm).
  - apply (king_on_board_made NV s Hinv m Hm White).
  - apply (king_on_board_made NV s Hinv m Hm Black).
  - apply (home_made NV s Hinv m Hm).
  - apply (rooks_made NV s Hinv m Hm).
  - apply (ep_made NV s Hinv m Hm).
  - apply (far_made NV s Hinv m Hm).
  - intros q. apply (safe_made NV s m q HNV Hinv Hgen).
Qed.

Lemma make_move_generated NV s m :
  Inv NV s -> move_facts NV s m ->
  make_move NV m s = Some (tt, made NV m s).
Proof.
  intros Hinv Hm. apply make_move_made.
  - apply (inv_board _ _ Hinv).
  - apply (mf_start _ _ _ Hm).
  - apply (mf_end _ _ _ Hm).
  - rewrite (promotion_flag NV s Hinv m Hm). intros H Hempty.
    rewrite Hempty in H. discriminate.
  - intros Hc.
    destruct (mf_castle _ _ _ Hm Hc) as (_ & _ & _ & _ & [[-> _]|[-> _]]); lia.
Qed.

Lemma made_same_core NV m s s' :
  same_core s s' -> same_core (made NV m s) (made NV m s').
Proof.
  intros (Hb & Hw & Hwk & Hbk & Hep & Hcr). unfold same_core, made.
  cbn [board white_to_move white_king_location black_king_location
       en_passant_possible current_castling_rights].
  rewrite Hb, Hw, Hwk, Hbk, Hcr. repeat split.
Qed.

Lemma on_board_cases r c :
  on_board r c ->
  In r [0; 1; 2; 3; 4; 5; 6; 7] /\ In c [0; 1; 2; 3; 4; 5; 6; 7].
Proof. unfold on_board. cbn [In]. lia. Qed.

Ltac each_square Hon :=
  let Hr := fresh "Hr" in
  let Hc := fresh "Hc" in
  apply on_board_cases in Hon; destruct Hon as [Hr Hc];
  cbn [In] in Hr, Hc;
  repeat (destruct Hr as [<-|Hr]); try (exfalso; exact Hr);
  repeat (destruct Hc as [<-|Hc]); try (exfalso; exact Hc).

Theorem Inv_init NV : NV < 0 -> Inv NV (GameState_init NV).
Proof.
  intros HNV.
  assert (Hb : board_8x8 (board (GameState_init NV))).
  { split; [reflexivity|]. repeat constructor. }
  constructor.
  - exact Hb.
  - intros c loc Hk. apply (king_at_piece _ _ _ Hb) in Hk as [Hon Hp].
    destruct loc as [r col]. unfold sq_on_board in Hon. cbn [fst snd] in Hon.
    each_square Hon; destruct c; try discriminate Hp; reflexivity.
  - intros r c Hon. each_square Hon; split; intros H;
      try discriminate H; lia.
  - split; cbn; lia.
  - split; cbn; lia.
  - intros []; intros _; split; reflexivity.
  - repeat split.
  - left. reflexivity.
  - intros [] _ [H _]; cbn in H; lia.
  - intros q _ Hatt. cbn [white_to_move GameState_init ally_of enemy_of home] in Hatt.
    change (board (GameState_init NV)) with initial_board in Hatt.
    destruct Hatt as [d n k Hs Hn Hq Hclear Hp|lr Hlr Hq Hp|off Hoff Hq Hp].
    + pose proof (slides_sliding _ _ Hs) as Hd.
      unfold sq_on_board, on_board, add_sq in Hq.
      destruct (Z.eq_dec n 1) as [-> |Hne].
      * repeat (destruct Hd as [<-|Hd];
                [first [cbn [fst snd] in Hq; lia|discriminate Hp]|]).
        destruct Hd.
      * specialize (Hclear 1 ltac:(lia)).
        repeat (destruct Hd as [<-|Hd];
                [first [cbn [fst snd] in Hq; lia|discriminate Hclear]|]).
        destruct Hd.
    + destruct Hlr as [-> | ->]; discriminate Hp.
    + unfold sq_on_board, on_board, add_sq in Hq.
      repeat (destruct Hoff as [<-|Hoff];
              [first [cbn [fst snd] in Hq; lia|discriminate Hp]|]).
      destruct Hoff.
Qed.

Lemma Inv_home_ok NV s : Inv NV s -> home_ok s.
Proof.
  intros Hinv. split; intros H.
  - apply (inv_home _ _ Hinv White H).
  - apply (inv_home _ _ Hinv Black H).
Qed.

Lemma Inv_own_king NV s : Inv NV s -> sq_on_board (own_king_location s).
Proof.
  intros Hinv. unfold own_king_location. destruct (white_to_move s);
    [apply (inv_white_king _ _ Hinv)|apply (inv_black_king _ _ Hinv)].
Qed.

Lemma Inv_generated NV s moves s' m :
  Inv NV s -> generate_valid_moves NV s = Some (moves, s') ->
  In m (dict_values moves) -> generated NV s m.
Proof.
  intros Hinv Hgen Hin.
  apply (generate_valid_moves_generated NV s (inv_board _ _ Hinv)
           (inv_pawns _ _ Hinv) (inv_kings _ _ Hinv) (Inv_home_ok _ _ Hinv)
           (Inv_own_king _ _ Hinv) moves s' Hgen m Hin).
Qed.

Lemma Inv_returned NV s moves s' m :
  Inv NV s -> generate_valid_moves NV s = Some (moves, s') ->
  In m (dict_values moves) -> returned NV s m.
Proof.
  intros Hinv Hgen Hin.
  apply (generate_valid_moves_returned NV s (inv_board _ _ Hinv)
           (inv_pawns _ _ Hinv) (inv_kings _ _ Hinv) (Inv_home_ok _ _ Hinv)
           (Inv_own_king _ _ Hinv) moves s' Hgen m Hin).
Qed.

Lemma generate_same_core NV s moves s' :
  Inv NV s -> generate_valid_moves NV s = Some (moves, s') -> same_core s s'.
Proof.
  intros Hinv Hgen.
  apply (generate_valid_moves_restores NV s s' moves (inv_kings _ _ Hinv) Hgen).
Qed.

(** A step of the game: the state after the move is the one worked out
    above, and it is well formed. *)
Lemma game_step NV s moves s1 m s2 :
  NV < 0 -> Inv NV s ->
  generate_valid_moves NV s = Some (moves, s1) ->
  In m (dict_values moves) ->
  make_move NV m s1 = Some (tt, s2) ->
  s2 = made NV m s1 /\ Inv NV s2.
Proof.
  intros HNV Hinv Hgen Hin Hmake.
  pose proof (Inv_generated _ _ _ _ _ Hinv Hgen Hin) as Hg.
  pose proof (generate_same_core _ _ _ _ Hinv Hgen) as Hcore.
  pose proof (Inv_same_core _ _ _ Hcore Hinv) as Hinv1.
  pose proof (generated_facts NV HNV s Hinv m Hg) as Hm.
  assert (Hm1 : make_move NV m s1 = Some (tt, made NV m s1)).
  { apply make_move_made.
    - apply (inv_board _ _ Hinv1).
    - apply (mf_start _ _ _ Hm).
    - apply (mf_end _ _ _ Hm).
    - rewrite (promotion_flag NV s Hinv m Hm). intros H Hempty.
      rewrite Hempty in H. discriminate.
    - intros Hc.
      destruct (mf_castle _ _ _ Hm Hc) as (_ & _ & _ & _ & [[-> _]|[-> _]]);
        lia. }
  rewrite Hm1 in Hmake. injection Hmake as <-. split; [reflexivity|].
  apply (Inv_same_core NV (made NV m s)).
  - apply made_same_core. exact Hcore.
  - apply Inv_made; assumption.
Qed.

Theorem reachable_Inv NV s : NV < 0 -> reachable NV s -> Inv NV s.
Proof.
  intros HNV Hr. induction Hr as [|s moves s1 m s2 _ IH Hgen Hin Hmake].
  - apply Inv_init. exact HNV.
  - apply (game_step NV s moves s1 m s2 HNV IH Hgen Hin Hmake).
Qed.

Lemma state_en_passant_reachable : reachable NO_SQUARE state_en_passant.
Proof.
  apply (run_game_reachable game_en_passant). vm_compute. reflexivity.
Qed.

(** C8: on every state of a game, [generate_valid_moves] leaves the board,
    the side to move, both king locations, the en-passant target and the
    castling rights as they were on entry, although the trial king moves
    and the attack tests change them on the way.  [NO_VALUE] is the marker
    of [Chess/utils/constants.py] for an unset square, a negative number. *)
Theorem generate_valid_moves_leaves_position (NO_VALUE : Z) (p p' : GameState)
    (moves : MoveDict) :
  NO_VALUE < 0 ->
  reachable NO_VALUE p ->
  generate_valid_moves NO_VALUE p = Some (moves, p') ->
  board p' = board p
  /\ white_to_move p' = white_to_move p
  /\ white_king_location p' = white_king_location p
  /\ black_king_location p' = black_king_location p
  /\ en_passant_possible p' = en_passant_possible p
  /\ current_castling_rights p' = current_castling_rights p.
Proof.
  intros HNV Hr Hgen.
  apply (generate_valid_moves_restores NO_VALUE p p' moves); [|exact Hgen].
  apply (inv_kings NO_VALUE). apply reachable_Inv; assumption.
Qed.

Lemma generate_valid_moves_leaves_position_witness :
  exists p' moves,
    generate_valid_moves NO_SQUARE state_en_passant = Some (moves, p')
    /\ board p' = board state_en_passant
    /\ white_to_move p' = white_to_move state_en_passant
    /\ white_king_location p' = white_king_location state_en_passant
    /\ black_king_location p' = black_king_location state_en_passant
    /\ en_passant_possible p' = en_passant_possible state_en_passant
    /\ current_castling_rights p' = current_castling_rights state_en_passant.
Proof.
  destruct (generate_valid_moves NO_SQUARE state_en_passant)
    as [[moves p']|] eqn:E; [|vm_compute in E; discriminate].
  exists p', moves. split; [reflexivity|].
  apply (generate_valid_moves_leaves_position NO_SQUARE state_en_passant p'
           moves).
  - reflexivity.
  - exact state_en_passant_reachable.
  - exact E.
Defined.

(** ** The generators return *)

Lemma runs_ret {A} s (a : A) : runs_at s (ret a).
Proof. exists a, s. reflexivity. Qed.

Lemma runs_bind {A B} s (m : M GameState A) (f : A -> M GameState B) :
  runs_at s m ->
  (forall a s1, m s = Some (a, s1) -> runs_at s1 (f a)) ->
  runs_at s (bind m f).
Proof.
  intros (a & s1 & Hm) Hf. destruct (Hf a s1 Hm) as (b & s2 & H2).
  exists b, s2. unfold bind. rewrite Hm. exact H2.
Qed.

Lemma runs_gets {A B} s (g : GameState -> A) (f : A -> M GameState B) :
  runs_at s (f (g s)) -> runs_at s (bind (gets g) f).
Proof. intros H. exact H. Qed.

Lemma runs_modify {B} s (g : GameState -> GameState) (f : unit -> M GameState B) :
  runs_at (g s) (f tt) -> runs_at s (bind (modify g) f).
Proof. intros H. exact H. Qed.

Lemma runs_read {B} s r c (f : piece -> M GameState B) :
  board_8x8 (board s) -> on_board r c ->
  runs_at s (f (at_square (board s) r c)) ->
  runs_at s (bind (read_board r c) f).
Proof.
  intros Hb Hon (a & s' & H). exists a, s'. unfold bind.
  rewrite (read_board_on_board s r c Hb Hon). exact H.
Qed.

Lemma Move_init_runs b st en ep ca :
  board_8x8 b -> sq_on_board st -> sq_on_board en ->
  exists m, Move_init st en b ep ca = Some m.
Proof.
  intros Hb Hst Hen. unfold Move_init.
  rewrite (board_get_on_board b Hb _ _ Hst).
  rewrite (board_get_on_board b Hb _ _ Hen). eauto.
Qed.

Lemma runs_new_move {B} s st en ep ca (f : Move -> M GameState B) :
  board_8x8 (board s) -> sq_on_board st -> sq_on_board en ->
  (forall m, runs_at s (f m)) ->
  runs_at s (bind (new_move st en ep ca) f).
Proof.
  intros Hb Hst Hen Hf.
  destruct (Move_init_runs (board s) st en ep ca Hb Hst Hen) as [m Hm].
  destruct (Hf m) as (a & s' & H). exists a, s'.
  unfold bind, new_move, bind, gets, lift. rewrite Hm. exact H.
Qed.

Lemma runs_for_loop {X A} (P : GameState -> Prop) (xs : list X)
    (body : X -> A -> M GameState (ctl * A)) :
  (forall x a s, In x xs -> P s -> runs_at s (body x a)) ->
  (forall x a s r s', In x xs -> P s -> body x a s = Some (r, s') -> P s') ->
  forall a s, P s -> runs_at s (for_loop xs body a).
Proof.
  induction xs as [|x xs IH]; intros Hrun Hkeep a s Hs; cbn [for_loop].
  - apply runs_ret.
  - apply runs_bind; [apply Hrun; [left; reflexivity|exact Hs]|].
    intros [[] a'] s1 H1.
    + apply IH.
      * intros y b t Hy. apply Hrun. right. exact Hy.
      * intros y b t r t' Hy. apply Hkeep. right. exact Hy.
      * apply (Hkeep x a s _ s1 (or_introl eq_refl) Hs H1).
    + apply runs_ret.
Qed.

Lemma in_py_range_down a b x :
  In x (py_range_down a b) -> b < x <= a.
Proof.
  unfold py_range_down. rewrite in_map_iff. intros (k & <- & Hk).
  apply in_seq in Hk. lia.
Qed.

(** The checks the analyzer records are squares of the board. *)
Lemma analyze_checks_on_board NV b ally enemy r c :
  board_8x8 b ->
  Forall (fun p => sq_on_board (pin_square p))
         (snd (analyze NV b ally enemy r c)).
Proof.
  intros Hb.
  destruct (analyze_fields NV b ally enemy r c) as (_ & _ & ->).
  set (P := fun a : scan_acc =>
              Forall (fun p => sq_on_board (pin_square p)) (acc_checks a)).
  apply (loop_run_invariant P).
  { intros off [[[pp ic] pns] chks] _ H. unfold knight_scan_pure.
    destruct (in_bounds b _ _) eqn:Hin; [|exact H].
    apply (in_bounds_on_board _ Hb) in Hin.
    destruct (has_color _ enemy && has_kind _ Knight); [|exact H].
    unfold P, acc_checks in *. cbn [snd fst] in *.
    apply Forall_app. split; [exact H|].
    constructor; [exact Hin|constructor]. }
  unfold analyze_rays. apply (loop_run_invariant P); [|constructor].
  intros [j d] [[[pp ic] pns] chks] _ H. unfold ray_scan_pure. cbn [snd fst].
  apply (loop_run_invariant P); [|exact H].
  intros i [[[pp' ic'] pns'] chks'] _ H'. unfold ray_step_pure.
  destruct (in_bounds b _ _) eqn:Hin; [|exact H'].
  apply (in_bounds_on_board _ Hb) in Hin.
  repeat match goal with
         | |- context [if ?c then _ else _] => destruct c
         end; try exact H'.
  unfold P, acc_checks in *. cbn [snd fst] in *.
  apply Forall_app. split; [exact H'|].
  constructor; [exact Hin|constructor].
Qed.

Section Total.

Variable NV : Z.
Hypothesis HNV : NV < 0.
Variable s0 : GameState.
Hypothesis Hok : Gen_ok NV s0.

(** The state during the generation, with [w] the side whose moves are
    being gathered. *)
Let cur (w : bool) (s : GameState) : Prop :=
  framed s0 s /\ white_to_move s = w.

Lemma cur_board w s : cur w s -> board_8x8 (board s).
Proof. intros [Hfr _]. rewrite (fr_board _ _ Hfr). apply (go_board _ _ Hok). Qed.

Lemma cur_at w s r c :
  cur w s -> at_square (board s) r c = at_square (board s0) r c.
Proof. intros [Hfr _]. rewrite (fr_board _ _ Hfr). reflexivity. Qed.

Lemma cur_keeps w {A} (m : M GameState A) s a s' :
  keeps s0 w m -> cur w s -> m s = Some (a, s') -> cur w s'.
Proof. intros Hk [Hfr Hw] H. apply (Hk s a s' Hfr Hw H). Qed.

Lemma good_king_on_board c p : good_king s0 c p -> sq_on_board p.
Proof.
  intros [-> |Hk].
  - destruct c; [apply (go_white_king _ _ Hok)|apply (go_black_king _ _ Hok)].
  - apply (king_at_piece _ _ _ (go_board _ _ Hok)) in Hk. apply Hk.
Qed.

Lemma cur_own_king w s : cur w s -> sq_on_board (own_king_location s).
Proof.
  intros [Hfr _]. apply (good_king_on_board (ally_of (white_to_move s))).
  apply own_king_location_good. exact Hfr.
Qed.

Lemma cur_set_pins w s ps : cur w s -> cur w (set_pins ps s).
Proof.
  intros [Hfr Hw]. split; [|exact Hw]. destruct Hfr. constructor; assumption.
Qed.

Lemma runs_take_pin s row col : runs_at s (take_pin NV row col).
Proof.
  unfold take_pin. apply runs_gets.
  destruct (find_pin (pins s) row col) as [[[[r c] dr] dc]|];
    [|apply runs_ret].
  apply runs_modify. apply runs_ret.
Qed.

Lemma runs_take_pin_if_rook w s row col :
  cur w s -> on_board row col -> runs_at s (take_pin_if_rook NV row col).
Proof.
  intros Hc Hon. unfold take_pin_if_rook. apply runs_gets.
  destruct (find_pin (pins s) row col) as [[[[r c] dr] dc]|];
    [|apply runs_ret].
  apply runs_read; [apply (cur_board w), Hc|exact Hon|].
  destruct (has_kind _ Rook).
  - apply runs_modify. apply runs_ret.
  - apply runs_bind; [apply runs_ret|]. intros [] s1 _. apply runs_ret.
Qed.

Lemma runs_readonly_for_loop {X A} s (xs : list X)
    (body : X -> A -> M GameState (ctl * A)) a :
  (forall x acc, In x xs -> runs_at s (body x acc)) ->
  (forall x acc, readonly (body x acc)) ->
  runs_at s (for_loop xs body a).
Proof.
  intros Hrun Hro.
  apply (runs_for_loop (fun t => t = s)); [| |reflexivity].
  - intros x acc t Hx ->. apply Hrun. exact Hx.
  - intros x acc t r t' _ -> H. apply (Hro x acc) in H. exact H.
Qed.

Lemma cur_ep_target w s p :
  cur w s -> 0 <= fst p -> pair_eqb p (en_passant_possible s) = true ->
  sq_on_board p.
Proof.
  intros [Hfr _] Hp Heq. apply pair_eqb_eq in Heq.
  rewrite (fr_en_passant _ _ Hfr) in Heq.
  destruct (go_ep _ _ Hok) as [Hnone|Hon].
  - rewrite Hnone in Heq. subst p. cbn in Hp. lia.
  - rewrite Heq. exact Hon.
Qed.

Lemma readonly_inside_step row c acc : readonly (inside_step row c acc).
Proof.
  unfold inside_step. apply readonly_bind; [apply readonly_read_board|].
  intros t. apply readonly_ret.
Qed.

Lemma readonly_outside_step enemy row c acc :
  readonly (outside_step enemy row c acc).
Proof.
  unfold outside_step. apply readonly_bind; [apply readonly_read_board|].
  intros t.
  repeat match goal with
         | |- readonly (if ?c then _ else _) => destruct c
         end; apply readonly_ret.
Qed.

Lemma runs_en_passant_scan w s row col enemy king_col lr :
  cur w s -> on_board row col -> 0 <= king_col < 8 -> lr = -1 \/ lr = 1 ->
  runs_at s
    (blocking <- for_loop
       (if king_col <? col
        then py_range (king_col + 1) (col - 1 + (if lr >? 0 then 1 else 0))
        else py_range_down (king_col - 1) (col + (if lr >? 0 then 1 else 0)))
       (inside_step row) false ;;
     for_loop
       (if king_col <? col
        then py_range (col + 1 + (if lr >? 0 then 1 else 0)) 8
        else py_range_down (col - 2 + (if lr >? 0 then 1 else 0)) (-1))
       (outside_step enemy row) (false, blocking)).
Proof.
  intros Hc [Hr Hcol] Hkc Hlr. pose proof (cur_board w s Hc) as Hb.
  apply runs_bind.
  - apply runs_readonly_for_loop; [|apply readonly_inside_step].
    intros c acc Hcin. unfold inside_step.
    apply runs_read; [exact Hb| |apply runs_ret].
    split; [exact Hr|].
    destruct (king_col <? col);
      [apply in_py_range in Hcin|apply in_py_range_down in Hcin];
      destruct (lr >? 0); lia.
  - intros blocking s1 Hs1.
    assert (s1 = s) as ->.
    { revert Hs1. apply readonly_for_loop. apply readonly_inside_step. }
    apply runs_readonly_for_loop; [|apply readonly_outside_step].
    intros c acc Hcin. unfold outside_step.
    apply runs_read; [exact Hb| |].
    + split; [exact Hr|].
      destruct (king_col <? col);
        [apply in_py_range in Hcin|apply in_py_range_down in Hcin];
        destruct (lr >? 0); lia.
    + repeat match goal with
             | |- runs_at _ (if ?c then _ else _) => destruct c
             end; apply runs_ret.
Qed.

Lemma runs_pawn_capture_step w s row col direction enemy king_row king_col
    pinned pdir lr moves :
  cur w s -> on_board row col -> 0 <= row + direction < 8 ->
  on_board king_row king_col -> lr = -1 \/ lr = 1 ->
  runs_at s (pawn_capture_step row col direction enemy king_row king_col
               pinned pdir lr moves).
Proof.
  intros Hc Hon Hrow Hking Hlr. pose proof (cur_board w s Hc) as Hb.
  unfold pawn_capture_step.
  destruct (negb pinned || pair_eqb pdir (direction, lr)); [|apply runs_ret].
  apply runs_gets. apply runs_gets. rewrite (py_len_board _ Hb).
  assert (Hrest : forall is_capture : bool,
            (is_capture = true -> on_board (row + direction) (col + lr)) ->
            runs_at s
              (if is_capture then
                 move <- new_move (row, col) (row + direction, col + lr)
                                  false false ;;
                 ret (Continue, dict_add moves move)
               else if pair_eqb (row + direction, col + lr)
                                (en_passant_possible s) then
                 flags <-
                   (if king_row =? row then
                      blocking <- for_loop
                        (if king_col <? col
                         then py_range (king_col + 1)
                                (col - 1 + (if lr >? 0 then 1 else 0))
                         else py_range_down (king_col - 1)
                                (col + (if lr >? 0 then 1 else 0)))
                        (inside_step row) false ;;
                      for_loop
                        (if king_col <? col
                         then py_range (col + 1 + (if lr >? 0 then 1 else 0)) 8
                         else py_range_down
                                (col - 2 + (if lr >? 0 then 1 else 0)) (-1))
                        (outside_step enemy row) (false, blocking)
                    else ret (false, false)) ;;
                 let '(attacking_piece, blocking_piece) := flags in
                 if negb attacking_piece || blocking_piece then
                   move <- new_move (row, col) (row + direction, col + lr)
                                    true false ;;
                   ret (Continue, dict_add moves move)
                 else ret (Continue, moves)
               else ret (Continue, moves))).
  { intros is_capture Hcap. destruct is_capture.
    - apply runs_new_move; [exact Hb|exact Hon|apply Hcap; reflexivity|].
      intros m. apply runs_ret.
    - destruct (pair_eqb (row + direction, col + lr) (en_passant_possible s))
        eqn:Hep; [|apply runs_ret].
      apply (cur_ep_target w s _ Hc) in Hep; [|cbn; lia].
      apply runs_bind.
      + destruct (king_row =? row); [|apply runs_ret].
        apply (runs_en_passant_scan w); [exact Hc|exact Hon|apply Hking|exact Hlr].
      + intros [att blk] s1 Hs1.
        assert (s1 = s) as ->.
        { revert Hs1. destruct (king_row =? row); [|apply readonly_ret].
          apply readonly_bind.
          - apply readonly_for_loop. apply readonly_inside_step.
          - intros t. apply readonly_for_loop. apply readonly_outside_step. }
        destruct (negb att || blk); [|apply runs_ret].
        apply runs_new_move; [exact Hb|exact Hon|exact Hep|].
        intros m. apply runs_ret. }
  destruct ((0 <=? col + lr) && (col + lr <? 8)) eqn:Hin.
  - apply andb_true_iff in Hin as [H1 H2].
    apply Z.leb_le in H1. apply Z.ltb_lt in H2.
    assert (Hon' : on_board (row + direction) (col + lr)) by (split; lia).
    apply runs_bind.
    { apply runs_read; [exact Hb|exact Hon'|apply runs_ret]. }
    intros is_capture s1 H.
    assert (s1 = s) as ->.
    { revert H. apply readonly_bind; [apply readonly_read_board|].
      intros t. apply readonly_ret. }
    apply Hrest. intros _. exact Hon'.
  - apply runs_bind; [apply runs_ret|].
    intros is_capture s1 H. unfold ret in H. injection H as <- <-.
    apply (Hrest false). discriminate.
Qed.

Lemma cur_pawn_ahead w r c :
  on_board r c ->
  at_square (board s0) r c = Piece (ally_of w) Pawn ->
  0 <= r + (if w then -1 else 1) < 8.
Proof.
  intros Hon Hp. destruct (go_pawns _ _ Hok r c Hon) as [Hw Hbl].
  unfold piece_at in Hw, Hbl. cbn [fst snd] in Hw, Hbl.
  destruct Hon as [Hr _]. destruct w; cbn in Hp.
  - specialize (Hw Hp). lia.
  - specialize (Hbl Hp). lia.
Qed.

Lemma runs_get_pawn_moves w s row col moves :
  cur w s -> on_board row col ->
  at_square (board s0) row col = Piece (ally_of w) Pawn ->
  runs_at s (get_pawn_moves NV row col moves).
Proof.
  intros Hc Hon Hp. unfold get_pawn_moves.
  apply runs_bind; [apply runs_take_pin|]. intros [pinned pdir] s1 Htake.
  pose proof (cur_keeps w _ _ _ _ (keeps_take_pin s0 NV w row col) Hc Htake)
    as Hc1.
  clear Htake Hc s. rename s1 into s. rename Hc1 into Hc.
  pose proof (cur_board w s Hc) as Hb.
  apply runs_gets. apply runs_gets.
  destruct Hc as [Hfr Hw]. rewrite Hw. pose proof (conj Hfr Hw) as Hc.
  pose proof (cur_pawn_ahead w row col Hon Hp) as Hahead.
  assert (Hon1 : on_board (row + (if w then -1 else 1)) col)
    by (split; [exact Hahead|apply Hon]).
  apply runs_read; [exact Hb|exact Hon1|].
  apply runs_bind.
  - destruct (piece_eqb _ Empty); [|apply runs_ret].
    destruct (negb pinned || pair_eqb pdir _); [|apply runs_ret].
    apply runs_new_move; [exact Hb|exact Hon|exact Hon1|]. intros m.
    apply runs_bind.
    + destruct (row =? (if w then 6 else 1)) eqn:Hstart; [|apply runs_ret].
      apply Z.eqb_eq in Hstart.
      apply runs_read; [exact Hb| |apply runs_ret].
      split; [|apply Hon]. destruct w; lia.
    + intros two s1 Hs1.
      assert (s1 = s) as ->.
      { revert Hs1. destruct (row =? (if w then 6 else 1));
          [|apply readonly_ret].
        apply readonly_bind; [apply readonly_read_board|].
        intros t. apply readonly_ret. }
      destruct two; [|apply runs_ret].
      destruct (row =? (if w then 6 else 1)) eqn:Hstart.
      * apply Z.eqb_eq in Hstart.
        apply runs_new_move; [exact Hb|exact Hon| |intros m2; apply runs_ret].
        split; [|apply Hon]. cbn [fst]. destruct w; lia.
      * unfold ret in Hs1. discriminate.
  - intros moves1 s1 Hs1.
    assert (s1 = s) as ->.
    { match type of Hs1 with
      | ?m s = _ => assert (Hro : readonly m)
      end; [|apply Hro in Hs1; exact Hs1].
      repeat match goal with
             | |- readonly (if ?c then _ else _) => destruct c
             | |- readonly (bind _ _) => apply readonly_bind; [|intros ?]
             | |- readonly (ret _) => apply readonly_ret
             | |- readonly (new_move _ _ _ _) => apply readonly_new_move
             | |- readonly (read_board _ _) => apply readonly_read_board
             end. }
    apply (runs_for_loop (cur w)); [| |exact Hc].
    + intros lr acc t Hlr Ht.
      apply (runs_pawn_capture_step w); auto.
      * apply (cur_own_king w s Hc).
      * cbn [In] in Hlr. destruct Hlr as [<-|[<-|[]]]; auto.
    + intros lr acc t r t' _ Ht Hstep. revert Hstep.
      apply (cur_keeps w); [|exact Ht].
      unfold pawn_capture_step, inside_step, outside_step.
      repeat keeps_step.
Qed.

Ltac readonly_auto :=
  repeat match goal with
         | |- readonly (if ?c then _ else _) => destruct c
         | |- readonly (bind _ _) => apply readonly_bind; [|intros ?]
         | |- readonly (ret _) => apply readonly_ret
         | |- readonly (gets _) => apply readonly_gets
         | |- readonly (lift _) => apply readonly_lift
         | |- readonly (new_move _ _ _ _) => apply readonly_new_move
         | |- readonly (read_board _ _) => apply readonly_read_board
         | |- readonly (for_loop _ _ _) => apply readonly_for_loop; intros ? ?
         end.

Lemma readonly_tile_step row col enemy pinned tile moves :
  readonly (tile_step row col enemy pinned tile moves).
Proof. unfold tile_step. readonly_auto. Qed.

Lemma runs_tile_step w s row col enemy pinned tile moves :
  cur w s -> on_board row col ->
  runs_at s (tile_step row col enemy pinned tile moves).
Proof.
  intros Hc Hon. pose proof (cur_board w s Hc) as Hb. unfold tile_step.
  apply runs_gets.
  destruct (in_bounds (board s) (fst tile) (snd tile)) eqn:Hin;
    [|apply runs_ret].
  apply (in_bounds_on_board _ Hb) in Hin.
  destruct (negb pinned); [|apply runs_ret].
  apply runs_read; [exact Hb|exact Hin|].
  destruct (piece_eqb _ Empty).
  - apply runs_new_move; [exact Hb|exact Hon|exact Hin|].
    intros m. apply runs_ret.
  - destruct (has_color _ enemy); [|apply runs_ret].
    apply runs_new_move; [exact Hb|exact Hon|exact Hin|].
    intros m. apply runs_ret.
Qed.

Lemma runs_get_moves_from_tiles w s row col moves tiles :
  cur w s -> on_board row col ->
  runs_at s (get_moves_from_tiles NV row col moves tiles).
Proof.
  intros Hc Hon. unfold get_moves_from_tiles.
  apply runs_bind; [apply runs_take_pin|]. intros [pinned pdir] s1 Htake.
  pose proof (cur_keeps w _ _ _ _ (keeps_take_pin s0 NV w row col) Hc Htake)
    as Hc1.
  apply runs_gets.
  apply runs_readonly_for_loop; [|intros; apply readonly_tile_step].
  intros tile acc _. apply (runs_tile_step w); assumption.
Qed.

Lemma readonly_direction_step row col enemy pinned pdir d i moves :
  readonly (direction_step row col enemy pinned pdir d i moves).
Proof. unfold direction_step. readonly_auto. Qed.

Lemma runs_direction_step w s row col enemy pinned pdir d i moves :
  cur w s -> on_board row col ->
  runs_at s (direction_step row col enemy pinned pdir d i moves).
Proof.
  intros Hc Hon. pose proof (cur_board w s Hc) as Hb. unfold direction_step.
  apply runs_gets.
  destruct (in_bounds (board s) _ _) eqn:Hin; [|apply runs_ret].
  apply (in_bounds_on_board _ Hb) in Hin.
  destruct (negb pinned || _ || _); [|apply runs_ret].
  apply runs_read; [exact Hb|exact Hin|].
  destruct (piece_eqb _ Empty).
  - apply runs_new_move; [exact Hb|exact Hon|exact Hin|].
    intros m. apply runs_ret.
  - destruct (has_color _ enemy); [|apply runs_ret].
    apply runs_new_move; [exact Hb|exact Hon|exact Hin|].
    intros m. apply runs_ret.
Qed.

Lemma runs_get_moves_from_directions w s row col moves ds :
  cur w s -> on_board row col ->
  runs_at s (get_moves_from_directions NV row col moves ds).
Proof.
  intros Hc Hon. unfold get_moves_from_directions.
  apply runs_bind; [apply (runs_take_pin_if_rook w); assumption|].
  intros [pinned pdir] s1 Htake.
  pose proof (cur_keeps w _ _ _ _ (keeps_take_pin_if_rook s0 NV w row col)
                Hc Htake) as Hc1.
  pose proof (cur_board w s1 Hc1) as Hb1.
  apply runs_gets. apply runs_gets.
  unfold bind at 1, lift at 1. rewrite (board_width_8 _ Hb1).
  apply runs_readonly_for_loop.
  - intros d acc _. unfold direction_scan.
    apply runs_bind; [|intros r s2 _; apply runs_ret].
    apply runs_readonly_for_loop; [|intros; apply readonly_direction_step].
    intros i acc' _. apply (runs_direction_step w); assumption.
  - intros d acc. unfold direction_scan.
    apply readonly_bind; [|intros r; apply readonly_ret].
    apply readonly_for_loop. intros i acc'. apply readonly_direction_step.
Qed.

Lemma runs_set_king_location {B} s ally v (f : unit -> M GameState B) :
  (forall s1, board s1 = board s -> runs_at s1 (f tt)) ->
  runs_at s (bind (set_king_location ally v) f).
Proof.
  intros Hf. destruct ally; cbn [set_king_location]; apply runs_modify;
    apply Hf; reflexivity.
Qed.

Lemma runs_king_step w s row col ally tile moves :
  cur w s -> on_board row col ->
  runs_at s (king_step NV row col ally tile moves).
Proof.
  intros Hc Hon. pose proof (cur_board w s Hc) as Hb. unfold king_step.
  apply runs_gets.
  destruct (in_bounds (board s) (fst tile) (snd tile)) eqn:Hin;
    [|apply runs_ret].
  apply (in_bounds_on_board _ Hb) in Hin.
  apply runs_read; [exact Hb|exact Hin|].
  destruct (negb (has_color _ ally)); [|apply runs_ret].
  apply runs_set_king_location. intros s1 Hb1.
  assert (Hb1' : board_8x8 (board s1)) by (rewrite Hb1; exact Hb).
  apply runs_bind.
  { exists (analyze_state NV s1), s1.
    apply (check_for_pins_and_checks_analyze NV s1 Hb1'). }
  intros [[in_chk pns] chks] s2 Hchk.
  apply readonly_check_for_pins_and_checks in Hchk. subst s2.
  apply runs_bind.
  - destruct (negb in_chk); [|apply runs_ret].
    apply runs_new_move; [exact Hb1'|exact Hon|exact Hin|].
    intros m. apply runs_ret.
  - intros moves' s2 _. apply runs_set_king_location. intros s3 _.
    apply runs_ret.
Qed.

Lemma runs_get_king_moves w s row col moves :
  cur w s -> on_board row col -> good_king s0 (ally_of w) (row, col) ->
  runs_at s (get_king_moves NV row col moves).
Proof.
  intros Hc Hon Hgood. unfold get_king_moves. apply runs_gets.
  destruct Hc as [Hfr Hw]. rewrite Hw. pose proof (conj Hfr Hw) as Hc.
  apply (runs_for_loop (cur w)); [| |exact Hc].
  - intros tile acc t _ Ht. apply (runs_king_step w); assumption.
  - intros tile acc t r t' _ Ht Hstep. revert Hstep.
    apply (cur_keeps w); [|exact Ht]. apply keeps_king_step. exact Hgood.
Qed.

Lemma king_square_good c r col :
  on_board r col -> at_square (board s0) r col = Piece c King ->
  good_king s0 c (r, col).
Proof.
  intros Hon Hp. right.
  apply (king_at_piece _ _ _ (go_board _ _ Hok)). split; assumption.
Qed.

Lemma runs_move_function w s k row col moves :
  cur w s -> on_board row col ->
  at_square (board s0) row col = Piece (ally_of w) k ->
  runs_at s (move_function NV k row col moves).
Proof.
  intros Hc Hon Hp. destruct k; cbn [move_function].
  - apply (runs_get_pawn_moves w); assumption.
  - apply (runs_get_moves_from_directions w); assumption.
  - apply (runs_get_moves_from_tiles w); assumption.
  - apply (runs_get_moves_from_directions w); assumption.
  - unfold get_queen_moves. apply runs_bind.
    + apply (runs_get_moves_from_directions w); assumption.
    + intros moves' s1 H1.
      apply (runs_get_moves_from_directions w); [|exact Hon].
      revert H1. apply (cur_keeps w); [|exact Hc].
      apply keeps_get_moves_from_directions.
  - apply (runs_get_king_moves w); [assumption|assumption|].
    apply king_square_good; assumption.
Qed.

Lemma runs_square_step w s row col moves :
  cur w s -> on_board row col -> runs_at s (square_step NV row col moves).
Proof.
  intros Hc Hon. pose proof (cur_board w s Hc) as Hb. unfold square_step.
  apply runs_read; [exact Hb|exact Hon|]. apply runs_gets.
  rewrite (cur_at w s _ _ Hc).
  destruct (at_square (board s0) row col) as [|c k] eqn:Hp; [apply runs_ret|].
  destruct Hc as [Hfr Hw]. rewrite Hw. pose proof (conj Hfr Hw) as Hc.
  destruct ((color_eqb c White && w) || (color_eqb c Black && negb w)) eqn:Ht;
    [|apply runs_ret].
  apply turn_color in Ht. subst c.
  apply runs_bind; [|intros moves' s1 _; apply runs_ret].
  apply (runs_move_function w); assumption.
Qed.

Lemma board_py_get b r :
  board_8x8 b -> 0 <= r < 8 ->
  exists row, py_get b r = Some row /\ py_len row = 8.
Proof.
  intros Hb Hr. destruct (board_row b Hb r Hr) as (row & Hrow & Hlen).
  exists row. split.
  - rewrite py_get_in_range by (rewrite (py_len_board b Hb); lia). exact Hrow.
  - unfold py_len. rewrite Hlen. reflexivity.
Qed.

Lemma runs_row_step w s row moves :
  cur w s -> 0 <= row < 8 -> runs_at s (row_step NV row moves).
Proof.
  intros Hc Hrow. pose proof (cur_board w s Hc) as Hb. unfold row_step.
  apply runs_gets.
  destruct (board_py_get (board s) row Hb Hrow) as (r & Hr & Hlen).
  unfold bind at 1, lift at 1. rewrite Hr, Hlen.
  apply runs_bind; [|intros moves' s1 _; apply runs_ret].
  apply (runs_for_loop (cur w)); [| |exact Hc].
  - intros col acc t Hcol Ht. apply in_py_range in Hcol.
    apply (runs_square_step w); [exact Ht|split; lia].
  - intros col acc t r' t' Hcol Ht Hstep. apply in_py_range in Hcol.
    revert Hstep. apply (cur_keeps w); [|exact Ht].
    apply keeps_square_step; lia.
Qed.

Lemma keeps_row_step w row moves :
  0 <= row -> keeps s0 w (row_step NV row moves).
Proof.
  intros Hrow. unfold row_step.
  apply keeps_bind; [apply keeps_readonly, readonly_gets|]. intros b'.
  apply keeps_bind; [apply keeps_readonly, readonly_lift|]. intros r.
  apply keeps_bind; [|intros; apply keeps_readonly, readonly_ret].
  apply keeps_for_loop_in. intros col Hcol mv.
  apply keeps_square_step; [exact Hrow|].
  apply in_py_range in Hcol. lia.
Qed.

Lemma runs_get_all_possible_moves w s :
  cur w s -> runs_at s (get_all_possible_moves NV).
Proof.
  intros Hc. unfold get_all_possible_moves. apply runs_gets.
  rewrite (py_len_board _ (cur_board w s Hc)).
  apply (runs_for_loop (cur w)); [| |exact Hc].
  - intros row acc t Hrow Ht. apply in_py_range in Hrow.
    apply (runs_row_step w); [exact Ht|lia].
  - intros row acc t r t' Hrow Ht Hstep. apply in_py_range in Hrow.
    revert Hstep. apply (cur_keeps w); [|exact Ht].
    apply keeps_row_step. lia.
Qed.

Lemma runs_tile_under_attack w s row col :
  cur w s -> runs_at s (tile_under_attack NV row col).
Proof.
  intros Hc. unfold tile_under_attack. apply runs_gets. apply runs_modify.
  assert (Hc1 : cur (negb w) (set_white_to_move (negb (white_to_move s)) s)).
  { destruct Hc as [Hfr Hw]. split.
    - apply framed_set_white_to_move. exact Hfr.
    - cbn. rewrite Hw. reflexivity. }
  apply runs_bind; [apply (runs_get_all_possible_moves (negb w)), Hc1|].
  intros opp s2 _. apply runs_gets. apply runs_modify. apply runs_ret.
Qed.

Lemma runs_castle_tail w s row c1 c2 moves en :
  cur w s -> 0 <= row < 8 -> 0 <= en < 8 ->
  runs_at s
    (u1 <- tile_under_attack NV row c1 ;;
     safe <- (if negb u1
              then u2 <- tile_under_attack NV row c2 ;; ret (negb u2)
              else ret false) ;;
     if safe : bool then
       move <- new_move (row, 4) (row, en) false true ;;
       ret (dict_add moves move)
     else ret moves).
Proof.
  intros Hc Hrow Hen.
  apply runs_bind; [apply (runs_tile_under_attack w), Hc|].
  intros u1 s1 H1.
  pose proof (cur_keeps w _ _ _ _ (keeps_tile_under_attack s0 NV w row c1)
                Hc H1) as Hc1.
  apply runs_bind.
  - destruct (negb u1); [|apply runs_ret].
    apply runs_bind; [apply (runs_tile_under_attack w), Hc1|].
    intros u2 s2 _. apply runs_ret.
  - intros safe s2 H2.
    assert (Hc2 : cur w s2).
    { revert H2. apply (cur_keeps w); [|exact Hc1].
      repeat first [apply keeps_tile_under_attack | keeps_step]. }
    destruct safe; [|apply runs_ret].
    apply runs_new_move; [apply (cur_board w), Hc2| | |intros m; apply runs_ret];
      split; cbn; lia.
Qed.

Lemma runs_get_king_side_castle_moves w s row moves :
  cur w s -> 0 <= row < 8 ->
  runs_at s (get_king_side_castle_moves NV row 4 moves).
Proof.
  intros Hc Hrow. pose proof (cur_board w s Hc) as Hb.
  unfold get_king_side_castle_moves.
  apply runs_read; [exact Hb|split; lia|].
  apply runs_bind.
  - destruct (piece_eqb _ Empty); [|apply runs_ret].
    apply runs_read; [exact Hb|split; lia|apply runs_ret].
  - intros free s1 H1.
    assert (s1 = s) as ->.
    { match type of H1 with
      | ?m s = _ => assert (Hro : readonly m)
      end; [|apply Hro in H1; exact H1]. readonly_auto. }
    destruct free; [|apply runs_ret].
    apply (runs_castle_tail w); [exact Hc|exact Hrow|lia].
Qed.

Lemma runs_get_queen_side_castle_moves w s row moves :
  cur w s -> 0 <= row < 8 ->
  runs_at s (get_queen_side_castle_moves NV row 4 moves).
Proof.
  intros Hc Hrow. pose proof (cur_board w s Hc) as Hb.
  unfold get_queen_side_castle_moves.
  apply runs_read; [exact Hb|split; lia|].
  apply runs_bind.
  - destruct (piece_eqb _ Empty); [|apply runs_ret].
    apply runs_read; [exact Hb|split; lia|].
    destruct (piece_eqb _ Empty); [|apply runs_ret].
    apply runs_read; [exact Hb|split; lia|apply runs_ret].
  - intros free s1 H1.
    assert (s1 = s) as ->.
    { match type of H1 with
      | ?m s = _ => assert (Hro : readonly m)
      end; [|apply Hro in H1; exact H1]. readonly_auto. }
    destruct free; [|apply runs_ret].
    apply (runs_castle_tail w); [exact Hc|exact Hrow|lia].
Qed.

Lemma runs_get_castle_moves w s row col moves :
  cur w s -> on_board row col ->
  (rights_of (ally_of w) (current_castling_rights s0) = true -> col = 4) ->
  runs_at s (get_castle_moves NV row col moves).
Proof.
  intros Hc Hon Hcol. unfold get_castle_moves.
  apply runs_bind; [apply (runs_tile_under_attack w), Hc|].
  intros attacked s1 H1.
  pose proof (cur_keeps w _ _ _ _ (keeps_tile_under_attack s0 NV w row col)
                Hc H1) as Hc1.
  destruct attacked; [apply runs_ret|].
  apply runs_gets. apply runs_gets.
  destruct Hc1 as [Hfr1 Hw1]. rewrite Hw1, (fr_rights _ _ Hfr1).
  pose proof (conj Hfr1 Hw1) as Hc1.
  apply runs_bind.
  - destruct ((w && wks _) || (negb w && bks _)) eqn:Hr; [|apply runs_ret].
    rewrite Hcol.
    + apply (runs_get_king_side_castle_moves w); [exact Hc1|apply Hon].
    + destruct w; cbn in Hr |- *; rewrite ?orb_false_r in Hr; rewrite Hr;
        reflexivity.
  - intros moves1 s2 H2.
    assert (Hc2 : cur w s2).
    { revert H2. apply (cur_keeps w); [|exact Hc1].
      destruct ((w && wks _) || (negb w && bks _));
        [|apply keeps_readonly, readonly_ret].
      unfold get_king_side_castle_moves.
      repeat first [apply keeps_tile_under_attack | keeps_step]. }
    apply runs_gets. apply runs_gets.
    destruct Hc2 as [Hfr2 Hw2]. rewrite Hw2, (fr_rights _ _ Hfr2).
    pose proof (conj Hfr2 Hw2) as Hc2.
    destruct ((w && wqs _) || (negb w && bqs _)) eqn:Hr; [|apply runs_ret].
    rewrite Hcol.
    + apply (runs_get_queen_side_castle_moves w); [exact Hc2|apply Hon].
    + destruct w; cbn in Hr |- *; rewrite ?orb_false_r in Hr; rewrite Hr;
        rewrite ?orb_true_r; reflexivity.
Qed.

Lemma cur_refl : cur (white_to_move s0) s0.
Proof. split; [apply framed_refl|reflexivity]. Qed.

Lemma cur_castle_column w s :
  cur w s ->
  rights_of (ally_of w) (current_castling_rights s0) = true ->
  snd (own_king_location s) = 4.
Proof.
  intros [Hfr Hw] Hr.
  pose proof (own_king_location_good s0 s Hfr) as Hgood.
  apply (good_king_location s0 _ _ (go_kings _ _ Hok)) in Hgood.
  rewrite Hgood, Hw. destruct (go_home _ _ Hok) as [Hwh Hbh].
  destruct w; cbn in Hr |- *; [rewrite (Hwh Hr)|rewrite (Hbh Hr)]; reflexivity.
Qed.

Lemma readonly_valid_tile_step kr kc check i tiles :
  readonly (valid_tile_step kr kc check i tiles).
Proof.
  unfold valid_tile_step. destruct check as [[[cr cc] dr] dc].
  readonly_auto.
Qed.

Lemma readonly_filter_step tiles kv moves :
  readonly (filter_step tiles kv moves).
Proof. unfold filter_step. readonly_auto. Qed.

Lemma runs_generate_candidates :
  (in_check s0 = true -> py_len (checks s0) = 1 ->
   exists c, checks s0 = [c] /\ sq_on_board (pin_square c)) ->
  runs_at s0 (generate_candidates NV).
Proof.
  intros Hchecks. set (w := white_to_move s0).
  pose proof cur_refl as Hc. fold w in Hc.
  unfold generate_candidates. apply runs_gets. apply runs_gets.
  assert (Hcastle : forall moves s,
            cur w s ->
            runs_at s (kloc <- gets own_king_location ;;
                       get_castle_moves NV (fst kloc) (snd kloc) moves)).
  { intros moves s Hs. apply runs_gets.
    apply (runs_get_castle_moves w); [exact Hs|apply (cur_own_king w s Hs)|].
    apply (cur_castle_column w s Hs). }
  destruct (in_check s0) eqn:Hic.
  - apply runs_bind.
    + apply runs_gets. destruct (py_len (checks s0) =? 1) eqn:Hlen.
      * apply Z.eqb_eq in Hlen.
        destruct (Hchecks eq_refl Hlen) as (c & Hcs & Hon).
        apply runs_bind; [apply (runs_get_all_possible_moves w), Hc|].
        intros moves0 s1 H1.
        pose proof (cur_keeps w _ _ _ _ (keeps_get_all_possible_moves s0 NV w)
                      Hc H1) as Hc1.
        apply runs_gets. rewrite (fr_checks _ _ (proj1 Hc1)), Hcs.
        unfold bind at 1, lift at 1. cbn [py_get py_norm py_len List.length
          Z.of_nat Z.leb Z.ltb Z.compare andb Pos.of_succ_nat Z.to_nat nth_error].
        destruct c as [[[cr cc] dr] dc].
        apply runs_read; [apply (cur_board w), Hc1|exact Hon|].
        apply runs_gets.
        apply runs_bind.
        -- destruct (has_kind _ Knight); [apply runs_ret|].
           apply runs_readonly_for_loop;
             [|intros; apply readonly_valid_tile_step].
           intros i acc _. unfold valid_tile_step.
           destruct (_ && _); apply runs_ret.
        -- intros tiles s2 _.
           apply runs_readonly_for_loop; [|intros; apply readonly_filter_step].
           intros kv acc _. unfold filter_step.
           repeat match goal with
                  | |- runs_at _ (if ?c then _ else _) => destruct c
                  end; apply runs_ret.
      * apply (runs_get_king_moves w); [exact Hc|apply (cur_own_king w s0 Hc)|].
        rewrite <- surjective_pairing.
        apply (own_king_location_good s0 s0), framed_refl.
    + intros moves s1 H1. apply Hcastle.
      revert H1. apply (cur_keeps w); [|exact Hc].
      apply keeps_bind; [apply keeps_readonly, readonly_gets|]. intros cs.
      destruct (py_len cs =? 1).
      * unfold valid_tile_step, filter_step.
        repeat first [apply keeps_get_all_possible_moves | keeps_step].
      * apply keeps_get_king_moves. rewrite <- surjective_pairing.
        apply (own_king_location_good s0 s0), framed_refl.
  - apply runs_bind; [apply (runs_get_all_possible_moves w), Hc|].
    intros moves s1 H1. apply Hcastle.
    revert H1. apply (cur_keeps w); [|exact Hc].
    apply keeps_get_all_possible_moves.
Qed.

End Total.

Lemma Gen_ok_same NV s s' :
  same_core s s' -> Gen_ok NV s -> Gen_ok NV s'.
Proof.
  intros (Hb & Hw & Hwk & Hbk & Hep & Hcr) [].
  constructor; unfold kings_ok, home_ok, ep_fine in *;
    rewrite ?Hb, ?Hwk, ?Hbk, ?Hep, ?Hcr; try assumption.
  intros c loc. replace (king_location c s') with (king_location c s)
    by (destruct c; cbn; congruence).
  auto.
Qed.

Theorem generate_valid_moves_runs NV s :
  NV < 0 -> Gen_ok NV s -> runs_at s (generate_valid_moves NV).
Proof.
  intros HNV Hok. pose proof (go_board _ _ Hok) as Hb.
  unfold generate_valid_moves. apply runs_gets. apply runs_gets.
  apply runs_bind.
  { exists (analyze_state NV s), s.
    apply (check_for_pins_and_checks_analyze NV s Hb). }
  intros r s1 Hchk.
  rewrite (check_for_pins_and_checks_analyze NV s Hb) in Hchk.
  injection Hchk as <- <-.
  destruct (analyze_state NV s) as [[ic pns] chks] eqn:Han.
  apply runs_modify. apply runs_modify. apply runs_modify.
  set (s1 := set_checks chks (set_pins pns (set_in_check ic s))).
  assert (Hok1 : Gen_ok NV s1).
  { apply (Gen_ok_same NV s); [|exact Hok]. repeat split. }
  apply runs_bind.
  - apply (runs_generate_candidates NV HNV s1 Hok1).
    intros _ Hlen. change (checks s1) with chks in *.
    destruct (py_len_one _ Hlen) as [c Hc]. exists c. split; [exact Hc|].
    pose proof (analyze_checks_on_board NV (board s)
                  (ally_of (white_to_move s)) (enemy_of (white_to_move s))
                  (fst (own_king_location s)) (snd (own_king_location s)) Hb)
      as Hall.
    unfold analyze_state in Han. rewrite Han in Hall. cbn [snd] in Hall.
    rewrite Hc in Hall. inversion Hall. assumption.
  - intros moves s2 _. apply runs_modify. apply runs_modify.
    apply runs_bind.
    + unfold set_game_over_flags. apply runs_gets.
      destruct (py_len moves =? 0).
      * destruct (in_check _); eexists; eexists; reflexivity.
      * apply runs_modify. eexists; eexists; reflexivity.
    + intros [] s3 _. apply runs_modify. apply runs_ret.
Qed.

(** ** The generator does not read the stored move set *)

Lemma ivm_ret {A} (a : A) : ignores_valid_moves (ret a).
Proof. intros v s. reflexivity. Qed.

Lemma ivm_lift {A} (o : option A) : ignores_valid_moves (lift o).
Proof. intros v s. unfold lift. destruct o; reflexivity. Qed.

Lemma ivm_gets {A} (f : GameState -> A) :
  (forall v s, f (set_valid_moves v s) = f s) ->
  ignores_valid_moves (gets f).
Proof. intros H v s. unfold gets. rewrite H. reflexivity. Qed.

Lemma ivm_modify (g : GameState -> GameState) :
  (forall v s, g (set_valid_moves v s) = set_valid_moves v (g s)) ->
  ignores_valid_moves (modify g).
Proof. intros H v s. unfold modify. rewrite H. reflexivity. Qed.

Lemma ivm_bind {A B} (m : M GameState A) (f : A -> M GameState B) :
  ignores_valid_moves m -> (forall a, ignores_valid_moves (f a)) ->
  ignores_valid_moves (bind m f).
Proof.
  intros Hm Hf v s. unfold bind. rewrite Hm.
  destruct (m s) as [[a s1]|]; [apply Hf|reflexivity].
Qed.

Lemma ivm_for_loop {X A} (xs : list X)
    (body : X -> A -> M GameState (ctl * A)) :
  (forall x a, ignores_valid_moves (body x a)) ->
  forall a, ignores_valid_moves (for_loop xs body a).
Proof.
  intros Hb. induction xs as [|x xs IH]; intros a; cbn [for_loop].
  - apply ivm_ret.
  - apply ivm_bind; [apply Hb|]. intros [[] a']; cbn [fst snd];
      [apply IH|apply ivm_ret].
Qed.

Ltac ivm_step :=
  first
    [ apply ivm_ret
    | apply ivm_lift
    | apply ivm_gets; intros ? ?; reflexivity
    | apply ivm_modify; intros ? ?; reflexivity
    | apply ivm_bind; [|intros ?]
    | apply ivm_for_loop; intros ? ?
    | match goal with
      | |- ignores_valid_moves (if ?b then _ else _) => destruct b
      | |- ignores_valid_moves (match ?x with _ => _ end) => destruct x
      | |- ignores_valid_moves (let '_ := ?x in _) => destruct x
      end ].

Lemma ivm_read_board r c : ignores_valid_moves (read_board r c).
Proof. unfold read_board. repeat ivm_step. Qed.

Lemma ivm_new_move st en ep ca : ignores_valid_moves (new_move st en ep ca).
Proof. unfold new_move. repeat ivm_step. Qed.

Lemma ivm_check_for_pins_and_checks NV :
  ignores_valid_moves (check_for_pins_and_checks NV).
Proof.
  unfold check_for_pins_and_checks, ray_scan, ray_step, knight_scan.
  repeat first [apply ivm_read_board | ivm_step].
Qed.

Lemma ivm_take_pin NV row col : ignores_valid_moves (take_pin NV row col).
Proof. unfold take_pin. repeat ivm_step. Qed.

Lemma ivm_take_pin_if_rook NV row col :
  ignores_valid_moves (take_pin_if_rook NV row col).
Proof.
  unfold take_pin_if_rook. repeat first [apply ivm_read_board | ivm_step].
Qed.

Ltac ivm_auto :=
  repeat first
    [ apply ivm_read_board | apply ivm_new_move
    | apply ivm_check_for_pins_and_checks
    | apply ivm_take_pin | apply ivm_take_pin_if_rook
    | ivm_step ].

Lemma ivm_get_pawn_moves NV row col moves :
  ignores_valid_moves (get_pawn_moves NV row col moves).
Proof.
  unfold get_pawn_moves, pawn_capture_step, inside_step, outside_step.
  ivm_auto.
Qed.

Lemma ivm_get_moves_from_tiles NV row col moves tiles :
  ignores_valid_moves (get_moves_from_tiles NV row col moves tiles).
Proof. unfold get_moves_from_tiles, tile_step. ivm_auto. Qed.

Lemma ivm_get_moves_from_directions NV row col moves ds :
  ignores_valid_moves (get_moves_from_directions NV row col moves ds).
Proof.
  unfold get_moves_from_directions, direction_scan, direction_step. ivm_auto.
Qed.

Lemma ivm_get_king_moves NV row col moves :
  ignores_valid_moves (get_king_moves NV row col moves).
Proof.
  unfold get_king_moves, king_step, set_king_location. ivm_auto.
Qed.

Lemma ivm_move_function NV k row col moves :
  ignores_valid_moves (move_function NV k row col moves).
Proof.
  destruct k; cbn [move_function];
    unfold get_rook_moves, get_knight_moves, get_bishop_moves, get_queen_moves,
      get_rook_moves, get_bishop_moves;
    repeat first [ apply ivm_get_pawn_moves | apply ivm_get_moves_from_tiles
                 | apply ivm_get_moves_from_directions
                 | apply ivm_get_king_moves | ivm_step ].
Qed.

Lemma ivm_get_all_possible_moves NV :
  ignores_valid_moves (get_all_possible_moves NV).
Proof.
  unfold get_all_possible_moves, row_step, square_step.
  repeat first [ apply ivm_read_board | apply ivm_move_function | ivm_step ].
Qed.

Lemma ivm_tile_under_attack NV row col :
  ignores_valid_moves (tile_under_attack NV row col).
Proof.
  unfold tile_under_attack.
  repeat first [ apply ivm_get_all_possible_moves | ivm_step ].
Qed.

Lemma ivm_get_castle_moves NV row col moves :
  ignores_valid_moves (get_castle_moves NV row col moves).
Proof.
  unfold get_castle_moves, get_king_side_castle_moves,
    get_queen_side_castle_moves.
  repeat first [ apply ivm_tile_under_attack | apply ivm_read_board
               | apply ivm_new_move | ivm_step ].
Qed.

Lemma ivm_generate_candidates NV : ignores_valid_moves (generate_candidates NV).
Proof.
  unfold generate_candidates, valid_tile_step, filter_step.
  repeat first [ apply ivm_get_all_possible_moves | apply ivm_get_king_moves
               | apply ivm_get_castle_moves | apply ivm_read_board | ivm_step ].
Qed.

Lemma generate_valid_moves_tail_ignores NV e r v s :
  (moves <- generate_candidates NV ;;
   modify (set_en_passant_possible e) ;;;
   modify (set_current_castling_rights r) ;;;
   set_game_over_flags moves ;;;
   modify (set_valid_moves moves) ;;;
   ret moves) (set_valid_moves v s)
  = (moves <- generate_candidates NV ;;
     modify (set_en_passant_possible e) ;;;
     modify (set_current_castling_rights r) ;;;
     set_game_over_flags moves ;;;
     modify (set_valid_moves moves) ;;;
     ret moves) s.
Proof.
  unfold bind at 1. rewrite (ivm_generate_candidates NV v s).
  unfold bind at 5.
  destruct (generate_candidates NV s) as [[moves s2]|]; [|reflexivity].
  unfold set_game_over_flags, bind, modify, gets, ret.
  cbn [in_check set_valid_moves set_en_passant_possible
       set_current_castling_rights].
  destruct (py_len moves =? 0); [destruct (in_check s2)|]; reflexivity.
Qed.

(** The generator gives the same moves and the same state whatever the
    fields it overwrites held before. *)
Theorem generate_same_position NV s s' :
  board_8x8 (board s) -> same_position s s' ->
  generate_valid_moves NV s' = generate_valid_moves NV s.
Proof.
  intros Hb Hsame.
  assert (Hb' : board_8x8 (board s')) by (rewrite Hsame; exact Hb).
  assert (Han : analyze_state NV s' = analyze_state NV s)
    by (rewrite Hsame; reflexivity).
  unfold generate_valid_moves.
  unfold bind at 1, gets at 1. unfold bind at 1, gets at 1.
  unfold bind at 1.
  rewrite (check_for_pins_and_checks_analyze NV s' Hb'), Han.
  symmetry.
  unfold bind at 1, gets at 1. unfold bind at 1, gets at 1.
  unfold bind at 1.
  rewrite (check_for_pins_and_checks_analyze NV s Hb).
  destruct (analyze_state NV s) as [[ic pns] chks].
  unfold bind at 1, modify at 1. unfold bind at 1, modify at 1.
  unfold bind at 1, modify at 1.
  symmetry.
  unfold bind at 1, modify at 1. unfold bind at 1, modify at 1.
  unfold bind at 1, modify at 1.
  replace (set_checks chks (set_pins pns (set_in_check ic s')))
    with (set_valid_moves (valid_moves s')
            (set_checks chks (set_pins pns (set_in_check ic s))))
    by (rewrite Hsame; reflexivity).
  replace (en_passant_possible s') with (en_passant_possible s)
    by (rewrite Hsame; reflexivity).
  replace (current_castling_rights s') with (current_castling_rights s)
    by (rewrite Hsame; reflexivity).
  apply generate_valid_moves_tail_ignores.
Qed.

(** ** Boards are determined by their squares *)

Lemma list_ext_8 {A} (l l' : list A) :
  List.length l = 8%nat -> List.length l' = 8%nat ->
  (forall i, (i < 8)%nat -> nth_error l i = nth_error l' i) -> l = l'.
Proof.
  intros Hl Hl' H.
  apply nth_error_ext. intros n.
  destruct (Nat.lt_ge_cases n 8) as [Hn|Hn]; [apply H, Hn|].
  rewrite (proj2 (nth_error_None l n)) by lia.
  rewrite (proj2 (nth_error_None l' n)) by lia. reflexivity.
Qed.

Lemma board_ext b b' :
  board_8x8 b -> board_8x8 b' ->
  (forall x, sq_on_board x -> piece_at b x = piece_at b' x) -> b = b'.
Proof.
  intros Hb Hb' H.
  apply list_ext_8; [apply Hb|apply Hb'|]. intros i Hi.
  destruct (board_row b Hb (Z.of_nat i) ltac:(lia)) as (row & Hrow & Hlen).
  destruct (board_row b' Hb' (Z.of_nat i) ltac:(lia)) as (row' & Hrow' & Hlen').
  rewrite Nat2Z.id in Hrow, Hrow'. rewrite Hrow, Hrow'. f_equal.
  apply list_ext_8; [exact Hlen|exact Hlen'|]. intros j Hj.
  assert (Hon : sq_on_board (Z.of_nat i, Z.of_nat j))
    by (split; cbn; lia).
  pose proof (H _ Hon) as Heq. unfold piece_at in Heq. cbn [fst snd] in Heq.
  assert (Hget : forall bb rr,
            board_8x8 bb -> nth_error bb i = Some rr ->
            List.length rr = 8%nat ->
            nth_error rr j = Some (at_square bb (Z.of_nat i) (Z.of_nat j))).
  { intros bb rr Hbb Hrr Hlr.
    pose proof (board_get_on_board bb Hbb _ _ Hon) as Hg.
    unfold board_get in Hg. cbn [fst snd] in Hg.
    rewrite py_get_in_range in Hg by (rewrite (py_len_board bb Hbb); lia).
    rewrite Nat2Z.id, Hrr in Hg.
    rewrite py_get_in_range in Hg by (unfold py_len; lia).
    rewrite Nat2Z.id in Hg. exact Hg. }
  rewrite (Hget b row Hb Hrow Hlen), (Hget b' row' Hb' Hrow' Hlen').
  f_equal. exact Heq.
Qed.

(** ** Undoing a generated move *)

Lemma py_pop_snoc {A} (l : list A) x : py_pop (l ++ [x]) = Some (x, l).
Proof. unfold py_pop. rewrite rev_app_distr. cbn. rewrite rev_involutive. reflexivity. Qed.

Lemma py_len_snoc {A} (l : list A) x : (py_len (l ++ [x]) =? 0) = false.
Proof.
  apply Z.eqb_neq. unfold py_len. rewrite length_app. cbn. lia.
Qed.

Lemma py_get_last {A} (l : list A) x : py_get (l ++ [x]) (-1) = Some x.
Proof.
  unfold py_get, py_norm, py_len. rewrite length_app. cbn [List.length].
  replace (0 <=? -1) with false by reflexivity. cbn [andb].
  replace (-1 <? 0) with true by reflexivity.
  replace (- Z.of_nat (List.length l + 1) <=? -1) with true
    by (symmetry; apply Z.leb_le; lia).
  cbn [andb].
  replace (Z.to_nat (Z.of_nat (List.length l + 1) + -1)) with (List.length l)
    by lia.
  rewrite nth_error_app2 by lia. rewrite Nat.sub_diag. reflexivity.
Qed.

Lemma generate_keeps_logs NV s moves s' :
  generate_valid_moves NV s = Some (moves, s') ->
  move_log s' = move_log s
  /\ castle_rights_log s' = castle_rights_log s
  /\ stdout s' = stdout s.
Proof.
  intros H.
  destruct (generate_valid_moves_effect _ _ _ _ H)
    as (ic & pns & chks & _ & Hfr & _).
  pose proof (fr_move_log _ _ Hfr) as H1.
  pose proof (fr_rights_log _ _ Hfr) as H2.
  pose proof (fr_stdout _ _ Hfr) as H3.
  cbn in H1, H2, H3. auto.
Qed.

Ltac norm_state_in H :=
  cbn [set_board set_white_to_move set_valid_moves set_move_log
       set_white_king_location set_black_king_location set_checkmate
       set_stalemate set_in_check set_pins set_checks
       set_en_passant_possible set_current_castling_rights
       set_castle_rights_log set_stdout
       board white_to_move valid_moves move_log white_king_location
       black_king_location checkmate stalemate in_check pins checks
       en_passant_possible current_castling_rights castle_rights_log stdout]
    in H.

Section Undo.

Variable NV : Z.
Hypothesis HNV : NV < 0.
Variable s : GameState.
Hypothesis Hinv : Inv NV s.
Variable m : Move.
Hypothesis Hm : move_facts NV s m.

Let b := board s.
Let Hb : board_8x8 b := inv_board _ _ Hinv.

(** The board once the moved and the captured piece are put back. *)
Let put_back (bt : Board) : Board :=
  let b1 := put (put bt (move_start m) (piece_moved m))
                (move_end m) (piece_captured m) in
  if is_en_passant m
  then put (put b1 (move_end m) Empty) (start_row m, end_col m)
           (piece_captured m)
  else b1.

Lemma undo_squares :
  sq_on_board (move_start m) /\ sq_on_board (move_end m)
  /\ sq_on_board (start_row m, end_col m).
Proof.
  pose proof (mf_start _ _ _ Hm) as Hst. pose proof (mf_end _ _ _ Hm) as Hen.
  repeat split; try apply Hst; try apply Hen.
Qed.

Lemma put_back_8x8 bt : board_8x8 bt -> board_8x8 (put_back bt).
Proof.
  intros Hbt. destruct undo_squares as (Hst & Hen & Hep). unfold put_back.
  cbv zeta. destruct (is_en_passant m);
    repeat (apply put_8x8; [|assumption]); exact Hbt.
Qed.

Lemma en_passant_captured :
  is_en_passant m = true ->
  piece_captured m = Piece (enemy_of (white_to_move s)) Pawn.
Proof.
  intros He. destruct (mf_en_passant _ _ _ Hm He) as (Hp & _).
  rewrite (move_explicit NV s Hinv m Hm) at 1. cbn [piece_captured].
  rewrite He, Hp.
  destruct (white_to_move s); reflexivity.
Qed.

Lemma put_back_piece x :
  sq_on_board x ->
  piece_at (put_back (make_move_board m b)) x = half_undone m b x.
Proof.
  intros Hx. destruct undo_squares as (Hst & Hen & Hep).
  pose proof (made_board_8x8 NV s Hinv m Hm) as Hbt. fold b in Hbt.
  pose proof (piece_at_made NV s Hinv m Hm) as Hat. fold b in Hat.
  pose proof (mf_distinct _ _ _ Hm) as Hdist.
  unfold put_back. cbv zeta. unfold half_undone.
  destruct (is_en_passant m) eqn:He.
  - destruct (mf_en_passant _ _ _ Hm He) as (Hp & Hsr & Her & Hlr & Hfree & Hcp).
    fold b in Hp, Hfree, Hcp.
    assert (Hnc : is_castle m = false).
    { destruct (is_castle m) eqn:Hc; [|reflexivity].
      destruct (castle_end_col NV s Hinv m Hm Hc) as (_ & _ & _ & H & _).
      congruence. }
    rewrite Hnc. cbn [andb].
    rewrite !piece_at_put; try assumption;
      repeat (apply put_8x8; [|assumption]); try assumption.
    destruct (pair_eqb x (start_row m, end_col m)) eqn:E1.
    { apply pair_eqb_eq in E1. subst x. rewrite en_passant_captured by exact He.
      symmetry. exact Hcp. }
    destruct (pair_eqb x (move_end m)) eqn:E2.
    { apply pair_eqb_eq in E2. subst x. symmetry. exact Hfree. }
    destruct (pair_eqb x (move_start m)) eqn:E3.
    { apply pair_eqb_eq in E3. subst x. apply (piece_moved_start NV s Hinv m Hm). }
    rewrite (Hat x Hx). unfold after_move.
    rewrite Hnc, He, E1, E2, E3. reflexivity.
  - rewrite !piece_at_put; try assumption;
      repeat (apply put_8x8; [|assumption]); try assumption.
    destruct (is_castle m) eqn:Hc; cbn [andb].
    + destruct (castle_end_col NV s Hinv m Hm Hc)
        as (Hcol & Hec & Hrow & _ & _).
      destruct (mf_castle _ _ _ Hm Hc) as (_ & _ & _ & _ & Hside).
      assert (Hne : forall y, (y = move_end m \/ y = move_start m) ->
                pair_eqb y (rook_from m) = false
                /\ pair_eqb y (rook_to m) = false).
      { intros y Hy. unfold rook_from, rook_to, move_end, move_start in *.
        split; apply pair_eqb_neq; intros Heq;
          destruct Hy as [-> | ->]; apply (f_equal snd) in Heq;
          cbn [snd] in Heq; destruct Hec as [Hec|Hec]; rewrite Hec in Heq;
          cbn in Heq; lia. }
      destruct (pair_eqb x (move_end m)) eqn:E2.
      { apply pair_eqb_eq in E2. subst x.
        destruct (Hne _ (or_introl eq_refl)) as [-> ->].
        apply (captured_piece NV s Hinv m Hm He). }
      destruct (pair_eqb x (move_start m)) eqn:E3.
      { apply pair_eqb_eq in E3. subst x.
        destruct (Hne _ (or_intror eq_refl)) as [-> ->].
        apply (piece_moved_start NV s Hinv m Hm). }
      rewrite (Hat x Hx). unfold after_move. rewrite Hc, He, E2, E3.
      cbn [andb]. reflexivity.
    + destruct (pair_eqb x (move_end m)) eqn:E2.
      { apply pair_eqb_eq in E2. subst x.
        apply (captured_piece NV s Hinv m Hm He). }
      destruct (pair_eqb x (move_start m)) eqn:E3.
      { apply pair_eqb_eq in E3. subst x.
        apply (piece_moved_start NV s Hinv m Hm). }
      rewrite (Hat x Hx). unfold after_move. rewrite Hc, He, E2, E3.
      reflexivity.
Qed.

Lemma half_undone_same x q :
  half_undone m b x = q -> q <> Empty ->
  (forall c, q <> Piece c Rook) -> piece_at b x = q.
Proof.
  unfold half_undone. intros H Hne Hrook.
  destruct (is_castle m) eqn:Hc; cbn [andb] in H; [|exact H].
  destruct (castle_rook NV s Hinv m Hm Hc) as (Hr & _).
  destruct (pair_eqb x (rook_from m)); [congruence|].
  destruct (pair_eqb x (rook_to m)); [|exact H].
  fold b in Hr. rewrite Hr in H. exfalso. apply (Hrook _ (eq_sym H)).
Qed.

Lemma put_back_Gen_ok u :
  board u = put_back (make_move_board m b) ->
  white_king_location u = white_king_location s ->
  black_king_location u = black_king_location s ->
  current_castling_rights u
  = update_castle_rights_pure m (current_castling_rights s) ->
  ep_fine NV u -> Gen_ok NV u.
Proof.
  intros Hbu Hwk Hbk Hcr Hep.
  pose proof (made_board_8x8 NV s Hinv m Hm) as Hbt. fold b in Hbt.
  assert (Hu8 : board_8x8 (board u))
    by (rewrite Hbu; apply put_back_8x8; exact Hbt).
  constructor.
  - exact Hu8.
  - intros c loc Hk. apply (king_at_piece _ _ _ Hu8) in Hk as (Hon & Hp).
    rewrite Hbu, (put_back_piece loc Hon) in Hp.
    apply half_undone_same in Hp; [|discriminate|discriminate].
    replace (king_location c u) with (king_location c s)
      by (destruct c; cbn [king_location]; congruence).
    apply (inv_kings _ _ Hinv). apply (king_at_piece _ _ _ Hb). auto.
  - intros r c Hon. rewrite Hbu, (put_back_piece (r, c) Hon).
    destruct (inv_pawns _ _ Hinv r c Hon) as [Hw Hbl]. fold b in Hw, Hbl.
    split; intros Hp; apply half_undone_same in Hp; auto; discriminate.
  - rewrite Hwk. apply (inv_white_king _ _ Hinv).
  - rewrite Hbk. apply (inv_black_king _ _ Hinv).
  - unfold home_ok. rewrite Hcr, Hwk, Hbk. split; intros H.
    + apply (update_rights_of White) in H as [H _].
      apply (inv_home _ _ Hinv White H).
    + apply (update_rights_of Black) in H as [H _].
      apply (inv_home _ _ Hinv Black H).
  - exact Hep.
Qed.

Lemma undo_move_steady t :
  log_ok s -> steady (made NV m s) t -> ep_fine NV t ->
  exists t', undo_move NV t = Some (tt, t') /\ steady s t' /\ ep_fine NV t'
             /\ checkmate t' = false /\ stalemate t' = false.
Proof.
  intros (l & Hlog) Hst Hep.
  destruct undo_squares as (Hstart & Hend & Hepsq).
  pose proof (made_board_8x8 NV s Hinv m Hm) as Hbt. fold b in Hbt.
  destruct t as [bt wt vmt mlt wkt bkt cmt smt ict pst cst ept crt crlt outt].
  destruct Hst as (E1 & E2 & E3 & E4 & E5 & E6 & E7 & E8).
  unfold ep_fine in Hep.
  cbn [made board white_to_move white_king_location black_king_location
       current_castling_rights move_log castle_rights_log stdout
       en_passant_possible] in E1, E2, E3, E4, E5, E6, E7, E8, Hep.
  subst bt wt wkt bkt crt mlt crlt outt. fold b.
  unfold undo_move.
  unfold bind at 1, gets at 1. norm_state.
  rewrite py_len_snoc.
  unfold bind at 1, lift at 1. rewrite py_pop_snoc.
  unfold bind at 1, modify at 1. norm_state.
  rewrite bind_write by assumption. norm_state.
  set (b1 := put (make_move_board m b) (start_row m, start_col m)
                 (piece_moved m)).
  assert (Hb1 : board_8x8 b1) by (apply put_8x8; assumption).
  rewrite bind_write by assumption. norm_state.
  set (b2 := put b1 (end_row m, end_col m) (piece_captured m)).
  assert (Hb2 : board_8x8 b2) by (apply put_8x8; assumption).
  unfold bind at 1, gets at 1. unfold bind at 1, modify at 1. norm_state.
  rewrite negb_involutive.
  match goal with |- exists t', _ ?st = _ /\ _ =>
    rewrite (bind_step _ _ st tt
      (set_black_king_location (black_king_location s)
         (set_white_king_location (white_king_location s) st)))
  end.
  2:{ destruct (piece_eqb (piece_moved m) (Piece White King)) eqn:Ew.
      - apply piece_eqb_eq in Ew.
        pose proof (start_king NV s Hinv m Hm White Ew) as Hk.
        cbn [king_location] in Hk. rewrite Hk. reflexivity.
      - destruct (piece_eqb (piece_moved m) (Piece Black King)) eqn:Eb;
          [|reflexivity].
        apply piece_eqb_eq in Eb.
        pose proof (start_king NV s Hinv m Hm Black Eb) as Hk.
        cbn [king_location] in Hk. rewrite Hk. reflexivity. }
  match goal with |- exists t', _ ?st = _ /\ _ =>
    rewrite (bind_step _ _ st tt
      (set_en_passant_possible
         (if is_en_passant m then (end_row m, end_col m) else ept)
         (set_board (put_back (make_move_board m b)) st)))
  end.
  2:{ unfold put_back, move_start, move_end. cbv zeta. fold b1. fold b2.
      destruct (is_en_passant m).
      - rewrite bind_write by assumption. norm_state.
        rewrite bind_write
          by (try assumption; norm_state; apply put_8x8; assumption).
        reflexivity.
      - reflexivity. }
  match goal with |- exists t', _ ?st = _ /\ _ =>
    rewrite (bind_step _ _ st tt
      (set_en_passant_possible
         (if is_double_step m then NO_PAIR NV
          else if is_en_passant m then (end_row m, end_col m) else ept)
         st))
  end.
  2:{ destruct (is_double_step m); [reflexivity|].
      destruct (is_en_passant m); reflexivity. }
  match goal with |- exists t', _ ?st = _ /\ _ => set (u := st) end.
  assert (Hgo : Gen_ok NV u).
  { apply put_back_Gen_ok; try reflexivity.
    unfold ep_fine, u. norm_state.
    destruct (is_double_step m); [left; reflexivity|].
    destruct (is_en_passant m); [right; exact Hend|exact Hep]. }
  destruct (generate_valid_moves_runs NV u HNV Hgo) as (mv & u' & Hgen).
  rewrite (bind_step _ _ u mv u' Hgen).
  pose proof (generate_valid_moves_restores NV u u' mv (go_kings _ _ Hgo) Hgen)
    as (C1 & C2 & C3 & C4 & C5 & C6).
  pose proof (generate_keeps_logs NV u mv u' Hgen) as (L1 & L2 & L3).
  unfold u in C1, C2, C3, C4, C5, C6, L1, L2, L3.
  norm_state_in C1; norm_state_in C2; norm_state_in C3; norm_state_in C4;
    norm_state_in C5; norm_state_in C6; norm_state_in L1; norm_state_in L2;
    norm_state_in L3.
  assert (Hu8 : board_8x8 (board u'))
    by (rewrite C1; apply put_back_8x8; exact Hbt).
  unfold bind at 1, gets at 1. rewrite L2.
  unfold bind at 1, lift at 1. rewrite py_pop_snoc.
  unfold bind at 1, modify at 1.
  unfold bind at 1, lift at 1. rewrite Hlog, py_get_last.
  unfold bind at 1, modify at 1.
  set (bfin := if is_castle m then
                 if end_col m - start_col m =? 2
                 then put (put (board u') (end_row m, end_col m + 1)
                               (piece_at (board u') (end_row m, end_col m - 1)))
                          (end_row m, end_col m - 1) Empty
                 else put (put (board u') (end_row m, end_col m - 2)
                               (piece_at (board u') (end_row m, end_col m + 1)))
                          (end_row m, end_col m + 1) Empty
               else board u').
  assert (Hcols : is_castle m = true ->
            on_board (end_row m) (end_col m + 1)
            /\ on_board (end_row m) (end_col m - 1)
            /\ on_board (end_row m) (end_col m - 2)).
  { intros Hc. destruct (castle_end_col NV s Hinv m Hm Hc) as (_ & Hec & _).
    destruct Hend as [Hr _]. cbn [fst snd move_end] in Hr.
    unfold on_board, sq_on_board. cbn [fst snd].
    destruct Hec as [-> | ->]; lia. }
  match goal with |- exists t', _ ?st = _ /\ _ =>
    rewrite (bind_step _ _ st tt (set_board bfin st))
  end.
  2:{ unfold bfin. destruct (is_castle m) eqn:Hc.
      - destruct (Hcols eq_refl) as (H1 & H2 & H3).
        destruct (end_col m - start_col m =? 2).
        + rewrite bind_read by assumption. norm_state.
          rewrite bind_write by assumption. norm_state.
          rewrite write_board_at
            by (norm_state; try apply put_8x8; assumption).
          reflexivity.
        + rewrite bind_read by assumption. norm_state.
          rewrite bind_write by assumption. norm_state.
          rewrite write_board_at
            by (norm_state; try apply put_8x8; assumption).
          reflexivity.
      - destruct u'; reflexivity. }
  eexists. split; [reflexivity|].
  assert (Hfin : bfin = b).
  { assert (Hat : forall x, sq_on_board x ->
              piece_at (board u') x = half_undone m b x)
      by (intros x Hx; rewrite C1; apply put_back_piece; exact Hx).
    unfold bfin. destruct (is_castle m) eqn:Hc.
    - destruct (Hcols eq_refl) as (H1 & H2 & H3).
      destruct (castle_end_col NV s Hinv m Hm Hc) as (Hsc & Hec & Hrow & _).
      destruct (mf_castle _ _ _ Hm Hc) as (_ & _ & _ & _ & Hside).
      fold b in Hside.
      assert (Hsq : sq_on_board (rook_from m) /\ sq_on_board (rook_to m)
                    /\ rook_from m <> rook_to m
                    /\ piece_at b (rook_to m) = Empty
                    /\ (if end_col m - start_col m =? 2
                        then (end_row m, end_col m + 1) = rook_from m
                             /\ (end_row m, end_col m - 1) = rook_to m
                        else (end_row m, end_col m - 2) = rook_from m
                             /\ (end_row m, end_col m + 1) = rook_to m)).
      { assert (Hr : 0 <= end_row m < 8) by apply Hend.
        unfold rook_from, rook_to. rewrite Hsc.
        destruct Hside as [(Hcol & _ & Hf & _)|(Hcol & _ & _ & _ & Hf)];
          rewrite Hcol.
        - change (6 - 4 =? 2) with true. change (6 =? 6) with true.
          change (6 + 1) with 7. change (6 - 1) with 5. cbv iota.
          rewrite <- Hrow.
          repeat split; cbn [fst snd]; try lia; try congruence.
        - change (2 - 4 =? 2) with false. change (2 =? 6) with false.
          change (2 + 1) with 3. change (2 - 2) with 0. cbv iota.
          rewrite <- Hrow.
          repeat split; cbn [fst snd]; try lia; try congruence. }
      destruct Hsq as (Hrf & Hrt & Hne & Hfree & Hxs).
      assert (Hmain : put (put (board u') (rook_from m)
                               (piece_at (board u') (rook_to m)))
                          (rook_to m) Empty = b).
      { apply board_ext; [repeat (apply put_8x8; [|assumption]); exact Hu8
                         |exact Hb|].
        intros x Hx.
        rewrite !piece_at_put; try assumption;
          try (apply put_8x8; assumption).
        destruct (pair_eqb x (rook_to m)) eqn:E1.
        { apply pair_eqb_eq in E1. subst x. symmetry. exact Hfree. }
        destruct (pair_eqb x (rook_from m)) eqn:E2.
        { apply pair_eqb_eq in E2. subst x. rewrite (Hat _ Hrt).
          unfold half_undone. rewrite Hc, pair_eqb_refl. cbn [andb].
          rewrite pair_eqb_neq by congruence. reflexivity. }
        rewrite (Hat _ Hx). unfold half_undone. rewrite Hc, E1, E2.
        reflexivity. }
      destruct (end_col m - start_col m =? 2);
        destruct Hxs as [-> ->]; exact Hmain.
    - apply board_ext; [exact Hu8|exact Hb|].
      intros x Hx. rewrite (Hat _ Hx). unfold half_undone. rewrite Hc.
      reflexivity. }
  unfold steady, ep_fine. norm_state.
  repeat split; try assumption; try reflexivity.
  - symmetry. exact Hlog.
  - rewrite C5. destruct (is_double_step m); [left; reflexivity|].
    destruct (is_en_passant m); [right; exact Hend|exact Hep].
Qed.

End Undo.
(** ** The size of a score *)

Lemma fold_option_bound {X} (f : X -> Z -> option Z) (B : Z) (xs : list X) :
  (forall x a, In x xs -> exists a', f x a = Some a' /\ Z.abs (a' - a) <= B) ->
  forall a, exists r, fold_option f xs a = Some r
                      /\ Z.abs (r - a) <= B * Z.of_nat (List.length xs).
Proof.
  induction xs as [|x xs IH]; intros Hf a.
  - exists a. split; [reflexivity|]. cbn. lia.
  - destruct (Hf x a (or_introl eq_refl)) as (a' & Ha' & Hbound).
    destruct (IH (fun y a0 Hy => Hf y a0 (or_intror Hy)) a') as (r & Hr & Hrb).
    exists r. cbn [fold_option]. rewrite Ha'. split; [exact Hr|].
    cbn [List.length]. lia.
Qed.

Lemma square_worth_bound p r c :
  on_board r c -> exists x, square_worth p r c = Some x /\ 0 <= x <= 905.
Proof.
  intros Hon. each_square Hon;
    destruct p as [|[] []]; eexists; (split; [reflexivity|cbv; split; discriminate]).
Qed.

Lemma piece_table_square_bound b r c tot :
  board_8x8 b -> on_board r c ->
  exists tot', piece_table_square b r c tot = Some tot'
               /\ Z.abs (tot' - tot) <= 905.
Proof.
  intros Hb Hon. unfold piece_table_square.
  rewrite (board_get_on_board b Hb r c Hon).
  destruct (square_worth_bound (at_square b r c) r c Hon) as (x & Hx & Hxb).
  unfold square_worth in Hx.
  destruct (at_square b r c) as [|col k].
  - exists tot. split; [reflexivity|lia].
  - destruct (if negb (kind_eqb k King)
              then match PIECE_POSITION_SCORES (Piece col k) with
                   | Some t => table_get t r c
                   | None => None
                   end
              else Some 0) as [ps|]; [|discriminate].
    injection Hx as <-. destruct col; eexists; (split; [reflexivity|lia]).
Qed.

Lemma score_material_piece_table_bound s :
  board_8x8 (board s) ->
  exists v, score_material_piece_table s = Some v /\ Z.abs v <= 57920.
Proof.
  intros Hb. unfold score_material_piece_table. cbv zeta.
  rewrite (py_len_board _ Hb), (board_width_8 _ Hb).
  destruct (fold_option_bound
    (fun row total =>
       fold_option (fun col tot => piece_table_square (board s) row col tot)
                   (py_range 0 8) total)
    (905 * 8) (py_range 0 8)) with (a := 0) as (v & Hv & Hvb).
  - intros row a Hrow. apply in_py_range in Hrow.
    destruct (fold_option_bound
      (fun col tot => piece_table_square (board s) row col tot)
      905 (py_range 0 8)) with (a := a) as (v & Hv & Hvb).
    + intros col a' Hcol. apply in_py_range in Hcol.
      apply piece_table_square_bound; [exact Hb|split; lia].
    + exists v. split; [exact Hv|].
      replace (Z.of_nat (List.length (py_range 0 8))) with 8 in Hvb
        by reflexivity.
      lia.
  - exists v. split; [exact Hv|].
    replace (Z.of_nat (List.length (py_range 0 8))) with 8 in Hvb
      by reflexivity.
    lia.
Qed.

Lemma score_board_bound s :
  board_8x8 (board s) ->
  exists v, score_board s = Some v /\ - CHECKMATE <= v <= CHECKMATE.
Proof.
  intros Hb. unfold score_board, CHECKMATE, STALEMATE.
  destruct (checkmate s).
  { destruct (white_to_move s); eexists; (split; [reflexivity|lia]). }
  destruct (stalemate s).
  { eexists; (split; [reflexivity|lia]). }
  destruct (score_material_piece_table_bound s Hb) as (v & Hv & Hvb).
  exists v. split; [exact Hv|lia].
Qed.
(** ** The searches walk the same tree *)

Lemma bind_run {S A B} (c : M S A) (k : A -> M S B) s a s' :
  c s = Some (a, s') -> bind c k s = k a s'.
Proof. intros H. unfold bind. rewrite H. reflexivity. Qed.

Lemma on_game_run {A} (c : M GameState A) g bm a g' :
  c g = Some (a, g') ->
  on_game c (mkChessAI g bm) = Some (a, mkChessAI g' bm).
Proof. intros H. unfold on_game. cbn [game_state best_moves]. rewrite H. reflexivity. Qed.

Lemma track_best_max MD depth move score best g bm :
  exists bm',
    track_best MD Z.gtb depth move score best (mkChessAI g bm)
    = Some (Z.max best score, mkChessAI g bm').
Proof.
  unfold track_best.
  destruct (score >? best) eqn:E1.
  - assert (Z.max best score = score) as -> by lia.
    destruct (depth =? MD); eexists; reflexivity.
  - destruct (score =? best) eqn:E2.
    + assert (Z.max best score = best) as -> by lia.
      destruct (depth =? MD); eexists; reflexivity.
    + assert (Z.max best score = best) as -> by lia.
      eexists; reflexivity.
Qed.

Lemma steady_refl s : steady s s.
Proof. repeat split. Qed.

Lemma steady_trans s t u : steady s t -> steady t u -> steady s u.
Proof.
  intros (A1 & A2 & A3 & A4 & A5 & A6 & A7 & A8)
         (B1 & B2 & B3 & B4 & B5 & B6 & B7 & B8).
  repeat split; congruence.
Qed.

Lemma ep_ok_fine NV s : ep_ok NV s -> ep_fine NV s.
Proof.
  intros [H|(col & Hcol & H & _)]; [left; exact H|right].
  rewrite H. split; cbn [fst snd]; [destruct (white_to_move s); lia|lia].
Qed.

Lemma Inv_Gen_ok NV s : Inv NV s -> Gen_ok NV s.
Proof.
  intros Hinv. constructor; try apply Hinv.
  - apply (Inv_home_ok _ _ Hinv).
  - apply ep_ok_fine, (inv_ep _ _ Hinv).
Qed.

Lemma made_steady NV m s g :
  steady s g ->
  steady (made NV m s) (made NV m g)
  /\ same_position (made NV m s) (made NV m g).
Proof.
  intros (A1 & A2 & A3 & A4 & A5 & A6 & A7 & A8).
  unfold steady, same_position, made.
  unfold set_valid_moves, set_checks, set_pins, set_in_check.
  cbn [board white_to_move valid_moves move_log white_king_location
       black_king_location checkmate stalemate in_check pins checks
       en_passant_possible current_castling_rights castle_rights_log stdout].
  rewrite A1, A2, A3, A4, A5, A6, A7, A8. repeat split.
Qed.

Section Tree.

Variable NV : Z.
Hypothesis HNV : NV < 0.
Variable s : GameState.
Hypothesis Hinv : Inv NV s.
Hypothesis Hlog : log_ok s.
Variable m : Move.
Hypothesis Hgen : generated NV s m.

(** Going down: the move is made and the moves of the new position are
    generated; the state reached does not depend on what the searches left
    in the fields that [steady] leaves open. *)
Lemma descend g :
  steady s g ->
  make_move NV m g = Some (tt, made NV m g)
  /\ generate_valid_moves NV (made NV m g)
     = generate_valid_moves NV (made NV m s).
Proof.
  intros Hst. pose proof (generated_facts NV HNV s Hinv m Hgen) as Hm.
  pose proof Hst as (A1 & _).
  split.
  - apply make_move_made.
    + rewrite A1. apply (inv_board _ _ Hinv).
    + apply (mf_start _ _ _ Hm).
    + apply (mf_end _ _ _ Hm).
    + rewrite (promotion_flag NV s Hinv m Hm). intros H Hempty.
      rewrite Hempty in H. discriminate.
    + intros Hc.
      destruct (mf_castle _ _ _ Hm Hc) as (_ & _ & _ & _ & [[-> _]|[-> _]]);
        lia.
  - apply generate_same_position.
    + apply (inv_board _ _ (Inv_made NV s m HNV Hinv Hgen)).
    + apply made_steady. exact Hst.
Qed.

(** The position below the move. *)
Lemma child_node nm c :
  generate_valid_moves NV (made NV m s) = Some (nm, c) ->
  Inv NV (made NV m s) /\ log_ok (made NV m s)
  /\ (forall m', In m' (dict_values nm) -> generated NV (made NV m s) m')
  /\ steady (made NV m s) c /\ ep_fine NV c.
Proof.
  intros Hc. pose proof (Inv_made NV s m HNV Hinv Hgen) as Hinv'.
  pose proof (generate_same_core _ _ _ _ Hinv' Hc)
    as (C1 & C2 & C3 & C4 & C5 & C6).
  pose proof (generate_keeps_logs _ _ _ _ Hc) as (L1 & L2 & L3).
  split; [exact Hinv'|]. split.
  { eexists. reflexivity. }
  split.
  { intros m' Hin. apply (Inv_generated _ _ _ _ _ Hinv' Hc Hin). }
  split.
  { repeat split; assumption. }
  unfold ep_fine. rewrite C5. apply ep_ok_fine, (inv_ep _ _ Hinv').
Qed.

Lemma child_runs : runs_at (made NV m s) (generate_valid_moves NV).
Proof.
  apply generate_valid_moves_runs; [exact HNV|].
  apply Inv_Gen_ok, (Inv_made NV s m HNV Hinv Hgen).
Qed.

(** Coming back up. *)
Lemma ascend t :
  steady (made NV m s) t -> ep_fine NV t ->
  exists t', undo_move NV t = Some (tt, t') /\ steady s t' /\ ep_fine NV t'.
Proof.
  intros Hst Hep.
  destruct (undo_move_steady NV HNV s Hinv m
              (generated_facts NV HNV s Hinv m Hgen) t Hlog Hst Hep)
    as (t' & H1 & H2 & H3 & _).
  exists t'. auto.
Qed.

End Tree.

(** One turn of the loop of a search: the move is made, the position below
    is searched by [rec], the best score is kept and the move is undone. *)
Lemma body_step {B} NV MD s g bm m depth best
    (rec : MoveDict -> M ChessAI Z) (K : Z -> M ChessAI B) nm c x c2 bm2 :
  NV < 0 -> Inv NV s -> log_ok s -> generated NV s m -> steady s g ->
  generate_valid_moves NV (made NV m s) = Some (nm, c) ->
  rec nm (mkChessAI c bm) = Some (x, mkChessAI c2 bm2) ->
  steady (made NV m s) c2 -> ep_fine NV c2 ->
  exists t' bm',
    (on_game (make_move NV m) ;;;
     next_moves <- on_game (generate_valid_moves NV) ;;
     r <- rec next_moves ;;
     max_score' <- track_best MD Z.gtb depth m (- r) best ;;
     on_game (undo_move NV) ;;;
     K max_score') (mkChessAI g bm)
    = K (Z.max best (- x)) (mkChessAI t' bm')
    /\ steady s t' /\ ep_fine NV t'.
Proof.
  intros HNV Hinv Hlog Hgen Hst Hc Hrec Hst2 Hep2.
  destruct (descend NV HNV s Hinv m Hgen g Hst) as (Hmake & Hsame).
  rewrite Hc in Hsame.
  rewrite (bind_run _ _ _ _ _ (on_game_run _ _ bm _ _ Hmake)).
  rewrite (bind_run _ _ _ _ _ (on_game_run _ _ bm _ _ Hsame)).
  rewrite (bind_run _ _ _ _ _ Hrec).
  destruct (track_best_max MD depth m (- x) best c2 bm2) as (bm' & Ht).
  rewrite (bind_run _ _ _ _ _ Ht).
  destruct (ascend NV HNV s Hinv Hlog m Hgen c2 Hst2 Hep2)
    as (t' & Hundo & Hst' & Hep').
  rewrite (bind_run _ _ _ _ _ (on_game_run _ _ bm' _ _ Hundo)).
  exists t', bm'. auto.
Qed.

Section Loops.

Variables NV MD : Z.
Hypothesis HNV : NV < 0.
Variable f : nat.
Hypothesis IH : searches_agree NV MD f.
Variable depth : Z.
Hypothesis Hdepth : 0 < depth.
Hypothesis Hfuel : (Z.to_nat depth < S f)%nat.
Variable wtm : bool.
Variable s : GameState.
Hypothesis Hinv : Inv NV s.
Hypothesis Hlog : log_ok s.

(** The loop of [find_move_negamax] returns at least the score it starts
    with, and at most [CHECKMATE]. *)
Lemma negamax_loop_runs rest :
  (forall m, In m rest -> generated NV s m) ->
  forall m1 g1 bm1,
    - CHECKMATE <= m1 <= CHECKMATE -> steady s g1 -> ep_fine NV g1 ->
    exists v g1' bm1',
      for_loop rest
        (fun move max_score =>
           on_game (make_move NV move) ;;;
           next_moves <- on_game (generate_valid_moves NV) ;;
           r <- find_move_negamax NV MD f next_moves (negb wtm) (depth - 1) ;;
           let score := - r in
           max_score' <- track_best MD Z.gtb depth move score max_score ;;
           on_game (undo_move NV) ;;;
           ret (Continue, max_score'))
        m1 (mkChessAI g1 bm1)
      = Some (v, mkChessAI g1' bm1')
      /\ steady s g1' /\ ep_fine NV g1' /\ m1 <= v <= CHECKMATE.
Proof.
  induction rest as [|m rest IHrest]; intros Hall m1 g1 bm1 Hm1 Hst Hep.
  - exists m1, g1, bm1. cbn [for_loop]. unfold ret.
    split; [reflexivity|]. split; [exact Hst|]. split; [exact Hep|lia].
  - assert (Hgen : generated NV s m) by (apply Hall; left; reflexivity).
    destruct (child_runs NV HNV s Hinv m Hgen) as (nm & c & Hc).
    destruct (child_node NV HNV s Hinv m Hgen nm c Hc)
      as (Hinv' & Hlog' & Hall' & Hstc & Hepc).
    destruct (IH (depth - 1) nm (negb wtm) (- CHECKMATE) CHECKMATE
                 (made NV m s) c bm1 [] ltac:(lia) Hinv' Hlog' Hall' Hstc Hepc
                 ltac:(lia) ltac:(unfold CHECKMATE; lia) ltac:(lia))
      as (x & _ & c1 & bmc & _ & _ & Hrec & _ & Hst1 & Hep1 & _ & _ & Hx & _).
    destruct (body_step NV MD s g1 bm1 m depth m1
                (fun nm => find_move_negamax NV MD f nm (negb wtm) (depth - 1))
                (fun max_score' => ret (Continue, max_score'))
                nm c x c1 bmc HNV Hinv Hlog Hgen Hst Hc Hrec Hst1 Hep1)
      as (t' & bm' & Hbody & Hst' & Hep').
    destruct (IHrest (fun m' Hm' => Hall m' (or_intror Hm'))
                (Z.max m1 (- x)) t' bm' ltac:(lia) Hst' Hep')
      as (v & g1' & bm1' & Hloop & Hstv & Hepv & Hv).
    exists v, g1', bm1'. cbn [for_loop].
    rewrite (bind_run _ _ _ _ _ Hbody). cbn [fst snd].
    split; [exact Hloop|]. split; [exact Hstv|]. split; [exact Hepv|lia].
Qed.

Variables alpha beta : Z.
Hypothesis Halpha : - CHECKMATE <= alpha.
Hypothesis Hwindow : alpha < beta.
Hypothesis Hbeta : beta <= CHECKMATE.

(** The two loops side by side.  [m1] and [m2] are the best scores so far
    of the plain and of the pruned search; the pruned search has raised its
    lower bound to [Z.max alpha m2]. *)
Lemma both_loops_run rest :
  (forall m, In m rest -> generated NV s m) ->
  forall m1 m2 g1 bm1 g2 bm2,
    - CHECKMATE <= m1 <= CHECKMATE ->
    (m2 <= alpha /\ m1 <= m2) \/ (alpha < m2 < beta /\ m1 = m2) ->
    steady s g1 -> ep_fine NV g1 -> steady s g2 -> ep_fine NV g2 ->
    exists v r a' g1' bm1' g2' bm2',
      for_loop rest
        (fun move max_score =>
           on_game (make_move NV move) ;;;
           next_moves <- on_game (generate_valid_moves NV) ;;
           r <- find_move_negamax NV MD f next_moves (negb wtm) (depth - 1) ;;
           let score := - r in
           max_score' <- track_best MD Z.gtb depth move score max_score ;;
           on_game (undo_move NV) ;;;
           ret (Continue, max_score'))
        m1 (mkChessAI g1 bm1)
      = Some (v, mkChessAI g1' bm1')
      /\ for_loop rest
           (fun move (acc : Z * Z) =>
              let '(max_score, alpha) := acc in
              on_game (make_move NV move) ;;;
              next_moves <- on_game (generate_valid_moves NV) ;;
              r <- find_move_negamax_alpha_beta NV MD f next_moves
                     (- beta) (- alpha) (negb wtm) (depth - 1) ;;
              let score := - r in
              max_score' <- track_best MD Z.gtb depth move score max_score ;;
              on_game (undo_move NV) ;;;
              let alpha' := if max_score' >? alpha then max_score' else alpha in
              if alpha' >=? beta
              then ret (Break, (max_score', alpha'))
              else ret (Continue, (max_score', alpha')))
           (m2, Z.max alpha m2) (mkChessAI g2 bm2)
         = Some ((r, a'), mkChessAI g2' bm2')
      /\ steady s g1' /\ ep_fine NV g1' /\ steady s g2' /\ ep_fine NV g2'
      /\ - CHECKMATE <= v <= CHECKMATE
      /\ within alpha beta v r.
Proof.
  induction rest as [|m rest IHrest];
    intros Hall m1 m2 g1 bm1 g2 bm2 Hm1 Hm12 Hst1 Hep1 Hst2 Hep2.
  - exists m1, m2, (Z.max alpha m2), g1, bm1, g2, bm2.
    cbn [for_loop]. unfold ret.
    split; [reflexivity|]. split; [reflexivity|].
    split; [exact Hst1|]. split; [exact Hep1|].
    split; [exact Hst2|]. split; [exact Hep2|].
    split; [exact Hm1|]. unfold within. lia.
  - assert (Hgen : generated NV s m) by (apply Hall; left; reflexivity).
    destruct (child_runs NV HNV s Hinv m Hgen) as (nm & c & Hc).
    destruct (child_node NV HNV s Hinv m Hgen nm c Hc)
      as (Hinv' & Hlog' & Hall' & Hstc & Hepc).
    destruct (IH (depth - 1) nm (negb wtm) (- beta) (- Z.max alpha m2)
                 (made NV m s) c bm1 bm2 ltac:(lia) Hinv' Hlog' Hall' Hstc Hepc
                 ltac:(lia) ltac:(lia) ltac:(lia))
      as (x & y & c1 & bmc1 & c2 & bmc2 & Hrec1 & Hrec2 & Hstc1 & Hepc1
          & Hstc2 & Hepc2 & Hx & Hxy).
    destruct (body_step NV MD s g1 bm1 m depth m1
                (fun nm => find_move_negamax NV MD f nm (negb wtm) (depth - 1))
                (fun max_score' => ret (Continue, max_score'))
                nm c x c1 bmc1 HNV Hinv Hlog Hgen Hst1 Hc Hrec1 Hstc1 Hepc1)
      as (t1 & bmt1 & Hbody1 & Hstt1 & Hept1).
    destruct (body_step NV MD s g2 bm2 m depth m2
                (fun nm => find_move_negamax_alpha_beta NV MD f nm
                             (- beta) (- Z.max alpha m2) (negb wtm)
                             (depth - 1))
                (fun max_score' =>
                   let alpha' := if max_score' >? Z.max alpha m2
                                 then max_score' else Z.max alpha m2 in
                   if alpha' >=? beta
                   then ret (Break, (max_score', alpha'))
                   else ret (Continue, (max_score', alpha')))
                nm c y c2 bmc2 HNV Hinv Hlog Hgen Hst2 Hc Hrec2 Hstc2 Hepc2)
      as (t2 & bmt2 & Hbody2 & Hstt2 & Hept2).
    cbv zeta in Hbody2.
    assert (Hnew : (if Z.max m2 (- y) >? Z.max alpha m2
                    then Z.max m2 (- y) else Z.max alpha m2)
                   = Z.max alpha (Z.max m2 (- y))).
    { destruct (Z.max m2 (- y) >? Z.max alpha m2) eqn:E; lia. }
    rewrite Hnew in Hbody2.
    unfold within in Hxy.
    destruct (Z.max alpha (Z.max m2 (- y)) >=? beta) eqn:Ecut.
    + destruct (negamax_loop_runs rest (fun m' Hm' => Hall m' (or_intror Hm'))
                  (Z.max m1 (- x)) t1 bmt1 ltac:(lia) Hstt1 Hept1)
        as (v & g1' & bm1' & Hloop & Hstv & Hepv & Hv).
      exists v, (Z.max m2 (- y)), (Z.max alpha (Z.max m2 (- y))),
        g1', bm1', t2, bmt2.
      cbn [for_loop].
      rewrite (bind_run _ _ _ _ _ Hbody1). cbn [fst snd].
      split; [exact Hloop|].
      split.
      { unfold bind at 1.
        match goal with |- match ?c with _ => _ end = _ =>
          change c with
            ((on_game (make_move NV m) ;;;
              next_moves <- on_game (generate_valid_moves NV) ;;
              r <- find_move_negamax_alpha_beta NV MD f next_moves
                     (- beta) (- Z.max alpha m2) (negb wtm) (depth - 1) ;;
              max_score' <- track_best MD Z.gtb depth m (- r) m2 ;;
              on_game (undo_move NV) ;;;
              (let alpha' := if max_score' >? Z.max alpha m2
                             then max_score' else Z.max alpha m2 in
               if alpha' >=? beta
               then ret (Break, (max_score', alpha'))
               else ret (Continue, (max_score', alpha'))))
               (mkChessAI g2 bm2))
        end.
        cbv zeta. rewrite Hbody2. reflexivity. }
      split; [exact Hstv|]. split; [exact Hepv|].
      split; [exact Hstt2|]. split; [exact Hept2|].
      split; [lia|]. unfold within. lia.
    + destruct (IHrest (fun m' Hm' => Hall m' (or_intror Hm'))
                  (Z.max m1 (- x)) (Z.max m2 (- y)) t1 bmt1 t2 bmt2
                  ltac:(lia) ltac:(lia) Hstt1 Hept1 Hstt2 Hept2)
        as (v & r & a' & g1' & bm1' & g2' & bm2' & Hloop1 & Hloop2 & Hrest).
      exists v, r, a', g1', bm1', g2', bm2'.
      cbn [for_loop].
      rewrite (bind_run _ _ _ _ _ Hbody1). cbn [fst snd].
      split; [exact Hloop1|].
      split; [|exact Hrest].
      unfold bind at 1.
      match goal with |- match ?c with _ => _ end = _ =>
        change c with
          ((on_game (make_move NV m) ;;;
            next_moves <- on_game (generate_valid_moves NV) ;;
            r <- find_move_negamax_alpha_beta NV MD f next_moves
                   (- beta) (- Z.max alpha m2) (negb wtm) (depth - 1) ;;
            max_score' <- track_best MD Z.gtb depth m (- r) m2 ;;
            on_game (undo_move NV) ;;;
            (let alpha' := if max_score' >? Z.max alpha m2
                           then max_score' else Z.max alpha m2 in
             if alpha' >=? beta
             then ret (Break, (max_score', alpha'))
             else ret (Continue, (max_score', alpha'))))
             (mkChessAI g2 bm2))
      end.
      cbv zeta. rewrite Hbody2. exact Hloop2.
Qed.

End Loops.

Theorem searches_agree_all NV MD fuel : NV < 0 -> searches_agree NV MD fuel.
Proof.
  intros HNV. induction fuel as [|f IH];
    intros depth valid_moves wtm alpha beta s g bm1 bm2 Hfuel Hinv Hlog Hall
           Hst Hep Halpha Hwindow Hbeta; [lia|].
  cbn [find_move_negamax find_move_negamax_alpha_beta].
  destruct (depth <=? 0) eqn:Eleaf.
  - assert (Hb : board_8x8 (board g)).
    { destruct Hst as (-> & _). apply (inv_board _ _ Hinv). }
    destruct (score_board_bound g Hb) as (sc & Hsc & Hbound).
    assert (Hscore : forall bm,
              ai_score_board (mkChessAI g bm) = Some (sc, mkChessAI g bm)).
    { intros bm. unfold ai_score_board, bind, gets, lift.
      cbn [game_state]. rewrite Hsc. reflexivity. }
    exists ((if wtm then 1 else -1) * sc), ((if wtm then 1 else -1) * sc),
      g, bm1, g, bm2.
    cbv zeta. rewrite !(bind_run _ _ _ _ _ (Hscore _)). unfold ret.
    split; [reflexivity|]. split; [reflexivity|].
    split; [exact Hst|]. split; [exact Hep|].
    split; [exact Hst|]. split; [exact Hep|].
    split; [destruct wtm; lia|]. unfold within. lia.
  - assert (Hdepth : 0 < depth) by lia.
    destruct (both_loops_run NV MD HNV f IH depth Hdepth Hfuel wtm s Hinv Hlog
                alpha beta Halpha Hwindow Hbeta (dict_values valid_moves) Hall
                (- CHECKMATE) (- CHECKMATE) g bm1 g bm2
                ltac:(unfold CHECKMATE; lia) ltac:(lia) Hst Hep Hst Hep)
      as (v & r & a' & g1' & bm1' & g2' & bm2' & Hloop1 & Hloop2 & Hrest).
    rewrite Z.max_l in Hloop2 by lia.
    exists v, r, g1', bm1', g2', bm2'.
    split; [exact Hloop1|].
    split; [|exact Hrest].
    rewrite (bind_run _ _ _ _ _ Hloop2). reflexivity.
Qed.

Lemma reachable_log_ok NV s : NV < 0 -> reachable NV s -> log_ok s.
Proof.
  intros HNV Hr. destruct Hr as [|s moves s1 m s2 Hr Hgen Hin Hmake].
  - exists []. reflexivity.
  - destruct (game_step NV s moves s1 m s2 HNV (reachable_Inv NV s HNV Hr)
                Hgen Hin Hmake) as (-> & _).
    eexists. reflexivity.
Qed.

(** C7: on every state of a game and for every search depth, the search
    with alpha-beta pruning, started as [find_move] starts it with the
    window from [- CHECKMATE] to [CHECKMATE] on the moves generated for the
    state, returns, and so does the plain negamax search; the two return
    the same value.  The recursion bound [fuel] only has to exceed the
    depth; [NO_VALUE] is negative, as a value that is no index of the board
    has to be. *)
Theorem alpha_beta_root_value_is_negamax (NO_VALUE MAX_DEPTH : Z)
    (p p' : GameState) (moves : MoveDict) (wtm : bool) (depth : Z)
    (fuel : nat) (bm1 bm2 : list Move) :
  NO_VALUE < 0 -> reachable NO_VALUE p ->
  generate_valid_moves NO_VALUE p = Some (moves, p') ->
  (Z.to_nat depth < fuel)%nat ->
  exists v a1 a2,
    find_move_negamax NO_VALUE MAX_DEPTH fuel moves wtm depth
      (mkChessAI p' bm1) = Some (v, a1)
    /\ find_move_negamax_alpha_beta NO_VALUE MAX_DEPTH fuel moves
         (- CHECKMATE) CHECKMATE wtm depth (mkChessAI p' bm2)
       = Some (v, a2).
Proof.
  intros HNV Hr Hgen Hfuel.
  pose proof (reachable_Inv NO_VALUE p HNV Hr) as Hinv.
  pose proof (generate_same_core _ _ _ _ Hinv Hgen)
    as (C1 & C2 & C3 & C4 & C5 & C6).
  pose proof (generate_keeps_logs _ _ _ _ Hgen) as (L1 & L2 & L3).
  assert (Hst : steady p p') by (repeat split; assumption).
  assert (Hep : ep_fine NO_VALUE p').
  { unfold ep_fine. rewrite C5. apply ep_ok_fine, (inv_ep _ _ Hinv). }
  destruct (searches_agree_all NO_VALUE MAX_DEPTH fuel HNV depth moves wtm
              (- CHECKMATE) CHECKMATE p p' bm1 bm2 Hfuel Hinv
              (reachable_log_ok NO_VALUE p HNV Hr)
              (fun m Hin => Inv_generated _ _ _ _ _ Hinv Hgen Hin) Hst Hep
              ltac:(lia) ltac:(unfold CHECKMATE; lia) ltac:(lia))
    as (v & r & g1 & bm1' & g2 & bm2' & H1 & H2 & _ & _ & _ & _ & Hv & Hw).
  assert (r = v) as -> by (unfold within in Hw; lia).
  exists v, (mkChessAI g1 bm1'), (mkChessAI g2 bm2'). split; assumption.
Qed.

Lemma alpha_beta_root_value_is_negamax_witness :
  exists moves p' v a1 a2,
    generate_valid_moves NO_SQUARE (GameState_init NO_SQUARE)
    = Some (moves, p')
    /\ find_move_negamax NO_SQUARE 2 3 moves true 2 (mkChessAI p' [])
       = Some (v, a1)
    /\ find_move_negamax_alpha_beta NO_SQUARE 2 3 moves
         (- CHECKMATE) CHECKMATE true 2 (mkChessAI p' [])
       = Some (v, a2).
Proof.
  destruct (generate_valid_moves NO_SQUARE (GameState_init NO_SQUARE))
    as [[moves p']|] eqn:E; [|vm_compute in E; discriminate].
  destruct (alpha_beta_root_value_is_negamax NO_SQUARE 2
              (GameState_init NO_SQUARE) p' moves true 2 3%nat [] [])
    as (v & a1 & a2 & H1 & H2).
  - reflexivity.
  - apply reach_init.
  - exact E.
  - vm_compute. lia.
  - exists moves, p', v, a1, a2. split; [reflexivity|]. split; assumption.
Defined.
(** * Further properties of the engine *)

(** ** The states of a game *)

(** X1: in every state of a game the board has eight rows of eight squares
    and both recorded king locations name squares of the board, so that no
    index into the board wraps around or runs out of range. *)
Theorem reachable_board_shape (NO_VALUE : Z) (s : GameState) :
  NO_VALUE < 0 -> reachable NO_VALUE s ->
  List.length (board s) = 8%nat
  /\ Forall (fun row => List.length row = 8%nat) (board s)
  /\ on_board (fst (white_king_location s)) (snd (white_king_location s))
  /\ on_board (fst (black_king_location s)) (snd (black_king_location s)).
Proof.
  intros HNV Hr. pose proof (reachable_Inv NO_VALUE s HNV Hr) as Hinv.
  destruct (inv_board _ _ Hinv) as [H1 H2].
  split; [exact H1|]. split; [exact H2|].
  split; [apply (inv_white_king _ _ Hinv)|apply (inv_black_king _ _ Hinv)].
Qed.

Lemma reachable_board_shape_witness :
  List.length (board state_e4) = 8%nat
  /\ Forall (fun row => List.length row = 8%nat) (board state_e4)
  /\ on_board (fst (white_king_location state_e4))
              (snd (white_king_location state_e4))
  /\ on_board (fst (black_king_location state_e4))
              (snd (black_king_location state_e4)).
Proof.
  apply (reachable_board_shape NO_SQUARE state_e4).
  - reflexivity.
  - exact state_e4_reachable.
Defined.

(** X2: in every state of a game a king that stands on the board stands on
    the square recorded for its colour; the board never holds two kings of
    one colour. *)
Theorem reachable_one_king (NO_VALUE : Z) (s : GameState) (x y : Z * Z)
    (c : color) :
  NO_VALUE < 0 -> reachable NO_VALUE s ->
  sq_on_board x -> piece_at (board s) x = Piece c King ->
  sq_on_board y -> piece_at (board s) y = Piece c King ->
  x = y
  /\ x = match c with
         | White => white_king_location s
         | Black => black_king_location s
         end.
Proof.
  intros HNV Hr Hx Hpx Hy Hpy.
  pose proof (reachable_Inv NO_VALUE s HNV Hr) as Hinv.
  pose proof (inv_board _ _ Hinv) as Hb.
  assert (Hkx : king_location c s = x).
  { apply (inv_kings _ _ Hinv). apply (king_at_piece _ _ _ Hb). auto. }
  assert (Hky : king_location c s = y).
  { apply (inv_kings _ _ Hinv). apply (king_at_piece _ _ _ Hb). auto. }
  split; [congruence|]. rewrite <- Hkx. destruct c; reflexivity.
Qed.

Lemma reachable_one_king_witness :
  (7, 4) = (7, 4) /\ (7, 4) = white_king_location state_e4.
Proof.
  apply (reachable_one_king NO_SQUARE state_e4 (7, 4) (7, 4) White).
  - reflexivity.
  - exact state_e4_reachable.
  - vm_compute. intuition discriminate.
  - reflexivity.
  - vm_compute. intuition discriminate.
  - reflexivity.
Defined.

(** X3: in every state of a game no pawn stands on the rank it promotes
    on: a pawn that reaches it has been replaced by [make_move]. *)
Theorem reachable_no_pawn_on_last_rank (NO_VALUE : Z) (s : GameState)
    (col : Z) :
  NO_VALUE < 0 -> reachable NO_VALUE s -> 0 <= col < 8 ->
  piece_at (board s) (0, col) <> Piece White Pawn
  /\ piece_at (board s) (7, col) <> Piece Black Pawn.
Proof.
  intros HNV Hr Hcol. pose proof (reachable_Inv NO_VALUE s HNV Hr) as Hinv.
  split; intros H.
  - destruct (inv_pawns _ _ Hinv 0 col) as [Hw _]; [split; lia|].
    specialize (Hw H). lia.
  - destruct (inv_pawns _ _ Hinv 7 col) as [_ Hbl]; [split; lia|].
    specialize (Hbl H). lia.
Qed.

Lemma reachable_no_pawn_on_last_rank_witness :
  piece_at (board state_e4) (0, 3) <> Piece White Pawn
  /\ piece_at (board state_e4) (7, 3) <> Piece Black Pawn.
Proof.
  apply (reachable_no_pawn_on_last_rank NO_SQUARE state_e4 3).
  - reflexivity.
  - exact state_e4_reachable.
  - lia.
Defined.

(** X4: in every state of a game a castling right that is still held has
    the king of that side recorded and standing on its home square and the
    rook standing in its corner. *)
Theorem reachable_castling_rights_home (NO_VALUE : Z) (s : GameState) :
  NO_VALUE < 0 -> reachable NO_VALUE s ->
  (wks (current_castling_rights s) = true ->
   white_king_location s = (7, 4)
   /\ piece_at (board s) (7, 4) = Piece White King
   /\ piece_at (board s) (7, 7) = Piece White Rook)
  /\ (wqs (current_castling_rights s) = true ->
      white_king_location s = (7, 4)
      /\ piece_at (board s) (7, 4) = Piece White King
      /\ piece_at (board s) (7, 0) = Piece White Rook)
  /\ (bks (current_castling_rights s) = true ->
      black_king_location s = (0, 4)
      /\ piece_at (board s) (0, 4) = Piece Black King
      /\ piece_at (board s) (0, 7) = Piece Black Rook)
  /\ (bqs (current_castling_rights s) = true ->
      black_king_location s = (0, 4)
      /\ piece_at (board s) (0, 4) = Piece Black King
      /\ piece_at (board s) (0, 0) = Piece Black Rook).
Proof.
  intros HNV Hr. pose proof (reachable_Inv NO_VALUE s HNV Hr) as Hinv.
  destruct (inv_rooks _ _ Hinv) as (R1 & R2 & R3 & R4).
  pose proof (inv_home _ _ Hinv White) as HW.
  pose proof (inv_home _ _ Hinv Black) as HB.
  cbn [rights_of king_location home] in HW, HB.
  repeat split; try (apply HW; rewrite H; rewrite ?orb_true_r; reflexivity);
    try (apply HB; rewrite H; rewrite ?orb_true_r; reflexivity); auto.
Qed.

Lemma reachable_castling_rights_home_witness :
  white_king_location state_e4 = (7, 4)
  /\ piece_at (board state_e4) (7, 4) = Piece White King
  /\ piece_at (board state_e4) (7, 7) = Piece White Rook.
Proof.
  apply (reachable_castling_rights_home NO_SQUARE state_e4).
  - reflexivity.
  - exact state_e4_reachable.
  - reflexivity.
Defined.

(** X5: in every state of a game the en-passant target is unset, or it is
    an empty square of the third rank of the side that has just moved, with
    a pawn of that side standing right in front of it. *)
Theorem reachable_en_passant_target (NO_VALUE : Z) (s : GameState) :
  NO_VALUE < 0 -> reachable NO_VALUE s ->
  en_passant_possible s = (NO_VALUE, NO_VALUE)
  \/ exists col,
       0 <= col < 8
       /\ en_passant_possible s = ((if white_to_move s then 2 else 5), col)
       /\ piece_at (board s) ((if white_to_move s then 2 else 5), col) = Empty
       /\ piece_at (board s) ((if white_to_move s then 3 else 4), col)
          = Piece (if white_to_move s then Black else White) Pawn.
Proof.
  intros HNV Hr. pose proof (reachable_Inv NO_VALUE s HNV Hr) as Hinv.
  destruct (inv_ep _ _ Hinv) as [H|(col & H1 & H2 & H3 & H4)].
  - left. exact H.
  - right. exists col. repeat split; try assumption; try lia.
Qed.

Lemma reachable_en_passant_target_witness :
  en_passant_possible state_e4 = (NO_SQUARE, NO_SQUARE)
  \/ exists col,
       0 <= col < 8
       /\ en_passant_possible state_e4
          = ((if white_to_move state_e4 then 2 else 5), col)
       /\ piece_at (board state_e4)
            ((if white_to_move state_e4 then 2 else 5), col) = Empty
       /\ piece_at (board state_e4)
            ((if white_to_move state_e4 then 3 else 4), col)
          = Piece (if white_to_move state_e4 then Black else White) Pawn.
Proof.
  apply (reachable_en_passant_target NO_SQUARE state_e4).
  - reflexivity.
  - exact state_e4_reachable.
Defined.

(** ** The generator and the two moves of the game *)

(** X6: on every state of a game [generate_valid_moves] returns: none of
    its reads of the board, of the pin list or of the king locations runs
    out of range. *)
Theorem generate_valid_moves_returns (NO_VALUE : Z) (s : GameState) :
  NO_VALUE < 0 -> reachable NO_VALUE s ->
  exists moves s', generate_valid_moves NO_VALUE s = Some (moves, s').
Proof.
  intros HNV Hr.
  apply (generate_valid_moves_runs NO_VALUE s HNV).
  apply Inv_Gen_ok, reachable_Inv; assumption.
Qed.

Lemma generate_valid_moves_returns_witness :
  exists moves s',
    generate_valid_moves NO_SQUARE state_en_passant = Some (moves, s').
Proof.
  apply (generate_valid_moves_returns NO_SQUARE state_en_passant).
  - reflexivity.
  - exact state_en_passant_reachable.
Defined.

(** X7: every move that [generate_valid_moves] returns on a state of a game
    goes between two different squares of the board, records the pieces of
    its two squares as they stand on the board (the captured pawn for an
    en-passant capture apart), never lands on a piece of the side to move,
    and takes up a piece of the side to move or whatever stands on the
    recorded square of its king. *)
Theorem generated_move_well_formed (NO_VALUE : Z) (s s' : GameState)
    (moves : MoveDict) (m : Move) :
  NO_VALUE < 0 -> reachable NO_VALUE s ->
  generate_valid_moves NO_VALUE s = Some (moves, s') ->
  In m (dict_values moves) ->
  on_board (start_row m) (start_col m)
  /\ on_board (end_row m) (end_col m)
  /\ (start_row m, start_col m) <> (end_row m, end_col m)
  /\ piece_moved m = piece_at (board s) (start_row m, start_col m)
  /\ (is_en_passant m = false ->
      piece_captured m = piece_at (board s) (end_row m, end_col m))
  /\ has_color (piece_at (board s) (end_row m, end_col m))
       (if white_to_move s then White else Black) = false
  /\ (has_color (piece_moved m) (if white_to_move s then White else Black)
      = true
      \/ (start_row m, start_col m)
         = (if white_to_move s then white_king_location s
            else black_king_location s))
  /\ move_id m
     = start_row m * 1000 + start_col m * 100 + end_row m * 10 + end_col m.
Proof.
  intros HNV Hr Hgen Hin.
  pose proof (reachable_Inv NO_VALUE s HNV Hr) as Hinv.
  pose proof (generated_facts NO_VALUE HNV s Hinv m
                (Inv_generated _ _ _ _ _ Hinv Hgen Hin)) as Hm.
  split; [apply (mf_start _ _ _ Hm)|].
  split; [apply (mf_end _ _ _ Hm)|].
  split; [apply (mf_distinct _ _ _ Hm)|].
  split; [apply (piece_moved_start NO_VALUE s Hinv m Hm)|].
  split; [apply (captured_piece NO_VALUE s Hinv m Hm)|].
  split; [apply (mf_target _ _ _ Hm)|].
  split.
  - rewrite (piece_moved_start NO_VALUE s Hinv m Hm).
    apply (mf_mover _ _ _ Hm).
  - rewrite (move_explicit NO_VALUE s Hinv m Hm) at 1. reflexivity.
Qed.

Lemma generated_move_well_formed_witness :
  exists moves s' m,
    generate_valid_moves NO_SQUARE state_en_passant = Some (moves, s')
    /\ dict_get moves 3423 = Some m
    /\ on_board (start_row m) (start_col m)
    /\ on_board (end_row m) (end_col m)
    /\ is_en_passant m = true.
Proof.
  destruct (generate_valid_moves NO_SQUARE state_en_passant)
    as [[moves s']|] eqn:E; [|vm_compute in E; discriminate].
  destruct (dict_get moves 3423) as [m|] eqn:Em;
    [|vm_compute in E; injection E as <- _; vm_compute in Em; discriminate].
  exists moves, s', m. split; [reflexivity|]. split; [exact Em|].
  destruct (generated_move_well_formed NO_SQUARE state_en_passant s' moves m)
    as (H1 & H2 & _).
  - reflexivity.
  - exact state_en_passant_reachable.
  - exact E.
  - exact (dict_get_in _ _ _ Em).
  - split; [exact H1|]. split; [exact H2|].
    vm_compute in E. injection E as <- _. vm_compute in Em.
    injection Em as <-. reflexivity.
Defined.

Lemma generate_steady NV s moves s' :
  Inv NV s -> generate_valid_moves NV s = Some (moves, s') -> steady s s'.
Proof.
  intros Hinv Hgen.
  pose proof (generate_same_core _ _ _ _ Hinv Hgen)
    as (C1 & C2 & C3 & C4 & C5 & C6).
  pose proof (generate_keeps_logs _ _ _ _ Hgen) as (L1 & L2 & L3).
  repeat split; assumption.
Qed.

(** X8: a move that [generate_valid_moves] has returned on a state of a
    game is made without an error.  [make_move] passes the turn, appends
    the move and the new castling rights to their logs, clears the
    game-over flags, empties the start square and puts the moved piece on
    the end square (a queen of its colour for a pawn that promotes); it
    removes the pawn taken en passant, moves the rook of a castling move
    from its corner to the square the king has passed, and leaves every
    other square as it was. *)
Theorem make_move_generated_effect (NO_VALUE : Z) (s s' : GameState)
    (moves : MoveDict) (m : Move) :
  NO_VALUE < 0 -> reachable NO_VALUE s ->
  generate_valid_moves NO_VALUE s = Some (moves, s') ->
  In m (dict_values moves) ->
  exists s2,
    make_move NO_VALUE m s' = Some (tt, s2)
    /\ white_to_move s2 = negb (white_to_move s')
    /\ move_log s2 = move_log s' ++ [m]
    /\ castle_rights_log s2
       = castle_rights_log s' ++ [current_castling_rights s2]
    /\ checkmate s2 = false /\ stalemate s2 = false
    /\ piece_at (board s2) (start_row m, start_col m) = Empty
    /\ (is_pawn_promotion m = false ->
        piece_at (board s2) (end_row m, end_col m) = piece_moved m)
    /\ (is_pawn_promotion m = true ->
        exists c, piece_moved m = Piece c Pawn
                  /\ piece_at (board s2) (end_row m, end_col m)
                     = Piece c Queen)
    /\ (is_en_passant m = true ->
        piece_at (board s2) (start_row m, end_col m) = Empty)
    /\ (is_castle m = true ->
        piece_at (board s2) (end_row m, if end_col m =? 6 then 7 else 0)
        = Empty
        /\ piece_at (board s2) (end_row m, if end_col m =? 6 then 5 else 3)
           = Piece (if white_to_move s' then White else Black) Rook)
    /\ (forall x,
          sq_on_board x ->
          x <> (start_row m, start_col m) -> x <> (end_row m, end_col m) ->
          (is_en_passant m = true -> x <> (start_row m, end_col m)) ->
          (is_castle m = true ->
           x <> (end_row m, if end_col m =? 6 then 7 else 0)
           /\ x <> (end_row m, if end_col m =? 6 then 5 else 3)) ->
          piece_at (board s2) x = piece_at (board s') x).
Proof.
  intros HNV Hr Hgen Hin.
  pose proof (reachable_Inv NO_VALUE s HNV Hr) as Hinv.
  pose proof (Inv_generated _ _ _ _ _ Hinv Hgen Hin) as Hg.
  pose proof (generated_facts NO_VALUE HNV s Hinv m Hg) as Hm.
  pose proof (generate_steady _ _ _ _ Hinv Hgen) as Hst.
  destruct (descend NO_VALUE HNV s Hinv m Hg s' Hst) as (Hmake & _).
  pose proof Hst as (Hboard & Hwtm & _).
  exists (made NO_VALUE m s'). split; [exact Hmake|].
  assert (Hat : forall x, sq_on_board x ->
            piece_at (board (made NO_VALUE m s')) x
            = after_move m (board s) x).
  { intros x Hx. rewrite <- (made_piece NO_VALUE s Hinv m Hm x Hx).
    unfold made. cbn [board]. rewrite Hboard. reflexivity. }
  pose proof (mf_start _ _ _ Hm) as Hstart.
  pose proof (mf_end _ _ _ Hm) as Hend.
  pose proof (mf_distinct _ _ _ Hm) as Hdist.
  assert (Hepsq : is_en_passant m = true ->
            is_castle m = false
            /\ (start_row m, end_col m) <> move_end m
            /\ (start_row m, end_col m) <> move_start m).
  { intros He.
    destruct (mf_en_passant _ _ _ Hm He) as (_ & Hsr & Her & Hlr & _).
    split.
    - destruct (is_castle m) eqn:Hc; [|reflexivity].
      destruct (castle_end_col NO_VALUE s Hinv m Hm Hc) as (_ & _ & _ & H & _).
      congruence.
    - unfold move_end, move_start. split; intros H; injection H as H.
      + rewrite Hsr, Her in H. destruct (white_to_move s); lia.
      + lia. }
  assert (Hcsq : is_castle m = true ->
            is_en_passant m = false /\ is_pawn_promotion m = false
            /\ pair_eqb (move_start m) (rook_from m) = false
            /\ pair_eqb (move_start m) (rook_to m) = false
            /\ pair_eqb (move_end m) (rook_from m) = false
            /\ pair_eqb (move_end m) (rook_to m) = false
            /\ sq_on_board (rook_from m) /\ sq_on_board (rook_to m)
            /\ rook_from m <> rook_to m).
  { intros Hc.
    destruct (castle_end_col NO_VALUE s Hinv m Hm Hc)
      as (Hsc & Hec & Hrow & Hep & Hpr).
    assert (Hrr : 0 <= end_row m < 8) by apply Hend.
    split; [exact Hep|]. split; [exact Hpr|].
    unfold move_start, move_end, rook_from, rook_to. rewrite Hsc.
    destruct Hec as [-> | ->]; cbn [Z.eqb Pos.eqb];
      repeat split; try (apply pair_eqb_neq; intros H; injection H as H; lia);
      cbn [fst snd]; try lia; intros H; injection H as H; lia. }
  split; [reflexivity|]. split; [reflexivity|]. split; [reflexivity|].
  split; [reflexivity|]. split; [reflexivity|].
  split.
  { change (start_row m, start_col m) with (move_start m).
    rewrite (Hat _ Hstart). unfold after_move.
    destruct (is_castle m) eqn:Hc.
    - destruct (Hcsq eq_refl) as (He & _ & H1 & H2 & _). rewrite H1, H2, He.
      cbn [andb]. rewrite (pair_eqb_neq _ _ Hdist), pair_eqb_refl.
      reflexivity.
    - cbn [andb]. destruct (is_en_passant m) eqn:He.
      + destruct (Hepsq eq_refl) as (_ & _ & H).
        rewrite (pair_eqb_neq _ _ (not_eq_sym H)). cbn [andb].
        rewrite (pair_eqb_neq _ _ Hdist), pair_eqb_refl. reflexivity.
      + cbn [andb]. rewrite (pair_eqb_neq _ _ Hdist), pair_eqb_refl.
        reflexivity. }
  assert (Hland : piece_at (board (made NO_VALUE m s')) (end_row m, end_col m)
                  = landed m).
  { change (end_row m, end_col m) with (move_end m).
    rewrite (Hat _ Hend). unfold after_move.
    destruct (is_castle m) eqn:Hc.
    - destruct (Hcsq eq_refl) as (He & _ & _ & _ & H1 & H2 & _).
      rewrite H1, H2, He. cbn [andb]. rewrite pair_eqb_refl. reflexivity.
    - cbn [andb]. destruct (is_en_passant m) eqn:He.
      + destruct (Hepsq eq_refl) as (_ & H & _).
        rewrite (pair_eqb_neq _ _ (not_eq_sym H)). cbn [andb].
        rewrite pair_eqb_refl. reflexivity.
      + cbn [andb]. rewrite pair_eqb_refl. reflexivity. }
  split.
  { intros Hp. rewrite Hland. unfold landed. rewrite Hp. reflexivity. }
  split.
  { intros Hp. rewrite Hland. unfold landed. rewrite Hp.
    pose proof (promotion_flag NO_VALUE s Hinv m Hm) as Hflag.
    rewrite Hp in Hflag. symmetry in Hflag.
    apply orb_true_iff in Hflag as [H|H]; apply andb_true_iff in H as [H _];
      apply piece_eqb_eq in H; rewrite H; eexists; split; reflexivity. }
  split.
  { intros He. destruct (Hepsq He) as (Hc & _ & _).
    assert (Hon : sq_on_board (start_row m, end_col m))
      by (split; [apply Hstart|apply Hend]).
    rewrite (Hat _ Hon). unfold after_move. rewrite Hc, He. cbn [andb].
    rewrite pair_eqb_refl. reflexivity. }
  split.
  { intros Hc.
    destruct (Hcsq Hc) as (_ & _ & _ & _ & _ & _ & Hrf & Hrt & Hne).
    change (end_row m, if end_col m =? 6 then 7 else 0) with (rook_from m).
    change (end_row m, if end_col m =? 6 then 5 else 3) with (rook_to m).
    rewrite (Hat _ Hrf), (Hat _ Hrt). unfold after_move. rewrite Hc.
    cbn [andb]. rewrite pair_eqb_refl.
    rewrite (pair_eqb_neq _ _ (not_eq_sym Hne)), pair_eqb_refl.
    split; [reflexivity|].
    destruct (castle_rook NO_VALUE s Hinv m Hm Hc) as (Hr' & _).
    rewrite Hr', <- Hwtm. destruct (white_to_move s'); reflexivity. }
  intros x Hx Hxs Hxe Hxp Hxc. rewrite (Hat _ Hx), Hboard.
  unfold after_move.
  rewrite (pair_eqb_neq x (move_end m) Hxe).
  rewrite (pair_eqb_neq x (move_start m) Hxs).
  destruct (is_castle m) eqn:Hc.
  - destruct (Hxc eq_refl) as [H1 H2].
    rewrite (pair_eqb_neq x (rook_from m) H1).
    rewrite (pair_eqb_neq x (rook_to m) H2).
    destruct (Hcsq eq_refl) as (He & _). rewrite He. reflexivity.
  - cbn [andb]. destruct (is_en_passant m) eqn:He; [|reflexivity].
    rewrite (pair_eqb_neq _ _ (Hxp eq_refl)). reflexivity.
Qed.

Lemma make_move_generated_effect_witness :
  exists moves s' m s2,
    generate_valid_moves NO_SQUARE state_en_passant = Some (moves, s')
    /\ dict_get moves 3423 = Some m
    /\ make_move NO_SQUARE m s' = Some (tt, s2)
    /\ white_to_move s2 = negb (white_to_move s')
    /\ move_log s2 = move_log s' ++ [m].
Proof.
  destruct (generate_valid_moves NO_SQUARE state_en_passant)
    as [[moves s']|] eqn:E; [|vm_compute in E; discriminate].
  destruct (dict_get moves 3423) as [m|] eqn:Em;
    [|vm_compute in E; injection E as <- _; vm_compute in Em; discriminate].
  destruct (make_move_generated_effect NO_SQUARE state_en_passant s' moves m)
    as (s2 & H1 & H2 & H3 & _).
  - reflexivity.
  - exact state_en_passant_reachable.
  - exact E.
  - exact (dict_get_in _ _ _ Em).
  - exists moves, s', m, s2. auto.
Defined.

(** X9: on a state of a game, making a move that [generate_valid_moves]
    has returned and undoing it at once succeeds and restores the board,
    the side to move, both king locations, the castling rights, the move
    log and the log of castling rights; the game-over flags come back
    cleared. *)
Theorem make_undo_restores_position (NO_VALUE : Z) (s s' : GameState)
    (moves : MoveDict) (m : Move) :
  NO_VALUE < 0 -> reachable NO_VALUE s ->
  generate_valid_moves NO_VALUE s = Some (moves, s') ->
  In m (dict_values moves) ->
  exists s2 s3,
    make_move NO_VALUE m s' = Some (tt, s2)
    /\ undo_move NO_VALUE s2 = Some (tt, s3)
    /\ board s3 = board s'
    /\ white_to_move s3 = white_to_move s'
    /\ white_king_location s3 = white_king_location s'
    /\ black_king_location s3 = black_king_location s'
    /\ current_castling_rights s3 = current_castling_rights s'
    /\ move_log s3 = move_log s'
    /\ castle_rights_log s3 = castle_rights_log s'
    /\ checkmate s3 = false /\ stalemate s3 = false.
Proof.
  intros HNV Hr Hgen Hin.
  pose proof (reachable_Inv NO_VALUE s HNV Hr) as Hinv.
  pose proof (Inv_generated _ _ _ _ _ Hinv Hgen Hin) as Hg.
  pose proof (generated_facts NO_VALUE HNV s Hinv m Hg) as Hm.
  pose proof (generate_steady _ _ _ _ Hinv Hgen) as Hst.
  destruct (descend NO_VALUE HNV s Hinv m Hg s' Hst) as (Hmake & _).
  destruct (made_steady NO_VALUE m s s' Hst) as (Hst2 & _).
  assert (Hep : ep_fine NO_VALUE (made NO_VALUE m s')).
  { apply ep_ok_fine.
    apply (inv_ep _ _ (Inv_same_core _ _ _
             (made_same_core NO_VALUE m s s'
                (generate_same_core _ _ _ _ Hinv Hgen))
             (Inv_made NO_VALUE s m HNV Hinv Hg))). }
  destruct (undo_move_steady NO_VALUE HNV s Hinv m Hm (made NO_VALUE m s')
              (reachable_log_ok NO_VALUE s HNV Hr) Hst2 Hep)
    as (s3 & Hundo & (A1 & A2 & A3 & A4 & A5 & A6 & A7 & _) & _ & Hc & Hs).
  destruct Hst as (B1 & B2 & B3 & B4 & B5 & B6 & B7 & _).
  exists (made NO_VALUE m s'), s3.
  split; [exact Hmake|]. split; [exact Hundo|].
  repeat split; congruence.
Qed.

Lemma make_undo_restores_position_witness :
  exists moves s' m s2 s3,
    generate_valid_moves NO_SQUARE state_en_passant = Some (moves, s')
    /\ dict_get moves 3423 = Some m
    /\ make_move NO_SQUARE m s' = Some (tt, s2)
    /\ undo_move NO_SQUARE s2 = Some (tt, s3)
    /\ board s3 = board s'.
Proof.
  destruct (generate_valid_moves NO_SQUARE state_en_passant)
    as [[moves s']|] eqn:E; [|vm_compute in E; discriminate].
  destruct (dict_get moves 3423) as [m|] eqn:Em;
    [|vm_compute in E; injection E as <- _; vm_compute in Em; discriminate].
  destruct (make_undo_restores_position NO_SQUARE state_en_passant s' moves m)
    as (s2 & s3 & H1 & H2 & H3 & _).
  - reflexivity.
  - exact state_en_passant_reachable.
  - exact E.
  - exact (dict_get_in _ _ _ Em).
  - exists moves, s', m, s2, s3. auto.
Defined.
(** ** Castling rights *)

Lemma update_right_back c ks m cr :
  right_of c ks cr = true ->
  piece_moved m <> Piece c King ->
  ~ (piece_moved m = Piece c Rook /\ move_start m = corner c ks) ->
  ~ (piece_captured m = Piece c Rook /\ move_end m = corner c ks) ->
  right_of c ks (update_castle_rights_pure m cr) = true.
Proof.
  unfold update_castle_rights_pure, corner_update, move_start, move_end, corner.
  destruct cr as [a1 a2 a3 a4].
  destruct (piece_moved m) as [|[] []], (piece_captured m) as [|[] []];
    cbn [piece_eqb color_eqb kind_eqb andb];
    destruct c, ks; cbn [right_of home fst snd];
    repeat match goal with
           | |- context [?x =? ?y] =>
               let E := fresh "E" in
               destruct (Z.eqb_spec x y) as [E|E]
           end;
    cbn; intros H H1 H2 H3; try assumption; try congruence; exfalso;
    try (apply H2; split; [reflexivity|congruence]);
    try (apply H3; split; [reflexivity|congruence]).
Qed.

(** X10: [__update_castle_rights] returns, changes nothing but the castling
    rights, and never grants a right: a right is held after the move exactly
    when it was held before and the move neither moves the king of that
    side, nor moves a rook of that side from the corner of the right, nor
    captures a rook of that side on that corner. *)
Theorem update_castle_rights_only_clears (m : Move) (s : GameState) :
  exists cr,
    update_castle_rights m s = Some (tt, set_current_castling_rights cr s)
    /\ forall c ks,
         right_of c ks cr = true <->
         (right_of c ks (current_castling_rights s) = true
          /\ piece_moved m <> Piece c King
          /\ ~ (piece_moved m = Piece c Rook
                /\ (start_row m, start_col m) = corner c ks)
          /\ ~ (piece_captured m = Piece c Rook
                /\ (end_row m, end_col m) = corner c ks)).
Proof.
  exists (update_castle_rights_pure m (current_castling_rights s)).
  split; [reflexivity|]. intros c ks. split.
  - apply update_right.
  - intros (H1 & H2 & H3 & H4). apply update_right_back; assumption.
Qed.

(** ** Attacked squares *)

(** X11: when every king on the board stands on its recorded location,
    [tile_under_attack] hands the turn back and leaves the state as it found
    it, the pin list apart: the board, the move set, the logs, both king
    locations (moved and put back while the moves of the opponent's king are
    tried), the flags, the en-passant target and the castling rights are
    those on entry. *)
Theorem tile_under_attack_restores (NO_VALUE : Z) (row col : Z)
    (s s' : GameState) (under_attack : bool) :
  (forall c loc,
     0 <= fst loc -> 0 <= snd loc ->
     board_get (board s) (fst loc) (snd loc) = Some (Piece c King) ->
     loc = match c with
           | White => white_king_location s
           | Black => black_king_location s
           end) ->
  tile_under_attack NO_VALUE row col s = Some (under_attack, s') ->
  s' = set_pins (pins s') s.
Proof.
  intros Hk H.
  assert (Hkings : kings_ok s).
  { intros c loc (H1 & H2 & H3). symmetry.
    rewrite (Hk c loc H1 H2 H3). destruct c; reflexivity. }
  destruct (keeps_tile_under_attack s NO_VALUE (white_to_move s) row col
              s under_attack s' (framed_refl s) eq_refl H) as [Hfr Hw].
  pose proof (good_king_location s White _ Hkings (fr_white_king _ _ Hfr))
    as Hwk.
  pose proof (good_king_location s Black _ Hkings (fr_black_king _ _ Hfr))
    as Hbk.
  destruct Hfr. destruct s, s'. unfold set_pins. cbn in *. congruence.
Qed.

Lemma tile_under_attack_restores_witness :
  exists under_attack s',
    tile_under_attack NO_SQUARE 5 4 state_e4 = Some (under_attack, s')
    /\ s' = set_pins (pins s') state_e4.
Proof.
  destruct (tile_under_attack NO_SQUARE 5 4 state_e4) as [[u s']|] eqn:E;
    [|vm_compute in E; discriminate].
  exists u, s'. split; [reflexivity|].
  apply (tile_under_attack_restores NO_SQUARE 5 4 state_e4 s' u); [|exact E].
  intros c loc H1 H2 H3.
  assert (Hb : board_8x8 (board state_e4))
    by (split; [reflexivity|repeat constructor]).
  assert (Hk : king_at (board state_e4) c loc) by (repeat split; assumption).
  apply (king_at_piece _ _ _ Hb) in Hk as [Hon Hp].
  destruct loc as [r k]. unfold sq_on_board in Hon. cbn [fst snd] in Hon.
  each_square Hon; destruct c; vm_compute in Hp; try discriminate;
    reflexivity.
Defined.

(** ** Scores and searches *)

(** X12: on a board of eight rows of eight squares [score_board] returns
    (every lookup in the piece tables is in range), and its value lies
    between [- CHECKMATE] and [CHECKMATE]: no material count exceeds the
    value of a checkmate. *)
Theorem score_board_in_range (s : GameState) :
  List.length (board s) = 8%nat ->
  Forall (fun row => List.length row = 8%nat) (board s) ->
  exists v, score_board s = Some v /\ - CHECKMATE <= v <= CHECKMATE.
Proof.
  intros H1 H2. apply score_board_bound. split; assumption.
Qed.

Lemma score_board_in_range_witness :
  exists v, score_board state_pawn_up = Some v
            /\ - CHECKMATE <= v <= CHECKMATE.
Proof.
  apply (score_board_in_range state_pawn_up).
  - reflexivity.
  - repeat constructor.
Defined.

(** X13: on every state of a game [find_move_negamax], called on the moves
    generated for the state with a recursion bound above the depth, returns
    a value between [- CHECKMATE] and [CHECKMATE] and leaves the position
    as it found it: the board, the side to move, both king locations, the
    castling rights, the move log and the log of castling rights. *)
Theorem find_move_negamax_restores (NO_VALUE MAX_DEPTH : Z)
    (p p' : GameState) (moves : MoveDict) (wtm : bool) (depth : Z)
    (fuel : nat) (bm : list Move) :
  NO_VALUE < 0 -> reachable NO_VALUE p ->
  generate_valid_moves NO_VALUE p = Some (moves, p') ->
  (Z.to_nat depth < fuel)%nat ->
  exists v ai,
    find_move_negamax NO_VALUE MAX_DEPTH fuel moves wtm depth
      (mkChessAI p' bm) = Some (v, ai)
    /\ - CHECKMATE <= v <= CHECKMATE
    /\ board (game_state ai) = board p'
    /\ white_to_move (game_state ai) = white_to_move p'
    /\ white_king_location (game_state ai) = white_king_location p'
    /\ black_king_location (game_state ai) = black_king_location p'
    /\ current_castling_rights (game_state ai) = current_castling_rights p'
    /\ move_log (game_state ai) = move_log p'
    /\ castle_rights_log (game_state ai) = castle_rights_log p'.
Proof.
  intros HNV Hr Hgen Hfuel.
  pose proof (reachable_Inv NO_VALUE p HNV Hr) as Hinv.
  pose proof (generate_steady _ _ _ _ Hinv Hgen) as Hst.
  assert (Hep : ep_fine NO_VALUE p').
  { destruct (generate_same_core _ _ _ _ Hinv Hgen) as (_ & _ & _ & _ & C5 & _).
    unfold ep_fine. rewrite C5. apply ep_ok_fine, (inv_ep _ _ Hinv). }
  destruct (searches_agree_all NO_VALUE MAX_DEPTH fuel HNV depth moves wtm
              (- CHECKMATE) CHECKMATE p p' bm bm Hfuel Hinv
              (reachable_log_ok NO_VALUE p HNV Hr)
              (fun m Hin => Inv_generated _ _ _ _ _ Hinv Hgen Hin) Hst Hep
              ltac:(lia) ltac:(unfold CHECKMATE; lia) ltac:(lia))
    as (v & r & g1 & bm1' & g2 & bm2' & H1 & _ & Hs1 & _ & _ & _ & Hv & _).
  exists v, (mkChessAI g1 bm1'). split; [exact H1|]. split; [exact Hv|].
  cbn [game_state].
  destruct Hs1 as (A1 & A2 & A3 & A4 & A5 & A6 & A7 & _).
  destruct Hst as (B1 & B2 & B3 & B4 & B5 & B6 & B7 & _).
  repeat split; congruence.
Qed.

Lemma find_move_negamax_restores_witness :
  exists moves p' v ai,
    generate_valid_moves NO_SQUARE state_e4 = Some (moves, p')
    /\ find_move_negamax NO_SQUARE 1 2 moves false 1 (mkChessAI p' [])
       = Some (v, ai)
    /\ - CHECKMATE <= v <= CHECKMATE
    /\ board (game_state ai) = board p'.
Proof.
  destruct (generate_valid_moves NO_SQUARE state_e4)
    as [[moves p']|] eqn:E; [|vm_compute in E; discriminate].
  destruct (find_move_negamax_restores NO_SQUARE 1 state_e4 p' moves false 1
              2%nat [])
    as (v & ai & H1 & H2 & H3 & _).
  - reflexivity.
  - exact state_e4_reachable.
  - exact E.
  - vm_compute. lia.
  - exists moves, p', v, ai. auto.
Defined.

(** X14: on every state of a game [find_move_negamax_alpha_beta], called on
    the moves generated for the state with a window inside
    [- CHECKMATE .. CHECKMATE] and a recursion bound above the depth,
    returns and leaves the position as it found it, whatever it has
    pruned. *)
Theorem find_move_negamax_alpha_beta_restores (NO_VALUE MAX_DEPTH : Z)
    (p p' : GameState) (moves : MoveDict) (alpha beta : Z) (wtm : bool)
    (depth : Z) (fuel : nat) (bm : list Move) :
  NO_VALUE < 0 -> reachable NO_VALUE p ->
  generate_valid_moves NO_VALUE p = Some (moves, p') ->
  (Z.to_nat depth < fuel)%nat ->
  - CHECKMATE <= alpha -> alpha < beta -> beta <= CHECKMATE ->
  exists r ai,
    find_move_negamax_alpha_beta NO_VALUE MAX_DEPTH fuel moves alpha beta
      wtm depth (mkChessAI p' bm) = Some (r, ai)
    /\ board (game_state ai) = board p'
    /\ white_to_move (game_state ai) = white_to_move p'
    /\ white_king_location (game_state ai) = white_king_location p'
    /\ black_king_location (game_state ai) = black_king_location p'
    /\ current_castling_rights (game_state ai) = current_castling_rights p'
    /\ move_log (game_state ai) = move_log p'
    /\ castle_rights_log (game_state ai) = castle_rights_log p'.
Proof.
  intros HNV Hr Hgen Hfuel Ha Hab Hb.
  pose proof (reachable_Inv NO_VALUE p HNV Hr) as Hinv.
  pose proof (generate_steady _ _ _ _ Hinv Hgen) as Hst.
  assert (Hep : ep_fine NO_VALUE p').
  { destruct (generate_same_core _ _ _ _ Hinv Hgen) as (_ & _ & _ & _ & C5 & _).
    unfold ep_fine. rewrite C5. apply ep_ok_fine, (inv_ep _ _ Hinv). }
  destruct (searches_agree_all NO_VALUE MAX_DEPTH fuel HNV depth moves wtm
              alpha beta p p' bm bm Hfuel Hinv
              (reachable_log_ok NO_VALUE p HNV Hr)
              (fun m Hin => Inv_generated _ _ _ _ _ Hinv Hgen Hin) Hst Hep
              Ha Hab Hb)
    as (v & r & g1 & bm1' & g2 & bm2' & _ & H2 & _ & _ & Hs2 & _).
  exists r, (mkChessAI g2 bm2'). split; [exact H2|].
  cbn [game_state].
  destruct Hs2 as (A1 & A2 & A3 & A4 & A5 & A6 & A7 & _).
  destruct Hst as (B1 & B2 & B3 & B4 & B5 & B6 & B7 & _).
  repeat split; congruence.
Qed.

Lemma find_move_negamax_alpha_beta_restores_witness :
  exists moves p' r ai,
    generate_valid_moves NO_SQUARE state_e4 = Some (moves, p')
    /\ find_move_negamax_alpha_beta NO_SQUARE 1 2 moves (-50) 50 false 1
         (mkChessAI p' []) = Some (r, ai)
    /\ board (game_state ai) = board p'.
Proof.
  destruct (generate_valid_moves NO_SQUARE state_e4)
    as [[moves p']|] eqn:E; [|vm_compute in E; discriminate].
  destruct (find_move_negamax_alpha_beta_restores NO_SQUARE 1 state_e4 p'
              moves (-50) 50 false 1 2%nat [])
    as (r & ai & H1 & H2 & _).
  - reflexivity.
  - exact state_e4_reachable.
  - exact E.
  - vm_compute. lia.
  - vm_compute. discriminate.
  - reflexivity.
  - vm_compute. discriminate.
  - exists moves, p', r, ai. auto.
Defined.
(** ** The check detector reports a check only when there is one *)

(** A loop over a range with an invariant that follows the index; an
    iteration that breaks has to establish the property wanted at the
    end. *)
Lemma loop_run_range {A} (I : Z -> A -> Prop) (P : A -> Prop)
    (body : Z -> A -> ctl * A) hi :
  (forall i a, i < hi -> I i a ->
     (fst (body i a) = Continue -> I (i + 1) (snd (body i a)))
     /\ (fst (body i a) = Break -> P (snd (body i a)))) ->
  (forall a, I hi a -> P a) ->
  forall n lo a,
    lo + Z.of_nat n = hi -> I lo a ->
    P (snd (loop_run (py_range lo hi) body a)).
Proof.
  intros Hstep Hend. induction n as [|n IH]; intros lo a Hlo Ha.
  - rewrite py_range_nil by lia. cbn [loop_run snd].
    apply Hend. replace hi with lo by lia. exact Ha.
  - rewrite py_range_cons by lia. cbn [loop_run].
    destruct (Hstep lo a ltac:(lia) Ha) as [Hc Hb].
    destruct (body lo a) as [[] a']; cbn [fst snd] in *.
    + apply IH; [lia|]. apply Hc. reflexivity.
    + apply Hb. reflexivity.
Qed.

Lemma threatens_cases enemy j d i p :
  In (j, d) numbered_directions ->
  has_color p enemy = true ->
  threatens enemy j i p = true ->
  (exists k, p = Piece enemy k /\ slides k d)
  \/ (i = 1 /\ p = Piece enemy Pawn
      /\ exists lr, (lr = 1 \/ lr = -1) /\ d = (- pawn_direction enemy, lr))
  \/ (i = 1 /\ p = Piece enemy King).
Proof.
  intros Hjd Hcol Hthr. rewrite numbered_directions_eq in Hjd.
  destruct p as [|c k]; [discriminate|].
  assert (c = enemy) as ->.
  { destruct c, enemy; cbn in Hcol; congruence. }
  unfold threatens in Hthr. cbn [In] in Hjd.
  assert (Hslide : forall k0, slides k0 d ->
            k = k0 ->
            (exists k1, Piece enemy k = Piece enemy k1 /\ slides k1 d)
            \/ (i = 1 /\ Piece enemy k = Piece enemy Pawn
                /\ exists lr, (lr = 1 \/ lr = -1)
                              /\ d = (- pawn_direction enemy, lr))
            \/ (i = 1 /\ Piece enemy k = Piece enemy King)).
  { intros k0 Hs ->. left. exists k0. split; [reflexivity|exact Hs]. }
  destruct (Z.eqb_spec i 1) as [Hi|Hi];
    repeat (destruct Hjd as [Hjd|Hjd]; [injection Hjd as <- <-|]);
    try destruct Hjd;
    destruct k, enemy; cbn in Hthr; try discriminate;
    try (apply (Hslide Rook); [|reflexivity];
         left; split; [cbn; tauto|left; reflexivity]);
    try (apply (Hslide Queen); [|reflexivity];
         first [left; split; [cbn; tauto|right; reflexivity]
               |right; split; [cbn; tauto|right; reflexivity]]);
    try (apply (Hslide Bishop); [|reflexivity];
         right; split; [cbn; tauto|left; reflexivity]);
    try (right; right; split; [exact Hi|reflexivity]);
    try (right; left; split; [exact Hi|]; split; [reflexivity|];
         first [exists 1; split; [left; reflexivity|reflexivity]
               |exists (-1); split; [right; reflexivity|reflexivity]]).
Qed.

Section AnalyzerSound.

Variable NV : Z.
Hypothesis HNV : NV < 0.
Variable b : Board.
Hypothesis Hb : board_8x8 b.
Variables ally enemy : color.
Hypothesis Henemy : enemy = opposite ally.
Variable e : Z * Z.
Hypothesis He : sq_on_board e.

(** No other king of the side stands on the board: the scan passes over
    the kings of its own side. *)
Hypothesis Hking :
  forall x, sq_on_board x -> piece_at b x = Piece ally King -> x = e.

Let sound (a : scan_acc) : Prop :=
  acc_in_check a = true -> attacked b enemy e.

Let clear_to (d : Z * Z) (i : Z) : Prop :=
  forall k, 1 <= k < i -> sq_on_board (add_sq e d k) ->
            piece_at b (add_sq e d k) = Empty.

Let along (d : Z * Z) (i : Z) (a : scan_acc) : Prop :=
  sound a
  /\ (pin_eqb (acc_pin a) (NO_PIN NV) = true ->
      attacked b enemy e \/ clear_to d i).

Lemma clear_to_between d i :
  In d sliding_directions -> sq_on_board (add_sq e d i) ->
  clear_to d i -> clear_between b e d 0 i.
Proof.
  intros Hd Hon Hclear k Hk. apply Hclear; [lia|].
  apply (between_on_board e d i k Hd He Hon). lia.
Qed.

Lemma ray_step_sound j d i a :
  In (j, d) numbered_directions -> 1 <= i -> along d i a ->
  (fst (ray_step_pure NV b ally enemy (fst e) (snd e) j d i a) = Continue ->
   along d (i + 1)
     (snd (ray_step_pure NV b ally enemy (fst e) (snd e) j d i a)))
  /\ (fst (ray_step_pure NV b ally enemy (fst e) (snd e) j d i a) = Break ->
      sound (snd (ray_step_pure NV b ally enemy (fst e) (snd e) j d i a))).
Proof.
  intros Hjd Hi [Hsound Hclear].
  assert (Hd : In d sliding_directions).
  { unfold numbered_directions in Hjd. apply in_combine_r in Hjd. exact Hjd. }
  destruct a as [[[pp ic] pns] chks].
  unfold along, sound, acc_in_check, acc_pin in *. cbn [fst snd] in *.
  unfold ray_step_pure.
  change (fst e + fst d * i) with (fst (add_sq e d i)).
  change (snd e + snd d * i) with (snd (add_sq e d i)).
  destruct (in_bounds b (fst (add_sq e d i)) (snd (add_sq e d i))) eqn:Ebounds.
  2:{ cbn [fst snd]. split; [|discriminate]. intros _.
      split; [exact Hsound|]. intros Hpp.
      destruct (Hclear Hpp) as [Hatt|Hcl]; [left; exact Hatt|right].
      intros k Hk Hon. destruct (Z.eq_dec k i) as [->|Hne].
      - apply (in_bounds_on_board b Hb) in Hon. congruence.
      - apply Hcl; [lia|exact Hon]. }
  assert (Hon : sq_on_board (add_sq e d i))
    by (apply (in_bounds_on_board b Hb); exact Ebounds).
  change (at_square b (fst (add_sq e d i)) (snd (add_sq e d i)))
    with (piece_at b (add_sq e d i)).
  destruct (has_color (piece_at b (add_sq e d i)) ally
            && negb (has_kind (piece_at b (add_sq e d i)) King)) eqn:Eally.
  { destruct (pin_eqb pp (NO_PIN NV)) eqn:Epp; cbn [fst snd].
    - split; [|discriminate]. intros _. split; [exact Hsound|].
      intros Hnew. exfalso.
      pose proof (pin_entry_not_none NV HNV e d i Hon) as Hne.
      unfold pin_entry in Hne. unfold add_sq in Hnew. cbn [fst snd] in Hnew.
      congruence.
    - split; [discriminate|]. intros _. exact Hsound. }
  destruct (has_color (piece_at b (add_sq e d i)) enemy) eqn:Eenemy.
  { destruct (threatens enemy j i (piece_at b (add_sq e d i))) eqn:Ethr.
    - destruct (pin_eqb pp (NO_PIN NV)) eqn:Epp; cbn [fst snd].
      + split; [|discriminate]. intros _.
        assert (Hatt : attacked b enemy e).
        { destruct (Hclear eq_refl) as [Hatt|Hcl]; [exact Hatt|].
          destruct (threatens_cases enemy j d i _ Hjd Eenemy Ethr)
            as [(k & Hp & Hs)|[(Hi1 & Hp & lr & Hlr & Hdlr)|(Hi1 & Hp)]].
          - left. exists (add_sq e d i).
            apply (attacks_slide b enemy e d i k Hs Hi Hon); [|exact Hp].
            apply clear_to_between; assumption.
          - left. exists (add_sq e d i). subst i d.
            apply (attacks_pawn b enemy e lr Hlr Hon Hp).
          - right. exists d. subst i. auto. }
        split; [intros _; exact Hatt|]. intros _. left. exact Hatt.
      + split; [discriminate|]. intros _. exact Hsound.
    - cbn [fst snd]. split; [discriminate|]. intros _. exact Hsound. }
  cbn [fst snd]. split; [|discriminate]. intros _. split; [exact Hsound|].
  intros Hpp. destruct (Hclear Hpp) as [Hatt|Hcl]; [left; exact Hatt|right].
  intros k Hk Hon'. destruct (Z.eq_dec k i) as [->|Hne];
    [|apply Hcl; [lia|exact Hon']].
  destruct (piece_at b (add_sq e d i)) as [|c kd] eqn:Ep; [reflexivity|].
  exfalso.
  assert (Hc : c = ally).
  { destruct c, ally, enemy; cbn in Eenemy, Henemy; congruence. }
  subst c. rewrite has_color_same in Eally. cbn [andb] in Eally.
  apply negb_false_iff in Eally. destruct kd; cbn in Eally; try discriminate.
  apply (add_sq_ne e d i).
  - apply sliding_direction_nonzero. exact Hd.
  - lia.
  - symmetry. apply Hking; [exact Hon|exact Ep].
Qed.

Lemma ray_scan_sound jd a :
  In jd numbered_directions -> sound a ->
  sound (snd (ray_scan_pure NV b ally enemy (fst e) (snd e) jd a)).
Proof.
  intros Hjd Hs. destruct jd as [j d]. destruct a as [[[pp ic] pns] chks].
  unfold ray_scan_pure. cbn [fst snd].
  apply (loop_run_range (fun i a => 1 <= i /\ along d i a) sound
           (ray_step_pure NV b ally enemy (fst e) (snd e) j d) 8)
    with (n := 7%nat).
  - intros i a _ [Hi Ha].
    destruct (ray_step_sound j d i a Hjd Hi Ha) as [Hc Hbr].
    split; [|exact Hbr]. intros Hcont. split; [lia|]. apply Hc, Hcont.
  - intros a [_ [Ha _]]. exact Ha.
  - reflexivity.
  - split; [lia|]. split; [exact Hs|].
    intros _. right. intros k Hk. lia.
Qed.

Lemma knight_scan_sound off a :
  In off knight_offsets -> sound a ->
  sound (snd (knight_scan_pure b enemy (fst e) (snd e) off a)).
Proof.
  intros Hoff Hs. destruct a as [[[pp ic] pns] chks].
  unfold knight_scan_pure.
  replace (fst e + fst off) with (fst (add_sq e off 1))
    by (unfold add_sq; cbn [fst]; lia).
  replace (snd e + snd off) with (snd (add_sq e off 1))
    by (unfold add_sq; cbn [snd]; lia).
  destruct (in_bounds b (fst (add_sq e off 1)) (snd (add_sq e off 1)))
    eqn:Ebounds; [|exact Hs].
  assert (Hon : sq_on_board (add_sq e off 1))
    by (apply (in_bounds_on_board b Hb); exact Ebounds).
  change (at_square b (fst (add_sq e off 1)) (snd (add_sq e off 1)))
    with (piece_at b (add_sq e off 1)).
  destruct (has_color (piece_at b (add_sq e off 1)) enemy
            && has_kind (piece_at b (add_sq e off 1)) Knight) eqn:E;
    [|exact Hs].
  cbn [snd]. intros _. left. exists (add_sq e off 1).
  apply (attacks_knight b enemy e off Hoff Hon).
  apply andb_true_iff in E as [E1 E2].
  destruct (piece_at b (add_sq e off 1)) as [|c k]; [discriminate|].
  destruct c, enemy, k; cbn in E1, E2; try discriminate; reflexivity.
Qed.

Theorem analyze_sound :
  fst (fst (analyze NV b ally enemy (fst e) (snd e))) = true ->
  attacked b enemy e.
Proof.
  destruct (analyze_fields NV b ally enemy (fst e) (snd e)) as (-> & _).
  apply (loop_run_invariant sound).
  { intros off a Hoff Ha. apply knight_scan_sound; assumption. }
  unfold analyze_rays.
  apply (loop_run_invariant sound).
  { intros jd a Hjd Ha. apply ray_scan_sound; assumption. }
  intros H. discriminate.
Qed.

Theorem analyze_complete :
  attacked b enemy e ->
  fst (fst (analyze NV b ally enemy (fst e) (snd e))) = true.
Proof.
  destruct (analyze_fields NV b ally enemy (fst e) (snd e)) as (-> & _).
  intros [[q Hq]|(d & Hd & Hon & Hp)].
  - destruct Hq as [d n k Hs Hn Hon Hcl Hp|lr Hlr Hon Hp|off Hoff Hon Hp].
    + eapply analyze_finds_slide; eauto.
    + eapply analyze_finds_pawn; eauto.
    + eapply analyze_finds_knight; eauto.
  - eapply analyze_finds_king; eauto.
Qed.

End AnalyzerSound.

(** X15: on a board of eight rows of eight squares on which the king of the
    side to move is recorded on a square of the board and no other king of
    that side stands, [__check_for_pins_and_checks] returns without touching
    the state, and it reports a check exactly when the recorded square is
    attacked: by an enemy queen, rook or bishop along a free line, by an
    enemy knight or pawn, or by the enemy king from a neighbouring
    square. *)
Theorem check_detector_exact (NO_VALUE : Z) (s : GameState) :
  NO_VALUE < 0 ->
  board_8x8 (board s) ->
  sq_on_board (own_king_location s) ->
  (forall x, sq_on_board x ->
     piece_at (board s) x = Piece (ally_of (white_to_move s)) King ->
     x = own_king_location s) ->
  exists in_chk pns chks,
    check_for_pins_and_checks NO_VALUE s = Some ((in_chk, pns, chks), s)
    /\ (in_chk = true <->
        attacked (board s) (enemy_of (white_to_move s))
                 (own_king_location s)).
Proof.
  intros HNV Hb He Hking.
  rewrite (check_for_pins_and_checks_analyze NO_VALUE s Hb).
  unfold analyze_state.
  destruct (analyze NO_VALUE (board s) (ally_of (white_to_move s))
              (enemy_of (white_to_move s)) (fst (own_king_location s))
              (snd (own_king_location s))) as [[in_chk pns] chks] eqn:E.
  exists in_chk, pns, chks. split; [reflexivity|].
  assert (Hen : enemy_of (white_to_move s)
                = opposite (ally_of (white_to_move s)))
    by (destruct (white_to_move s); reflexivity).
  split; intros H.
  - apply (analyze_sound NO_VALUE HNV (board s) Hb
             (ally_of (white_to_move s)) (enemy_of (white_to_move s)) Hen
             (own_king_location s) He Hking).
    rewrite E. exact H.
  - change in_chk with (fst (fst (in_chk, pns, chks))). rewrite <- E.
    eapply analyze_complete; eauto.
Qed.

Lemma check_detector_exact_witness :
  exists in_chk pns chks,
    check_for_pins_and_checks NO_SQUARE state_stalemate
    = Some ((in_chk, pns, chks), state_stalemate)
    /\ (in_chk = true <->
        attacked (board state_stalemate)
                 (enemy_of (white_to_move state_stalemate))
                 (own_king_location state_stalemate)).
Proof.
  apply (check_detector_exact NO_SQUARE state_stalemate).
  - reflexivity.
  - split; [reflexivity|repeat constructor].
  - vm_compute. intuition discriminate.
  - intros [r k] Hon Hp. unfold sq_on_board in Hon. cbn [fst snd] in Hon.
    each_square Hon; vm_compute in Hp; try discriminate; reflexivity.
Defined.
(** ** The keys of the move dictionaries *)

Lemma dict_ok_nil : dict_ok [].
Proof. split; constructor. Qed.

Lemma dict_set_keys d k v :
  map fst (dict_set d k v)
  = if existsb (Z.eqb k) (map fst d) then map fst d else map fst d ++ [k].
Proof.
  induction d as [|kv d IH]; [reflexivity|]. destruct kv as [k' v'].
  cbn [dict_set map fst existsb app].
  rewrite (Z.eqb_sym k k'). destruct (k' =? k) eqn:E; cbn [orb map fst].
  - reflexivity.
  - rewrite IH. destruct (existsb (Z.eqb k) (map fst d)); reflexivity.
Qed.

Lemma dict_add_ok d m : dict_ok d -> dict_ok (dict_add d m).
Proof.
  intros [Hids Hkeys]. unfold dict_add. split.
  - induction d as [|kv d IH]; [|destruct kv as [k' v']]; cbn [dict_set].
    + constructor; [reflexivity|constructor].
    + apply Forall_cons_iff in Hids as [Hhd Htl]. cbn [fst snd] in Hhd.
      cbn [map fst] in Hkeys. apply NoDup_cons_iff in Hkeys as [_ Hnd].
      destruct (k' =? move_id m) eqn:E.
      * apply Z.eqb_eq in E. constructor; [exact E|exact Htl].
      * constructor; [exact Hhd|]. apply IH; assumption.
  - rewrite dict_set_keys.
    destruct (existsb (Z.eqb (move_id m)) (map fst d)) eqn:E; [exact Hkeys|].
    apply NoDup_app; [exact Hkeys|constructor; [intros []|constructor]|].
    intros k Hin [Hk|[]]. subst k.
    assert (existsb (Z.eqb (move_id m)) (map fst d) = true).
    { apply existsb_exists. exists (move_id m).
      split; [exact Hin|apply Z.eqb_refl]. }
    congruence.
Qed.

Lemma dict_del_ok d k : dict_ok d -> dict_ok (dict_del d k).
Proof.
  intros [Hids Hkeys]. unfold dict_del. split.
  - apply Forall_forall. intros kv Hin. apply filter_In in Hin as [Hin _].
    rewrite Forall_forall in Hids. apply Hids, Hin.
  - induction d as [|kv d IH]; [constructor|]. destruct kv as [k' v'].
    cbn [filter].
    apply Forall_cons_iff in Hids as [Hhd Htl].
    cbn [map fst] in Hkeys. apply NoDup_cons_iff in Hkeys as [Hnotin Hnd].
    cbn [fst]. destruct (negb (k' =? k)); [|apply IH; assumption].
    cbn [map fst]. constructor; [|apply IH; assumption].
    intros Hin. apply Hnotin. apply in_map_iff in Hin as (kv & Hfst & Hin).
    apply filter_In in Hin as [Hin _]. apply in_map_iff. exists kv. auto.
Qed.

Lemma dict_get_entry d k v :
  NoDup (map fst d) -> In (k, v) d -> dict_get d k = Some v.
Proof.
  induction d as [|kv d IH]; intros Hnd Hin; [destruct Hin|].
  destruct kv as [k' v']. cbn [map fst] in Hnd. inversion Hnd as [|? ? Hnotin Hnd']; subst.
  cbn [dict_get]. destruct Hin as [Heq|Hin].
  - injection Heq as -> ->. rewrite Z.eqb_refl. reflexivity.
  - destruct (k' =? k) eqn:E; [|apply IH; assumption].
    apply Z.eqb_eq in E. subst k'. exfalso. apply Hnotin.
    apply in_map_iff. exists (k, v). auto.
Qed.

Lemma dict_get_entry_in d k v : dict_get d k = Some v -> In (k, v) d.
Proof.
  induction d as [|kv d IH]; [discriminate|]. destruct kv as [k' v'].
  cbn [dict_get]. destruct (k' =? k) eqn:E.
  - apply Z.eqb_eq in E. intros H. injection H as ->. left. congruence.
  - intros H. right. apply IH, H.
Qed.

(** *** Results of the generators *)

Lemma yields_ret {A} (P : A -> Prop) a : P a -> yields P (ret a).
Proof. intros H s a' s' Hr. unfold ret in Hr. injection Hr as <- _. exact H. Qed.

Lemma yields_bind_any {A B} (Q : B -> Prop) (m : M GameState A)
    (f : A -> M GameState B) :
  (forall a, yields Q (f a)) -> yields Q (bind m f).
Proof.
  intros Hf s b s' H. apply bind_some in H as (a & s1 & _ & H).
  apply (Hf a _ _ _ H).
Qed.

Lemma yields_bind {A B} (P : A -> Prop) (Q : B -> Prop) (m : M GameState A)
    (f : A -> M GameState B) :
  yields P m -> (forall a, P a -> yields Q (f a)) -> yields Q (bind m f).
Proof.
  intros Hm Hf s b s' H. apply bind_some in H as (a & s1 & H1 & H).
  apply (Hf a (Hm _ _ _ H1) _ _ _ H).
Qed.

Lemma yields_for_loop {X A} (P : A -> Prop) (xs : list X)
    (body : X -> A -> M GameState (ctl * A)) :
  (forall x a, P a -> yields (fun r => P (snd r)) (body x a)) ->
  forall a, P a -> yields P (for_loop xs body a).
Proof.
  intros Hbody. induction xs as [|x xs IH]; intros a Ha; cbn [for_loop].
  - apply yields_ret, Ha.
  - apply (yields_bind (fun r => P (snd r))); [apply Hbody, Ha|].
    intros [[] a'] Ha'; cbn [fst snd] in *.
    + apply IH, Ha'.
    + apply yields_ret, Ha'.
Qed.

Ltac solve_dict :=
  cbn [snd];
  first [ assumption
        | exact dict_ok_nil
        | apply dict_add_ok; solve_dict
        | apply dict_del_ok; solve_dict ].

Ltac yields_step :=
  lazymatch goal with
  | |- yields _ (ret _) => apply yields_ret; solve_dict
  | |- yields _ (for_loop _ _ _) =>
      apply (yields_for_loop dict_ok); [intros ? ? ?|solve_dict]
  | |- yields _ (bind ?m _) =>
      lazymatch type of m with
      | M GameState MoveDict => apply (yields_bind dict_ok); [|intros ? ?]
      | _ => apply yields_bind_any; intros ?
      end
  | |- yields _ (if ?c then _ else _) => destruct c
  | |- yields _ (match ?x with _ => _ end) => destruct x
  end.

Lemma yields_get_pawn_moves NV row col moves :
  dict_ok moves -> yields dict_ok (get_pawn_moves NV row col moves).
Proof.
  intros H. unfold get_pawn_moves, pawn_capture_step. repeat yields_step.
Qed.

Lemma yields_get_moves_from_tiles NV row col moves tiles :
  dict_ok moves -> yields dict_ok (get_moves_from_tiles NV row col moves tiles).
Proof.
  intros H. unfold get_moves_from_tiles, tile_step. repeat yields_step.
Qed.

Lemma yields_get_moves_from_directions NV row col moves ds :
  dict_ok moves ->
  yields dict_ok (get_moves_from_directions NV row col moves ds).
Proof.
  intros H. unfold get_moves_from_directions, direction_scan, direction_step.
  repeat yields_step.
Qed.

Lemma yields_get_king_moves NV row col moves :
  dict_ok moves -> yields dict_ok (get_king_moves NV row col moves).
Proof.
  intros H. unfold get_king_moves, king_step. repeat yields_step.
Qed.

Lemma yields_move_function NV k row col moves :
  dict_ok moves -> yields dict_ok (move_function NV k row col moves).
Proof.
  intros H. destruct k; cbn [move_function].
  - apply yields_get_pawn_moves, H.
  - apply yields_get_moves_from_directions, H.
  - apply yields_get_moves_from_tiles, H.
  - apply yields_get_moves_from_directions, H.
  - unfold get_queen_moves. apply (yields_bind dict_ok).
    + apply yields_get_moves_from_directions, H.
    + intros moves' H'. apply yields_get_moves_from_directions, H'.
  - apply yields_get_king_moves, H.
Qed.

Lemma yields_get_all_possible_moves NV :
  yields dict_ok (get_all_possible_moves NV).
Proof.
  unfold get_all_possible_moves, row_step, square_step.
  apply yields_bind_any. intros b.
  apply (yields_for_loop dict_ok); [|exact dict_ok_nil].
  intros row moves H.
  apply yields_bind_any. intros b'. apply yields_bind_any. intros r.
  apply (yields_bind dict_ok); [|intros ? ?; apply yields_ret; assumption].
  apply (yields_for_loop dict_ok); [|exact H].
  intros col mv Hmv.
  apply yields_bind_any. intros here. apply yields_bind_any. intros wtm.
  destruct here as [|c k]; [apply yields_ret; exact Hmv|].
  destruct ((color_eqb c White && wtm) || (color_eqb c Black && negb wtm));
    [|apply yields_ret; exact Hmv].
  apply (yields_bind dict_ok); [apply yields_move_function, Hmv|].
  intros ? ?. apply yields_ret. assumption.
Qed.

Lemma yields_get_castle_moves NV row col moves :
  dict_ok moves -> yields dict_ok (get_castle_moves NV row col moves).
Proof.
  intros H.
  unfold get_castle_moves, get_king_side_castle_moves,
    get_queen_side_castle_moves.
  repeat yields_step.
Qed.

Lemma yields_generate_candidates NV : yields dict_ok (generate_candidates NV).
Proof.
  unfold generate_candidates.
  apply yields_bind_any. intros loc. apply yields_bind_any. intros chk.
  apply (yields_bind dict_ok).
  - destruct chk; [|apply yields_get_all_possible_moves].
    apply yields_bind_any. intros cs.
    destruct (py_len cs =? 1);
      [|apply yields_get_king_moves, dict_ok_nil].
    apply (yields_bind dict_ok); [apply yields_get_all_possible_moves|].
    intros moves0 H0. unfold filter_step. repeat yields_step.
  - intros moves H. apply yields_bind_any. intros kloc.
    apply yields_get_castle_moves, H.
Qed.

Lemma yields_generate_valid_moves NV : yields dict_ok (generate_valid_moves NV).
Proof.
  unfold generate_valid_moves.
  apply yields_bind_any. intros ep. apply yields_bind_any. intros cr.
  apply yields_bind_any. intros [[in_chk pns] chks].
  do 3 (apply yields_bind_any; intros ?).
  apply (yields_bind dict_ok); [apply yields_generate_candidates|].
  intros moves H. repeat yields_step.
Qed.

(** X16: in the dictionary that [generate_valid_moves] returns, on any
    state, every move is stored under its own [move_id] and under no other
    key: looking an id up gives a move with that id, every returned move is
    found under its id, and two returned moves that [Move.__eq__] holds
    equal are the same move. *)
Theorem generate_valid_moves_keys (NO_VALUE : Z) (s s' : GameState)
    (moves : MoveDict) :
  generate_valid_moves NO_VALUE s = Some (moves, s') ->
  (forall k m,
     dict_get moves k = Some m <->
     In m (dict_values moves) /\ move_id m = k)
  /\ (forall m1 m2,
        In m1 (dict_values moves) -> In m2 (dict_values moves) ->
        Move_eq m1 m2 = true -> m1 = m2).
Proof.
  intros Hgen.
  destruct (yields_generate_valid_moves NO_VALUE _ _ _ Hgen) as [Hids Hkeys].
  rewrite Forall_forall in Hids.
  assert (Hget : forall k m,
            dict_get moves k = Some m <->
            In m (dict_values moves) /\ move_id m = k).
  { intros k m. split.
    - intros H. apply dict_get_entry_in in H.
      split; [apply in_map_iff; exists (k, m); auto|].
      symmetry. apply (Hids _ H).
    - intros [Hin Hid]. apply in_map_iff in Hin as ([k' m'] & Hm & Hin).
      cbn [snd] in Hm. subst m'.
      pose proof (Hids _ Hin) as Hk. cbn [fst snd] in Hk.
      apply dict_get_entry; [exact Hkeys|]. congruence. }
  split; [exact Hget|].
  intros m1 m2 H1 H2 Heq. unfold Move_eq in Heq. apply Z.eqb_eq in Heq.
  assert (G1 : dict_get moves (move_id m1) = Some m1)
    by (apply Hget; auto).
  assert (G2 : dict_get moves (move_id m1) = Some m2)
    by (apply Hget; auto).
  congruence.
Qed.

Lemma generate_valid_moves_keys_witness :
  exists moves s' m,
    generate_valid_moves NO_SQUARE state_en_passant = Some (moves, s')
    /\ dict_get moves 3423 = Some m
    /\ In m (dict_values moves) /\ move_id m = 3423.
Proof.
  destruct (generate_valid_moves NO_SQUARE state_en_passant)
    as [[moves s']|] eqn:E; [|vm_compute in E; discriminate].
  destruct (dict_get moves 3423) as [m|] eqn:Em;
    [|vm_compute in E; injection E as <- _; vm_compute in Em; discriminate].
  exists moves, s', m. split; [reflexivity|]. split; [exact Em|].
  apply (generate_valid_moves_keys NO_SQUARE state_en_passant s' moves E).
  exact Em.
Defined.

(** ** Move identifiers *)

(** X17: [Move.__init__] numbers a move by the digits of its four
    coordinates, so that on the squares of the board two moves have the
    same [move_id], and are equal for [Move.__eq__], exactly when they have
    the same start and the same end square, whatever the boards and the
    flags they were built with. *)
Theorem Move_eq_same_squares (st en st' en' : Z * Z) (b b' : Board)
    (f1 f2 g1 g2 : bool) (m m' : Move) :
  sq_on_board st -> sq_on_board en -> sq_on_board st' -> sq_on_board en' ->
  Move_init st en b f1 f2 = Some m ->
  Move_init st' en' b' g1 g2 = Some m' ->
  (Move_eq m m' = true <-> st = st' /\ en = en').
Proof.
  intros H1 H2 H3 H4 Hm Hm'.
  unfold Move_init in Hm, Hm'. cbv zeta in Hm, Hm'.
  destruct (board_get b (fst st) (snd st)); [|discriminate].
  destruct (board_get b (fst en) (snd en)); [|discriminate].
  destruct (board_get b' (fst st') (snd st')); [|discriminate].
  destruct (board_get b' (fst en') (snd en')); [|discriminate].
  injection Hm as <-. injection Hm' as <-.
  unfold Move_eq. cbn [move_id]. rewrite Z.eqb_eq.
  destruct st as [a1 a2], en as [a3 a4], st' as [c1 c2], en' as [c3 c4].
  unfold sq_on_board, on_board in *. cbn [fst snd] in *.
  split.
  - intros H. assert (a1 = c1 /\ a2 = c2 /\ a3 = c3 /\ a4 = c4) by lia.
    split; f_equal; tauto.
  - intros [E1 E2]. injection E1 as -> ->. injection E2 as -> ->. reflexivity.
Qed.

Lemma Move_eq_same_squares_witness :
  exists m m',
    Move_init (6, 4) (4, 4) (board (GameState_init NO_SQUARE)) false false
    = Some m
    /\ Move_init (6, 4) (4, 4) (board state_e4) false true = Some m'
    /\ (Move_eq m m' = true <-> (6, 4) = (6, 4) /\ (4, 4) = (4, 4)).
Proof.
  destruct (Move_init (6, 4) (4, 4) (board (GameState_init NO_SQUARE))
              false false) as [m|] eqn:E; [|vm_compute in E; discriminate].
  destruct (Move_init (6, 4) (4, 4) (board state_e4) false true)
    as [m'|] eqn:E'; [|vm_compute in E'; discriminate].
  exists m, m'. split; [reflexivity|]. split; [reflexivity|].
  apply (Move_eq_same_squares (6, 4) (4, 4) (6, 4) (4, 4)
           (board (GameState_init NO_SQUARE)) (board state_e4)
           false false false true);
    try (vm_compute; intuition discriminate); assumption.
Defined.
(** ** Rank and file notation *)

(** X18: [get_rank_file] is defined exactly on the squares of the board (a
    negative index, which the board lists accept, is a [KeyError] here), and
    the two characters it returns are the file and the rank that
    [FILES_TO_COLS] and [RANKS_TO_ROWS] map back to the column and the
    row. *)
Theorem get_rank_file_round_trip (row col : Z) :
  (on_board row col <-> exists s, get_rank_file row col = Some s)
  /\ (forall s,
        get_rank_file row col = Some s ->
        exists f r,
          s = String f (String r EmptyString)
          /\ lookup String.eqb FILES_TO_COLS (String f EmptyString) = Some col
          /\ lookup String.eqb RANKS_TO_ROWS (String r EmptyString)
             = Some row).
Proof.
  assert (Hcases : on_board row col \/ ~ on_board row col)
    by (unfold on_board; lia).
  destruct Hcases as [Hon|Hoff].
  - split; [split; [intros _|intros _; exact Hon]|].
    + each_square Hon; eexists; reflexivity.
    + intros s Hs. each_square Hon; vm_compute in Hs; injection Hs as <-;
        eexists; eexists; repeat split.
  - assert (Hnone : get_rank_file row col = None).
    { unfold get_rank_file, on_board in *.
      change COLS_TO_FILES
        with [(0, "A"); (1, "B"); (2, "C"); (3, "D");
              (4, "E"); (5, "F"); (6, "G"); (7, "H")]%string.
      change ROWS_TO_RANKS
        with [(7, "1"); (6, "2"); (5, "3"); (4, "4");
              (3, "5"); (2, "6"); (1, "7"); (0, "8")]%string.
      cbn [lookup].
      repeat match goal with
             | |- context [?x =? ?y] => destruct (Z.eqb_spec x y)
             end; try reflexivity; exfalso; lia. }
    split.
    + split; [intros H; contradiction|].
      intros [s Hs]. congruence.
    + intros s Hs. congruence.
Qed.

Lemma get_rank_file_on_board row col :
  on_board row col ->
  exists f r,
    get_rank_file row col = Some (String f (String r EmptyString))
    /\ lookup String.eqb FILES_TO_COLS (String f EmptyString) = Some col
    /\ lookup String.eqb RANKS_TO_ROWS (String r EmptyString) = Some row.
Proof.
  intros Hon. each_square Hon; eexists; eexists; repeat split.
Qed.

(** X19: for a move between squares of the board [get_chess_notation]
    returns four characters, the file and rank of the start square followed
    by the file and rank of the end square, from which [FILES_TO_COLS] and
    [RANKS_TO_ROWS] give the four coordinates back. *)
Theorem get_chess_notation_decodes (m : Move) :
  on_board (start_row m) (start_col m) ->
  on_board (end_row m) (end_col m) ->
  exists f1 r1 f2 r2,
    get_chess_notation m
    = Some (String f1 (String r1 (String f2 (String r2 EmptyString))))
    /\ lookup String.eqb FILES_TO_COLS (String f1 EmptyString)
       = Some (start_col m)
    /\ lookup String.eqb RANKS_TO_ROWS (String r1 EmptyString)
       = Some (start_row m)
    /\ lookup String.eqb FILES_TO_COLS (String f2 EmptyString)
       = Some (end_col m)
    /\ lookup String.eqb RANKS_TO_ROWS (String r2 EmptyString)
       = Some (end_row m).
Proof.
  intros H1 H2.
  destruct (get_rank_file_on_board _ _ H1) as (f1 & r1 & E1 & A1 & B1).
  destruct (get_rank_file_on_board _ _ H2) as (f2 & r2 & E2 & A2 & B2).
  exists f1, r1, f2, r2. unfold get_chess_notation. rewrite E1, E2.
  repeat split; assumption.
Qed.

Lemma get_chess_notation_decodes_witness :
  exists m,
    Move_init (7, 1) (5, 2) (board (GameState_init NO_SQUARE)) false false
    = Some m
    /\ get_chess_notation m = Some "B1C3"%string.
Proof.
  destruct (Move_init (7, 1) (5, 2) (board (GameState_init NO_SQUARE))
              false false) as [m|] eqn:E; [|vm_compute in E; discriminate].
  exists m. split; [reflexivity|].
  assert (Hm : m = mkMove 7 1 5 2 (Piece White Knight) Empty false false false
                     7152)
    by (vm_compute in E; injection E as <-; reflexivity).
  destruct (get_chess_notation_decodes m)
    as (f1 & r1 & f2 & r2 & Hn & _).
  - rewrite Hm. vm_compute. intuition discriminate.
  - rewrite Hm. vm_compute. intuition discriminate.
  - rewrite Hn. rewrite Hm in Hn. vm_compute in Hn. injection Hn as <- <- <- <-.
    reflexivity.
Defined.

(** ** The moves follow the rules of movement *)

(** X20: on a state of a game every move that [generate_valid_moves]
    returns is a move of [returned], built by one of the four branches of
    the generator.  It is a castling move over free squares with the right
    of that wing held.  Or no check is reported and it is a move of
    [__get_all_possible_moves]: a pawn push onto free squares (two squares
    only from the start rank), a pawn capture of an enemy piece one step
    diagonally forward, an en-passant capture onto the recorded target, a
    knight jump or a slide of a rook, bishop or queen over free squares onto
    a free square or an enemy piece, each in agreement with the pin list;
    or one step of a king of the side to move onto a square not held by its
    own side for which the check detector reports no check.  Or the list of
    checks has exactly one entry and it is such a move, made by a king or
    ending on one of the blocking squares of that check.  Or a check is
    reported, the list of checks has not exactly one entry, and it is one
    step from the recorded location of the king, made by whatever stands
    there (a king, unless the king has been captured), onto a square not
    held by the side to move for which the detector reports no check. *)
Theorem generate_valid_moves_follows_rules (NO_VALUE : Z) (s s' : GameState)
    (moves : MoveDict) (m : Move) :
  NO_VALUE < 0 -> reachable NO_VALUE s ->
  generate_valid_moves NO_VALUE s = Some (moves, s') ->
  In m (dict_values moves) ->
  returned NO_VALUE s m.
Proof.
  intros HNV Hr Hgen Hin.
  apply (Inv_returned NO_VALUE s moves s' m); try assumption.
  apply reachable_Inv; assumption.
Qed.

Lemma generate_valid_moves_follows_rules_witness :
  exists moves s' m,
    generate_valid_moves NO_SQUARE state_en_passant = Some (moves, s')
    /\ dict_get moves 3423 = Some m
    /\ returned NO_SQUARE state_en_passant m.
Proof.
  destruct (generate_valid_moves NO_SQUARE state_en_passant)
    as [[moves s']|] eqn:E; [|vm_compute in E; discriminate].
  destruct (dict_get moves 3423) as [m|] eqn:Em;
    [|vm_compute in E; injection E as <- _; vm_compute in Em; discriminate].
  exists moves, s', m. split; [reflexivity|]. split; [exact Em|].
  apply (generate_valid_moves_follows_rules NO_SQUARE state_en_passant s'
           moves m).
  - reflexivity.
  - exact state_en_passant_reachable.
  - exact E.
  - exact (dict_get_in _ _ _ Em).
Defined.

Lemma king_move_flags NV b w a m :
  king_move NV b w a m -> is_castle m = false.
Proof.
  intros [d m' _ _ _ _ Hm]. apply (Move_init_squares _ _ _ _ _ _ Hm).
Qed.

Lemma possible_move_flags NV b w ep ps m :
  possible_move NV b w ep ps m -> is_castle m = false.
Proof.
  intros [a pd m' _ _ Hm|a m' _ _ Hm].
  - apply (piece_move_piece _ _ _ _ _ _ Hm).
  - apply (king_move_flags _ _ _ _ _ Hm).
Qed.

(** X21: on a state of a game a castling move is returned only for a side
    that still holds the right of that wing, whose king stands on its home
    square with the rook of that wing in its corner, and with every square
    between the two free; the move takes the king two squares along its
    rank. *)
Theorem castling_move_conditions (NO_VALUE : Z) (s s' : GameState)
    (moves : MoveDict) (m : Move) :
  NO_VALUE < 0 -> reachable NO_VALUE s ->
  generate_valid_moves NO_VALUE s = Some (moves, s') ->
  In m (dict_values moves) -> is_castle m = true ->
  let c := if white_to_move s then White else Black in
  let row := if white_to_move s then 7 else 0 in
  (start_row m, start_col m) = (row, 4)
  /\ end_row m = row
  /\ piece_at (board s) (row, 4) = Piece c King
  /\ ((end_col m = 6
       /\ (if white_to_move s then wks (current_castling_rights s)
           else bks (current_castling_rights s)) = true
       /\ piece_at (board s) (row, 7) = Piece c Rook
       /\ piece_at (board s) (row, 5) = Empty
       /\ piece_at (board s) (row, 6) = Empty)
      \/ (end_col m = 2
          /\ (if white_to_move s then wqs (current_castling_rights s)
              else bqs (current_castling_rights s)) = true
          /\ piece_at (board s) (row, 0) = Piece c Rook
          /\ piece_at (board s) (row, 1) = Empty
          /\ piece_at (board s) (row, 2) = Empty
          /\ piece_at (board s) (row, 3) = Empty)).
Proof.
  intros HNV Hr Hgen Hin Hc c row.
  pose proof (reachable_Inv NO_VALUE s HNV Hr) as Hinv.
  pose proof (Inv_generated _ _ _ _ _ Hinv Hgen Hin) as Hg.
  pose proof (generated_facts NO_VALUE HNV s Hinv m Hg) as Hm.
  destruct (mf_castle _ _ _ Hm Hc) as (Hst & Hk & _ & Hrow & Hside).
  assert (Hhome : home (ally_of (white_to_move s)) = (row, 4))
    by (unfold row; destruct (white_to_move s); reflexivity).
  assert (Hcol : ally_of (white_to_move s) = c)
    by (unfold c; destruct (white_to_move s); reflexivity).
  rewrite Hhome in Hst. rewrite Hst, Hcol in Hk.
  assert (Hsr : start_row m = row)
    by (unfold move_start in Hst; congruence).
  rewrite Hcol, Hsr in Hside.
  split; [exact Hst|]. split; [congruence|]. split; [exact Hk|].
  assert (Hcm : castle_move (board s) (white_to_move s)
                  (current_castling_rights s) (own_king_location s) m).
  { destruct Hg as [m _ Hp|ch m _ _ Hp _|m _ Hk'|m Hcm].
    - apply possible_move_flags in Hp. congruence.
    - apply possible_move_flags in Hp. congruence.
    - apply king_move_flags in Hk'. congruence.
    - exact Hcm. }
  destruct Hcm as [m Hright _ _ Hinit|m Hright _ _ _ Hinit];
    destruct (Move_init_squares _ _ _ _ _ _ Hinit) as (Hown & Hend & _);
    unfold move_end, add_sq in Hend; cbn [fst snd] in Hend;
    injection Hend as _ Hec;
    unfold move_start in Hst, Hown; injection Hst as _ Hsc;
    apply (f_equal snd) in Hown; cbn [snd] in Hown;
    destruct Hside as [(He6 & Hrook & H5 & H6)|(He2 & Hrook & H1 & H2 & H3)];
    try lia.
  - left. split; [exact He6|]. split; [|auto].
    destruct (white_to_move s); cbn in Hright;
      rewrite ?orb_false_r in Hright; exact Hright.
  - right. split; [exact He2|]. split; [|auto].
    destruct (white_to_move s); cbn in Hright;
      rewrite ?orb_false_r in Hright; exact Hright.
Qed.

Lemma castling_move_conditions_witness :
  exists moves s' m,
    generate_valid_moves NO_SQUARE state_pawn_h2 = Some (moves, s')
    /\ dict_get moves 7476 = Some m
    /\ is_castle m = true
    /\ (start_row m, start_col m) = (7, 4)
    /\ piece_at (board state_pawn_h2) (7, 4) = Piece White King.
Proof.
  destruct (generate_valid_moves NO_SQUARE state_pawn_h2)
    as [[moves s']|] eqn:E; [|vm_compute in E; discriminate].
  destruct (dict_get moves 7476) as [m|] eqn:Em;
    [|vm_compute in E; injection E as <- _; vm_compute in Em; discriminate].
  assert (Hc : is_castle m = true).
  { pose proof E as E0. vm_compute in E0. injection E0 as Hmv _.
    rewrite <- Hmv in Em. vm_compute in Em. injection Em as <-. reflexivity. }
  exists moves, s', m. split; [reflexivity|]. split; [exact Em|].
  split; [exact Hc|].
  destruct (castling_move_conditions NO_SQUARE state_pawn_h2 s' moves m)
    as (H1 & _ & H3 & _).
  - reflexivity.
  - exact state_pawn_h2_reachable.
  - exact E.
  - exact (dict_get_in _ _ _ Em).
  - exact Hc.
  - split; [exact H1|exact H3].
Defined.
(** ** What [find_move_minimax] can return *)

Lemma track_best_lt MD depth move score best g bm :
  exists bm',
    track_best MD Z.ltb depth move score best (mkChessAI g bm)
    = Some (Z.min best score, mkChessAI g bm').
Proof.
  unfold track_best.
  destruct (score <? best) eqn:E1.
  - assert (Z.min best score = score) as -> by lia.
    destruct (depth =? MD); eexists; reflexivity.
  - destruct (score =? best) eqn:E2.
    + assert (Z.min best score = best) as -> by lia.
      destruct (depth =? MD); eexists; reflexivity.
    + assert (Z.min best score = best) as -> by lia.
      eexists; reflexivity.
Qed.

Lemma for_loop_result {S X A} (P : A -> Prop) (xs : list X)
    (body : X -> A -> M S (ctl * A)) :
  (forall x a s r s', P a -> body x a s = Some (r, s') -> P (snd r)) ->
  forall a s r s', P a -> for_loop xs body a s = Some (r, s') -> P r.
Proof.
  intros Hbody. induction xs as [|x xs IH]; intros a s r s' Ha H.
  - cbn [for_loop] in H. unfold ret in H. injection H as <- _. exact Ha.
  - cbn [for_loop] in H. apply bind_some in H as ([c a'] & s1 & H1 & H).
    pose proof (Hbody _ _ _ _ _ Ha H1) as Ha'. cbn [fst snd] in *.
    destruct c.
    + apply (IH _ _ _ _ Ha' H).
    + unfold ret in H. injection H as <- _. exact Ha'.
Qed.

(** X22: whatever the depth, a value that [find_move_minimax] returns is
    [CHECKMATE] or [- CHECKMATE]: the board evaluation computed at depth 0
    is dropped, so the search only ends on positions without moves, and a
    maximum or minimum of such values is one of the two. *)
Theorem find_move_minimax_only_checkmate (NO_VALUE MAX_DEPTH : Z)
    (fuel : nat) (valid_moves : MoveDict) (wtm : bool) (depth : Z)
    (ai ai' : ChessAI) (v : Z) :
  find_move_minimax NO_VALUE MAX_DEPTH fuel valid_moves wtm depth ai
  = Some (v, ai') ->
  v = CHECKMATE \/ v = - CHECKMATE.
Proof.
  revert valid_moves wtm depth ai ai' v.
  induction fuel as [|f IH]; intros moves wtm depth ai ai' v H;
    [discriminate|].
  cbn [find_move_minimax] in H.
  apply bind_some in H as ([] & ai1 & _ & H).
  destruct wtm.
  - revert H.
    apply (for_loop_result (fun x => x = CHECKMATE \/ x = - CHECKMATE));
      [|right; reflexivity].
    intros move best a r a' Hbest Hb.
    apply bind_some in Hb as ([] & a1 & _ & Hb).
    apply bind_some in Hb as (nm & a2 & _ & Hb).
    apply bind_some in Hb as (score & a3 & Hrec & Hb).
    apply bind_some in Hb as (best' & a4 & Htb & Hb).
    apply bind_some in Hb as ([] & a5 & _ & Hb).
    unfold ret in Hb. injection Hb as <- _. cbn [snd].
    apply IH in Hrec. destruct a3 as [g3 bm3].
    destruct (track_best_max MAX_DEPTH depth move score best g3 bm3)
      as (bm' & Ht).
    rewrite Ht in Htb. injection Htb as <- _. lia.
  - revert H.
    apply (for_loop_result (fun x => x = CHECKMATE \/ x = - CHECKMATE));
      [|left; reflexivity].
    intros move best a r a' Hbest Hb.
    apply bind_some in Hb as ([] & a1 & _ & Hb).
    apply bind_some in Hb as (nm & a2 & _ & Hb).
    apply bind_some in Hb as (score & a3 & Hrec & Hb).
    apply bind_some in Hb as (best' & a4 & Htb & Hb).
    apply bind_some in Hb as ([] & a5 & _ & Hb).
    unfold ret in Hb. injection Hb as <- _. cbn [snd].
    apply IH in Hrec. destruct a3 as [g3 bm3].
    destruct (track_best_lt MAX_DEPTH depth move score best g3 bm3)
      as (bm' & Ht).
    rewrite Ht in Htb. injection Htb as <- _. lia.
Qed.

Lemma find_move_minimax_only_checkmate_witness :
  exists v ai',
    find_move_minimax NO_SQUARE 2 1 [] false 0
      (mkChessAI state_stalemate_generated []) = Some (v, ai')
    /\ (v = CHECKMATE \/ v = - CHECKMATE).
Proof.
  destruct (find_move_minimax NO_SQUARE 2 1 [] false 0
              (mkChessAI state_stalemate_generated []))
    as [[v ai']|] eqn:E; [|vm_compute in E; discriminate].
  exists v, ai'. split; [reflexivity|].
  apply (find_move_minimax_only_checkmate NO_SQUARE 2 1 [] false 0
           (mkChessAI state_stalemate_generated []) ai' v E).
Defined.

(** ** The list of best moves *)

Lemma track_best_after MD depth move score best g bm :
  track_best MD Z.gtb depth move score best (mkChessAI g bm)
  = Some (Z.max best score, mkChessAI g (best_after MD depth move score best bm)).
Proof.
  unfold track_best, best_after.
  destruct (score >? best) eqn:E1.
  - assert (Z.max best score = score) as -> by lia.
    destruct (depth =? MD); reflexivity.
  - destruct (score =? best) eqn:E2.
    + assert (Z.max best score = best) as -> by lia.
      destruct (depth =? MD); reflexivity.
    + assert (Z.max best score = best) as -> by lia.
      destruct (depth =? MD); reflexivity.
Qed.

Lemma keeps_best_ret {A} (a : A) : keeps_best (ret a).
Proof. intros ai a' ai' H. unfold ret in H. injection H as _ <-. reflexivity. Qed.

Lemma keeps_best_bind {A B} (m : M ChessAI A) (f : A -> M ChessAI B) :
  keeps_best m -> (forall a, keeps_best (f a)) -> keeps_best (bind m f).
Proof.
  intros Hm Hf ai b ai' H. apply bind_some in H as (a & ai1 & H1 & H2).
  rewrite (Hf _ _ _ _ H2). apply (Hm _ _ _ H1).
Qed.

Lemma keeps_best_on_game {A} (c : M GameState A) : keeps_best (on_game c).
Proof.
  intros ai a ai' H. unfold on_game in H.
  destruct (c (game_state ai)) as [[a0 g]|]; [|discriminate].
  injection H as _ <-. reflexivity.
Qed.

Lemma keeps_best_for_loop {X A} (xs : list X)
    (body : X -> A -> M ChessAI (ctl * A)) :
  (forall x a, keeps_best (body x a)) ->
  forall a, keeps_best (for_loop xs body a).
Proof.
  intros Hbody. induction xs as [|x xs IH]; intros a; cbn [for_loop].
  - apply keeps_best_ret.
  - apply keeps_best_bind; [apply Hbody|]. intros [[] a']; cbn [fst snd].
    + apply IH.
    + apply keeps_best_ret.
Qed.

Lemma keeps_best_score : keeps_best ai_score_board.
Proof.
  intros ai a ai' H. unfold ai_score_board, bind, gets, lift in H.
  destruct (score_board (game_state ai)); [|discriminate].
  injection H as _ <-. reflexivity.
Qed.

Lemma keeps_best_track MD depth move score best :
  depth <> MD -> keeps_best (track_best MD Z.gtb depth move score best).
Proof.
  intros Hd [g bm] a ai' H. rewrite track_best_after in H.
  injection H as _ <-. unfold best_after.
  destruct (Z.eqb_spec depth MD); [contradiction|reflexivity].
Qed.

(** Below the depth at which the best moves are recorded the searches do
    not touch the list. *)
Lemma find_move_negamax_keeps_best NV MD fuel :
  forall moves wtm depth,
    depth < MD -> keeps_best (find_move_negamax NV MD fuel moves wtm depth).
Proof.
  induction fuel as [|f IH]; intros moves wtm depth Hd;
    [intros ai a ai' H; discriminate|].
  cbn [find_move_negamax]. destruct (depth <=? 0).
  - apply keeps_best_bind; [apply keeps_best_score|]. intros sc.
    apply keeps_best_ret.
  - apply keeps_best_for_loop. intros move best.
    apply keeps_best_bind; [apply keeps_best_on_game|]. intros [].
    apply keeps_best_bind; [apply keeps_best_on_game|]. intros nm.
    apply keeps_best_bind; [apply IH; lia|]. intros r. cbv zeta.
    apply keeps_best_bind; [apply keeps_best_track; lia|]. intros best'.
    apply keeps_best_bind; [apply keeps_best_on_game|]. intros [].
    apply keeps_best_ret.
Qed.

Lemma find_move_negamax_alpha_beta_keeps_best NV MD fuel :
  forall moves alpha beta wtm depth,
    depth < MD ->
    keeps_best (find_move_negamax_alpha_beta NV MD fuel moves alpha beta
                  wtm depth).
Proof.
  induction fuel as [|f IH]; intros moves alpha beta wtm depth Hd;
    [intros ai a ai' H; discriminate|].
  cbn [find_move_negamax_alpha_beta]. destruct (depth <=? 0).
  - apply keeps_best_bind; [apply keeps_best_score|]. intros sc.
    apply keeps_best_ret.
  - apply keeps_best_bind; [|intros r; apply keeps_best_ret].
    apply keeps_best_for_loop. intros move [best al].
    apply keeps_best_bind; [apply keeps_best_on_game|]. intros [].
    apply keeps_best_bind; [apply keeps_best_on_game|]. intros nm.
    apply keeps_best_bind; [apply IH; lia|]. intros r. cbv zeta.
    apply keeps_best_bind; [apply keeps_best_track; lia|]. intros best'.
    apply keeps_best_bind; [apply keeps_best_on_game|]. intros [].
    destruct ((if best' >? al then best' else al) >=? beta);
      apply keeps_best_ret.
Qed.

Lemma random_choice_in {A} pick (l : list A) :
  l <> [] -> exists x, random_choice pick l = Some x /\ In x l.
Proof.
  intros Hne. destruct l as [|y l]; [contradiction|].
  unfold random_choice.
  destruct (nth_error (y :: l) (Nat.modulo pick (List.length (y :: l))))
    as [x|] eqn:E.
  - exists x. split; [reflexivity|]. apply (nth_error_In _ _ E).
  - apply nth_error_None in E.
    pose proof (Nat.mod_upper_bound pick (List.length (y :: l))
                  ltac:(cbn; lia)).
    lia.
Qed.

Lemma best_after_nonempty MD depth move score best bm :
  bm <> [] -> best_after MD depth move score best bm <> [].
Proof.
  intros H. unfold best_after. destruct (depth =? MD); [|exact H].
  destruct (score >? best); [discriminate|].
  destruct (score =? best); [|exact H].
  intros E. apply app_eq_nil in E as [_ E]. discriminate.
Qed.

Lemma best_after_first MD move score best bm :
  best <= score -> best_after MD MD move score best bm <> [].
Proof.
  intros H. unfold best_after. rewrite Z.eqb_refl.
  destruct (score >? best) eqn:E1; [discriminate|].
  assert (E2 : (score =? best) = true) by lia. rewrite E2.
  intros E. apply app_eq_nil in E as [_ E]. discriminate.
Qed.

Lemma best_after_in MD depth move score best bm m :
  In m (best_after MD depth move score best bm) -> m = move \/ In m bm.
Proof.
  unfold best_after. destruct (depth =? MD); [|auto].
  destruct (score >? best).
  - intros [<-|[]]. auto.
  - destruct (score =? best); [|auto].
    intros H. apply in_app_or in H as [H|[<-|[]]]; auto.
Qed.

(** One turn of the loop, with the list of best moves written out. *)
Lemma body_step_best {B} NV MD s g bm m depth best
    (rec : MoveDict -> M ChessAI Z) (K : Z -> M ChessAI B) nm c x c2 bm2 :
  NV < 0 -> Inv NV s -> log_ok s -> generated NV s m -> steady s g ->
  generate_valid_moves NV (made NV m s) = Some (nm, c) ->
  rec nm (mkChessAI c bm) = Some (x, mkChessAI c2 bm2) ->
  steady (made NV m s) c2 -> ep_fine NV c2 ->
  exists t',
    (on_game (make_move NV m) ;;;
     next_moves <- on_game (generate_valid_moves NV) ;;
     r <- rec next_moves ;;
     max_score' <- track_best MD Z.gtb depth m (- r) best ;;
     on_game (undo_move NV) ;;;
     K max_score') (mkChessAI g bm)
    = K (Z.max best (- x))
        (mkChessAI t' (best_after MD depth m (- x) best bm2))
    /\ steady s t' /\ ep_fine NV t'.
Proof.
  intros HNV Hinv Hlog Hgen Hst Hc Hrec Hst2 Hep2.
  destruct (descend NV HNV s Hinv m Hgen g Hst) as (Hmake & Hsame).
  rewrite Hc in Hsame.
  rewrite (bind_run _ _ _ _ _ (on_game_run _ _ bm _ _ Hmake)).
  rewrite (bind_run _ _ _ _ _ (on_game_run _ _ bm _ _ Hsame)).
  rewrite (bind_run _ _ _ _ _ Hrec).
  rewrite (bind_run _ _ _ _ _ (track_best_after MD depth m (- x) best c2 bm2)).
  destruct (ascend NV HNV s Hinv Hlog m Hgen c2 Hst2 Hep2)
    as (t' & Hundo & Hst' & Hep').
  rewrite (bind_run _ _ _ _ _ (on_game_run _ _ _ _ _ Hundo)).
  exists t'. auto.
Qed.

Section RootLoops.

Variables NV MD : Z.
Hypothesis HNV : NV < 0.
Variable f : nat.
Hypothesis IH : searches_agree NV MD f.
Hypothesis Hdepth : 0 < MD.
Hypothesis Hfuel : (Z.to_nat MD < S f)%nat.
Variable wtm : bool.
Variable s : GameState.
Hypothesis Hinv : Inv NV s.
Hypothesis Hlog : log_ok s.

(** The loop of [find_move_negamax] at the depth at which the best moves
    are recorded: the list it leaves holds moves of the loop only, and it is
    not empty once a move has been tried. *)
Lemma negamax_root_loop rest :
  (forall m, In m rest -> generated NV s m) ->
  forall m1 g1 bm1,
    - CHECKMATE <= m1 <= CHECKMATE -> steady s g1 -> ep_fine NV g1 ->
    exists v g1' bm1',
      for_loop rest
        (fun move max_score =>
           on_game (make_move NV move) ;;;
           next_moves <- on_game (generate_valid_moves NV) ;;
           r <- find_move_negamax NV MD f next_moves (negb wtm) (MD - 1) ;;
           let score := - r in
           max_score' <- track_best MD Z.gtb MD move score max_score ;;
           on_game (undo_move NV) ;;;
           ret (Continue, max_score'))
        m1 (mkChessAI g1 bm1)
      = Some (v, mkChessAI g1' bm1')
      /\ steady s g1' /\ ep_fine NV g1'
      /\ (forall m, In m bm1' -> In m bm1 \/ In m rest)
      /\ (bm1 <> [] \/ (rest <> [] /\ m1 = - CHECKMATE) -> bm1' <> []).
Proof.
  induction rest as [|m rest IHrest]; intros Hall m1 g1 bm1 Hm1 Hst Hep.
  - exists m1, g1, bm1. cbn [for_loop]. unfold ret.
    split; [reflexivity|]. split; [exact Hst|]. split; [exact Hep|].
    split; [auto|]. intros [H|[H _]]; [exact H|congruence].
  - assert (Hgen : generated NV s m) by (apply Hall; left; reflexivity).
    destruct (child_runs NV HNV s Hinv m Hgen) as (nm & c & Hc).
    destruct (child_node NV HNV s Hinv m Hgen nm c Hc)
      as (Hinv' & Hlog' & Hall' & Hstc & Hepc).
    destruct (IH (MD - 1) nm (negb wtm) (- CHECKMATE) CHECKMATE
                 (made NV m s) c bm1 [] ltac:(lia) Hinv' Hlog' Hall' Hstc Hepc
                 ltac:(lia) ltac:(unfold CHECKMATE; lia) ltac:(lia))
      as (x & _ & c1 & bmc & _ & _ & Hrec & _ & Hst1 & Hep1 & _ & _ & Hx & _).
    pose proof (find_move_negamax_keeps_best NV MD f nm (negb wtm) (MD - 1)
                  ltac:(lia) _ _ _ Hrec) as Hbm.
    cbn [best_moves] in Hbm. subst bmc.
    destruct (body_step_best NV MD s g1 bm1 m MD m1
                (fun nm => find_move_negamax NV MD f nm (negb wtm) (MD - 1))
                (fun max_score' => ret (Continue, max_score'))
                nm c x c1 bm1 HNV Hinv Hlog Hgen Hst Hc Hrec Hst1 Hep1)
      as (t' & Hbody & Hst' & Hep').
    destruct (IHrest (fun m' Hm' => Hall m' (or_intror Hm'))
                (Z.max m1 (- x)) t' (best_after MD MD m (- x) m1 bm1)
                ltac:(lia) Hst' Hep')
      as (v & g1' & bm1' & Hloop & Hstv & Hepv & Hin & Hne).
    exists v, g1', bm1'. cbn [for_loop].
    rewrite (bind_run _ _ _ _ _ Hbody). cbn [fst snd].
    split; [exact Hloop|]. split; [exact Hstv|]. split; [exact Hepv|].
    split.
    + intros m' Hm'. destruct (Hin m' Hm') as [H|H].
      * apply best_after_in in H as [->|H]; [right; left; reflexivity|].
        left. exact H.
      * right. right. exact H.
    + intros Hpre. apply Hne. left.
      destruct Hpre as [H|[_ H]].
      * apply best_after_nonempty, H.
      * apply best_after_first. lia.
Qed.

(** The same for the loop of [find_move_negamax_alpha_beta], which may stop
    before the end of the moves. *)
Lemma alpha_beta_root_loop alpha beta rest :
  - CHECKMATE <= alpha -> beta <= CHECKMATE ->
  (forall m, In m rest -> generated NV s m) ->
  forall m2 al g2 bm2,
    alpha <= al -> al < beta -> m2 <= al ->
    steady s g2 -> ep_fine NV g2 ->
    exists r a' g2' bm2',
      for_loop rest
        (fun move (acc : Z * Z) =>
           let '(max_score, alpha) := acc in
           on_game (make_move NV move) ;;;
           next_moves <- on_game (generate_valid_moves NV) ;;
           r <- find_move_negamax_alpha_beta NV MD f next_moves
                  (- beta) (- alpha) (negb wtm) (MD - 1) ;;
           let score := - r in
           max_score' <- track_best MD Z.gtb MD move score max_score ;;
           on_game (undo_move NV) ;;;
           let alpha' := if max_score' >? alpha then max_score' else alpha in
           if alpha' >=? beta
           then ret (Break, (max_score', alpha'))
           else ret (Continue, (max_score', alpha')))
        (m2, al) (mkChessAI g2 bm2)
      = Some ((r, a'), mkChessAI g2' bm2')
      /\ steady s g2' /\ ep_fine NV g2'
      /\ (forall m, In m bm2' -> In m bm2 \/ In m rest)
      /\ (bm2 <> [] \/ (rest <> [] /\ m2 = - CHECKMATE) -> bm2' <> []).
Proof.
  intros Halpha Hbeta.
  induction rest as [|m rest IHrest];
    intros Hall m2 al g2 bm2 Hal1 Hal2 Hm2 Hst Hep.
  - exists m2, al, g2, bm2. cbn [for_loop]. unfold ret.
    split; [reflexivity|]. split; [exact Hst|]. split; [exact Hep|].
    split; [auto|]. intros [H|[H _]]; [exact H|congruence].
  - assert (Hgen : generated NV s m) by (apply Hall; left; reflexivity).
    destruct (child_runs NV HNV s Hinv m Hgen) as (nm & c & Hc).
    destruct (child_node NV HNV s Hinv m Hgen nm c Hc)
      as (Hinv' & Hlog' & Hall' & Hstc & Hepc).
    destruct (IH (MD - 1) nm (negb wtm) (- beta) (- al)
                 (made NV m s) c bm2 bm2 ltac:(lia) Hinv' Hlog' Hall' Hstc Hepc
                 ltac:(lia) ltac:(lia) ltac:(lia))
      as (x & y & _ & _ & c2 & bmc & _ & Hrec & _ & _ & Hst2 & Hep2
          & Hx & Hxy).
    pose proof (find_move_negamax_alpha_beta_keeps_best NV MD f nm
                  (- beta) (- al) (negb wtm) (MD - 1) ltac:(lia) _ _ _ Hrec)
      as Hbm.
    cbn [best_moves] in Hbm. subst bmc.
    assert (Hy : - CHECKMATE <= y <= CHECKMATE)
      by (unfold within in Hxy; lia).
    destruct (body_step_best NV MD s g2 bm2 m MD m2
                (fun nm => find_move_negamax_alpha_beta NV MD f nm
                             (- beta) (- al) (negb wtm) (MD - 1))
                (fun max_score' =>
                   let alpha' := if max_score' >? al then max_score' else al in
                   if alpha' >=? beta
                   then ret (Break, (max_score', alpha'))
                   else ret (Continue, (max_score', alpha')))
                nm c y c2 bm2 HNV Hinv Hlog Hgen Hst Hc Hrec Hst2 Hep2)
      as (t' & Hbody & Hst' & Hep').
    cbv zeta in Hbody.
    assert (Hnew : best_after MD MD m (- y) m2 bm2 <> []
                   \/ ~ (bm2 <> [] \/ m2 = - CHECKMATE)).
    { destruct bm2 as [|b0 bm2'].
      - destruct (Z.eq_dec m2 (- CHECKMATE)) as [E|E].
        + left. apply best_after_first. lia.
        + right. intros [H|H]; congruence.
      - left. apply best_after_nonempty. discriminate. }
    cbn [for_loop]. unfold bind at 1.
    match goal with |- exists _ _ _ _, match ?c with _ => _ end = _ /\ _ =>
      change c with
        ((on_game (make_move NV m) ;;;
          next_moves <- on_game (generate_valid_moves NV) ;;
          r <- find_move_negamax_alpha_beta NV MD f next_moves
                 (- beta) (- al) (negb wtm) (MD - 1) ;;
          max_score' <- track_best MD Z.gtb MD m (- r) m2 ;;
          on_game (undo_move NV) ;;;
          (let alpha' := if max_score' >? al then max_score' else al in
           if alpha' >=? beta
           then ret (Break, (max_score', alpha'))
           else ret (Continue, (max_score', alpha'))))
           (mkChessAI g2 bm2))
    end.
    cbv zeta. rewrite Hbody.
    set (al' := if Z.max m2 (- y) >? al then Z.max m2 (- y) else al).
    assert (Hal' : al' = Z.max al (Z.max m2 (- y)))
      by (unfold al'; destruct (Z.max m2 (- y) >? al) eqn:E; lia).
    destruct (al' >=? beta) eqn:Ecut.
    + exists (Z.max m2 (- y)), al', t', (best_after MD MD m (- y) m2 bm2).
      unfold ret. cbn [fst snd].
      split; [reflexivity|]. split; [exact Hst'|]. split; [exact Hep'|].
      split.
      * intros m' Hm'. apply best_after_in in Hm' as [->|H];
          [right; left; reflexivity|left; exact H].
      * intros Hpre. destruct Hnew as [H|H]; [exact H|].
        exfalso. apply H. destruct Hpre as [Hp|[_ Hp]]; auto.
    + destruct (IHrest (fun m' Hm' => Hall m' (or_intror Hm'))
                  (Z.max m2 (- y)) al' t' (best_after MD MD m (- y) m2 bm2)
                  ltac:(lia) ltac:(lia) ltac:(lia) Hst' Hep')
        as (r & a' & g2' & bm2' & Hloop & Hstv & Hepv & Hin & Hne).
      exists r, a', g2', bm2'. unfold ret. cbn [fst snd].
      split; [exact Hloop|]. split; [exact Hstv|]. split; [exact Hepv|].
      split.
      * intros m' Hm'. destruct (Hin m' Hm') as [H|H].
        -- apply best_after_in in H as [->|H]; [right; left; reflexivity|].
           left. exact H.
        -- right. right. exact H.
      * intros Hpre. apply Hne. left.
        destruct Hnew as [H|H]; [exact H|].
        exfalso. apply H. destruct Hpre as [Hp|[_ Hp]]; auto.
Qed.

End RootLoops.

Lemma no_member_nil {A} (l : list A) : (forall x, In x l -> False) -> l = [].
Proof.
  destruct l as [|x l]; [reflexivity|]. intros H. exfalso.
  apply (H x). left. reflexivity.
Qed.

Lemma dict_values_nil (d : MoveDict) : dict_values d = [] -> d = [].
Proof. destruct d; [reflexivity|discriminate]. Qed.

(** X23: on a state of a game, with [MAX_DEPTH] at least 1 and a recursion
    bound above it, [NegamaxChessAI.find_move] returns one of the moves
    [generate_valid_moves] gives for the position, whatever number the
    random generator draws, and leaves the board, the side to move, the king
    locations, the castling rights, the move log and the log of castling
    rights as they were.  The en-passant target is not among these fields:
    [undo_move] does not restore it.  When the position has no move
    (checkmate or stalemate) the list of best moves stays empty and
    [random.choice] raises. *)
Theorem Negamax_find_move_legal (NO_VALUE MAX_DEPTH : Z) (p : GameState)
    (fuel pick : nat) (bm0 : list Move) :
  NO_VALUE < 0 -> reachable NO_VALUE p ->
  0 < MAX_DEPTH -> (Z.to_nat MAX_DEPTH < fuel)%nat ->
  exists moves p1,
    generate_valid_moves NO_VALUE p = Some (moves, p1)
    /\ (moves = [] ->
        Negamax_find_move NO_VALUE MAX_DEPTH fuel pick (mkChessAI p bm0)
        = None)
    /\ (moves <> [] ->
        exists m ai',
          Negamax_find_move NO_VALUE MAX_DEPTH fuel pick (mkChessAI p bm0)
          = Some (m, ai')
          /\ In m (dict_values moves)
          /\ board (game_state ai') = board p
          /\ white_to_move (game_state ai') = white_to_move p
          /\ white_king_location (game_state ai') = white_king_location p
          /\ black_king_location (game_state ai') = black_king_location p
          /\ current_castling_rights (game_state ai')
             = current_castling_rights p
          /\ move_log (game_state ai') = move_log p
          /\ castle_rights_log (game_state ai') = castle_rights_log p).
Proof.
  intros HNV Hr Hmd Hfuel.
  pose proof (reachable_Inv NO_VALUE p HNV Hr) as Hinv.
  destruct (generate_valid_moves_runs NO_VALUE p HNV (Inv_Gen_ok _ _ Hinv))
    as (moves & p1 & Hgen).
  exists moves, p1. split; [exact Hgen|].
  pose proof (generate_steady _ _ _ _ Hinv Hgen) as Hst.
  assert (Hep : ep_fine NO_VALUE p1).
  { destruct (generate_same_core _ _ _ _ Hinv Hgen) as (_ & _ & _ & _ & C5 & _).
    unfold ep_fine. rewrite C5. apply ep_ok_fine, (inv_ep _ _ Hinv). }
  destruct fuel as [|f]; [lia|].
  destruct (negamax_root_loop NO_VALUE MAX_DEPTH HNV f
              (searches_agree_all NO_VALUE MAX_DEPTH f HNV) Hmd Hfuel
              (white_to_move p1) p Hinv (reachable_log_ok _ _ HNV Hr)
              (dict_values moves)
              (fun m Hin => Inv_generated _ _ _ _ _ Hinv Hgen Hin)
              (- CHECKMATE) p1 [] ltac:(unfold CHECKMATE; lia) Hst Hep)
    as (v & g' & bm' & Hloop & Hst' & _ & Hin & Hne).
  assert (Hrun :
            Negamax_find_move NO_VALUE MAX_DEPTH (S f) pick (mkChessAI p bm0)
            = lift (random_choice pick bm') (mkChessAI g' bm')).
  { unfold Negamax_find_move.
    unfold bind at 1, modify at 1. unfold set_best_moves. cbn [game_state].
    rewrite (bind_run _ _ _ _ _ (on_game_run _ _ [] _ _ Hgen)).
    unfold bind at 1, gets at 1. cbn [game_state].
    cbn [find_move_negamax].
    replace (MAX_DEPTH <=? 0) with false by lia.
    rewrite (bind_run _ _ _ _ _ Hloop).
    unfold bind at 1, gets at 1. cbn [best_moves]. reflexivity. }
  rewrite Hrun.
  split.
  - intros ->. cbn [dict_values map] in Hin.
    assert (bm' = []) as ->.
    { apply no_member_nil. intros x Hx. destruct (Hin x Hx) as [[]|[]]. }
    reflexivity.
  - intros Hmoves.
    assert (Hbm : bm' <> []).
    { apply Hne. right. split; [|reflexivity].
      intros E. apply Hmoves, dict_values_nil, E. }
    destruct (random_choice_in pick bm' Hbm) as (m & Hm & Hmin).
    exists m, (mkChessAI g' bm'). unfold lift. rewrite Hm.
    split; [reflexivity|]. split.
    { destruct (Hin m Hmin) as [[]|H]. exact H. }
    cbn [game_state].
    destruct Hst' as (A1 & A2 & A3 & A4 & A5 & A6 & A7 & _).
    repeat split; assumption.
Qed.

Lemma Negamax_find_move_legal_witness :
  exists moves p1 m ai',
    generate_valid_moves NO_SQUARE state_e4 = Some (moves, p1)
    /\ Negamax_find_move NO_SQUARE 1 2 5 (mkChessAI state_e4 [])
       = Some (m, ai')
    /\ In m (dict_values moves).
Proof.
  destruct (Negamax_find_move_legal NO_SQUARE 1 state_e4 2 5 [])
    as (moves & p1 & Hgen & _ & Hsome).
  - reflexivity.
  - exact state_e4_reachable.
  - reflexivity.
  - vm_compute. lia.
  - destruct Hsome as (m & ai' & H1 & H2 & _).
    + intros ->. vm_compute in Hgen. discriminate.
    + exists moves, p1, m, ai'. auto.
Defined.

(** X24: the same for [NegamaxAlphaBetaChessAI.find_move], the AI the main
    loop plays with: on a state of a game, with [MAX_DEPTH] at least 1 and
    a recursion bound above it, it returns one of the moves
    [generate_valid_moves] gives for the position, whatever number the
    random generator draws, and leaves the board, the side to move, the king
    locations, the castling rights, the move log and the log of castling
    rights as they were.  The en-passant target is not among these fields:
    [undo_move] does not restore it.  When the position has no move
    [random.choice] raises on the empty list. *)
Theorem NegamaxAlphaBeta_find_move_legal (NO_VALUE MAX_DEPTH : Z)
    (p : GameState) (fuel pick : nat) (bm0 : list Move) :
  NO_VALUE < 0 -> reachable NO_VALUE p ->
  0 < MAX_DEPTH -> (Z.to_nat MAX_DEPTH < fuel)%nat ->
  exists moves p1,
    generate_valid_moves NO_VALUE p = Some (moves, p1)
    /\ (moves = [] ->
        NegamaxAlphaBeta_find_move NO_VALUE MAX_DEPTH fuel pick
          (mkChessAI p bm0) = None)
    /\ (moves <> [] ->
        exists m ai',
          NegamaxAlphaBeta_find_move NO_VALUE MAX_DEPTH fuel pick
            (mkChessAI p bm0) = Some (m, ai')
          /\ In m (dict_values moves)
          /\ board (game_state ai') = board p
          /\ white_to_move (game_state ai') = white_to_move p
          /\ white_king_location (game_state ai') = white_king_location p
          /\ black_king_location (game_state ai') = black_king_location p
          /\ current_castling_rights (game_state ai')
             = current_castling_rights p
          /\ move_log (game_state ai') = move_log p
          /\ castle_rights_log (game_state ai') = castle_rights_log p).
Proof.
  intros HNV Hr Hmd Hfuel.
  pose proof (reachable_Inv NO_VALUE p HNV Hr) as Hinv.
  destruct (generate_valid_moves_runs NO_VALUE p HNV (Inv_Gen_ok _ _ Hinv))
    as (moves & p1 & Hgen).
  exists moves, p1. split; [exact Hgen|].
  pose proof (generate_steady _ _ _ _ Hinv Hgen) as Hst.
  assert (Hep : ep_fine NO_VALUE p1).
  { destruct (generate_same_core _ _ _ _ Hinv Hgen) as (_ & _ & _ & _ & C5 & _).
    unfold ep_fine. rewrite C5. apply ep_ok_fine, (inv_ep _ _ Hinv). }
  destruct fuel as [|f]; [lia|].
  destruct (alpha_beta_root_loop NO_VALUE MAX_DEPTH HNV f
              (searches_agree_all NO_VALUE MAX_DEPTH f HNV) Hmd Hfuel
              (white_to_move p1) p Hinv (reachable_log_ok _ _ HNV Hr)
              (- CHECKMATE) CHECKMATE (dict_values moves)
              ltac:(lia) ltac:(lia)
              (fun m Hin => Inv_generated _ _ _ _ _ Hinv Hgen Hin)
              (- CHECKMATE) (- CHECKMATE) p1 []
              ltac:(lia) ltac:(unfold CHECKMATE; lia) ltac:(lia) Hst Hep)
    as (r & a' & g' & bm' & Hloop & Hst' & _ & Hin & Hne).
  assert (Hrun :
            NegamaxAlphaBeta_find_move NO_VALUE MAX_DEPTH (S f) pick
              (mkChessAI p bm0)
            = lift (random_choice pick bm') (mkChessAI g' bm')).
  { unfold NegamaxAlphaBeta_find_move.
    unfold bind at 1, modify at 1. unfold set_best_moves. cbn [game_state].
    rewrite (bind_run _ _ _ _ _ (on_game_run _ _ [] _ _ Hgen)).
    unfold bind at 1, gets at 1. cbn [game_state].
    cbn [find_move_negamax_alpha_beta].
    replace (MAX_DEPTH <=? 0) with false by lia.
    unfold bind at 1. rewrite (bind_run _ _ _ _ _ Hloop).
    unfold ret at 1. unfold bind at 1, gets at 1. cbn [best_moves].
    reflexivity. }
  rewrite Hrun.
  split.
  - intros ->. cbn [dict_values map] in Hin.
    assert (bm' = []) as ->.
    { apply no_member_nil. intros x Hx. destruct (Hin x Hx) as [[]|[]]. }
    reflexivity.
  - intros Hmoves.
    assert (Hbm : bm' <> []).
    { apply Hne. right. split; [|reflexivity].
      intros E. apply Hmoves, dict_values_nil, E. }
    destruct (random_choice_in pick bm' Hbm) as (m & Hm & Hmin).
    exists m, (mkChessAI g' bm'). unfold lift. rewrite Hm.
    split; [reflexivity|]. split.
    { destruct (Hin m Hmin) as [[]|H]. exact H. }
    cbn [game_state].
    destruct Hst' as (A1 & A2 & A3 & A4 & A5 & A6 & A7 & _).
    repeat split; assumption.
Qed.

Lemma NegamaxAlphaBeta_find_move_legal_witness :
  exists moves p1 m ai',
    generate_valid_moves NO_SQUARE state_e4 = Some (moves, p1)
    /\ NegamaxAlphaBeta_find_move NO_SQUARE 1 2 5 (mkChessAI state_e4 [])
       = Some (m, ai')
    /\ In m (dict_values moves).
Proof.
  destruct (NegamaxAlphaBeta_find_move_legal NO_SQUARE 1 state_e4 2 5 [])
    as (moves & p1 & Hgen & _ & Hsome).
  - reflexivity.
  - exact state_e4_reachable.
  - reflexivity.
  - vm_compute. lia.
  - destruct Hsome as (m & ai' & H1 & H2 & _).
    + intros ->. vm_compute in Hgen. discriminate.
    + exists moves, p1, m, ai'. auto.
Defined.
(** ** The greedy search *)

(** X25: in [GreedyChessAI.find_move] a reply of the opponent is always
    scored by the material count: [make_move] has just cleared the
    checkmate and stalemate flags, and nothing sets them before they are
    tested, so the two branches for a mate or a stalemate after the reply
    are never taken. *)
Theorem greedy_reply_scores_material (NO_VALUE : Z) (opponent_move : Move)
    (best : Z) (ai ai' : ChessAI) (r : ctl * Z) :
  greedy_reply NO_VALUE opponent_move best ai = Some (r, ai') ->
  exists g1,
    make_move NO_VALUE opponent_move (game_state ai) = Some (tt, g1)
    /\ checkmate g1 = false /\ stalemate g1 = false
    /\ r = (Continue, Z.max best (- score_material g1)).
Proof.
  intros H. unfold greedy_reply in H.
  apply bind_some in H as ([] & a1 & Hmake & H).
  unfold on_game in Hmake.
  destruct (make_move NO_VALUE opponent_move (game_state ai))
    as [[[] g1]|] eqn:Em; [|discriminate].
  injection Hmake as <-.
  destruct (make_move_clears_flags _ _ _ _ Em) as [Hc Hs].
  exists g1. split; [reflexivity|]. split; [exact Hc|]. split; [exact Hs|].
  unfold bind at 1, gets at 1 in H. cbn [game_state] in H.
  rewrite Hc, Hs in H.
  apply bind_some in H as ([] & a2 & _ & H).
  unfold ret in H. injection H as <- _. f_equal.
  destruct (- score_material g1 >? best) eqn:E; lia.
Qed.

Lemma greedy_reply_scores_material_witness :
  exists r ai' g1,
    greedy_reply NO_SQUARE
      (mkMove 1 4 3 4 (Piece Black Pawn) Empty false false false 1434)
      (- CHECKMATE) (mkChessAI state_e4 []) = Some (r, ai')
    /\ make_move NO_SQUARE
         (mkMove 1 4 3 4 (Piece Black Pawn) Empty false false false 1434)
         state_e4 = Some (tt, g1)
    /\ r = (Continue, Z.max (- CHECKMATE) (- score_material g1)).
Proof.
  destruct (greedy_reply NO_SQUARE
              (mkMove 1 4 3 4 (Piece Black Pawn) Empty false false false 1434)
              (- CHECKMATE) (mkChessAI state_e4 []))
    as [[r ai']|] eqn:E; [|vm_compute in E; discriminate].
  destruct (greedy_reply_scores_material _ _ _ _ _ _ E)
    as (g1 & H1 & _ & _ & H2).
  exists r, ai', g1. auto.
Defined.
(** ** The depth of [find_move_minimax] *)

Lemma track_best_any MD better depth move score best g bm :
  exists bm',
    track_best MD better depth move score best (mkChessAI g bm)
    = Some (if better score best then score else best, mkChessAI g bm').
Proof.
  unfold track_best.
  destruct (better score best).
  - destruct (depth =? MD); eexists; reflexivity.
  - destruct (score =? best); [|eexists; reflexivity].
    destruct (depth =? MD); eexists; reflexivity.
Qed.

Lemma minimax_leaf_test {B} depth g bm (K : M ChessAI B) :
  board_8x8 (board g) ->
  ((if depth <=? 0 then ai_score_board ;;; ret tt else ret tt) ;;; K)
    (mkChessAI g bm)
  = K (mkChessAI g bm).
Proof.
  intros Hb. destruct (depth <=? 0); [|reflexivity].
  destruct (score_board_bound g Hb) as (sc & Hsc & _).
  unfold ai_score_board, bind, gets, lift, ret. cbn [game_state].
  rewrite Hsc. reflexivity.
Qed.

Lemma for_loop_cons_run {S X A Y} (body : X -> A -> M S (ctl * A)) x t a
    (st st' : S) (c : M S Y) (k : Y -> M S (ctl * A)) :
  body x a st = bind c k st' ->
  for_loop (x :: t) body a st
  = match c st' with
    | Some (y, st2) =>
        match k y st2 with
        | Some (r, st3) =>
            match fst r with
            | Continue => for_loop t body (snd r) st3
            | Break => ret (snd r) st3
            end
        | None => None
        end
    | None => None
    end.
Proof.
  intros H. cbn [for_loop]. unfold bind at 1. rewrite H. unfold bind.
  destruct (c st') as [[y st2]|]; [|reflexivity].
  destruct (k y st2) as [[[[] a'] st3]|]; reflexivity.
Qed.

Section MinimaxLoops.

Variables NV MD : Z.
Hypothesis HNV : NV < 0.
Variable f : nat.
Hypothesis IH : minimax_any_depth NV MD f.
Variable better : Z -> Z -> bool.
Variable wtm' : bool.
Variable s : GameState.
Hypothesis Hinv : Inv NV s.
Hypothesis Hlog : log_ok s.

(** The body of a loop of [find_move_minimax] down to the recursive call. *)
Lemma minimax_body_down m nm c depth best g bm :
  generated NV s m -> steady s g ->
  generate_valid_moves NV (made NV m s) = Some (nm, c) ->
  (on_game (make_move NV m) ;;;
   next_moves <- on_game (generate_valid_moves NV) ;;
   score <- find_move_minimax NV MD f next_moves wtm' (depth - 1) ;;
   best' <- track_best MD better depth m score best ;;
   on_game (undo_move NV) ;;;
   ret (Continue, best')) (mkChessAI g bm)
  = (score <- find_move_minimax NV MD f nm wtm' (depth - 1) ;;
     best' <- track_best MD better depth m score best ;;
     on_game (undo_move NV) ;;;
     ret (Continue, best')) (mkChessAI c bm).
Proof.
  intros Hgen Hst Hc.
  destruct (descend NV HNV s Hinv m Hgen g Hst) as (Hmake & Hsame).
  rewrite Hc in Hsame.
  rewrite (bind_run _ _ _ _ _ (on_game_run _ _ bm _ _ Hmake)).
  rewrite (bind_run _ _ _ _ _ (on_game_run _ _ bm _ _ Hsame)).
  reflexivity.
Qed.

(** The body from the result of the recursive call on. *)
Lemma minimax_body_up m depth best x c1 bmc :
  generated NV s m -> steady (made NV m s) c1 -> ep_fine NV c1 ->
  exists t' bm',
    (best' <- track_best MD better depth m x best ;;
     on_game (undo_move NV) ;;;
     ret (Continue, best')) (mkChessAI c1 bmc)
    = Some ((Continue, if better x best then x else best), mkChessAI t' bm')
    /\ steady s t' /\ ep_fine NV t'.
Proof.
  intros Hgen Hst Hep.
  destruct (track_best_any MD better depth m x best c1 bmc) as (bm' & Ht).
  rewrite (bind_run _ _ _ _ _ Ht).
  destruct (ascend NV HNV s Hinv Hlog m Hgen c1 Hst Hep)
    as (t' & Hundo & Hst' & Hep').
  rewrite (bind_run _ _ _ _ _ (on_game_run _ _ bm' _ _ Hundo)).
  exists t', bm'. auto.
Qed.

(** The loops of two runs that differ in their depth go side by side. *)
Lemma minimax_loops_agree d1 d2 rest :
  (forall m, In m rest -> generated NV s m) ->
  forall best g1 bm1 g2 bm2,
    steady s g1 -> ep_fine NV g1 -> steady s g2 -> ep_fine NV g2 ->
    same_outcome NV s
      (for_loop rest
         (fun move best =>
            on_game (make_move NV move) ;;;
            next_moves <- on_game (generate_valid_moves NV) ;;
            score <- find_move_minimax NV MD f next_moves wtm' (d1 - 1) ;;
            best' <- track_best MD better d1 move score best ;;
            on_game (undo_move NV) ;;;
            ret (Continue, best'))
         best (mkChessAI g1 bm1))
      (for_loop rest
         (fun move best =>
            on_game (make_move NV move) ;;;
            next_moves <- on_game (generate_valid_moves NV) ;;
            score <- find_move_minimax NV MD f next_moves wtm' (d2 - 1) ;;
            best' <- track_best MD better d2 move score best ;;
            on_game (undo_move NV) ;;;
            ret (Continue, best'))
         best (mkChessAI g2 bm2)).
Proof.
  induction rest as [|m rest IHrest];
    intros Hall best g1 bm1 g2 bm2 Hst1 Hep1 Hst2 Hep2.
  - cbn [for_loop]. unfold ret, same_outcome. cbn [game_state]. auto.
  - assert (Hgen : generated NV s m) by (apply Hall; left; reflexivity).
    destruct (child_runs NV HNV s Hinv m Hgen) as (nm & c & Hc).
    destruct (child_node NV HNV s Hinv m Hgen nm c Hc)
      as (Hinv' & Hlog' & Hall' & Hstc & Hepc).
    pose proof (IH (d1 - 1) (d2 - 1) nm wtm' (made NV m s) c bm1 c bm2
                  Hinv' Hlog' Hall' Hstc Hepc Hstc Hepc) as Hrec.
    match goal with
    | |- same_outcome _ _ (for_loop _ ?b1 _ _) (for_loop _ ?b2 _ _) =>
        set (body1 := b1) in *; set (body2 := b2) in *
    end.
    rewrite (for_loop_cons_run body1 m rest best (mkChessAI g1 bm1)
               (mkChessAI c bm1) _ _
               (minimax_body_down m nm c d1 best g1 bm1 Hgen Hst1 Hc)).
    rewrite (for_loop_cons_run body2 m rest best (mkChessAI g2 bm2)
               (mkChessAI c bm2) _ _
               (minimax_body_down m nm c d2 best g2 bm2 Hgen Hst2 Hc)).
    destruct (find_move_minimax NV MD f nm wtm' (d1 - 1) (mkChessAI c bm1))
      as [[x1 [c1 bmc1]]|];
      destruct (find_move_minimax NV MD f nm wtm' (d2 - 1) (mkChessAI c bm2))
        as [[x2 [c2 bmc2]]|]; cbn [same_outcome game_state] in Hrec;
      try contradiction; [|exact I].
    destruct Hrec as (<- & Hs1 & He1 & Hs2 & He2).
    destruct (minimax_body_up m d1 best x1 c1 bmc1 Hgen Hs1 He1)
      as (t1 & b1 & Hup1 & Ht1 & Hf1).
    destruct (minimax_body_up m d2 best x1 c2 bmc2 Hgen Hs2 He2)
      as (t2 & b2 & Hup2 & Ht2 & Hf2).
    rewrite Hup1, Hup2. cbn [fst snd].
    apply IHrest; auto.
    intros m' Hm'. apply Hall. right. exact Hm'.
Qed.

End MinimaxLoops.

Lemma minimax_any_depth_all NV MD fuel : NV < 0 -> minimax_any_depth NV MD fuel.
Proof.
  intros HNV. induction fuel as [|f IH];
    intros d1 d2 valid_moves wtm s g1 bm1 g2 bm2 Hinv Hlog Hall
           Hst1 Hep1 Hst2 Hep2.
  { exact I. }
  cbn [find_move_minimax].
  assert (Hb : forall g, steady s g -> board_8x8 (board g)).
  { intros g (-> & _). apply (inv_board _ _ Hinv). }
  rewrite (minimax_leaf_test d1 g1 bm1 _ (Hb _ Hst1)).
  rewrite (minimax_leaf_test d2 g2 bm2 _ (Hb _ Hst2)).
  destruct wtm.
  - apply (minimax_loops_agree NV MD HNV f IH Z.gtb false s Hinv Hlog d1 d2
             (dict_values valid_moves) Hall); assumption.
  - apply (minimax_loops_agree NV MD HNV f IH Z.ltb true s Hinv Hlog d1 d2
             (dict_values valid_moves) Hall); assumption.
Qed.

(** X26: [find_move_minimax] does not use its depth to stop the search.
    Called on the moves of a position of the game with two different
    depths, it either raises both times or returns the same value both
    times; the depth only decides whether the best moves are recorded. *)
Theorem find_move_minimax_ignores_depth (NO_VALUE MAX_DEPTH : Z)
    (p p1 : GameState) (valid_moves : MoveDict) (fuel : nat) (wtm : bool)
    (d1 d2 : Z) (bm1 bm2 : list Move) :
  NO_VALUE < 0 -> reachable NO_VALUE p ->
  generate_valid_moves NO_VALUE p = Some (valid_moves, p1) ->
  option_map fst
    (find_move_minimax NO_VALUE MAX_DEPTH fuel valid_moves wtm d1
       (mkChessAI p1 bm1))
  = option_map fst
      (find_move_minimax NO_VALUE MAX_DEPTH fuel valid_moves wtm d2
         (mkChessAI p1 bm2)).
Proof.
  intros HNV Hr Hgen.
  pose proof (reachable_Inv NO_VALUE p HNV Hr) as Hinv.
  pose proof (generate_steady _ _ _ _ Hinv Hgen) as Hst.
  assert (Hep : ep_fine NO_VALUE p1).
  { destruct (generate_same_core _ _ _ _ Hinv Hgen) as (_ & _ & _ & _ & C5 & _).
    unfold ep_fine. rewrite C5. apply ep_ok_fine, (inv_ep _ _ Hinv). }
  pose proof (minimax_any_depth_all NO_VALUE MAX_DEPTH fuel HNV d1 d2
                valid_moves wtm p p1 bm1 p1 bm2 Hinv
                (reachable_log_ok _ _ HNV Hr)
                (fun m Hin => Inv_generated _ _ _ _ _ Hinv Hgen Hin)
                Hst Hep Hst Hep) as H.
  unfold same_outcome in H.
  destruct (find_move_minimax NO_VALUE MAX_DEPTH fuel valid_moves wtm d1
              (mkChessAI p1 bm1)) as [[v1 a1]|];
    destruct (find_move_minimax NO_VALUE MAX_DEPTH fuel valid_moves wtm d2
                (mkChessAI p1 bm2)) as [[v2 a2]|];
    try contradiction; [|reflexivity].
  destruct H as (-> & _). reflexivity.
Qed.

Lemma find_move_minimax_ignores_depth_witness :
  exists moves p1,
    generate_valid_moves NO_SQUARE state_e4 = Some (moves, p1)
    /\ option_map fst
         (find_move_minimax NO_SQUARE 2 3 moves false 2 (mkChessAI p1 []))
       = option_map fst
           (find_move_minimax NO_SQUARE 2 3 moves false 0 (mkChessAI p1 [])).
Proof.
  destruct (generate_valid_moves NO_SQUARE state_e4) as [[moves p1]|] eqn:E;
    [|vm_compute in E; discriminate].
  exists moves, p1. split; [reflexivity|].
  apply (find_move_minimax_ignores_depth NO_SQUARE 2 state_e4 p1 moves 3 false
           2 0 [] []).
  - unfold NO_SQUARE. lia.
  - exact state_e4_reachable.
  - exact E.
Defined.
(** ** The greedy search returns a move of the position *)

Lemma fold_left_bound {X} (f : Z -> X -> Z) (B : Z) (xs : list X) :
  (forall a x, In x xs -> Z.abs (f a x - a) <= B) ->
  forall a, Z.abs (fold_left f xs a - a) <= B * Z.of_nat (List.length xs).
Proof.
  induction xs as [|x xs IH]; intros Hf a.
  - cbn. lia.
  - cbn [fold_left List.length].
    pose proof (Hf a x (or_introl eq_refl)).
    pose proof (IH (fun a0 y Hy => Hf a0 y (or_intror Hy)) (f a x)).
    lia.
Qed.

Lemma score_material_tile_bound ally enemy score tile :
  Z.abs (score_material_tile ally enemy score tile - score) <= 900.
Proof.
  unfold score_material_tile.
  destruct tile as [|c k]; [lia|].
  destruct (color_eqb c ally); [destruct k; cbn; lia|].
  destruct (color_eqb c enemy); [destruct k; cbn; lia|lia].
Qed.

Lemma score_material_bound s :
  board_8x8 (board s) -> - CHECKMATE <= score_material s <= CHECKMATE.
Proof.
  intros (Hlen & Hrows). unfold score_material. cbv zeta.
  pose proof (fold_left_bound
                (fun score row =>
                   fold_left (score_material_tile (ally_of (white_to_move s))
                                (enemy_of (white_to_move s))) row score)
                7200 (board s)) as H.
  assert (Hrow : forall a row, In row (board s) ->
            Z.abs (fold_left (score_material_tile (ally_of (white_to_move s))
                                (enemy_of (white_to_move s))) row a - a)
            <= 7200).
  { intros a row Hin.
    pose proof (fold_left_bound
                  (score_material_tile (ally_of (white_to_move s))
                     (enemy_of (white_to_move s))) 900 row
                  (fun a0 x _ => score_material_tile_bound _ _ a0 x) a) as Hr.
    rewrite Forall_forall in Hrows. rewrite (Hrows row Hin) in Hr.
    cbn in Hr. lia. }
  specialize (H Hrow 0). rewrite Hlen in H. unfold CHECKMATE.
  cbn in H. lia.
Qed.

Section GreedyReplies.

Variable NV : Z.
Hypothesis HNV : NV < 0.
Variable s : GameState.
Hypothesis Hinv : Inv NV s.
Hypothesis Hlog : log_ok s.

(** One reply of the opponent is made, scored and taken back. *)
Lemma greedy_reply_runs m best g bm :
  generated NV s m -> steady s g -> - CHECKMATE <= best <= CHECKMATE ->
  exists v g',
    greedy_reply NV m best (mkChessAI g bm)
    = Some ((Continue, v), mkChessAI g' bm)
    /\ steady s g' /\ ep_fine NV g' /\ best <= v <= CHECKMATE.
Proof.
  intros Hgen Hst Hbest.
  destruct (descend NV HNV s Hinv m Hgen g Hst) as (Hmake & _).
  destruct (make_move_clears_flags _ _ _ _ Hmake) as (Hc & Hs).
  pose proof (Inv_made NV s m HNV Hinv Hgen) as Hinv'.
  destruct (made_steady NV m s g Hst) as (Hst' & _).
  assert (Hep : ep_fine NV (made NV m g)).
  { pose proof (ep_ok_fine _ _ (inv_ep _ _ Hinv')) as H. exact H. }
  destruct (ascend NV HNV s Hinv Hlog m Hgen (made NV m g) Hst' Hep)
    as (t' & Hundo & Hstt & Hept).
  assert (Hb : board_8x8 (board (made NV m g))).
  { destruct Hst' as (-> & _). apply (inv_board _ _ Hinv'). }
  pose proof (score_material_bound _ Hb) as Hscore.
  unfold greedy_reply.
  rewrite (bind_run _ _ _ _ _ (on_game_run _ _ bm _ _ Hmake)).
  unfold bind at 1, gets at 1. cbn [game_state]. rewrite Hc, Hs.
  rewrite (bind_run _ _ _ _ _ (on_game_run _ _ bm _ _ Hundo)).
  unfold ret. eexists. exists t'. split; [reflexivity|].
  split; [exact Hstt|]. split; [exact Hept|].
  destruct (- score_material (made NV m g) >? best) eqn:E; lia.
Qed.

Lemma greedy_replies_run rest :
  (forall m, In m rest -> generated NV s m) ->
  forall best g bm,
    steady s g -> ep_fine NV g -> - CHECKMATE <= best <= CHECKMATE ->
    exists v g',
      for_loop rest (greedy_reply NV) best (mkChessAI g bm)
      = Some (v, mkChessAI g' bm)
      /\ steady s g' /\ ep_fine NV g' /\ best <= v <= CHECKMATE.
Proof.
  induction rest as [|m rest IHrest]; intros Hall best g bm Hst Hep Hbest.
  - exists best, g. cbn [for_loop]. unfold ret.
    split; [reflexivity|]. split; [exact Hst|]. split; [exact Hep|lia].
  - destruct (greedy_reply_runs m best g bm (Hall m (or_introl eq_refl))
                Hst Hbest) as (v1 & g1 & Hrun & Hst1 & Hep1 & Hv1).
    destruct (IHrest (fun m' Hm' => Hall m' (or_intror Hm')) v1 g1 bm
                Hst1 Hep1 ltac:(lia)) as (v & g' & Hloop & Hst' & Hep' & Hv).
    exists v, g'. cbn [for_loop].
    rewrite (bind_run _ _ _ _ _ Hrun). cbn [fst snd].
    split; [exact Hloop|]. split; [exact Hst'|]. split; [exact Hep'|lia].
Qed.

End GreedyReplies.

Section GreedyMoves.

Variable NV : Z.
Hypothesis HNV : NV < 0.
Variable s : GameState.
Hypothesis Hinv : Inv NV s.
Hypothesis Hlog : log_ok s.

(** One move of the side to move is tried: the list of best moves gets the
    move, or stays as it is. *)
Lemma greedy_step_runs m minimax best g bm :
  generated NV s m -> steady s g ->
  exists minimax' best' g',
    greedy_step NV m (minimax, best) (mkChessAI g bm)
    = Some ((Continue, (minimax', best')), mkChessAI g' bm)
    /\ steady s g' /\ ep_fine NV g'
    /\ (best' = [m] \/ best' = best ++ [m] \/ best' = best)
    /\ (best <> [] \/ CHECKMATE <= minimax -> best' <> []).
Proof.
  intros Hgen Hst.
  destruct (descend NV HNV s Hinv m Hgen g Hst) as (Hmake & Hsame).
  destruct (child_runs NV HNV s Hinv m Hgen) as (om & c & Hc).
  rewrite Hc in Hsame.
  destruct (child_node NV HNV s Hinv m Hgen om c Hc)
    as (Hinv' & Hlog' & Hall' & Hstc & Hepc).
  assert (Hopp : exists v c',
            (if stalemate c then ret STALEMATE
             else if checkmate c then ret (- CHECKMATE)
             else for_loop (dict_values om) (greedy_reply NV) (- CHECKMATE))
              (mkChessAI c bm)
            = Some (v, mkChessAI c' bm)
            /\ steady (made NV m s) c' /\ ep_fine NV c' /\ v <= CHECKMATE).
  { destruct (stalemate c).
    { exists STALEMATE, c. unfold ret, STALEMATE, CHECKMATE.
      repeat split; try apply Hstc; try exact Hepc; lia. }
    destruct (checkmate c).
    { exists (- CHECKMATE), c. unfold ret, CHECKMATE.
      repeat split; try apply Hstc; try exact Hepc; lia. }
    destruct (greedy_replies_run NV HNV (made NV m s) Hinv' Hlog'
                (dict_values om) Hall' (- CHECKMATE) c bm Hstc Hepc
                ltac:(unfold CHECKMATE; lia))
      as (v & c' & Hloop & Hst' & Hep' & Hv).
    exists v, c'. repeat split; try apply Hst'; try exact Hep'; try exact Hloop.
    lia. }
  destruct Hopp as (v & c' & Hopp & Hst' & Hep' & Hv).
  destruct (ascend NV HNV s Hinv Hlog m Hgen c' Hst' Hep')
    as (t' & Hundo & Hstt & Hept).
  unfold greedy_step.
  rewrite (bind_run _ _ _ _ _ (on_game_run _ _ bm _ _ Hmake)).
  rewrite (bind_run _ _ _ _ _ (on_game_run _ _ bm _ _ Hsame)).
  unfold bind at 1, gets at 1. cbn [game_state].
  rewrite (bind_run _ _ _ _ _ Hopp).
  rewrite (bind_run _ _ _ _ _ (on_game_run _ _ bm _ _ Hundo)).
  unfold ret.
  destruct (v <? minimax) eqn:E1.
  - exists v, [m], t'. split; [reflexivity|]. split; [exact Hstt|].
    split; [exact Hept|]. split; [left; reflexivity|].
    intros _. discriminate.
  - destruct (minimax =? v) eqn:E2.
    + exists minimax, (best ++ [m]), t'. split; [reflexivity|].
      split; [exact Hstt|]. split; [exact Hept|].
      split; [right; left; reflexivity|].
      intros _ E. apply (f_equal (@List.length Move)) in E.
      rewrite length_app in E. cbn in E. lia.
    + exists minimax, best, t'. split; [reflexivity|].
      split; [exact Hstt|]. split; [exact Hept|].
      split; [right; right; reflexivity|].
      intros [H|H]; [exact H|lia].
Qed.

(** The loop over the moves: the moves it keeps are moves of the list, and
    there is one when the list is not empty. *)
Lemma greedy_moves_run rest :
  (forall m, In m rest -> generated NV s m) ->
  forall minimax best g bm,
    steady s g -> ep_fine NV g ->
    exists minimax' best' g',
      for_loop rest (greedy_step NV) (minimax, best) (mkChessAI g bm)
      = Some ((minimax', best'), mkChessAI g' bm)
      /\ steady s g' /\ ep_fine NV g'
      /\ (forall x, In x best' -> In x best \/ In x rest)
      /\ (best <> [] \/ (rest <> [] /\ CHECKMATE <= minimax) -> best' <> []).
Proof.
  induction rest as [|m rest IHrest]; intros Hall minimax best g bm Hst Hep.
  - exists minimax, best, g. cbn [for_loop]. unfold ret.
    split; [reflexivity|]. split; [exact Hst|]. split; [exact Hep|].
    split; [intros x Hx; left; exact Hx|].
    intros [H|[H _]]; [exact H|contradiction].
  - destruct (greedy_step_runs m minimax best g bm
                (Hall m (or_introl eq_refl)) Hst)
      as (mm1 & b1 & g1 & Hrun & Hst1 & Hep1 & Hb1 & Hne1).
    destruct (IHrest (fun m' Hm' => Hall m' (or_intror Hm')) mm1 b1 g1 bm
                Hst1 Hep1)
      as (mm' & b' & g' & Hloop & Hst' & Hep' & Hin & Hne).
    exists mm', b', g'. cbn [for_loop].
    rewrite (bind_run _ _ _ _ _ Hrun). cbn [fst snd].
    split; [exact Hloop|]. split; [exact Hst'|]. split; [exact Hep'|].
    split.
    + intros x Hx. destruct (Hin x Hx) as [H|H]; [|right; right; exact H].
      destruct Hb1 as [ -> | [ -> | -> ] ].
      * destruct H as [H|[]]. right. left. exact H.
      * apply in_app_or in H. destruct H as [H|[H|[]]];
          [left; exact H|right; left; exact H].
      * left. exact H.
    + intros H. apply Hne. left. apply Hne1.
      destruct H as [H|[_ H]]; [left; exact H|right; exact H].
Qed.

End GreedyMoves.

(** X27: called on a state of a game whose moves have just been generated,
    [GreedyChessAI.find_move] returns one of these moves, whatever number
    the random generator draws, and leaves the board, the side to move, the
    king squares, the castling rights and the logs as they were; when the
    position has no move, [random.choice] raises on the empty list. *)
Theorem Greedy_find_move_legal (NO_VALUE : Z) (p p1 : GameState)
    (moves : MoveDict) (pick : nat) (bm0 : list Move) :
  NO_VALUE < 0 -> reachable NO_VALUE p ->
  generate_valid_moves NO_VALUE p = Some (moves, p1) ->
  (moves = [] ->
   Greedy_find_move NO_VALUE pick (mkChessAI p1 bm0) = None)
  /\ (moves <> [] ->
      exists m ai',
        Greedy_find_move NO_VALUE pick (mkChessAI p1 bm0) = Some (m, ai')
        /\ In m (dict_values moves)
        /\ board (game_state ai') = board p
        /\ white_to_move (game_state ai') = white_to_move p
        /\ white_king_location (game_state ai') = white_king_location p
        /\ black_king_location (game_state ai') = black_king_location p
        /\ current_castling_rights (game_state ai')
           = current_castling_rights p
        /\ move_log (game_state ai') = move_log p
        /\ castle_rights_log (game_state ai') = castle_rights_log p).
Proof.
  intros HNV Hr Hgen.
  pose proof (reachable_Inv NO_VALUE p HNV Hr) as Hinv.
  pose proof (generate_steady _ _ _ _ Hinv Hgen) as Hst.
  assert (Hep : ep_fine NO_VALUE p1).
  { destruct (generate_same_core _ _ _ _ Hinv Hgen) as (_ & _ & _ & _ & C5 & _).
    unfold ep_fine. rewrite C5. apply ep_ok_fine, (inv_ep _ _ Hinv). }
  assert (Hvm : valid_moves p1 = moves).
  { destruct (generate_valid_moves_effect _ _ _ _ Hgen)
      as (? & ? & ? & _ & _ & _ & _ & _ & H & _). exact H. }
  destruct (greedy_moves_run NO_VALUE HNV p Hinv (reachable_log_ok _ _ HNV Hr)
              (dict_values moves)
              (fun m Hin => Inv_generated _ _ _ _ _ Hinv Hgen Hin)
              CHECKMATE [] p1 bm0 Hst Hep)
    as (mm' & b' & g' & Hloop & Hst' & _ & Hin & Hne).
  assert (Hrun : Greedy_find_move NO_VALUE pick (mkChessAI p1 bm0)
                 = lift (random_choice pick b') (mkChessAI g' bm0)).
  { unfold Greedy_find_move.
    unfold bind at 1, gets at 1. cbn [game_state]. rewrite Hvm.
    rewrite (bind_run _ _ _ _ _ Hloop). reflexivity. }
  rewrite Hrun. split.
  - intros ->. cbn [dict_values map] in Hin.
    assert (b' = []) as ->.
    { apply no_member_nil. intros x Hx. destruct (Hin x Hx) as [[]|[]]. }
    reflexivity.
  - intros Hmoves.
    assert (Hb : b' <> []).
    { apply Hne. right. split; [|lia].
      intros E. apply Hmoves, dict_values_nil, E. }
    destruct (random_choice_in pick b' Hb) as (m & Hm & Hmin).
    exists m, (mkChessAI g' bm0). unfold lift. rewrite Hm.
    split; [reflexivity|]. split.
    { destruct (Hin m Hmin) as [[]|H]. exact H. }
    cbn [game_state].
    destruct Hst' as (A1 & A2 & A3 & A4 & A5 & A6 & A7 & _).
    repeat split; assumption.
Qed.

Lemma Greedy_find_move_legal_witness :
  exists moves p1,
    generate_valid_moves NO_SQUARE state_e4 = Some (moves, p1)
    /\ exists m ai',
         Greedy_find_move NO_SQUARE 5 (mkChessAI p1 []) = Some (m, ai')
         /\ In m (dict_values moves)
         /\ board (game_state ai') = board state_e4.
Proof.
  destruct (generate_valid_moves NO_SQUARE state_e4) as [[moves p1]|] eqn:E;
    [|vm_compute in E; discriminate].
  exists moves, p1. split; [reflexivity|].
  destruct (Greedy_find_move_legal NO_SQUARE state_e4 p1 moves 5 []
              ltac:(unfold NO_SQUARE; lia) state_e4_reachable E)
    as (_ & H).
  destruct H as (m & ai' & H1 & H2 & H3 & _).
  { intros ->. vm_compute in E. discriminate. }
  exists m, ai'. auto.
Defined.
(** ** The evaluation of a position and of its mirror image *)

Lemma fold_option_sum {X} (f : X -> Z -> option Z) (g : X -> Z) (xs : list X) :
  (forall x a, In x xs -> f x a = Some (a + g x)) ->
  forall a, fold_option f xs a = Some (a + zsum (map g xs)).
Proof.
  induction xs as [|x xs IH]; intros Hf a.
  - cbn. f_equal. lia.
  - cbn [fold_option map zsum fold_right].
    rewrite (Hf x a (or_introl eq_refl)).
    rewrite (IH (fun y a0 Hy => Hf y a0 (or_intror Hy))).
    f_equal. unfold zsum. lia.
Qed.

Lemma zsum_ext {X} (f g : X -> Z) (xs : list X) :
  (forall x, In x xs -> f x = g x) -> zsum (map f xs) = zsum (map g xs).
Proof.
  induction xs as [|x xs IH]; intros H; [reflexivity|].
  cbn [map zsum fold_right]. rewrite (H x (or_introl eq_refl)).
  unfold zsum in IH. rewrite (IH (fun y Hy => H y (or_intror Hy))).
  reflexivity.
Qed.

Lemma zsum_opp {X} (f : X -> Z) (xs : list X) :
  zsum (map (fun x => - f x) xs) = - zsum (map f xs).
Proof.
  induction xs as [|x xs IH]; [reflexivity|].
  cbn [map zsum fold_right]. unfold zsum in IH. rewrite IH. lia.
Qed.

Lemma zsum_turned (F : Z -> Z) :
  zsum (map (fun r => F (7 - r)) (py_range 0 8)) = zsum (map F (py_range 0 8)).
Proof.
  change (py_range 0 8) with [0; 1; 2; 3; 4; 5; 6; 7].
  cbn [map zsum fold_right].
  change (7 - 0) with 7. change (7 - 1) with 6. change (7 - 2) with 5.
  change (7 - 3) with 4. change (7 - 4) with 3. change (7 - 5) with 2.
  change (7 - 6) with 1. change (7 - 7) with 0. lia.
Qed.

Lemma piece_table_square_worth b r c tot :
  board_8x8 b -> on_board r c ->
  piece_table_square b r c tot
  = Some (tot + signed_worth (at_square b r c) r c).
Proof.
  intros Hb Hon. unfold piece_table_square, signed_worth.
  rewrite (board_get_on_board b Hb r c Hon).
  destruct (square_worth_bound (at_square b r c) r c Hon) as (x & Hx & _).
  rewrite Hx. unfold square_worth in Hx.
  destruct (at_square b r c) as [|col k].
  - f_equal. injection Hx as <-. lia.
  - destruct (if negb (kind_eqb k King)
              then match PIECE_POSITION_SCORES (Piece col k) with
                   | Some t => table_get t r c
                   | None => None
                   end
              else Some 0) as [ps|]; [|discriminate].
    injection Hx as <-. destruct col; f_equal; lia.
Qed.

Lemma score_material_piece_table_sum s :
  board_8x8 (board s) ->
  score_material_piece_table s
  = Some (zsum (map (fun r =>
                       zsum (map (fun c =>
                                    signed_worth (at_square (board s) r c) r c)
                                 (py_range 0 8)))
                    (py_range 0 8))).
Proof.
  intros Hb. unfold score_material_piece_table. cbv zeta.
  rewrite (py_len_board _ Hb), (board_width_8 _ Hb).
  rewrite (fold_option_sum _
             (fun r => zsum (map (fun c =>
                                    signed_worth (at_square (board s) r c) r c)
                                 (py_range 0 8)))).
  - reflexivity.
  - intros r a Hr. apply in_py_range in Hr.
    apply fold_option_sum. intros c a' Hc. apply in_py_range in Hc.
    apply piece_table_square_worth; [exact Hb|split; lia].
Qed.

Lemma mirror_board_8x8 b : board_8x8 b -> board_8x8 (mirror_board b).
Proof.
  intros [Hlen Hrows]. unfold mirror_board. split.
  - rewrite length_rev, length_map. exact Hlen.
  - apply Forall_rev, Forall_map.
    rewrite Forall_forall in *. intros row Hin.
    rewrite length_map. apply Hrows, Hin.
Qed.

Lemma at_square_mirror b r c :
  board_8x8 b -> on_board r c ->
  at_square (mirror_board b) r c = flip_piece (at_square b (7 - r) c).
Proof.
  intros Hb [Hr Hc]. pose proof Hb as [Hlen Hrows].
  unfold at_square, board_get, mirror_board.
  rewrite (py_get_in_range (rev _)) by
    (unfold py_len; rewrite length_rev, length_map, Hlen; lia).
  rewrite (py_get_in_range b) by (unfold py_len; rewrite Hlen; lia).
  rewrite nth_error_rev, length_map, Hlen.
  replace (Z.to_nat r <? 8)%nat with true
    by (symmetry; apply Nat.ltb_lt; lia).
  rewrite nth_error_map.
  replace (8 - S (Z.to_nat r))%nat with (Z.to_nat (7 - r)) by lia.
  destruct (nth_error b (Z.to_nat (7 - r))) as [row|] eqn:Erow.
  - cbn [option_map].
    assert (Hrl : List.length row = 8%nat).
    { rewrite Forall_forall in Hrows. apply Hrows.
      apply (nth_error_In _ _ Erow). }
    rewrite (py_get_in_range (map _ _)) by
      (unfold py_len; rewrite length_map, Hrl; lia).
    rewrite (py_get_in_range row) by (unfold py_len; rewrite Hrl; lia).
    rewrite nth_error_map.
    destruct (nth_error row (Z.to_nat c)); reflexivity.
  - reflexivity.
Qed.

Lemma signed_worth_flip p r c :
  on_board r c ->
  signed_worth (flip_piece p) r c = - signed_worth p (7 - r) c.
Proof.
  intros Hon. each_square Hon; destruct p as [|[] []]; reflexivity.
Qed.

Lemma mirror_table_score s :
  board_8x8 (board s) ->
  exists v,
    score_material_piece_table s = Some v
    /\ score_material_piece_table (mirror s) = Some (- v).
Proof.
  intros Hb. eexists. split; [apply score_material_piece_table_sum, Hb|].
  rewrite score_material_piece_table_sum
    by (apply (mirror_board_8x8 _ Hb)).
  f_equal. change (board (mirror s)) with (mirror_board (board s)).
  rewrite <- zsum_opp.
  rewrite <- (zsum_turned
                (fun r => - zsum (map (fun c =>
                                  signed_worth (at_square (board s) r c) r c)
                               (py_range 0 8)))).
  apply zsum_ext. intros r Hr. apply in_py_range in Hr.
  rewrite <- zsum_opp. apply zsum_ext. intros c Hc. apply in_py_range in Hc.
  rewrite (at_square_mirror _ r c Hb) by (split; lia).
  apply signed_worth_flip. split; lia.
Qed.

(** X28: the evaluation does not favour a colour.  Turning the board upside
    down, exchanging the colours of the pieces and giving the move to the
    other side changes the sign of [score_board] and nothing else: the black
    piece-square tables are the white ones reversed, and the mate score
    follows the side to move. *)
Theorem score_board_mirror (s : GameState) :
  board_8x8 (board s) ->
  exists v, score_board s = Some v /\ score_board (mirror s) = Some (- v).
Proof.
  intros Hb. unfold score_board.
  change (checkmate (mirror s)) with (checkmate s).
  change (stalemate (mirror s)) with (stalemate s).
  change (white_to_move (mirror s)) with (negb (white_to_move s)).
  destruct (checkmate s).
  { destruct (white_to_move s); eexists; (split; [reflexivity|]);
      cbn [negb]; f_equal; lia. }
  destruct (stalemate s).
  { eexists; split; reflexivity. }
  apply mirror_table_score, Hb.
Qed.

Lemma score_board_mirror_witness :
  exists v, score_board state_e4 = Some v
            /\ score_board (mirror state_e4) = Some (- v).
Proof.
  apply (score_board_mirror state_e4).
  split; [reflexivity|]. repeat constructor.
Defined.
(** ** The moves the two negamax searches record *)

Lemma for_loop_cons_some {S X A} (body : X -> A -> M S (ctl * A)) x t a
    (st st' : S) (c : ctl) (a' : A) :
  body x a st = Some ((c, a'), st') ->
  for_loop (x :: t) body a st
  = match c with
    | Continue => for_loop t body a' st'
    | Break => Some (a', st')
    end.
Proof.
  intros H. cbn [for_loop]. unfold bind. rewrite H. cbn [fst snd].
  destruct c; reflexivity.
Qed.

Lemma best_after_incl MD m x y mx bm1 bm2 :
  - CHECKMATE <= x <= CHECKMATE -> - CHECKMATE <= mx < CHECKMATE ->
  within (- CHECKMATE) (- mx) x y ->
  incl bm1 bm2 ->
  incl (best_after MD MD m (- x) mx bm1) (best_after MD MD m (- y) mx bm2).
Proof.
  intros Hx Hmx (W1 & W2 & W3) Hincl. unfold best_after.
  rewrite Z.eqb_refl.
  destruct (- x >? mx) eqn:E1; destruct (- y >? mx) eqn:E2.
  - apply incl_refl.
  - exfalso. lia.
  - exfalso. destruct (- x =? mx) eqn:E3; lia.
  - destruct (- x =? mx) eqn:E3; destruct (- y =? mx) eqn:E4.
    + apply incl_app; [apply incl_appl, Hincl|apply incl_appr, incl_refl].
    + exfalso. lia.
    + apply incl_appl, Hincl.
    + exact Hincl.
Qed.

Section RootChoice.

Variables NV MD : Z.
Hypothesis HNV : NV < 0.
Variable f : nat.
Hypothesis IH : searches_agree NV MD f.
Hypothesis Hdepth : 0 < MD.
Hypothesis Hfuel : (Z.to_nat MD < S f)%nat.
Variable wtm : bool.
Variable s : GameState.
Hypothesis Hinv : Inv NV s.
Hypothesis Hlog : log_ok s.

(** The two loops at the depth at which the best moves are recorded, with
    the full window: as long as the best score stays below [CHECKMATE] the
    pruned search goes through all the moves, finds the same best score and
    records every move the plain search records. *)
Lemma root_loops_choice rest :
  (forall m, In m rest -> generated NV s m) ->
  forall mx g1 bm1 g2 bm2,
    - CHECKMATE <= mx < CHECKMATE ->
    steady s g1 -> ep_fine NV g1 -> steady s g2 -> ep_fine NV g2 ->
    incl bm1 bm2 ->
    exists v g1' bm1' a' g2' bm2',
      for_loop rest
        (fun move max_score =>
           on_game (make_move NV move) ;;;
           next_moves <- on_game (generate_valid_moves NV) ;;
           r <- find_move_negamax NV MD f next_moves (negb wtm) (MD - 1) ;;
           let score := - r in
           max_score' <- track_best MD Z.gtb MD move score max_score ;;
           on_game (undo_move NV) ;;;
           ret (Continue, max_score'))
        mx (mkChessAI g1 bm1)
      = Some (v, mkChessAI g1' bm1')
      /\ for_loop rest
           (fun move (acc : Z * Z) =>
              let '(max_score, alpha) := acc in
              on_game (make_move NV move) ;;;
              next_moves <- on_game (generate_valid_moves NV) ;;
              r <- find_move_negamax_alpha_beta NV MD f next_moves
                     (- CHECKMATE) (- alpha) (negb wtm) (MD - 1) ;;
              let score := - r in
              max_score' <- track_best MD Z.gtb MD move score max_score ;;
              on_game (undo_move NV) ;;;
              let alpha' := if max_score' >? alpha then max_score' else alpha in
              if alpha' >=? CHECKMATE
              then ret (Break, (max_score', alpha'))
              else ret (Continue, (max_score', alpha')))
           (mx, mx) (mkChessAI g2 bm2)
         = Some ((v, a'), mkChessAI g2' bm2')
      /\ (v < CHECKMATE -> incl bm1' bm2').
Proof.
  induction rest as [|m rest IHrest];
    intros Hall mx g1 bm1 g2 bm2 Hmx Hst1 Hep1 Hst2 Hep2 Hincl.
  - exists mx, g1, bm1, mx, g2, bm2. cbn [for_loop]. unfold ret.
    split; [reflexivity|]. split; [reflexivity|]. intros _. exact Hincl.
  - assert (Hgen : generated NV s m) by (apply Hall; left; reflexivity).
    destruct (child_runs NV HNV s Hinv m Hgen) as (nm & c & Hc).
    destruct (child_node NV HNV s Hinv m Hgen nm c Hc)
      as (Hinv' & Hlog' & Hall' & Hstc & Hepc).
    destruct (IH (MD - 1) nm (negb wtm) (- CHECKMATE) (- mx)
                 (made NV m s) c bm1 bm2 ltac:(lia) Hinv' Hlog' Hall' Hstc Hepc
                 ltac:(lia) ltac:(lia) ltac:(lia))
      as (x & y & c1 & bmc1 & c2 & bmc2 & Hrec1 & Hrec2 & Hs1 & He1 & Hs2 & He2
          & Hx & Hxy).
    pose proof (find_move_negamax_keeps_best NV MD f nm (negb wtm) (MD - 1)
                  ltac:(lia) _ _ _ Hrec1) as Hbm1.
    cbn [best_moves] in Hbm1. subst bmc1.
    pose proof (find_move_negamax_alpha_beta_keeps_best NV MD f nm
                  (- CHECKMATE) (- mx) (negb wtm) (MD - 1) ltac:(lia)
                  _ _ _ Hrec2) as Hbm2.
    cbn [best_moves] in Hbm2. subst bmc2.
    destruct (body_step_best NV MD s g1 bm1 m MD mx
                (fun nm => find_move_negamax NV MD f nm (negb wtm) (MD - 1))
                (fun max_score' => ret (Continue, max_score'))
                nm c x c1 bm1 HNV Hinv Hlog Hgen Hst1 Hc Hrec1 Hs1 He1)
      as (t1 & Hbody1 & Hst1' & Hep1').
    destruct (body_step_best NV MD s g2 bm2 m MD mx
                (fun nm => find_move_negamax_alpha_beta NV MD f nm
                             (- CHECKMATE) (- mx) (negb wtm) (MD - 1))
                (fun max_score' =>
                   let alpha' := if max_score' >? mx then max_score' else mx in
                   if alpha' >=? CHECKMATE
                   then ret (Break, (max_score', alpha'))
                   else ret (Continue, (max_score', alpha')))
                nm c y c2 bm2 HNV Hinv Hlog Hgen Hst2 Hc Hrec2 Hs2 He2)
      as (t2 & Hbody2 & Hst2' & Hep2').
    cbv zeta in Hbody2.
    assert (Hmax : Z.max mx (- y) = Z.max mx (- x)).
    { destruct Hxy as (W1 & W2 & W3). lia. }
    rewrite Hmax in Hbody2.
    pose proof (best_after_incl MD m x y mx bm1 bm2 Hx Hmx Hxy Hincl) as Hincl'.
    set (mx' := Z.max mx (- x)) in *.
    replace (if mx' >? mx then mx' else mx) with mx' in Hbody2
      by (destruct (mx' >? mx) eqn:E; lia).
    destruct (mx' >=? CHECKMATE) eqn:Ecut.
    + destruct (negamax_loop_runs NV MD HNV f IH MD Hdepth Hfuel wtm s Hinv Hlog
                  rest (fun m' Hm' => Hall m' (or_intror Hm'))
                  mx' t1 (best_after MD MD m (- x) mx bm1)
                  ltac:(lia) Hst1' Hep1')
        as (v & g1' & bm1' & Hloop1 & _ & _ & Hv).
      assert (v = mx') as -> by lia.
      exists mx', g1', bm1', mx', t2, (best_after MD MD m (- y) mx bm2).
      split.
      { erewrite for_loop_cons_some; [|exact Hbody1]. exact Hloop1. }
      split.
      { erewrite for_loop_cons_some; [|exact Hbody2]. reflexivity. }
      intros H. exfalso. lia.
    + destruct (IHrest (fun m' Hm' => Hall m' (or_intror Hm')) mx'
                  t1 (best_after MD MD m (- x) mx bm1)
                  t2 (best_after MD MD m (- y) mx bm2)
                  ltac:(lia) Hst1' Hep1' Hst2' Hep2' Hincl')
        as (v & g1' & bm1' & a' & g2' & bm2' & Hloop1 & Hloop2 & Hv).
      exists v, g1', bm1', a', g2', bm2'.
      split.
      { erewrite for_loop_cons_some; [|exact Hbody1]. exact Hloop1. }
      split.
      { erewrite for_loop_cons_some; [|exact Hbody2]. exact Hloop2. }
      exact Hv.
Qed.

End RootChoice.

(** X29: started on the moves of a state of a game with the full window,
    the pruned search finds the best score of the plain search, and as long
    as that score is below [CHECKMATE] its list of best moves holds every
    move that the plain search lists: pruning never loses a best move. *)
Theorem alpha_beta_keeps_best_moves (NO_VALUE MAX_DEPTH : Z) (p : GameState)
    (fuel : nat) :
  NO_VALUE < 0 -> reachable NO_VALUE p ->
  0 < MAX_DEPTH -> (Z.to_nat MAX_DEPTH < fuel)%nat ->
  exists moves p1 v a1 a2,
    generate_valid_moves NO_VALUE p = Some (moves, p1)
    /\ find_move_negamax NO_VALUE MAX_DEPTH fuel moves (white_to_move p1)
         MAX_DEPTH (mkChessAI p1 []) = Some (v, a1)
    /\ find_move_negamax_alpha_beta NO_VALUE MAX_DEPTH fuel moves
         (- CHECKMATE) CHECKMATE (white_to_move p1) MAX_DEPTH
         (mkChessAI p1 []) = Some (v, a2)
    /\ (v < CHECKMATE -> incl (best_moves a1) (best_moves a2)).
Proof.
  intros HNV Hr Hmd Hfuel.
  pose proof (reachable_Inv NO_VALUE p HNV Hr) as Hinv.
  destruct (generate_valid_moves_runs NO_VALUE p HNV (Inv_Gen_ok _ _ Hinv))
    as (moves & p1 & Hgen).
  pose proof (generate_steady _ _ _ _ Hinv Hgen) as Hst.
  assert (Hep : ep_fine NO_VALUE p1).
  { destruct (generate_same_core _ _ _ _ Hinv Hgen) as (_ & _ & _ & _ & C5 & _).
    unfold ep_fine. rewrite C5. apply ep_ok_fine, (inv_ep _ _ Hinv). }
  destruct fuel as [|f]; [lia|].
  destruct (root_loops_choice NO_VALUE MAX_DEPTH HNV f
              (searches_agree_all NO_VALUE MAX_DEPTH f HNV) Hmd Hfuel
              (white_to_move p1) p Hinv (reachable_log_ok _ _ HNV Hr)
              (dict_values moves)
              (fun m Hin => Inv_generated _ _ _ _ _ Hinv Hgen Hin)
              (- CHECKMATE) p1 [] p1 [] ltac:(unfold CHECKMATE; lia)
              Hst Hep Hst Hep (incl_refl _))
    as (v & g1' & bm1' & a' & g2' & bm2' & Hloop1 & Hloop2 & Hincl).
  exists moves, p1, v, (mkChessAI g1' bm1'), (mkChessAI g2' bm2').
  split; [exact Hgen|].
  cbn [find_move_negamax find_move_negamax_alpha_beta].
  replace (MAX_DEPTH <=? 0) with false by lia.
  split; [exact Hloop1|]. split.
  - rewrite (bind_run _ _ _ _ _ Hloop2). reflexivity.
  - exact Hincl.
Qed.

Lemma alpha_beta_keeps_best_moves_witness :
  exists moves p1 v a1 a2,
    generate_valid_moves NO_SQUARE (GameState_init NO_SQUARE)
    = Some (moves, p1)
    /\ find_move_negamax NO_SQUARE 2 3 moves (white_to_move p1) 2
         (mkChessAI p1 []) = Some (v, a1)
    /\ find_move_negamax_alpha_beta NO_SQUARE 2 3 moves
         (- CHECKMATE) CHECKMATE (white_to_move p1) 2 (mkChessAI p1 [])
       = Some (v, a2)
    /\ (v < CHECKMATE -> incl (best_moves a1) (best_moves a2)).
Proof.
  apply (alpha_beta_keeps_best_moves NO_SQUARE 2 (GameState_init NO_SQUARE) 3).
  - unfold NO_SQUARE. lia.
  - apply reach_init.
  - lia.
  - cbn. lia.
Defined.

(** X30: the pruned search can list a move that is not a best move.  From
    the initial position with [MAX_DEPTH = 2] both searches find the score 0;
    the plain search lists the knight moves to c3 and f3, the pruned search
    also lists the knight move to a3: the score it gets for that move is
    only a bound, cut off at the best score so far, and [score == max_score]
    takes it for a tie.  [NegamaxAlphaBetaChessAI.find_move] picks among the
    listed moves at random. *)
Theorem alpha_beta_lists_worse_move :
  exists moves p1 v a1 a2 m,
    generate_valid_moves NO_SQUARE (GameState_init NO_SQUARE)
    = Some (moves, p1)
    /\ find_move_negamax NO_SQUARE 2 3 moves (white_to_move p1) 2
         (mkChessAI p1 []) = Some (v, a1)
    /\ find_move_negamax_alpha_beta NO_SQUARE 2 3 moves
         (- CHECKMATE) CHECKMATE (white_to_move p1) 2 (mkChessAI p1 [])
       = Some (v, a2)
    /\ In m (best_moves a2) /\ ~ In m (best_moves a1).
Proof.
  do 6 eexists.
  split; [vm_compute; reflexivity|].
  split; [vm_compute; reflexivity|].
  split; [vm_compute; reflexivity|].
  split.
  - vm_compute. right. left. reflexivity.
  - vm_compute. intros [H|[H|[]]]; discriminate H.
Qed.
(** ** The board score, case by case *)

Lemma signed_worth_term p r c :
  on_board r c -> signed_worth p r c = piece_square_term p r c.
Proof.
  intros Hon. each_square Hon; destruct p as [|[] []]; reflexivity.
Qed.

Lemma score_material_piece_table_score s :
  board_8x8 (board s) ->
  score_material_piece_table s = Some (piece_square_score (board s)).
Proof.
  intros Hb. rewrite (score_material_piece_table_sum s Hb). f_equal.
  unfold piece_square_score.
  apply zsum_ext. intros r Hr. apply in_py_range in Hr.
  apply zsum_ext. intros c Hc. apply in_py_range in Hc.
  apply signed_worth_term. split; lia.
Qed.

(** C6: [score_board] is -CHECKMATE for a checkmate with white to move,
    +CHECKMATE for a checkmate with black to move, 0 for a stalemate that is
    not a checkmate, and otherwise, on a board of eight rows of eight
    squares, the piece-square score: the sum over the pieces of the material
    value plus, for every piece but a king, the entry of the table of its
    kind for its square (the tables of black are those of white with the
    rows reversed), white counted positive and black negative.  CHECKMATE
    is 100000 and STALEMATE is 0. *)
Theorem score_board_cases (s : GameState) :
  (checkmate s = true ->
   score_board s = Some (if white_to_move s then - 100000 else 100000))
  /\ (checkmate s = false -> stalemate s = true -> score_board s = Some 0)
  /\ (checkmate s = false -> stalemate s = false ->
      board_8x8 (board s) ->
      score_board s = Some (piece_square_score (board s)))
  /\ CHECKMATE = 100000 /\ STALEMATE = 0.
Proof.
  unfold score_board.
  split; [intros ->; destruct (white_to_move s); reflexivity|].
  split; [intros -> ->; reflexivity|].
  split; [|split; reflexivity].
  intros -> -> Hb. apply score_material_piece_table_score, Hb.
Qed.

Lemma score_board_cases_witness :
  checkmate state_pawn_up = false
  /\ stalemate state_pawn_up = false
  /\ score_board state_pawn_up = Some (piece_square_score (board state_pawn_up))
  /\ piece_square_score (board state_pawn_up) = 125.
Proof.
  split; [reflexivity|]. split; [reflexivity|]. split.
  - destruct (score_board_cases state_pawn_up) as (_ & _ & H & _).
    apply H; [reflexivity|reflexivity|].
    split; [reflexivity|repeat constructor].
  - vm_compute. reflexivity.
Defined.
